(** * xssp: the progressive aligner (mas.cpp) and the HSSP profile builder
      (hssp-convert-3to1.cpp), embedded shallowly.

    Conventions of the embedding.
    - [float] and [double] values are exact rationals ([Q]); rounding of the
      machine arithmetic is not modelled, and statements about them use
      [==] (equality of rationals). Where two values are equal or nearly
      so, a comparison or a product can come out differently in binary32
      (a factor that is exactly 1 here can be 0.99999994 there, and a tie
      of two scores can break the other way); statements about such
      values are to be read of the exact values.
    - Unsigned counters are [Z] or [nat]; where the source relies on a
      fixed width (uint8, uint16, uint32) the wrap-around is written out.
    - A C++ statement that can stop the program returns a [result]:
      a failing [assert], a [THROW], or undefined behaviour (an access
      outside a container, a conversion of a non-number).
    - Constants and tables that the sources use but do not define
      (kSignalGapCode, the GONNET250 table, kResidueIX, kD) are Section
      variables; closed examples instantiate them. *)

From Stdlib Require Import String Ascii ZArith QArith Qabs Qround List Bool Lia Lqa Arith.
Import ListNotations.
Open Scope Z_scope.

(** ** Outcomes of fallible code *)

Inductive result (A : Type) : Type :=
| Ok (a : A)
| AssertionFailure
| Thrown (msg : string) (c : ascii)
| Undefined.

Arguments Ok {A} a.
Arguments AssertionFailure {A}.
Arguments Thrown {A} msg c.
Arguments Undefined {A}.

Definition bind {A B : Type} (r : result A) (k : A -> result B) : result B :=
  match r with
  | Ok a => k a
  | AssertionFailure => AssertionFailure
  | Thrown m c => Thrown m c
  | Undefined => Undefined
  end.

Notation "x <- r ;; k" := (bind r (fun x => k))
  (at level 61, r at next level, right associativity).

Definition assert (b : bool) : result unit :=
  if b then Ok tt else AssertionFailure.

(** A [float] that may be the result of a division by zero. *)
Inductive fval : Type :=
| Finite (q : Q)
| Infinite
| NotANumber.

Definition fdiv (a b : Q) : fval :=
  if Qeq_bool b 0 then (if Qeq_bool a 0 then NotANumber else Infinite)
  else Finite (a / b).

(** [std::max(a, b)]: [b] when [a < b], otherwise [a]. *)
Definition fmax (a b : Q) : Q := if Qle_bool b a then a else b.

(** Reading a cell of a vector. *)
Definition read {A : Type} (v : list A) (i : nat) : result A :=
  match nth_error v i with
  | Some a => Ok a
  | None => Undefined
  end.

(** A loop over a container whose body may stop the program: the state
    is threaded through the elements in order. *)
Fixpoint foreach {A B : Type} (f : A -> B -> result A) (l : list B) (a : A)
  : result A :=
  match l with
  | [] => Ok a
  | b :: t => a' <- f a b ;; foreach f t a'
  end.

(** Splicing one element into a vector at an index that is in range
    ([std::string::insert], [std::vector::insert]). *)
Definition insert_at {A : Type} (pos : nat) (x : A) (l : list A) : list A :=
  firstn pos l ++ x :: skipn pos l.

(** Writing one cell of a vector; outside the vector nothing is written. *)
Fixpoint set_nth {A : Type} (i : nat) (x : A) (l : list A) : list A :=
  match l, i with
  | [], _ => []
  | _ :: t, O => x :: t
  | h :: t, S j => h :: set_nth j x t
  end.

(** ** mas.cpp *)

Module Mas.

(** A residue code ([aa], an unsigned byte). Codes 0..19 are the twenty
    amino acids in the order the comments of [kResidueSpecificPenalty]
    give: A R N D C Q E G H I L K M F P S T W Y V. *)
Definition aa := Z.
Definition sequence := list aa.

Record entry : Type := mkEntry {
  m_nr : Z;
  m_id : string;
  m_seq : sequence;
  m_positions : list Z;   (* int16, 0 = unconstrained *)
  m_ss : list ascii;      (* secondary structure, one letter per residue *)
  m_weight : Q
}.

Definition with_seq (e : entry) (s : sequence) (p : list Z) : entry :=
  mkEntry (m_nr e) (m_id e) s p (m_ss e) (m_weight e).

Definition is_empty {A : Type} (l : list A) : bool :=
  match l with [] => true | _ => false end.

Section Entry.

Variable kSignalGapCode : aa.

(** [entry::insert_gap]. The iterator [m_positions.begin() + pos] is only
    defined up to [m_positions.end()]. *)
Definition insert_gap (pos : nat) (e : entry) : result entry :=
  let s := m_seq e in
  let p := m_positions e in
  r <- (if (length s <? pos)%nat then
          Ok (s ++ [kSignalGapCode],
              if negb (is_empty p) then p ++ [0] else p)
        else
          if negb (is_empty p) then
            if (pos <=? length p)%nat
            then Ok (insert_at pos kSignalGapCode s, insert_at pos 0 p)
            else Undefined
          else Ok (insert_at pos kSignalGapCode s, p)) ;;
  let '(s', p') := r in
  _ <- assert ((length p' =? length s')%nat || is_empty p') ;;
  Ok (with_seq e s' p').

(** [entry::append_gap]. *)
Definition append_gap (e : entry) : result entry :=
  let s' := m_seq e ++ [kSignalGapCode] in
  let p := m_positions e in
  let p' := if negb (is_empty p) then p ++ [0] else p in
  _ <- assert ((length p' =? length s')%nat || is_empty p') ;;
  Ok (with_seq e s' p').

(** [entry::remove_gaps]: [std::remove] followed by [erase] keeps, in
    order, the elements different from the gap code. *)
Definition remove_gaps (e : entry) : result entry :=
  if (length (m_seq e) =? length (m_positions e))%nat then
    AssertionFailure
  else
    Ok (with_seq e (filter (fun r => negb (r =? kSignalGapCode)) (m_seq e))
                 (m_positions e)).

End Entry.

(** *** Position-specific gap penalties *)

(** [vector[ix] op= ...] for every [ix], the new value depending on the
    index and the old value. *)
Fixpoint imap_from {A B : Type} (f : nat -> A -> B) (i : nat) (l : list A)
  : list B :=
  match l with
  | [] => []
  | a :: t => f i a :: imap_from f (S i) t
  end.

Definition imap {A B : Type} (f : nat -> A -> B) (l : list A) : list B :=
  imap_from f 0 l.

Definition kResidueSpecificPenalty : list Q := [
  (113#100) - (2#10);   (* A *)
  (72#100) - (2#10);    (* R *)
  (63#100) - (2#10);    (* N *)
  (96#100) - (2#10);    (* D *)
  (113#100) - (2#10);   (* C *)
  (107#100) - (2#10);   (* Q *)
  (131#100) - (2#10);   (* E *)
  (61#100) - (2#10);    (* G *)
  (100#100) - (2#10);   (* H *)
  (132#100) - (2#10);   (* I *)
  (121#100) - (2#10);   (* L *)
  (96#100) - (2#10);    (* K *)
  (129#100) - (2#10);   (* M *)
  (120#100) - (2#10);   (* F *)
  (74#100) - (2#10);    (* P *)
  (76#100) - (2#10);    (* S *)
  (89#100) - (2#10);    (* T *)
  (123#100) - (2#10);   (* W *)
  (100#100) - (2#10);   (* Y *)
  (125#100) - (2#10)    (* V *)
]%Q.

(** [is_hydrophilic = is_any_of(encode("DEGKNQPRS"))]: the codes of
    D E G K N Q P R S in the residue order above. *)
Definition hydrophilic_codes : list aa := [3; 6; 7; 11; 2; 5; 14; 1; 15].

Definition is_hydrophilic (r : aa) : bool :=
  existsb (Z.eqb r) hydrophilic_codes.

(** The [switch (ss[ix])] on the DSSP letter. *)
Definition ss_penalty (c : ascii) : Q :=
  if (Ascii.eqb c "H" || Ascii.eqb c "G" || Ascii.eqb c "I")%bool then 3
  else if Ascii.eqb c "B" then 2
  else if Ascii.eqb c "E" then (3#2)
  else 1.

Definition Qnth (i : nat) (l : list Q) : Q := nth i l 0%Q.

Section GapPenalties.

Variable kSignalGapCode : aa.

(** What the first loop of [adjust_gp] collects per column. *)
Record inspection : Type := mkInspection {
  gaps : list nat;
  hydrophilic_stretch : list bool;
  residue_specific_penalty : list Q
}.

(** [for j in [si, i): hydrophilic_stretch[j] = true]. *)
Definition mark_stretch (si i : nat) (hs : list bool) : list bool :=
  fold_left (fun h j => set_nth j true h) (seq si (i - si)) hs.

(** One step of the run finder: the state is [(si, hydrophilic_stretch)]. *)
Definition run_step (n : nat) (s : sequence) (st : nat * list bool) (i : nat)
  : nat * list bool :=
  let '(si, hs) := st in
  if ((i =? n)%nat || negb (is_hydrophilic (nth i s 0)))%bool then
    (S i, if (si + 5 <=? i)%nat then mark_stretch si i hs else hs)
  else (si, hs).

Definition find_runs (n : nat) (s : sequence) (hs : list bool) : list bool :=
  snd (fold_left (run_step n s) (seq 0 (S n)) (0%nat, hs)).

(** The body of [foreach (const entry* e, seq)]; [s[ix]] must exist for
    every [ix < gop.size()]. *)
Definition inspect_entry (n : nat) (st : inspection) (e : entry)
  : result inspection :=
  let s := m_seq e in
  let ss := m_ss e in
  if (length s <? n)%nat then Undefined
  else
    Ok (mkInspection
          (imap (fun ix g =>
                   if nth ix s 0 =? kSignalGapCode then S g else g) (gaps st))
          (find_runs n s (hydrophilic_stretch st))
          (imap (fun ix p =>
                   let r := nth ix s 0 in
                   if (ix <? length ss)%nat then
                     (p + ss_penalty (nth ix ss "000"%char))%Q
                   else if r <? 20 then
                     (p + Qnth (Z.to_nat r) kResidueSpecificPenalty)%Q
                   else (p + 1)%Q)
                (residue_specific_penalty st))).

Definition inspect (n : nat) (rows : list entry) : result inspection :=
  fold_left (fun acc e => st <- acc ;; inspect_entry n st e) rows
    (Ok (mkInspection (repeat 0%nat n) (repeat false n) (repeat 0%Q n))).

(** The condition of the [for (d = 0; d < 8; ++d)] loop. *)
Definition near_gap (gaps : list nat) (ix d : nat) : bool :=
  ((length gaps <=? ix + d)%nat || (0 <? nth (ix + d) gaps 0)%nat ||
   (ix <? d)%nat || (0 <? nth (ix - d) gaps 0)%nat)%bool.

Definition proximity (gaps : list nat) (ix : nat) : option nat :=
  find (near_gap gaps ix) (seq 0 8).

(** One iteration of the second loop of [adjust_gp]. *)
Definition adjust_column (rows : nat) (ins : inspection)
    (st : list Q * list Q) (ix : nat) : result (list Q * list Q) :=
  let '(gop, gep) := st in
  let g := nth ix (gaps ins) 0%nat in
  if (0 <? g)%nat then
    if (ix <? length gep)%nat then
      Ok (set_nth ix
            (Qnth ix gop *
             ((3#10) * (inject_Z (Z.of_nat (rows - g)) / inject_Z (Z.of_nat rows))))%Q
            gop,
          set_nth ix (Qnth ix gep / 2)%Q gep)
    else Undefined
  else
    let gop1 :=
      match proximity (gaps ins) ix with
      | Some d =>
          set_nth ix
            (Qnth ix gop *
             (inject_Z (2 + (8 - Z.of_nat d) * 2) / 8))%Q gop
      | None => gop
      end in
    Ok (if nth ix (hydrophilic_stretch ins) false then
          set_nth ix (Qnth ix gop1 / 3)%Q gop1
        else
          set_nth ix
            (Qnth ix gop1 *
             (Qnth ix (residue_specific_penalty ins) / inject_Z (Z.of_nat rows)))%Q
            gop1,
        gep).

(** [adjust_gp(gop, gep, seq)]; the rows are read only. *)
Definition adjust_gp (gop gep : list Q) (rows : list entry)
  : result (list Q * list Q) :=
  match rows with
  | [] => Undefined
  | front :: _ =>
      _ <- assert (length gop =? length (m_seq front))%nat ;;
      ins <- inspect (length gop) rows ;;
      fold_left (fun acc ix => st <- acc ;; adjust_column (length rows) ins st ix)
        (seq 0 (length gop)) (Ok (gop, gep))
  end.

End GapPenalties.

(** *** The pairwise distance kernel *)

(** A [matrix<T>]: its cells by row and column. Every cell the kernels
    read has been written before. *)
Definition matrix (T : Type) : Type := nat -> nat -> T.

Definition mset {T : Type} (m : matrix T) (x y : nat) (v : T) : matrix T :=
  fun x' y' => if ((x' =? x) && (y' =? y))%nat then v else m x' y'.

Definition to_uint16 (z : Z) : Z := z mod 65536.

(** The three-way choice [if (M >= Ix1 and M >= Iy1) ... else if
    (Ix1 >= Iy1) ... else ...] of both kernels. *)
Inductive step : Type := Diagonal | Horizontal | Vertical.

Definition choose (M Ix1 Iy1 : Q) : step :=
  if (Qle_bool Ix1 M && Qle_bool Iy1 M)%bool then Diagonal
  else if Qle_bool Iy1 Ix1 then Horizontal
  else Vertical.

(** *** Anchors: the window of the next block *)

Section Anchors.

Variables (pa pb : list Z) (dimX dimY : nat).

(** [while (e < dim and (otherEnd == otherDim or own[e] < other[otherEnd]))
    ++e;] *)
Fixpoint advance (fuel : nat) (own other : list Z) (dim otherDim otherEnd : nat)
    (e : nat) : result nat :=
  match fuel with
  | O => Undefined
  | S fuel' =>
      if (e <? dim)%nat then
        if (otherEnd =? otherDim)%nat then
          advance fuel' own other dim otherDim otherEnd (S e)
        else
          p <- read own e ;;
          q <- read other otherEnd ;;
          if p <? q then advance fuel' own other dim otherDim otherEnd (S e)
          else Ok e
      else Ok e
  end.

(** The loop [while (endX < dimX or endY < dimY) ...] that moves the end
    of the window to the next anchor. *)
Fixpoint scan (fuel : nat) (endX endY : nat) : result (nat * nat) :=
  match fuel with
  | O => Undefined
  | S fuel' =>
      if ((endX <? dimX) || (endY <? dimY))%nat%bool then
        zx <- (if (endX <? dimX)%nat then p <- read pa endX ;; Ok (p =? 0)
               else Ok false) ;;
        if zx then scan fuel' (S endX) endY
        else
          zy <- (if (endY <? dimY)%nat then q <- read pb endY ;; Ok (q =? 0)
                 else Ok false) ;;
          if zy then scan fuel' endX (S endY)
          else
            anchor <- (if ((endX <? dimX) && (endY <? dimY))%nat%bool then
                         p <- read pa endX ;; q <- read pb endY ;;
                         Ok ((p =? q) && negb (p =? 0))%bool
                       else Ok false) ;;
            if anchor then Ok (endX, endY)
            else
              endX1 <- (if (endX <? dimX)%nat
                        then advance (S dimX) pa pb dimX dimY endY endX
                        else Ok endX) ;;
              endY1 <- (if (endY <? dimY)%nat
                        then advance (S dimY) pb pa dimY dimX endX1 endY
                        else Ok endY) ;;
              again <- (if ((endX1 <? dimX) && (endY1 <? dimY))%nat%bool then
                          p <- read pa endX1 ;; q <- read pb endY1 ;;
                          Ok (negb (p =? q))
                        else Ok false) ;;
              if again then scan fuel' endX1 endY1 else Ok (endX1, endY1)
      else Ok (endX, endY)
  end.

(** [if (x == endX and y == endY) { if (pa[x] == pb[y] and pa[x] != 0) ...]:
    the cell [(x, y)] is an anchor. *)
Definition at_anchor (x y endX endY : nat) : result bool :=
  if ((x =? endX) && (y =? endY))%nat%bool then
    p <- read pa x ;; q <- read pb y ;;
    Ok ((p =? q) && negb (p =? 0))%bool
  else Ok false.

End Anchors.

Section Distance.

(** [kDistanceMatrix("GONNET250")], whose table is a resource outside the
    sources; [kDistanceGapOpen] and [kDistanceGapExtend]. *)
Variable kDistanceMatrix : aa -> aa -> Z.

Definition kDistanceGapOpen : Q := 10.
Definition kDistanceGapExtend : Q := 2 # 10.

(** The matrices of [calculateDistance] and the two running maxima of a
    block; [high = None] is the initial [-numeric_limits<float>::max()]. *)
Record dstate : Type := mkDstate {
  dB : matrix Q;
  dIx : matrix Q;
  dIy : matrix Q;
  id : matrix Z;
  high : option Q;
  highIdSub : Z
}.

Definition below (h : option Q) (s : Q) : bool :=
  match h with
  | None => true
  | Some v => negb (Qle_bool s v)
  end.

(** The body of the two nested [for] loops. *)
Definition dcell (a b : sequence) (startX startY endX endY : nat)
    (st : dstate) (x y : nat) : dstate :=
  let Ix1 := if (startX <? x)%nat then dIx st (x - 1)%nat y else 0%Q in
  let Iy1 := if (startY <? y)%nat then dIy st x (y - 1)%nat else 0%Q in
  let inner := ((startX <? x) && (startY <? y))%nat%bool in
  let M0 := inject_Z (kDistanceMatrix (nth x a 0) (nth y b 0)) in
  let M := if inner then (M0 + dB st (x - 1)%nat (y - 1)%nat)%Q else M0 in
  let i0 := if nth x a 0 =? nth y b 0 then 1 else 0 in
  let '(s, i) :=
    match choose M Ix1 Iy1 with
    | Diagonal =>
        (M, if inner then to_uint16 (i0 + id st (x - 1)%nat (y - 1)%nat) else i0)
    | Horizontal =>
        (Ix1, if (startX <? x)%nat then to_uint16 (i0 + id st (x - 1)%nat y) else i0)
    | Vertical =>
        (Iy1, if (startY <? y)%nat then to_uint16 (i0 + id st x (y - 1)%nat) else i0)
    end in
  let edge := ((x =? endX - 1) || (y =? endY - 1))%nat%bool in
  let better := (edge && below (high st) s)%bool in
  mkDstate
    (mset (dB st) x y s)
    (mset (dIx st) x y (fmax (M - kDistanceGapOpen) (Ix1 - kDistanceGapExtend))%Q)
    (mset (dIy st) x y (fmax (M - kDistanceGapOpen) (Iy1 - kDistanceGapExtend))%Q)
    (mset (id st) x y i)
    (if better then Some s else high st)
    (if better then i else highIdSub st).

(** [for (x = startX; x < endX; ++x) for (y = startY; y < endY; ++y)]. *)
Definition dfill (a b : sequence) (startX startY endX endY : nat)
    (st : dstate) : dstate :=
  fold_left
    (fun st x =>
       fold_left (fun st y => dcell a b startX startY endX endY st x y)
         (seq startY (endY - startY)) st)
    (seq startX (endX - startX)) st.

(** The variables of the outer [while (x < dimX and y < dimY)]. *)
Record dloop : Type := mkDloop {
  lx : nat; ly : nat; lendX : nat; lendY : nat;
  highId : Z;
  cells : dstate
}.

Fixpoint dblocks (fuel : nat) (a b : entry) (l : dloop) : result dloop :=
  let dimX := length (m_seq a) in
  let dimY := length (m_seq b) in
  let pa := m_positions a in
  let pb := m_positions b in
  match fuel with
  | O => Undefined
  | S fuel' =>
      if ((lx l <? dimX) && (ly l <? dimY))%nat%bool then
        anchor <- at_anchor pa pb (lx l) (ly l) (lendX l) (lendY l) ;;
        if anchor then
          let h := if nth (lx l) (m_seq a) 0 =? nth (ly l) (m_seq b) 0
                   then to_uint16 (highId l + 1) else highId l in
          dblocks fuel' a b
            (mkDloop (S (lx l)) (S (ly l)) (S (lendX l)) (S (lendY l)) h (cells l))
        else
          w <- scan pa pb dimX dimY (S (dimX + dimY)) (lendX l) (lendY l) ;;
          let '(endX, endY) := w in
          let c := cells l in
          let c1 :=
            mkDstate (dB c) (mset (dIx c) (lx l) (ly l) 0%Q)
              (mset (dIy c) (lx l) (ly l) 0%Q)
              (if ((0 <? lx l) && (0 <? ly l))%nat%bool
               then mset (id c) (lx l - 1)%nat (ly l - 1)%nat (highId l) else id c)
              None 0 in
          let c2 := dfill (m_seq a) (m_seq b) (lx l) (ly l) endX endY c1 in
          dblocks fuel' a b
            (mkDloop endX endY endX endY
               (to_uint16 (highId l + highIdSub c2)) c2)
      else Ok l
  end.

(** [float result = 1.0f - float(highId) / max(dimX, dimY)] and the two
    assertions; a non-number fails both comparisons. *)
Definition finish (h : Z) (dimX dimY : nat) : result Q :=
  match fdiv (inject_Z h) (inject_Z (Z.of_nat (Nat.max dimX dimY))) with
  | Finite q =>
      let r := (1 - q)%Q in
      _ <- assert (Qle_bool 0 r) ;;
      _ <- assert (Qle_bool r 1) ;;
      Ok r
  | _ => AssertionFailure
  end.

(** [calculateDistance(a, b)]. The statements [Ix(0, 0) = 0; Iy(0, 0) = 0]
    before the loop write a cell that a matrix without rows or columns
    does not have. *)
Definition calculateDistance (a b : entry) : result Q :=
  let dimX := length (m_seq a) in
  let dimY := length (m_seq b) in
  let zero : matrix Q := fun _ _ => 0%Q in
  _ <- (if ((dimX =? 0) || (dimY =? 0))%nat%bool then Undefined else Ok tt) ;;
  let unanchored := (is_empty (m_positions a) || is_empty (m_positions b))%bool in
  l <- dblocks (S (dimX + dimY)) a b
         (mkDloop 0 0 (if unanchored then dimX else 0%nat)
            (if unanchored then dimY else 0%nat) 0
            (mkDstate zero zero zero (fun _ _ => 0) None 0)) ;;
  finish (highId l) dimX dimY.

End Distance.

(** *** The profile alignment kernel *)

Section Alignment.

Variable kSignalGapCode : aa.

(** The matrix [mat_fam(abs(d_left + d_right), true)] of the node, with
    its [mismatch_average()] and [scale_factor()], and the decimal
    logarithm: all of them come from outside the sources. *)
Variable smat : aa -> aa -> Z.
Variables mismatch_average scale_factor : Q.
Variable log10 : Q -> Q.

(** The body of the two [foreach] loops of [score]. *)
Definition score_pair (ix_a ix_b : nat) (ea eb : entry) (acc : Q) : result Q :=
  _ <- assert (ix_a <? length (m_seq ea))%nat ;;
  _ <- assert (ix_b <? length (m_seq eb))%nat ;;
  let ra := nth ix_a (m_seq ea) 0 in
  let rb := nth ix_b (m_seq eb) 0 in
  Ok (if (negb (ra =? kSignalGapCode) && negb (rb =? kSignalGapCode))%bool
      then (acc + m_weight ea * m_weight eb * inject_Z (smat ra rb))%Q
      else acc).

(** [score(a, b, ix_a, ix_b, mat)]. *)
Definition score (a b : list entry) (ix_a ix_b : nat) : result Q :=
  r <- foreach
         (fun acc ea => foreach (fun acc eb => score_pair ix_a ix_b ea eb acc) b acc)
         a 0%Q ;;
  Ok (r / inject_Z (Z.of_nat (length a * length b)))%Q.

(** [accumulate(a.begin(), a.end(), 0.f, sum_weight()) / a.size()]. *)
Definition avg_weight (a : list entry) : Q :=
  (fold_left (fun sum e => sum + m_weight e) a 0 / inject_Z (Z.of_nat (length a)))%Q.

(** The initial values of [gop_a], [gep_a], [gop_b] and [gep_b]. *)
Definition initial_penalties (a b : list entry) (dimX dimY : nat)
    (gop gep magic : Q) : Q * Q * Q * Q :=
  let fx := inject_Z (Z.of_nat dimX) in
  let fy := inject_Z (Z.of_nat dimY) in
  let minLength := if Qle_bool fx fy then fx else fy in
  let maxLength := if Qle_bool fx fy then fy else fx in
  let logmin := (1 / log10 minLength)%Q in
  let logdiff := (1 + (1#2) * log10 (minLength / maxLength))%Q in
  let gop' := ((gop / (logdiff * logmin)) * Qabs mismatch_average
               * scale_factor * magic)%Q in
  (gop' * avg_weight a,
   gep * (1 + log10 (fx / fy)) * avg_weight a,
   gop' * avg_weight b,
   gep * (1 + log10 (fy / fx)) * avg_weight b)%Q.

(** The matrices of [align]; [tb] holds 0, 1 or -1, and 2 where nothing
    was written (the debug build); [high], [highX], [highY]. *)
Record astate : Type := mkAstate {
  aB : matrix Q;
  aIx : matrix Q;
  aIy : matrix Q;
  tb : matrix Z;
  ahigh : Q;
  highX : nat;
  highY : nat
}.

Section Fill.

Variables (a b : list entry) (gop_a gep_a gop_b gep_b : list Q).
Variables (dimX dimY startX startY endX endY : nat).

(** The body of the two nested [for] loops. *)
Definition acell (st : astate) (x y : nat) : result astate :=
  let Ix1 := if (startX <? x)%nat then aIx st (x - 1)%nat y else 0%Q in
  let Iy1 := if (startY <? y)%nat then aIy st x (y - 1)%nat else 0%Q in
  let inner := ((startX <? x) && (startY <? y))%nat%bool in
  sc <- score a b x y ;;
  let M := if inner then (sc + aB st (x - 1)%nat (y - 1)%nat)%Q else sc in
  let '(t, s) :=
    match choose M Ix1 Iy1 with
    | Diagonal => (0, M)
    | Horizontal => (1, Ix1)
    | Vertical => (-1, Iy1)
    end in
  let edge := ((x =? endX - 1) || (y =? endY - 1))%nat%bool in
  let better := (edge && Qle_bool (ahigh st) s)%bool in
  gox <- (if (x <? dimX - 1)%nat then read gop_a x else Ok 0%Q) ;;
  gex <- read gep_a x ;;
  goy <- (if (y <? dimY - 1)%nat then read gop_b y else Ok 0%Q) ;;
  gey <- read gep_b y ;;
  Ok (mkAstate
        (mset (aB st) x y s)
        (mset (aIx st) x y (fmax (M - gox) (Ix1 - gex))%Q)
        (mset (aIy st) x y (fmax (M - goy) (Iy1 - gey))%Q)
        (mset (tb st) x y t)
        (if better then s else ahigh st)
        (if better then x else highX st)
        (if better then y else highY st)).

Definition afill (st : astate) : result astate :=
  foreach
    (fun st x => foreach (fun st y => acell st x y) (seq startY (endY - startY)) st)
    (seq startX (endX - startX)) st.

End Fill.

Definition with_tb (st : astate) (t : matrix Z) : astate :=
  mkAstate (aB st) (aIx st) (aIy st) t (ahigh st) (highX st) (highY st).

(** [for (x = from; x < to; ++x) tb(x, y) = 1]. *)
Definition mark_row (from to y : nat) (t : matrix Z) : matrix Z :=
  fold_left (fun t x => mset t x y 1) (seq from (to - from)) t.

(** [for (y = from; y < to; ++y) tb(x, y) = -1]. *)
Definition mark_column (from to x : nat) (t : matrix Z) : matrix Z :=
  fold_left (fun t y => mset t x y (-1)) (seq from (to - from)) t.

(** The two loops that lead the traceback from the end of a window to
    its best cell. *)
Definition lead_to_high (endX endY toX toY : nat) (st : astate) : astate :=
  let t1 := if (0 <? endY)%nat
            then mark_row (S (highX st)) toX (endY - 1) (tb st) else tb st in
  let t2 := if (0 <? endX)%nat
            then mark_column (S (highY st)) toY (endX - 1) t1 else t1 in
  with_tb st t2.

(** The variables of the outer [while (x < dimX and y < dimY)]. *)
Record aloop : Type := mkAloop {
  ax : nat; ay : nat; aendX : nat; aendY : nat;
  acells : astate
}.

Section Blocks.

Variables (a b : list entry) (gop_a gep_a gop_b gep_b : list Q).
Variables (pa pb : list Z) (dimX dimY : nat).

Fixpoint ablocks (fuel : nat) (l : aloop) : result aloop :=
  match fuel with
  | O => Undefined
  | S fuel' =>
      let x := ax l in
      let y := ay l in
      let c := acells l in
      if ((x <? dimX) && (y <? dimY))%nat%bool then
        anchor <- at_anchor pa pb x y (aendX l) (aendY l) ;;
        if anchor then
          ablocks fuel'
            (mkAloop (S x) (S y) (S (aendX l)) (S (aendY l))
               (mkAstate (aB c) (aIx c) (aIy c) (mset (tb c) x y 0) (ahigh c) x y))
        else
          w <- scan pa pb dimX dimY (S (dimX + dimY)) (aendX l) (aendY l) ;;
          let '(endX, endY) := w in
          let t1 := if (0 <? y)%nat then mark_row x endX (y - 1) (tb c) else tb c in
          let t2 := if (0 <? x)%nat then mark_column y endY (x - 1) t1 else t1 in
          let c1 := mkAstate (aB c) (mset (aIx c) x y 0%Q) (mset (aIy c) x y 0%Q)
                      t2 0%Q (highX c) (highY c) in
          c2 <- afill a b gop_a gep_a gop_b gep_b dimX dimY x y endX endY c1 ;;
          ablocks fuel'
            (mkAloop endX endY endX endY (lead_to_high endX endY endX endY c2))
      else Ok l
  end.

End Blocks.

(** [foreach (entry* e, a) e->insert_gap(pos)]. *)
Fixpoint insert_gaps (pos : nat) (a : list entry) : result (list entry) :=
  match a with
  | [] => Ok []
  | e :: t =>
      e' <- insert_gap kSignalGapCode pos e ;;
      t' <- insert_gaps pos t ;;
      Ok (e' :: t')
  end.

(** The traceback [while (x >= 0 and y >= 0)]; [px] and [py] are [x + 1]
    and [y + 1]. *)
Fixpoint traceback (fuel : nat) (t : matrix Z) (px py : nat)
    (a b : list entry) : result (nat * nat * list entry * list entry) :=
  match fuel with
  | O => Undefined
  | S fuel' =>
      match px, py with
      | S x, S y =>
          let d := t x y in
          if d =? -1 then
            a' <- insert_gaps px a ;; traceback fuel' t px y a' b
          else if d =? 1 then
            b' <- insert_gaps py b ;; traceback fuel' t x py a b'
          else if d =? 0 then traceback fuel' t x y a b
          else AssertionFailure
      | _, _ => Ok (px, py, a, b)
      end
  end.

(** [while (x >= 0) { foreach (entry* e, b) e->insert_gap(y + 1); --x; }],
    for either side. *)
Fixpoint start_gaps (count pos : nat) (b : list entry) : result (list entry) :=
  match count with
  | O => Ok b
  | S count' => b' <- insert_gaps pos b ;; start_gaps count' pos b'
  end.

Definition set_positions (e : entry) (p : list Z) : entry :=
  mkEntry (m_nr e) (m_id e) (m_seq e) p (m_ss e) (m_weight e).

(** [transform(pa.begin(), pa.end(), pb.begin(), pc.begin(), max_pdb_nr())]. *)
Fixpoint max_positions (pa pb : list Z) : result (list Z) :=
  match pa, pb with
  | [], _ => Ok []
  | _ :: _, [] => Undefined
  | x :: ta, y :: tb' => t <- max_positions ta tb' ;; Ok (Z.max x y :: t)
  end.

(** [align(node, a, b, c, mat_fam, gop, gep, magic, ignorePositions)];
    the result is [c]. *)
Definition align (a b : list entry) (gop gep magic : Q) (ignorePositions : bool)
  : result (list entry) :=
  match a, b with
  | fa :: _, fb :: _ =>
      let pa := m_positions fa in
      let pb := m_positions fb in
      let dimX := length (m_seq fa) in
      let dimY := length (m_seq fb) in
      let '(ga, ea, gb, eb) := initial_penalties a b dimX dimY gop gep magic in
      pen_a <- adjust_gp kSignalGapCode (repeat ga dimX) (repeat ea dimX) a ;;
      pen_b <- adjust_gp kSignalGapCode (repeat gb dimY) (repeat eb dimY) b ;;
      let '(gop_a, gep_a) := pen_a in
      let '(gop_b, gep_b) := pen_b in
      let free := (ignorePositions || is_empty pa || is_empty pb)%bool in
      let zero : matrix Q := fun _ _ => 0%Q in
      l <- ablocks a b gop_a gep_a gop_b gep_b pa pb dimX dimY (S (dimX + dimY))
             (mkAloop 0 0 (if free then dimX else 0%nat) (if free then dimY else 0%nat)
                (mkAstate zero zero zero (fun _ _ => 2) 0%Q 0 0)) ;;
      let c := lead_to_high (aendX l) (aendY l) dimX dimY (acells l) in
      r <- traceback (S (dimX + dimY)) (tb c) dimX dimY a b ;;
      let '(px, py, a1, b1) := r in
      b2 <- start_gaps px py b1 ;;
      a2 <- start_gaps py 0 a1 ;;
      match a2, b2 with
      | fa' :: ta, fb' :: _ =>
          if (negb ignorePositions && negb (is_empty (m_positions fa')))%bool then
            _ <- assert (length (m_positions fa') =? length (m_positions fb'))%nat ;;
            pc <- max_positions (m_positions fa') (m_positions fb') ;;
            Ok ((set_positions fa' pc :: ta) ++ b2)
          else Ok (a2 ++ b2)
      | _, _ => Undefined
      end
  | _, _ => Undefined
  end.

End Alignment.

(** *** The substitution matrices of a family (matrix.h) *)

(** [substitution_matrix]: the table [m_matrix] with its two numbers. *)
Record substitution_matrix : Type := mkSubstitutionMatrix {
  m_matrix : aa -> aa -> Z;
  m_mismatch_average : Q;
  m_scale_factor : Q
}.

(** [substitution_matrix_family]: the arrays [m_cutoff], [m_smat] and
    [m_pos_smat], of four cells each. *)
Record substitution_matrix_family : Type := mkFamily {
  m_cutoff : list Q;
  m_smat : list substitution_matrix;
  m_pos_smat : list substitution_matrix
}.

(** [while (distance < m_cutoff[ix] and ix < 3) ++ix;]: the cutoff is read
    before [ix] is compared with 3. *)
Fixpoint cutoff_index (cutoff : list Q) (distance : Q) (fuel ix : nat)
  : result nat :=
  match fuel with
  | O => Undefined
  | S fuel' =>
      c <- read cutoff ix ;;
      if (negb (Qle_bool c distance) && (ix <? 3)%nat)%bool
      then cutoff_index cutoff distance fuel' (S ix)
      else Ok ix
  end.

(** [substitution_matrix_family::operator()(distance, positive)]. *)
Definition select (f : substitution_matrix_family) (distance : Q)
    (positive : bool) : result substitution_matrix :=
  ix <- cutoff_index (m_cutoff f) distance 4 0 ;;
  read (if positive then m_pos_smat f else m_smat f) ix.

(** *** The alignment along the guide tree *)

(** The nodes of the guide tree: a [leaf_node] holds an entry, a
    [joined_node] its two children and their distances. *)
Inductive base_node : Type :=
| leaf_node (m_entry : entry)
| joined_node (m_left m_right : base_node) (m_d_left m_d_right : Q).

Section Tree.

Variable kSignalGapCode : aa.
Variable log10 : Q -> Q.
Variable mat : substitution_matrix_family.
Variables gop gep magic : Q.

(** [createAlignment(node, alignment, mat, gop, gep, magic, pr)], one
    thread: the rows of a child are its entry when it is a leaf and its
    own alignment otherwise; [align] then takes the matrix
    [mat_fam(abs(node->m_d_left + node->m_d_right), true)]. *)
Fixpoint createAlignment (node : base_node) : result (list entry) :=
  match node with
  | leaf_node e => Ok [e]
  | joined_node l r d_left d_right =>
      a <- createAlignment l ;;
      b <- createAlignment r ;;
      smat <- select mat (Qabs (d_left + d_right)) true ;;
      align kSignalGapCode (m_matrix smat) (m_mismatch_average smat)
        (m_scale_factor smat) log10 a b gop gep magic false
  end.

End Tree.

(** *** Residue letters and residue codes *)

(** [toupper] and [tolower] of the C library on ASCII letters. *)
Definition toupper (c : ascii) : ascii :=
  let n := nat_of_ascii c in
  if ((97 <=? n) && (n <=? 122))%nat then ascii_of_nat (n - 32) else c.

Definition tolower (c : ascii) : ascii :=
  let n := nat_of_ascii c in
  if ((65 <=? n) && (n <=? 90))%nat then ascii_of_nat (n + 32) else c.

Section Codes.

(** The [sizeof(kAA)] characters of [kAA], which is declared outside the
    sources: the letter of every residue code. *)
Variable kAA : list ascii.

(** [decode(s)]: [kAA[a]] for every code [a] of the sequence. *)
Definition decode (s : sequence) : result (list ascii) :=
  foreach (fun text a => c <- read kAA (Z.to_nat a) ;; Ok (text ++ [c])) s [].

(** One iteration of the loop that fills the table [kAA_Reverse]:
    [kAA_Reverse[toupper(kAA[a])] = a; kAA_Reverse[tolower(kAA[a])] = a]. *)
Definition kAA_Reverse_step (t : ascii -> Z) (a : nat) : ascii -> Z :=
  let c := nth a kAA "000"%char in
  fun x =>
    if Ascii.eqb x (tolower c) then Z.of_nat a
    else if Ascii.eqb x (toupper c) then Z.of_nat a
    else t x.

(** The table after its initialisation, every cell being 255 before. *)
Definition kAA_Reverse : ascii -> Z :=
  fold_left kAA_Reverse_step (seq 0 (length kAA)) (fun _ => 255).

(** The body of [foreach (char r, s)] in [encode]. *)
Definition encode_letter (codes : sequence) (r : ascii) : result sequence :=
  let r := if (Ascii.eqb r "." || Ascii.eqb r "*" || Ascii.eqb r "~")%bool
           then "-"%char else r in
  let rc := kAA_Reverse r in
  if Z.of_nat (length kAA) <=? rc
  then Thrown "invalid residue in sequence" r
  else Ok (codes ++ [rc]).

(** [encode(s)]. The loop over [uint8 a] that fills the table ends only
    when [kAA] has fewer than 256 characters. *)
Definition encode (s : list ascii) : result sequence :=
  if (256 <=? length kAA)%nat then Undefined
  else foreach encode_letter s [].

End Codes.

End Mas.

(** ** hssp-convert-3to1.cpp *)

Module Hssp.

Definition to_uint8 (z : Z) : Z := z mod 256.

Definition kMaxUInt32 : Z := 4294967295.

Definition tolower (c : ascii) : ascii :=
  let n := nat_of_ascii c in
  if ((65 <=? n) && (n <=? 90))%nat then ascii_of_nat (n + 32) else c.

Record insertion : Type := mkInsertion {
  m_ipos : Z;
  m_jpos : Z;
  i_seq : list ascii
}.

(** [seq::seq_impl]; [m_seq] is the text from the pointer [m_seq] on, of
    which the first [m_size] characters belong to the row. *)
Record seq : Type := mkSeq {
  m_id : string;
  m_ifir : Z; m_ilas : Z; m_jfir : Z; m_jlas : Z; m_length : Z;
  m_identical : Z; m_similar : Z;
  m_score : fval;
  m_begin : Z; m_end : Z;
  m_gaps : Z; m_gapn : Z;
  m_insertions : list insertion;
  m_seq : list ascii;
  m_size : Z;
  m_pruned : bool
}.

(** [seq::length()], an unsigned difference. *)
Definition length (s : seq) : Z := (m_end s - m_begin s) mod 2 ^ 32.

(** [seq::operator[]], with its assertion. *)
Definition at_ (s : seq) (offset : Z) : result ascii :=
  _ <- assert (offset <? m_size s) ;;
  match nth_error (m_seq s) (Z.to_nat offset) with
  | Some c => Ok c
  | None => Undefined
  end.

Definition kBlockSize : Z := 512.

(** [seq::append(seq)], on a row that has not been cut and the size
    [m_space] of its buffer: the buffer is replaced by one of [n]
    characters when the piece does not fit, and the piece is copied behind
    the [m_size] characters of the row. Either copy is undefined when it
    leaves the buffer. *)
Definition append (piece : list ascii) (s : seq) (m_space : Z) : result (seq * Z) :=
  let len := Z.of_nat (List.length piece) in
  let space :=
    if m_size s + len >? m_space then
      let k := if m_space =? 0 then kBlockSize else m_space in
      let n := (k * 2) mod 2 ^ 32 in
      if n <? len then len mod 2 ^ 32 else n
    else m_space in
  if (space <? m_size s) || (space <? m_size s + len) then Undefined
  else
    let size := (m_size s + len) mod 2 ^ 32 in
    Ok (mkSeq (m_id s) (m_ifir s) (m_ilas s) (m_jfir s) (m_jlas s) (m_length s)
          (m_identical s) (m_similar s) (m_score s)
          (m_begin s) size
          (m_gaps s) (m_gapn s) (m_insertions s)
          (firstn (Z.to_nat (m_size s)) (m_seq s) ++ piece) size (m_pruned s),
        space).

(** [seq::seq_impl::cut]. *)
Definition cut (pos n : Z) (s : seq) : result seq :=
  _ <- assert ((pos + n) mod 2 ^ 32 <=? m_size s) ;;
  let b := if m_begin s >? pos then m_begin s - pos else 0 in
  let e := if m_end s >? pos then m_end s - pos else 0 in
  let e := if e >? n then n else e in
  Ok (mkSeq (m_id s) (m_ifir s) (m_ilas s) (m_jfir s) (m_jlas s) (m_length s)
        (m_identical s) (m_similar s) (m_score s)
        b e
        (m_gaps s) (m_gapn s) (m_insertions s)
        (skipn (Z.to_nat pos) (m_seq s)) n (m_pruned s)).

Section Tables.

(** [kResidueIX]: the index of a character, -1 for an invalid letter and
    -2 for a gap character (an [int8] table), and the matrix [kD]. Both
    are declared outside the sources. *)
Variable kResidueIX : ascii -> Z.
Variable kD : Z -> Z -> Q.

Definition is_gap (aa : ascii) : bool := kResidueIX aa =? -2.

(** *** The MSA-to-hit reducer *)

(** The variables of [seq::seq_impl::update] that change in its loop. *)
Record ustate : Type := mkUstate {
  ipos : Z; jpos : Z;
  sgapf : bool; qgapf : bool;
  gapn : Z; gaps : Z;
  ins : insertion;
  len : Z;                    (* the local [length] *)
  u_ifir : Z; u_ilas : Z;
  u_identical : Z; u_similar : Z;
  u_gapn : Z; u_gaps : Z; u_length : Z;
  u_begin : Z; u_end : Z;
  u_insertions : list insertion;
  buf : list ascii            (* the text of this row, written in place *)
}.

(** [gsi = si - 1; while (gsi != begin() and is_gap( *gsi)) --gsi;]
    as an index into the row, [fuel] bounding the walk. *)
Fixpoint walk_back (fuel : nat) (b : list ascii) (g : nat) : nat :=
  match fuel with
  | O => g
  | S fuel' =>
      if (negb (g =? 0)%nat && is_gap (nth g b "000"%char))%bool
      then walk_back fuel' b (g - 1) else g
  end.

(** The statements after the three-way branch: identity, validation and
    similarity, and the alignment window. *)
Definition update_tail (qi si : ascii) (i : Z) (st : ustate) : result ustate :=
  let identical := if Ascii.eqb qi si then u_identical st + 1 else u_identical st in
  let rq := to_uint8 (kResidueIX qi) in
  if rq =? -1 then Thrown "Invalid letter in query sequence" qi else
  let rs := to_uint8 (kResidueIX si) in
  if rs =? -1 then Thrown "Invalid letter in query sequence" si else
  let similar :=
    if ((rq >=? 0) && (rs >=? 0))%bool && Qle_bool 0 (kD rq rs)
    then u_similar st + 1 else u_similar st in
  let b := if u_begin st =? kMaxUInt32 then i else u_begin st in
  Ok (mkUstate (ipos st) (jpos st) (sgapf st) (qgapf st) (gapn st) (gaps st)
        (ins st) (len st) (u_ifir st) (u_ilas st)
        identical similar
        (u_gapn st) (u_gaps st) (u_length st)
        b (i + 1)
        (u_insertions st) (buf st)).

(** One iteration of [for (; qi != qseq.end(); ++qi, ++si, ++i)]. *)
Definition update_column (qi : ascii) (i : nat) (st : ustate) : result ustate :=
  match nth_error (buf st) i with
  | None => Undefined
  | Some si =>
      let qgap := is_gap qi in
      let sgap := is_gap si in
      if (qgap && sgap)%bool then Ok st
      else
        let len1 := if 0 <? len st then len st + 1 else len st in
        let fresh := negb (sgapf st || qgapf st) in
        if sgap then
          Ok (mkUstate (ipos st + 1) (jpos st) true (qgapf st)
                (gapn st + 1) (if fresh then gaps st + 1 else gaps st)
                (ins st) len1 (u_ifir st) (u_ilas st)
                (u_identical st) (u_similar st)
                (u_gapn st) (u_gaps st) (u_length st)
                (u_begin st) (u_end st) (u_insertions st) (buf st))
        else if qgap then
          r <- (if negb (qgapf st) then
                  match i with
                  | O => Undefined       (* [si - 1] precedes the row *)
                  | S i' =>
                      let g := walk_back i (buf st) i' in
                      let c := tolower (nth g (buf st) "000"%char) in
                      Ok (mkInsertion (ipos st) (jpos st) [c],
                          set_nth g c (buf st))
                  end
                else Ok (ins st, buf st)) ;;
          let '(ins0, buf1) := r in
          let ins1 := mkInsertion (m_ipos ins0) (m_jpos ins0) (i_seq ins0 ++ [si]) in
          update_tail qi si (Z.of_nat i)
            (mkUstate (ipos st) (jpos st + 1) (sgapf st) true
               (gapn st + 1) (if fresh then gaps st + 1 else gaps st)
               ins1 len1 (u_ifir st) (u_ilas st)
               (u_identical st) (u_similar st)
               (u_gapn st) (u_gaps st) (u_length st)
               (u_begin st) (u_end st) (u_insertions st) buf1)
        else
          let si' := if qgapf st then tolower si else si in
          let buf1 := if qgapf st then set_nth i si' (buf st) else buf st in
          let ins1 :=
            if qgapf st
            then mkInsertion (m_ipos (ins st)) (m_jpos (ins st)) (i_seq (ins st) ++ [si'])
            else ins st in
          let insertions1 :=
            if qgapf st then u_insertions st ++ [ins1] else u_insertions st in
          let started := negb (u_ifir st =? 0) in
          update_tail qi si' (Z.of_nat i)
            (mkUstate (ipos st + 1) (jpos st + 1) false false
               0 0 ins1
               (if started then len1 else 1)
               (if started then u_ifir st else ipos st) (ipos st)
               (u_identical st) (u_similar st)
               (if started then u_gapn st + gapn st else u_gapn st)
               (if started then u_gaps st + gaps st else u_gaps st)
               (if started then len1 else u_length st)
               (u_begin st) (u_end st) insertions1 buf1)
  end.

Fixpoint update_loop (q : list ascii) (i : nat) (st : ustate) : result ustate :=
  match q with
  | [] => Ok st
  | qi :: q' => st' <- update_column qi i st ;; update_loop q' (S i) st'
  end.

(** The final pass over the row: blanks outside the window, dots for the
    gaps inside. *)
Definition normalise (b e : Z) (size : nat) (text : list ascii) : list ascii :=
  Mas.imap (fun i c =>
              if (i <? size)%nat then
                if ((Z.of_nat i <? b) || (Z.of_nat i >=? e))%bool then " "%char
                else if is_gap c then "."%char else c
              else c) text.

(** [seq::seq_impl::update(qseq)]. *)
Definition update (qseq s : seq) : result seq :=
  let jpos0 := if m_jfir s =? 0 then 1 else m_jfir s in
  st <- update_loop (firstn (Z.to_nat (m_size qseq)) (m_seq qseq)) 0
          (mkUstate 1 jpos0 false false 0 0 (mkInsertion 0 0 []) 0
             0 (m_ilas s) 0 0 0 0 (m_length s)
             kMaxUInt32 0 (m_insertions s) (m_seq s)) ;;
  r <- (if u_begin st =? kMaxUInt32 then Ok (0, 0, buf st)
        else
          _ <- assert (u_begin st <=? m_size s) ;;
          _ <- assert (u_end st <=? m_size s) ;;
          Ok (u_begin st, u_end st,
              normalise (u_begin st) (u_end st) (Z.to_nat (m_size s)) (buf st))) ;;
  let '(b, e, text) := r in
  Ok (mkSeq (m_id s) (u_ifir st) (u_ilas st) (m_jfir s) (m_jlas s) (u_length st)
        (u_identical st) (u_similar st)
        (fdiv (inject_Z (u_identical st)) (inject_Z (u_length st)))
        b e (u_gaps st) (u_gapn st) (u_insertions st)
        text (m_size s) (m_pruned s)).

(** *** Residue information and hits *)

Record Hit : Type := mkHit {
  h_seq : seq;       (* m_seq *)
  h_qseq : seq;      (* m_qseq *)
  m_chain : ascii;
  m_nr : Z;
  m_offset : Z
}.

(** [ResidueHInfo]; the entropy, a sum of logarithms, is left out. *)
Record ResidueHInfo : Type := mkResidueHInfo {
  letter : ascii;
  chain : ascii;
  seqNr : Z; pdbNr : Z;
  pos : Z;
  nocc : Z; ndel : Z; nins : Z;
  consweight : Q;
  dist : list Z
}.

(** [dist[ix] += 1] on the array of twenty counters. *)
Definition bump (ix : Z) (d : list Z) : result (list Z) :=
  if ix <? Z.of_nat (List.length d)
  then Ok (set_nth (Z.to_nat ix) (nth (Z.to_nat ix) d 0 + 1) d)
  else Undefined.

(** The first [foreach (hit_ptr hit, hits)] of [CalculateVariability]:
    the state is [(nocc, dist)]. *)
Definition count_hit (chain' : ascii) (pos' : Z) (st : Z * list Z) (hit : Hit)
  : result (Z * list Z) :=
  let '(n, d) := st in
  if negb (Ascii.eqb (m_chain hit) chain') then Ok st
  else
    c <- at_ (h_seq hit) pos' ;;
    let ix := kResidueIX c in
    if ix >=? 0 then d' <- bump ix d ;; Ok (n + 1, d') else Ok st.

(** [dist[a] = uint32((100.0 * freq) + 0.5)] with [freq = dist[a] / nocc]. *)
Definition percentage (n d : Z) : Z :=
  Qfloor (100 * (inject_Z d / inject_Z n) + (1#2)).

(** The second [foreach]: the state is [(ndel, nins)]. *)
Definition count_indel (chain' : ascii) (pos' : Z) (gap : bool) (st : Z * Z)
    (hit : Hit) : result (Z * Z) :=
  let '(nd, ni) := st in
  if negb (Ascii.eqb (m_chain hit) chain') then Ok st
  else
    let t := h_seq hit in
    nd' <- (if ((pos' >? m_begin t) && (pos' <? m_end t))%bool then
              c <- at_ t pos' ;; Ok (if is_gap c then nd + 1 else nd)
            else Ok nd) ;;
    ni' <- (if gap then
              c <- at_ t pos' ;;
              Ok (if ((97 <=? nat_of_ascii c) && (nat_of_ascii c <=? 121))%nat
                  then ni + 1 else ni)
            else Ok ni) ;;
    Ok (nd', ni').

(** [ResidueHInfo::CalculateVariability]. *)
Definition CalculateVariability (r : ResidueHInfo) (hits : list Hit)
  : result ResidueHInfo :=
  match hits with
  | [] => Ok r
  | front :: _ =>
      let ix := kResidueIX (letter r) in
      if ix >=? 0 then
        d0 <- (if ix <? 20 then Ok (set_nth (Z.to_nat ix) 1 (repeat 0 20))
               else Undefined) ;;
        cnt <- foreach (count_hit (chain r) (pos r)) hits (nocc r, d0) ;;
        let '(n, d) := cnt in
        _ <- (if n =? 0 then Undefined else Ok tt) ;;
        let d' := map (percentage n) d in
        let q := h_qseq front in
        gap <- (if (pos r + 1) mod 2 ^ 32 <? length q then
                  c <- at_ q (pos r + 1) ;; Ok (is_gap c)
                else Ok false) ;;
        indel <- foreach (count_indel (chain r) (pos r) gap) hits (ndel r, nins r) ;;
        let '(nd, ni) := indel in
        Ok (mkResidueHInfo (letter r) (chain r) (seqNr r) (pdbNr r) (pos r)
              n nd ni (consweight r) d')
      else
        Ok (mkResidueHInfo (letter r) (chain r) (seqNr r) (pdbNr r) (pos r)
              (nocc r) (ndel r) (nins r) (consweight r) (repeat 0 20))
  end.

(** *** Conservation weights *)

(** The vectors of one worker: [sumvar], [sumdist] and [simval]. In
    [simval] the marker [numeric_limits<float>::min()] is [None]. *)
Record accumulators : Type := mkAccumulators {
  sumvar : list Q;
  sumdist : list Q;
  simval : list (option Q)
}.

Definition in_vector {A : Type} (k : nat) (v : list A) : result unit :=
  if (k <? List.length v)%nat then Ok tt else Undefined.

(** The first loop over the overlap: the state is [(len, agr, simval)]. *)
Definition compare_column (si sj : seq) (st : Z * Z * list (option Q)) (k : nat)
  : result (Z * Z * list (option Q)) :=
  let '(n, agr, sv) := st in
  ci <- at_ si (Z.of_nat k) ;;
  if is_gap ci then Ok st
  else
    cj <- at_ sj (Z.of_nat k) ;;
    if is_gap cj then Ok st
    else
      let agr' := if Ascii.eqb ci cj then agr + 1 else agr in
      let ri := kResidueIX ci in
      let rj := kResidueIX cj in
      _ <- in_vector k sv ;;
      Ok (n + 1, agr',
          set_nth k (if ((ri >=? 0) && (rj >=? 0))%bool
                     then Some (kD ri rj) else None) sv).

(** The second loop over the overlap. *)
Definition accumulate_column (distance : Q) (acc : accumulators) (k : nat)
  : result accumulators :=
  _ <- in_vector k (simval acc) ;;
  match nth k (simval acc) None with
  | Some v =>
      _ <- in_vector k (sumvar acc) ;;
      _ <- in_vector k (sumdist acc) ;;
      Ok (mkAccumulators
            (set_nth k (Mas.Qnth k (sumvar acc) + distance * v)%Q (sumvar acc))
            (set_nth k (Mas.Qnth k (sumdist acc) + distance * (3#2))%Q (sumdist acc))
            (simval acc))
  | None => Ok acc
  end.

(** The body of [for (j = i + 1; j < msa.size(); ++j)] for one [j]. *)
Definition compare_pair (si : seq) (acc : accumulators) (sj : seq)
  : result accumulators :=
  if m_pruned sj then Ok acc
  else
    let b := Z.max (m_begin si) (m_begin sj) in
    let e := Z.min (m_end si) (m_end sj) in
    let overlap := List.seq (Z.to_nat b) (Z.to_nat e - Z.to_nat b) in
    st <- foreach (compare_column si sj) overlap (0, 0, simval acc) ;;
    let '(n, agr, sv) := st in
    let acc1 := mkAccumulators (sumvar acc) (sumdist acc) sv in
    if 0 <? n then
      let distance := (1 - inject_Z agr / inject_Z n)%Q in
      foreach (accumulate_column distance) overlap acc1
    else Ok acc1.

(** What a worker does with the row index [i] it takes from the queue. *)
Definition compare_row (msa : list seq) (acc : accumulators) (i : nat)
  : result accumulators :=
  match nth_error msa i with
  | None => Undefined
  | Some si =>
      _ <- assert (negb (m_pruned si)) ;;
      foreach (compare_pair si) (skipn (S i) msa) acc
  end.

(** The row indices the driver puts on the queue. *)
Definition queued (msa : list seq) : list nat :=
  filter (fun i => match nth_error msa i with
                   | Some s => negb (m_pruned s)
                   | None => false
                   end)
         (List.seq 0 (List.length msa - 1)).

(** The worker, [CalculateConservation(msa, b, csumvar, csumdist)], run
    by a single thread that takes every index of the queue in order. *)
Definition conservation_worker (msa : list seq) : result (list Q * list Q) :=
  match msa with
  | [] => Undefined
  | s :: _ =>
      let n := Z.to_nat (length s) in
      acc <- foreach (compare_row msa) (queued msa)
               (mkAccumulators (repeat 0%Q n) (repeat 0%Q n) (repeat (Some 0%Q) n)) ;;
      Ok (sumvar acc, sumdist acc)
  end.

(** [weight = 1.0f; if (sumdist[i] > 0) weight = sumvar[i] / sumdist[i]]. *)
Definition weight (sv sd : Q) : Q :=
  if negb (Qle_bool sd 0) then (sv / sd)%Q else 1%Q.

Definition set_consweight (w : Q) (r : ResidueHInfo) : ResidueHInfo :=
  mkResidueHInfo (letter r) (chain r) (seqNr r) (pdbNr r) (pos r)
    (nocc r) (ndel r) (nins r) w (dist r).

(** [do ++ri; while (ri != res.end() and ( *ri)->letter == 0)]. *)
Fixpoint skip_breaks (fuel : nat) (res : list ResidueHInfo) (ri : nat) : nat :=
  match fuel with
  | O => ri
  | S fuel' =>
      match nth_error res ri with
      | Some r => if Ascii.eqb (letter r) "000"%char
                  then skip_breaks fuel' res (S ri) else ri
      | None => ri
      end
  end.

(** One iteration of the final loop of the driver: the state is
    [(res, ri)]. *)
Definition assign_weight (s : seq) (sv sd : list Q)
    (st : list ResidueHInfo * nat) (i : nat) : result (list ResidueHInfo * nat) :=
  let '(res, ri) := st in
  c <- at_ s (Z.of_nat i) ;;
  if is_gap c then Ok st
  else
    match nth_error res ri with
    | None => Undefined
    | Some r =>
        let res' := set_nth ri (set_consweight (weight (Mas.Qnth i sv) (Mas.Qnth i sd)) r) res in
        Ok (res', skip_breaks (List.length res) res' (S ri))
    end.

(** The driver, [CalculateConservation(msa, res)]. *)
Definition CalculateConservation (msa : list seq) (res : list ResidueHInfo)
  : result (list ResidueHInfo) :=
  match msa with
  | [] => Undefined
  | s :: _ =>
      sums <- conservation_worker msa ;;
      let '(sv, sd) := sums in
      st <- foreach (assign_weight s sv sd) (List.seq 0 (Z.to_nat (length s))) (res, 0%nat) ;;
      let '(res', ri) := st in
      _ <- assert (ri =? List.length res)%nat ;;
      Ok res'
  end.

(** *** The window of the query in the first row *)

(** Each of the two loops of [ReadStockholm] that walk over the first row,
    [if (is_gap( *r) or count-- > 0) { ++columns; continue; } break;]:
    the columns walked over until [count] residues have been passed and
    the next residue is met. *)
Fixpoint pass_residues (row : list ascii) (count : nat) : nat :=
  match row with
  | [] => 0%nat
  | c :: row' =>
      if is_gap c then S (pass_residues row' count)
      else match count with
           | O => 0%nat
           | S count' => S (pass_residues row' count')
           end
  end.

(** [pos] and [n] of the cut, for the query that starts at residue
    [offset] of the first row and has [length] residues; the second loop
    goes on where the first one stopped. *)
Definition query_window (row : list ascii) (offset length : nat) : nat * nat :=
  let pos := pass_residues row offset in
  (pos, pass_residues (skipn pos row) length).

(** [foreach (seq& s, msa) s.cut(pos, n)]. *)
Definition cut_all (pos n : Z) (msa : list seq) : result (list seq) :=
  foreach (fun done s => s' <- cut pos n s ;; Ok (done ++ [s'])) msa [].

(** Whether [text] begins with [q]. *)
Fixpoint starts_with (q text : list ascii) : bool :=
  match q, text with
  | [], _ => true
  | _ :: _, [] => false
  | c :: q', d :: text' => (Ascii.eqb c d && starts_with q' text')%bool
  end.

(** [qr.find(q)]: the first offset at which [q] occurs in [qr], or
    [string::npos]. *)
Fixpoint find (qr q : list ascii) : option nat :=
  if starts_with q qr then Some 0%nat
  else match qr with
       | [] => None
       | _ :: qr' => option_map S (find qr' q)
       end.

(** [q != qr] on strings. *)
Fixpoint differs (q qr : list ascii) : bool :=
  match q, qr with
  | [], [] => false
  | c :: q', d :: qr' => (negb (Ascii.eqb c d) || differs q' qr')%bool
  | _, _ => true
  end.

(** The block [if (not q.empty() and q != qr)] of [ReadStockholm], with
    [qr] the residues that were read for the query row: the alignment is
    cut to the columns of the chain [q]. The counter [length] of the
    second loop is an [uint32]. *)
Definition cut_to_query (q qr : list ascii) (msa : list seq) : result (list seq) :=
  if (negb (List.length q =? 0)%nat && differs q qr)%bool then
    if (List.length qr <? List.length q)%nat
    then Thrown "Query used for Stockholm file is too short for the chain" "000"
    else
      match find qr q with
      | None => Thrown "Invalid Stockholm file for chain" "000"
      | Some offset =>
          match msa with
          | [] => Undefined
          | front :: _ =>
              let row := firstn (Z.to_nat (m_size front)) (m_seq front) in
              let count := Z.to_nat (Z.of_nat (List.length q) mod 2 ^ 32) in
              let '(pos, n) := query_window row offset count in
              cut_all (Z.of_nat pos) (Z.of_nat n) msa
          end
      end
  else Ok msa.

(** *** The residues of a chain *)

Section Residues.

(** The members that a constructor of [ResidueHInfo] gives no value are
    those of [junk]. *)
Variable junk : ResidueHInfo.

(** [ResidueHInfo::ResidueHInfo(seqNr)], the chain break. *)
Definition chain_break (seqNr' : Z) : ResidueHInfo :=
  mkResidueHInfo "000"%char (chain junk) seqNr' (pdbNr junk) (pos junk)
    1 0 0 1 (dist junk).

(** [ResidueHInfo::ResidueHInfo(a, pos, chain, seqNr, pdbNr, dssp)]. *)
Definition residue_info (a : ascii) (pos' : Z) (chain' : ascii)
    (seqNr' pdbNr' : Z) : ResidueHInfo :=
  mkResidueHInfo a chain' seqNr' pdbNr' pos' 1 0 0 1 (dist junk).

(** One iteration of the loop of [ChainToHits] over the columns of the
    query row; the state is the index [ri] into the residue numbers of
    the chain and the list [res]. *)
Definition chain_column (s : seq) (chain' : ascii) (numbers : list Z)
    (st : nat * list ResidueHInfo) (i : nat) : result (nat * list ResidueHInfo) :=
  let '(ri, res) := st in
  c <- at_ s (Z.of_nat i) ;;
  if is_gap c then Ok st
  else
    _ <- assert (ri <? List.length numbers)%nat ;;
    let number := nth ri numbers 0 in
    let res1 :=
      if (negb (ri =? 0)%nat && (nth (ri - 1) numbers 0 + 1 <? number))%bool
      then res ++ [chain_break (Z.of_nat (List.length res) + 1)]
      else res in
    Ok (S ri,
        res1 ++ [residue_info c (Z.of_nat i) chain'
                   (Z.of_nat (List.length res1) + 1) number]).

(** The residue loop of [ChainToHits]: what it adds to [res]. *)
Definition chain_residues (s : seq) (chain' : ascii) (numbers : list Z)
    (res : list ResidueHInfo) : result (list ResidueHInfo) :=
  st <- foreach (chain_column s chain' numbers)
          (List.seq 0 (Z.to_nat (length s))) (0%nat, res) ;;
  Ok (snd st).

End Residues.

End Tables.

(** *** Rows below the threshold *)

Section Threshold.

(** [kHomologyThreshold], a table declared outside the sources. *)
Variable kHomologyThreshold : list Q.


End Threshold.

(** *** The order of the rows *)

(** [a > b] and [a == b] on scores. *)
Definition score_gt (a b : fval) : bool :=
  match a, b with
  | Finite x, Finite y => negb (Qle_bool x y)
  | Infinite, Finite _ => true
  | _, _ => false
  end.

Definition score_eq (a b : fval) : bool :=
  match a, b with
  | Finite x, Finite y => Qeq_bool x y
  | Infinite, Infinite => true
  | _, _ => false
  end.

(** [seq::operator<]. *)
Definition less (s o : seq) : bool :=
  (score_gt (m_score s) (m_score o) ||
   (score_eq (m_score s) (m_score o) && (length s >? length o)))%bool.

(** *** The insertion list of the report *)

(** The lines after the first: [while (not s.empty())] with up to 100
    characters each. *)
Fixpoint continuation_lines (fuel : nat) (s : list ascii) : list (list ascii) :=
  match fuel with
  | O => []
  | S fuel' =>
      match s with
      | [] => []
      | _ => firstn 100 s :: continuation_lines fuel' (skipn 100 s)
      end
  end.

(** The pieces of [ins.m_seq] that [CreateHSSPOutput] prints for one
    insertion, a line each. *)
Definition insertion_lines (s : list ascii) : list (list ascii) :=
  if (List.length s <=? 100)%nat then [s]
  else firstn 100 s :: continuation_lines (List.length s) (skipn 100 s).

(** Modelled from the spec: the table [kResidueIX] is declared outside
    the sources. The spec's data model resolves the twenty residue letters,
    in either case, to an index in [0,20) (here in the column order of the
    sequence profile, V L I M F W Y G A P S T C H R K Q E N D), the
    characters - . * ~ _ and the space to the gap index, and calls any
    other character a validation failure. *)
Definition residue_letters : list ascii :=
  list_ascii_of_string "VLIMFWYGAPSTCHRKQEND".

Definition gap_characters : list ascii := list_ascii_of_string "-.*~_ ".

Fixpoint index_of (c : ascii) (l : list ascii) (i : Z) : Z :=
  match l with
  | [] => -1
  | h :: t => if Ascii.eqb (tolower c) (tolower h) then i else index_of c t (i + 1)
  end.

Definition kResidueIX_spec (c : ascii) : Z :=
  if existsb (Ascii.eqb c) gap_characters then -2
  else index_of c residue_letters 0.

End Hssp.

(** * Properties *)

Section EntryFacts.

Variable kSignalGapCode : Mas.aa.

Lemma length_insert_at {A : Type} (pos : nat) (x : A) (l : list A) :
  length (insert_at pos x l) = S (length l).
Proof.
  unfold insert_at.
  rewrite length_app. simpl.
  rewrite length_firstn, length_skipn. lia.
Qed.

Lemma insert_at_beyond {A : Type} (pos : nat) (x : A) (l : list A) :
  (length l <= pos)%nat -> insert_at pos x l = l ++ [x].
Proof.
  intros H. unfold insert_at.
  rewrite firstn_all2 by assumption.
  rewrite skipn_all2 by assumption. reflexivity.
Qed.

Lemma nth_error_insert_at {A : Type} (pos : nat) (x : A) (l : list A) :
  (pos <= length l)%nat -> nth_error (insert_at pos x l) pos = Some x.
Proof.
  intros H. unfold insert_at.
  rewrite nth_error_app2; rewrite length_firstn, Nat.min_l by assumption;
    [ rewrite Nat.sub_diag; reflexivity | apply Nat.le_refl ].
Qed.

Lemma assert_true (b : bool) : b = true -> assert b = Ok tt.
Proof. intros ->. reflexivity. Qed.

(** Both branches of [insert_gap] are one splice on a well-formed entry. *)
Lemma insert_gap_splice (pos : nat) (e : Mas.entry) :
  Mas.m_positions e = [] \/
    length (Mas.m_positions e) = length (Mas.m_seq e) ->
  Mas.insert_gap kSignalGapCode pos e =
    Ok (Mas.with_seq e
          (insert_at pos kSignalGapCode (Mas.m_seq e))
          (if Mas.is_empty (Mas.m_positions e) then []
           else insert_at pos 0 (Mas.m_positions e))).
Proof.
  intros WF. unfold Mas.insert_gap.
  destruct e as [nr id s p ss w].
  cbn [Mas.m_seq Mas.m_positions] in *.
  destruct (Nat.ltb_spec (length s) pos) as [Hgt | Hle].
  - rewrite (insert_at_beyond pos kSignalGapCode s) by lia.
    destruct p as [| p0 p1]; cbn [Mas.is_empty negb bind].
    + rewrite assert_true by apply orb_true_r. reflexivity.
    + destruct WF as [WF | WF]; [discriminate |].
      rewrite (insert_at_beyond pos 0 (p0 :: p1)) by lia.
      rewrite assert_true; [reflexivity |].
      apply orb_true_iff; left. apply Nat.eqb_eq.
      rewrite !length_app. simpl in *. lia.
  - destruct p as [| p0 p1]; cbn [Mas.is_empty negb bind].
    + rewrite assert_true by apply orb_true_r. reflexivity.
    + destruct WF as [WF | WF]; [discriminate |].
      replace (pos <=? length (p0 :: p1))%nat with true
        by (symmetry; apply Nat.leb_le; lia).
      cbn [bind].
      rewrite assert_true; [reflexivity |].
      apply orb_true_iff; left. apply Nat.eqb_eq.
      rewrite !length_insert_at. simpl in *. lia.
Qed.

(** C7. On an entry whose positions vector is absent or as long as the
    sequence, [insert_gap pos] succeeds; the new sequence is the old one
    with exactly one gap code spliced in at [pos] (at the end when [pos]
    exceeds the length); a present positions vector receives a 0 at the
    same index and is again as long as the sequence; an absent one stays
    absent. *)
Theorem insert_gap_spec (pos : nat) (e : Mas.entry)
    (WF : Mas.m_positions e = [] \/
          length (Mas.m_positions e) = length (Mas.m_seq e)) :
  exists e',
    Mas.insert_gap kSignalGapCode pos e = Ok e' /\
    Mas.m_seq e' =
      firstn pos (Mas.m_seq e) ++ kSignalGapCode :: skipn pos (Mas.m_seq e) /\
    length (Mas.m_seq e') = S (length (Mas.m_seq e)) /\
    ((pos <= length (Mas.m_seq e))%nat ->
       nth_error (Mas.m_seq e') pos = Some kSignalGapCode) /\
    ((length (Mas.m_seq e) < pos)%nat ->
       Mas.m_seq e' = Mas.m_seq e ++ [kSignalGapCode]) /\
    (Mas.m_positions e = [] -> Mas.m_positions e' = []) /\
    (Mas.m_positions e <> [] ->
       Mas.m_positions e' =
         firstn pos (Mas.m_positions e) ++ 0 :: skipn pos (Mas.m_positions e) /\
       length (Mas.m_positions e') = length (Mas.m_seq e')) /\
    Mas.m_nr e' = Mas.m_nr e /\ Mas.m_id e' = Mas.m_id e /\
    Mas.m_ss e' = Mas.m_ss e /\ Mas.m_weight e' = Mas.m_weight e.
Proof.
  eexists. split; [apply insert_gap_splice; exact WF |]. simpl.
  split; [reflexivity |].
  split; [apply length_insert_at |].
  split; [apply nth_error_insert_at |].
  split; [intros H; apply insert_at_beyond; lia |].
  split; [intros H; rewrite H; reflexivity |].
  split; [| repeat split].
  intros Hne. destruct (Mas.m_positions e) as [| p0 p1] eqn:Hp;
    [contradiction |]. simpl Mas.is_empty. cbv iota.
  split; [reflexivity |].
  rewrite !length_insert_at.
  destruct WF as [WF | WF]; [discriminate | congruence].
Qed.

(** C10. [remove_gaps] takes the branch of [assert(false)] exactly when
    the sequence and the positions vector have the same length, which is
    the case of an entry with an empty sequence and no positions; in every
    other case it returns the entry with the gap codes filtered out of the
    sequence, the other residues in their order, and the positions vector
    as it was. *)
Theorem remove_gaps_spec (e : Mas.entry) :
  (Mas.remove_gaps kSignalGapCode e = AssertionFailure <->
     length (Mas.m_seq e) = length (Mas.m_positions e)) /\
  (Mas.m_seq e = [] /\ Mas.m_positions e = [] ->
     Mas.remove_gaps kSignalGapCode e = AssertionFailure) /\
  (length (Mas.m_seq e) <> length (Mas.m_positions e) ->
     exists e',
       Mas.remove_gaps kSignalGapCode e = Ok e' /\
       Mas.m_seq e' =
         filter (fun r => negb (r =? kSignalGapCode)) (Mas.m_seq e) /\
       ~ In kSignalGapCode (Mas.m_seq e') /\
       (forall r, r <> kSignalGapCode ->
          count_occ Z.eq_dec (Mas.m_seq e') r = count_occ Z.eq_dec (Mas.m_seq e) r) /\
       Mas.m_positions e' = Mas.m_positions e).
Proof.
  unfold Mas.remove_gaps.
  destruct (Nat.eqb_spec (length (Mas.m_seq e)) (length (Mas.m_positions e)))
    as [Heq | Hne].
  - split; [tauto |]. split; [reflexivity | contradiction].
  - split; [split; [discriminate | contradiction] |].
    split; [intros [Hs Hp]; rewrite Hs, Hp in Hne; contradiction |].
    intros _. eexists; split; [reflexivity |]; simpl.
    split; [reflexivity |]. split; [| split; [| reflexivity]].
    + intros Hin. apply filter_In in Hin. destruct Hin as [_ Hin].
      rewrite Z.eqb_refl in Hin. discriminate.
    + intros r Hr. clear Hne.
      induction (Mas.m_seq e) as [| a l IH]; [reflexivity |].
      simpl. destruct (Z.eqb_spec a kSignalGapCode) as [Ha | Ha]; simpl.
      * destruct (Z.eq_dec a r); [congruence | assumption].
      * destruct (Z.eq_dec a r); [f_equal |]; assumption.
Qed.

End EntryFacts.


(** ** Vectors written cell by cell *)

Section VectorFacts.

Context {A : Type}.

Lemma length_set_nth (i : nat) (x : A) (l : list A) :
  length (set_nth i x l) = length l.
Proof.
  revert i; induction l as [| h t IH]; intros [| j]; simpl; auto.
Qed.

Lemma nth_set_nth_eq (i : nat) (x d : A) (l : list A) :
  (i < length l)%nat -> nth i (set_nth i x l) d = x.
Proof.
  revert i; induction l as [| h t IH]; intros [| j] H; simpl in *;
    try lia; auto.
  apply IH; lia.
Qed.

Lemma nth_set_nth_ne (i j : nat) (x d : A) (l : list A) :
  i <> j -> nth j (set_nth i x l) d = nth j l d.
Proof.
  revert i j; induction l as [| h t IH]; intros [| i] [| j] H; simpl;
    try congruence; auto.
Qed.

Lemma length_imap_from {B : Type} (f : nat -> A -> B) (k : nat) (l : list A) :
  length (Mas.imap_from f k l) = length l.
Proof.
  revert k; induction l as [| h t IH]; intros k; simpl; auto.
Qed.

Lemma nth_imap_from {B : Type} (f : nat -> A -> B) (k i : nat) (l : list A)
    (d : A) (d' : B) :
  (i < length l)%nat ->
  nth i (Mas.imap_from f k l) d' = f (k + i)%nat (nth i l d).
Proof.
  revert k i; induction l as [| h t IH]; intros k [| i] H; simpl in *;
    try lia.
  - rewrite Nat.add_0_r. reflexivity.
  - rewrite IH by lia. f_equal. lia.
Qed.

End VectorFacts.

Lemma length_imap {A B : Type} (f : nat -> A -> B) (l : list A) :
  length (Mas.imap f l) = length l.
Proof. apply length_imap_from. Qed.

Lemma nth_imap {A B : Type} (f : nat -> A -> B) (i : nat) (l : list A)
    (d : A) (d' : B) :
  (i < length l)%nat -> nth i (Mas.imap f l) d' = f i (nth i l d).
Proof. intros H. unfold Mas.imap. rewrite (nth_imap_from f 0 i l d d' H). reflexivity. Qed.

(** ** Gap penalties: what one run of [adjust_gp] does to a column *)

Section GapPenaltyFacts.

Variable kSignalGapCode : Mas.aa.

(** The factor of the [for (d ...)] loop: 1 when the loop ends without
    [break]. *)
Definition proximity_factor (gaps : list nat) (ix : nat) : Q :=
  match Mas.proximity gaps ix with
  | Some d => inject_Z (2 + (8 - Z.of_nat d) * 2) / 8
  | None => 1
  end.

(** The factor of the final [if (hydrophilic_stretch[ix]) ... else ...]. *)
Definition tail_factor (rows : nat) (ins : Mas.inspection) (ix : nat) : Q :=
  if nth ix (Mas.hydrophilic_stretch ins) false then 1 / 3
  else Mas.Qnth ix (Mas.residue_specific_penalty ins) / inject_Z (Z.of_nat rows).

Definition gop_factor (rows : nat) (ins : Mas.inspection) (ix : nat) : Q :=
  let g := nth ix (Mas.gaps ins) 0%nat in
  if (0 <? g)%nat then
    (3#10) * (inject_Z (Z.of_nat (rows - g)) / inject_Z (Z.of_nat rows))
  else proximity_factor (Mas.gaps ins) ix * tail_factor rows ins ix.

Definition gep_factor (ins : Mas.inspection) (ix : nat) : Q :=
  if (0 <? nth ix (Mas.gaps ins) 0%nat)%nat then 1 / 2 else 1.

Lemma Qnth_set_nth_eq (i : nat) (x : Q) (l : list Q) :
  (i < length l)%nat -> Mas.Qnth i (set_nth i x l) = x.
Proof. apply nth_set_nth_eq. Qed.

Lemma Qnth_set_nth_ne (i j : nat) (x : Q) (l : list Q) :
  i <> j -> Mas.Qnth j (set_nth i x l) = Mas.Qnth j l.
Proof. apply nth_set_nth_ne. Qed.

Lemma adjust_column_spec (rows : nat) (ins : Mas.inspection)
    (gop gep : list Q) (ix : nat) :
  (ix < length gop)%nat -> length gep = length gop ->
  exists gop' gep',
    Mas.adjust_column rows ins (gop, gep) ix = Ok (gop', gep') /\
    length gop' = length gop /\ length gep' = length gep /\
    (forall j, j <> ix ->
       Mas.Qnth j gop' = Mas.Qnth j gop /\ Mas.Qnth j gep' = Mas.Qnth j gep) /\
    Mas.Qnth ix gop' == Mas.Qnth ix gop * gop_factor rows ins ix /\
    Mas.Qnth ix gep' == Mas.Qnth ix gep * gep_factor ins ix.
Proof.
  intros Hix Hlen.
  unfold Mas.adjust_column, gop_factor, gep_factor.
  destruct (0 <? nth ix (Mas.gaps ins) 0)%nat eqn:Hg.
  - replace (ix <? length gep)%nat with true
      by (symmetry; apply Nat.ltb_lt; lia).
    do 2 eexists. split; [reflexivity |].
    rewrite !length_set_nth.
    repeat split; auto.
    + apply Qnth_set_nth_ne; auto.
    + apply Qnth_set_nth_ne; auto.
    + rewrite Qnth_set_nth_eq by assumption. reflexivity.
    + rewrite Qnth_set_nth_eq by lia. unfold Qdiv. ring.
  - set (gop1 := match Mas.proximity (Mas.gaps ins) ix with
                 | Some d => set_nth ix _ gop
                 | None => gop
                 end).
    assert (Hlen1 : length gop1 = length gop).
    { unfold gop1. destruct (Mas.proximity _ _); [apply length_set_nth | reflexivity]. }
    assert (Hne1 : forall j, j <> ix -> Mas.Qnth j gop1 = Mas.Qnth j gop).
    { intros j Hj. unfold gop1.
      destruct (Mas.proximity _ _); [apply Qnth_set_nth_ne; auto | reflexivity]. }
    assert (Hat1 : Mas.Qnth ix gop1 ==
                   Mas.Qnth ix gop * proximity_factor (Mas.gaps ins) ix).
    { unfold gop1, proximity_factor.
      destruct (Mas.proximity _ _).
      - rewrite Qnth_set_nth_eq by assumption. reflexivity.
      - ring. }
    clearbody gop1.
    do 2 eexists. split; [reflexivity |].
    unfold tail_factor.
    destruct (nth ix (Mas.hydrophilic_stretch ins) false);
      rewrite !length_set_nth; repeat split; auto;
      try (rewrite Qnth_set_nth_ne by auto; auto);
      try (rewrite Qnth_set_nth_eq by lia; rewrite Hat1; unfold Qdiv; ring);
      try ring.
Qed.

Lemma adjust_fold (rows : nat) (ins : Mas.inspection) (l : list nat) :
  forall gop gep,
    NoDup l -> (forall i, In i l -> (i < length gop)%nat) ->
    length gep = length gop ->
    exists gop' gep',
      fold_left (fun acc ix => st <- acc ;; Mas.adjust_column rows ins st ix)
        l (Ok (gop, gep)) = Ok (gop', gep') /\
      length gop' = length gop /\ length gep' = length gep /\
      (forall j, ~ In j l ->
         Mas.Qnth j gop' = Mas.Qnth j gop /\ Mas.Qnth j gep' = Mas.Qnth j gep) /\
      (forall j, In j l ->
         Mas.Qnth j gop' == Mas.Qnth j gop * gop_factor rows ins j /\
         Mas.Qnth j gep' == Mas.Qnth j gep * gep_factor ins j).
Proof.
  induction l as [| ix l IH]; intros gop gep Hnd Hin Hlen.
  - exists gop, gep. simpl. repeat split; auto; contradiction.
  - inversion Hnd as [| ? ? Hnotin Hnd']; subst.
    destruct (adjust_column_spec rows ins gop gep ix) as
      (gop1 & gep1 & Hstep & Hl1 & Hl2 & Hother & Hgop & Hgep);
      [apply Hin; left; reflexivity | assumption |].
    destruct (IH gop1 gep1) as (gop' & gep' & Hfold & Hl1' & Hl2' & Hout & Hinl);
      [assumption | intros i Hi; rewrite Hl1; apply Hin; right; exact Hi
      | congruence |].
    exists gop', gep'. cbn [fold_left bind]. rewrite Hstep.
    split; [exact Hfold |].
    split; [congruence |]. split; [congruence |].
    split.
    + intros j Hj.
      assert (Hj1 : j <> ix) by (intros ->; apply Hj; left; reflexivity).
      assert (Hj2 : ~ In j l) by (intros H; apply Hj; right; exact H).
      destruct (Hout j Hj2) as [E1 E2]. destruct (Hother j Hj1) as [E3 E4].
      split; congruence.
    + intros j [-> | Hj].
      * destruct (Hout j Hnotin) as [E1 E2]. rewrite E1, E2. split; assumption.
      * assert (Hj1 : j <> ix) by (intros ->; contradiction).
        destruct (Hinl j Hj) as [E1 E2]. destruct (Hother j Hj1) as [E3 E4].
        rewrite <- E3, <- E4. split; assumption.
Qed.

(** *** The inspection phase *)

Definition gap_count (rows : list Mas.entry) (j : nat) : nat :=
  length (filter (fun e => nth j (Mas.m_seq e) 0 =? kSignalGapCode) rows).

Lemma length_mark_stretch (si i : nat) (hs : list bool) :
  length (Mas.mark_stretch si i hs) = length hs.
Proof.
  unfold Mas.mark_stretch.
  generalize (seq si (i - si)) as l. intros l; revert hs.
  induction l as [| j l IH]; intros hs; simpl; [reflexivity |].
  rewrite IH. apply length_set_nth.
Qed.

Lemma length_run_fold (n : nat) (s : Mas.sequence) (l : list nat) :
  forall st,
    length (snd (fold_left (Mas.run_step n s) l st)) = length (snd st).
Proof.
  induction l as [| i l IH]; intros [si hs]; [reflexivity |].
  cbn [fold_left]. rewrite IH. unfold Mas.run_step.
  destruct ((i =? n)%nat || negb (Mas.is_hydrophilic (nth i s 0)))%bool;
    [| reflexivity].
  cbn [snd]. destruct (si + 5 <=? i)%nat;
    [apply length_mark_stretch | reflexivity].
Qed.

Lemma length_find_runs (n : nat) (s : Mas.sequence) (hs : list bool) :
  length (Mas.find_runs n s hs) = length hs.
Proof. unfold Mas.find_runs. apply length_run_fold. Qed.

Lemma ss_penalty_pos (c : ascii) : (0 < Mas.ss_penalty c)%Q.
Proof.
  unfold Mas.ss_penalty.
  destruct (_ || _ || _)%bool; [reflexivity |].
  destruct (Ascii.eqb c "B"); [reflexivity |].
  destruct (Ascii.eqb c "E"); reflexivity.
Qed.

Lemma kResidueSpecificPenalty_nonneg (i : nat) :
  (0 <= Mas.Qnth i Mas.kResidueSpecificPenalty)%Q.
Proof.
  unfold Mas.Qnth.
  do 20 (destruct i as [| i]; [vm_compute; discriminate |]).
  destruct i; vm_compute; discriminate.
Qed.

(** The per-column invariant of the first loop. *)
Record inspected (n : nat) (ins : Mas.inspection) : Prop := {
  gaps_length : length (Mas.gaps ins) = n;
  stretch_length : length (Mas.hydrophilic_stretch ins) = n;
  penalty_length : length (Mas.residue_specific_penalty ins) = n;
  penalty_nonneg :
    forall j, (0 <= Mas.Qnth j (Mas.residue_specific_penalty ins))%Q
}.

Lemma inspect_entry_ok (n : nat) (st : Mas.inspection) (e : Mas.entry) :
  (n <= length (Mas.m_seq e))%nat -> inspected n st ->
  exists st',
    Mas.inspect_entry kSignalGapCode n st e = Ok st' /\ inspected n st' /\
    forall j, (j < n)%nat ->
      nth j (Mas.gaps st') 0%nat =
        (nth j (Mas.gaps st) 0 +
         if (nth j (Mas.m_seq e) 0 =? kSignalGapCode)%Z then 1 else 0)%nat.
Proof.
  intros Hn [H1 H2 H3 H4]. unfold Mas.inspect_entry.
  replace (length (Mas.m_seq e) <? n)%nat with false
    by (symmetry; apply Nat.ltb_ge; assumption).
  eexists. split; [reflexivity |]. split; [split |]; cbn [Mas.gaps
    Mas.hydrophilic_stretch Mas.residue_specific_penalty].
  - rewrite length_imap; assumption.
  - rewrite length_find_runs; assumption.
  - rewrite length_imap; assumption.
  - intros j. unfold Mas.Qnth.
    destruct (Nat.lt_ge_cases j (length (Mas.residue_specific_penalty st)))
      as [Hj | Hj].
    + rewrite (nth_imap _ j _ 0%Q 0%Q Hj).
      pose proof (H4 j) as Hp. unfold Mas.Qnth in Hp.
      destruct (j <? length (Mas.m_ss e))%nat.
      * pose proof (ss_penalty_pos (nth j (Mas.m_ss e) "000"%char)). lra.
      * destruct (nth j (Mas.m_seq e) 0 <? 20).
        -- pose proof (kResidueSpecificPenalty_nonneg
                         (Z.to_nat (nth j (Mas.m_seq e) 0))) as Hk.
           unfold Mas.Qnth in Hk. lra.
        -- lra.
    + rewrite nth_overflow by (rewrite length_imap; assumption).
      apply Qle_refl.
  - intros j Hj.
    rewrite (nth_imap _ j _ 0%nat 0%nat) by lia.
    destruct (nth j (Mas.m_seq e) 0 =? kSignalGapCode); lia.
Qed.

Lemma inspect_fold (n : nat) (rows : list Mas.entry) :
  forall st,
    (forall e, In e rows -> (n <= length (Mas.m_seq e))%nat) ->
    inspected n st ->
    exists ins,
      fold_left (fun acc e => st <- acc ;; Mas.inspect_entry kSignalGapCode n st e)
        rows (Ok st) = Ok ins /\
      inspected n ins /\
      forall j, (j < n)%nat ->
        nth j (Mas.gaps ins) 0%nat = (nth j (Mas.gaps st) 0 + gap_count rows j)%nat.
Proof.
  induction rows as [| e rows IH]; intros st Hrows Hst.
  - exists st. split; [reflexivity |]. split; [assumption |].
    intros; unfold gap_count; simpl; lia.
  - destruct (inspect_entry_ok n st e) as (st1 & Hstep & Hst1 & Hg1);
      [apply Hrows; left; reflexivity | assumption |].
    destruct (IH st1) as (ins & Hfold & Hins & Hg);
      [intros e' He'; apply Hrows; right; exact He' | assumption |].
    exists ins. cbn [fold_left bind]. rewrite Hstep.
    split; [exact Hfold |]. split; [exact Hins |].
    intros j Hj. rewrite (Hg j Hj), (Hg1 j Hj).
    unfold gap_count. simpl.
    destruct (nth j (Mas.m_seq e) 0 =? kSignalGapCode); simpl; lia.
Qed.

Lemma inspect_ok (n : nat) (rows : list Mas.entry) :
  (forall e, In e rows -> (n <= length (Mas.m_seq e))%nat) ->
  exists ins,
    Mas.inspect kSignalGapCode n rows = Ok ins /\ inspected n ins /\
    forall j, (j < n)%nat -> nth j (Mas.gaps ins) 0%nat = gap_count rows j.
Proof.
  intros Hrows. unfold Mas.inspect.
  destruct (inspect_fold n rows
              (Mas.mkInspection (repeat 0%nat n) (repeat false n) (repeat 0%Q n)))
    as (ins & Hfold & Hins & Hg); [assumption | |].
  - split; cbn; try apply repeat_length.
    intros j. unfold Mas.Qnth.
    destruct (Nat.lt_ge_cases j n) as [Hj | Hj].
    + rewrite nth_repeat_lt by assumption. apply Qle_refl.
    + rewrite nth_overflow by (rewrite repeat_length; assumption). apply Qle_refl.
  - exists ins. split; [exact Hfold |]. split; [exact Hins |].
    intros j Hj. rewrite (Hg j Hj). cbn.
    rewrite nth_repeat_lt by assumption. reflexivity.
Qed.

(** One run of [adjust_gp] multiplies every column by its two factors. *)
Lemma adjust_gp_factors (gop gep : list Q) (rows : list Mas.entry) :
  rows <> [] ->
  (forall e, In e rows -> length (Mas.m_seq e) = length gop) ->
  length gep = length gop ->
  exists gop' gep' ins,
    Mas.adjust_gp kSignalGapCode gop gep rows = Ok (gop', gep') /\
    Mas.inspect kSignalGapCode (length gop) rows = Ok ins /\
    inspected (length gop) ins /\
    (forall j, (j < length gop)%nat ->
       nth j (Mas.gaps ins) 0%nat = gap_count rows j) /\
    length gop' = length gop /\ length gep' = length gep /\
    forall j, (j < length gop)%nat ->
      Mas.Qnth j gop' == Mas.Qnth j gop * gop_factor (length rows) ins j /\
      Mas.Qnth j gep' == Mas.Qnth j gep * gep_factor ins j.
Proof.
  intros Hne Hrows Hlen.
  destruct rows as [| front rest]; [contradiction |].
  destruct (inspect_ok (length gop) (front :: rest)) as (ins & Hins & Hinv & Hg).
  { intros e He. rewrite (Hrows e He). apply Nat.le_refl. }
  destruct (adjust_fold (length (front :: rest)) ins (seq 0 (length gop)) gop gep)
    as (gop' & gep' & Hfold & Hl1 & Hl2 & _ & Hin);
    [apply seq_NoDup | intros i Hi; apply in_seq in Hi; lia | assumption |].
  exists gop', gep', ins.
  split.
  - unfold Mas.adjust_gp.
    rewrite assert_true
      by (apply Nat.eqb_eq; symmetry; apply Hrows; left; reflexivity).
    cbn [bind]. rewrite Hins. cbn [bind]. exact Hfold.
  - repeat (split; [assumption |]).
    intros j Hj. apply Hin. apply in_seq. lia.
Qed.

(** *** The proximity rule in terms of the rows *)

(** Some row carries a gap code in column [j]. *)
Definition gap_at (rows : list Mas.entry) (j : nat) : Prop :=
  exists e, In e rows /\ nth j (Mas.m_seq e) 0 = kSignalGapCode.

(** At distance [d] from column [ix] there is a gap or an end of the
    block, on either side. *)
Definition near (rows : list Mas.entry) (n ix d : nat) : Prop :=
  (n <= ix + d)%nat \/ gap_at rows (ix + d) \/
  (ix < d)%nat \/ gap_at rows (ix - d).

Lemma gap_count_pos (rows : list Mas.entry) (j : nat) :
  (0 < gap_count rows j)%nat <-> gap_at rows j.
Proof.
  unfold gap_count, gap_at.
  induction rows as [| e rows IH]; simpl.
  - split; [lia | intros (e & [] & _)].
  - destruct (Z.eqb_spec (nth j (Mas.m_seq e) 0) kSignalGapCode) as [He | He];
      simpl.
    + split; [intros _; exists e; auto | lia].
    + rewrite IH. split.
      * intros (e' & Hin & Hg). exists e'; auto.
      * intros (e' & [-> | Hin] & Hg); [contradiction | exists e'; auto].
Qed.

Lemma near_gap_iff (rows : list Mas.entry) (ins : Mas.inspection) (n ix d : nat) :
  length (Mas.gaps ins) = n ->
  (forall j, (j < n)%nat -> nth j (Mas.gaps ins) 0%nat = gap_count rows j) ->
  (ix < n)%nat ->
  Mas.near_gap (Mas.gaps ins) ix d = true <-> near rows n ix d.
Proof.
  intros Hlen Hg Hix. unfold Mas.near_gap, near.
  rewrite !orb_true_iff, Nat.leb_le, !Nat.ltb_lt, Hlen.
  rewrite (Hg (ix - d)%nat) by lia. rewrite gap_count_pos.
  destruct (Nat.le_gt_cases n (ix + d)) as [Hout | Hin].
  - split; intros _; [left | left; left; left]; exact Hout.
  - rewrite (Hg (ix + d)%nat) by lia. rewrite gap_count_pos. tauto.
Qed.

Lemma find_least (p : nat -> bool) (a k : nat) :
  match find p (seq a k) with
  | Some d => (a <= d < a + k)%nat /\ p d = true /\
              forall d', (a <= d' < d)%nat -> p d' = false
  | None => forall d, (a <= d < a + k)%nat -> p d = false
  end.
Proof.
  revert a; induction k as [| k IH]; intros a; simpl.
  - intros d Hd; lia.
  - destruct (p a) eqn:Hpa.
    + split; [lia |]. split; [exact Hpa |]. intros d' Hd'; lia.
    + specialize (IH (S a)). destruct (find p (seq (S a) k)) as [d |].
      * destruct IH as (Hr & Hd & Hleast). split; [lia |]. split; [exact Hd |].
        intros d' Hd'. destruct (Nat.eq_dec d' a) as [-> | Hne];
          [exact Hpa | apply Hleast; lia].
      * intros d Hd. destruct (Nat.eq_dec d a) as [-> | Hne];
          [exact Hpa | apply IH; lia].
Qed.

(** C8, as the code has it. In a column [ix] where no row has a gap,
    [gop[ix]] is multiplied by (2 + (8 - d) * 2) / 8 exactly when, at some
    distance below 8, a row has a gap or the block ends (the column
    [ix + d] or [ix - d] does not exist); [d] is the least such distance.
    When neither a gap nor an end of the block lies at a distance below 8
    the multiplier is not applied. In both cases the hydrophilic or
    residue-specific factor is applied as well, and [gep[ix]] is kept. *)
Theorem adjust_gp_proximity_rule (gop gep : list Q) (rows : list Mas.entry)
    (ix : nat)
    (Hrows : rows <> [])
    (Hblock : forall e, In e rows -> length (Mas.m_seq e) = length gop)
    (Hgep : length gep = length gop)
    (Hix : (ix < length gop)%nat)
    (Hfree : ~ gap_at rows ix) :
  exists gop' gep' ins,
    Mas.adjust_gp kSignalGapCode gop gep rows = Ok (gop', gep') /\
    Mas.inspect kSignalGapCode (length gop) rows = Ok ins /\
    (forall d, (d < 8)%nat -> near rows (length gop) ix d ->
       (forall d', (d' < d)%nat -> ~ near rows (length gop) ix d') ->
       Mas.Qnth ix gop' ==
         Mas.Qnth ix gop * (inject_Z (2 + (8 - Z.of_nat d) * 2) / 8) *
         tail_factor (length rows) ins ix) /\
    ((forall d, (d < 8)%nat -> ~ near rows (length gop) ix d) ->
       Mas.Qnth ix gop' == Mas.Qnth ix gop * tail_factor (length rows) ins ix) /\
    Mas.Qnth ix gep' == Mas.Qnth ix gep.
Proof.
  destruct (adjust_gp_factors gop gep rows Hrows Hblock Hgep)
    as (gop' & gep' & ins & Hrun & Hins & Hinv & Hg & Hl1 & Hl2 & Hcol).
  exists gop', gep', ins.
  split; [exact Hrun |]. split; [exact Hins |].
  destruct (Hcol ix Hix) as [Hgop Hgepx].
  assert (Hzero : (0 <? nth ix (Mas.gaps ins) 0)%nat = false).
  { apply Nat.ltb_ge. rewrite (Hg ix Hix).
    destruct (Nat.le_gt_cases (gap_count rows ix) 0) as [H | H]; [exact H |].
    apply gap_count_pos in H. contradiction. }
  unfold gop_factor in Hgop. unfold gep_factor in Hgepx.
  rewrite Hzero in Hgop, Hgepx.
  assert (Hnear : forall d, Mas.near_gap (Mas.gaps ins) ix d = true <->
                            near rows (length gop) ix d).
  { intros d. apply near_gap_iff; [apply (gaps_length _ _ Hinv) | exact Hg | exact Hix]. }
  pose proof (find_least (Mas.near_gap (Mas.gaps ins) ix) 0 8) as Hfind.
  unfold proximity_factor, Mas.proximity in Hgop.
  split; [| split].
  - intros d Hd Hnd Hleast.
    destruct (find (Mas.near_gap (Mas.gaps ins) ix) (seq 0 8)) as [d0 |].
    + destruct Hfind as (Hr & Hd0 & Hleast0).
      assert (d0 = d).
      { destruct (Nat.lt_trichotomy d0 d) as [Hlt | [Heq | Hgt]]; [| exact Heq |].
        - exfalso. apply (Hleast d0 Hlt). apply Hnear. exact Hd0.
        - exfalso. apply Hnear in Hnd. rewrite Hleast0 in Hnd by lia. discriminate. }
      subst d0. rewrite Hgop. ring.
    + exfalso. apply Hnear in Hnd. rewrite Hfind in Hnd by lia. discriminate.
  - intros Hnone.
    destruct (find (Mas.near_gap (Mas.gaps ins) ix) (seq 0 8)) as [d0 |].
    + destruct Hfind as (Hr & Hd0 & _).
      exfalso. apply (Hnone d0); [lia | apply Hnear; exact Hd0].
    + rewrite Hgop. ring.
  - rewrite Hgepx. ring.
Qed.

(** The share of the rows without a gap in a column lies between 0 and 1. *)
Lemma share_bounds (n g : nat) :
  (0 < n)%nat ->
  (0 <= inject_Z (Z.of_nat (n - g)) / inject_Z (Z.of_nat n) <= 1)%Q.
Proof.
  intros Hn.
  assert (Hpos : (0 < inject_Z (Z.of_nat n))%Q).
  { change 0%Q with (inject_Z 0). rewrite <- Zlt_Qlt. lia. }
  split.
  - unfold Qdiv. apply Qmult_le_0_compat.
    + change 0%Q with (inject_Z 0). rewrite <- Zle_Qle. lia.
    + apply Qinv_le_0_compat. apply Qlt_le_weak. exact Hpos.
  - apply Qle_shift_div_r; [exact Hpos |]. rewrite Qmult_1_l.
    rewrite <- Zle_Qle. lia.
Qed.

(** C9, as the code has it. [adjust_gp] only reads the rows; each run
    multiplies [gop[j]] and [gep[j]] in place by factors that the rows
    alone determine, so a second run on the same rows multiplies by the
    same factors once more. In a column where some row has a gap the
    factor of [gep[j]] is 1/2 and that of [gop[j]] is 0.3 times the share
    of the rows without a gap there, at most 0.3; in a column without a
    gap [gep[j]] is not touched. *)
Theorem adjust_gp_twice (gop gep : list Q) (rows : list Mas.entry)
    (Hrows : rows <> [])
    (Hblock : forall e, In e rows -> length (Mas.m_seq e) = length gop)
    (Hgep : length gep = length gop) :
  exists gop1 gep1 gop2 gep2 ins,
    Mas.adjust_gp kSignalGapCode gop gep rows = Ok (gop1, gep1) /\
    Mas.adjust_gp kSignalGapCode gop1 gep1 rows = Ok (gop2, gep2) /\
    Mas.inspect kSignalGapCode (length gop) rows = Ok ins /\
    forall j, (j < length gop)%nat ->
      let F := gop_factor (length rows) ins j in
      let G := gep_factor ins j in
      Mas.Qnth j gop1 == Mas.Qnth j gop * F /\
      Mas.Qnth j gep1 == Mas.Qnth j gep * G /\
      Mas.Qnth j gop2 == Mas.Qnth j gop1 * F /\
      Mas.Qnth j gep2 == Mas.Qnth j gep1 * G /\
      Mas.Qnth j gop2 == Mas.Qnth j gop * F * F /\
      Mas.Qnth j gep2 == Mas.Qnth j gep * G * G /\
      (gap_at rows j ->
         G == (1#2) /\
         F == (3#10) * (inject_Z (Z.of_nat (length rows - gap_count rows j))
                        / inject_Z (Z.of_nat (length rows))) /\
         (0 <= F <= 3#10)%Q) /\
      (~ gap_at rows j -> G == 1 /\ Mas.Qnth j gep2 == Mas.Qnth j gep1).
Proof.
  destruct (adjust_gp_factors gop gep rows Hrows Hblock Hgep)
    as (gop1 & gep1 & ins & Hrun1 & Hins & Hinv & Hg & Hl1 & Hl2 & Hcol1).
  destruct (adjust_gp_factors gop1 gep1 rows Hrows)
    as (gop2 & gep2 & ins' & Hrun2 & Hins' & _ & _ & _ & _ & Hcol2);
    [intros e He; rewrite Hl1; apply Hblock; exact He | congruence |].
  rewrite Hl1 in Hins', Hcol2.
  assert (ins' = ins) by congruence. subst ins'.
  exists gop1, gep1, gop2, gep2, ins.
  split; [exact Hrun1 |]. split; [exact Hrun2 |]. split; [exact Hins |].
  intros j Hj F G.
  destruct (Hcol1 j Hj) as [H1 H2]. destruct (Hcol2 j Hj) as [H3 H4].
  fold F in H1, H3. fold G in H2, H4.
  assert (H5 : Mas.Qnth j gop2 == Mas.Qnth j gop * F * F)
    by (rewrite H3, H1; ring).
  assert (H6 : Mas.Qnth j gep2 == Mas.Qnth j gep * G * G)
    by (rewrite H4, H2; ring).
  repeat (split; [assumption |]).
  assert (Hn : (0 < length rows)%nat)
    by (destruct rows; [contradiction | cbn; lia]).
  split.
  - intros Hgap. apply gap_count_pos, Nat.ltb_lt in Hgap.
    unfold G, F, gep_factor, gop_factor. rewrite (Hg j Hj), Hgap.
    split; [reflexivity |]. split; [reflexivity |].
    pose proof (share_bounds (length rows) (gap_count rows j) Hn) as Hshare.
    lra.
  - intros Hgap.
    assert (HG : G == 1).
    { unfold G, gep_factor. rewrite (Hg j Hj).
      destruct (0 <? gap_count rows j)%nat eqn:Hc; [| reflexivity].
      exfalso. apply Hgap, gap_count_pos, Nat.ltb_lt. exact Hc. }
    split; [exact HG |]. rewrite H4, HG. ring.
Qed.

End GapPenaltyFacts.

(** ** Closed instances of the gap-penalty rules *)

(** A gap code for the examples: any code outside 0..19 serves. *)
Definition example_gap : Mas.aa := 24.

Definition example_row (s : list Z) : Mas.entry :=
  Mas.mkEntry 0 "" s [] [] 1.

Lemma insert_gap_spec_witness :
  exists e',
    Mas.insert_gap example_gap 1 (Mas.mkEntry 0 "" [0; 4] [7; 9] [] 1) = Ok e' /\
    Mas.m_seq e' = [0; example_gap; 4] /\ Mas.m_positions e' = [7; 0; 9].
Proof.
  destruct (insert_gap_spec example_gap 1 (Mas.mkEntry 0 "" [0; 4] [7; 9] [] 1))
    as (e' & Hrun & Hseq & _ & _ & _ & _ & Hpos & _).
  - right. reflexivity.
  - exists e'. split; [exact Hrun |]. split; [exact Hseq |].
    apply Hpos. discriminate.
Defined.

(** C8 as stated fails: in a block without any gap, column 0 still
    receives the multiplier (here 2, for distance 1 to the left end)
    before the residue-specific factor. *)
Lemma adjust_gp_end_of_block_multiplier :
  let rows := [example_row [0; 0; 0]] in
  (forall j, gap_count example_gap rows j = 0%nat) /\
  Mas.proximity [0; 0; 0]%nat 0 = Some 1%nat /\
  exists gop' gep',
    Mas.adjust_gp example_gap [1; 1; 1]%Q [1; 1; 1]%Q rows = Ok (gop', gep') /\
    Mas.Qnth 0 gop' == 2 * ((113#100) - (2#10)) /\
    ~ Mas.Qnth 0 gop' == (113#100) - (2#10).
Proof.
  cbv zeta. split; [| split; [reflexivity |]].
  - intros j. unfold gap_count, example_row. cbn [filter Mas.m_seq].
    do 3 (destruct j as [| j]; [reflexivity |]). destruct j; reflexivity.
  - do 2 eexists. split; [vm_compute; reflexivity |].
    split; [reflexivity | intros H; discriminate H].
Qed.

Lemma adjust_gp_proximity_rule_witness :
  exists gop' gep' ins,
    Mas.adjust_gp example_gap [1; 1; 1]%Q [1; 1; 1]%Q [example_row [0; 0; 0]]
      = Ok (gop', gep') /\
    Mas.inspect example_gap 3 [example_row [0; 0; 0]] = Ok ins /\
    Mas.Qnth 0 gop' == 1 * (inject_Z (2 + (8 - 1) * 2) / 8) * tail_factor 1 ins 0.
Proof.
  destruct (adjust_gp_proximity_rule example_gap [1; 1; 1]%Q [1; 1; 1]%Q
              [example_row [0; 0; 0]] 0)
    as (gop' & gep' & ins & Hrun & Hins & Hnear & _ & _).
  - discriminate.
  - intros e [<- | []]. reflexivity.
  - reflexivity.
  - simpl; lia.
  - intros (e & [<- | []] & H). discriminate H.
  - exists gop', gep', ins. split; [exact Hrun |]. split; [exact Hins |].
    apply (Hnear 1%nat).
    + lia.
    + right; right; left. lia.
    + intros d' Hd' [H | [(e & [<- | []] & H) | [H | (e & [<- | []] & H)]]];
        assert (d' = 0%nat) by lia; subst d'; simpl in *;
        try lia; discriminate H.
Defined.

(** C9 as stated fails: the second run changes [gop[0]] (factor 93/50)
    and [gep[1]] (halved again in the gapped column). *)
Lemma adjust_gp_twice_differs :
  let rows := [example_row [0; example_gap]] in
  exists gop1 gep1 gop2 gep2,
    Mas.adjust_gp example_gap [1; 1]%Q [1; 1]%Q rows = Ok (gop1, gep1) /\
    Mas.adjust_gp example_gap gop1 gep1 rows = Ok (gop2, gep2) /\
    Mas.Qnth 0 gop1 == (93#50) /\ Mas.Qnth 0 gop2 == (93#50) * (93#50) /\
    Mas.Qnth 1 gep1 == (1#2) /\ Mas.Qnth 1 gep2 == (1#4) /\
    ~ Mas.Qnth 0 gop2 == Mas.Qnth 0 gop1 /\
    ~ Mas.Qnth 1 gep2 == Mas.Qnth 1 gep1.
Proof.
  cbv zeta. do 4 eexists.
  split; [vm_compute; reflexivity |].
  split; [vm_compute; reflexivity |].
  repeat split; try reflexivity; intros H; discriminate H.
Qed.

Lemma adjust_gp_twice_witness :
  exists gop1 gep1 gop2 gep2 ins,
    Mas.adjust_gp example_gap [1; 1]%Q [1; 1]%Q [example_row [0; example_gap]]
      = Ok (gop1, gep1) /\
    Mas.adjust_gp example_gap gop1 gep1 [example_row [0; example_gap]]
      = Ok (gop2, gep2) /\
    Mas.inspect example_gap 2 [example_row [0; example_gap]] = Ok ins /\
    Mas.Qnth 1 gep2 == Mas.Qnth 1 [1; 1]%Q * gep_factor ins 1 * gep_factor ins 1.
Proof.
  destruct (adjust_gp_twice example_gap [1; 1]%Q [1; 1]%Q
              [example_row [0; example_gap]])
    as (gop1 & gep1 & gop2 & gep2 & ins & Hrun1 & Hrun2 & Hins & Hcol).
  - discriminate.
  - intros e [<- | []]. reflexivity.
  - reflexivity.
  - exists gop1, gep1, gop2, gep2, ins.
    split; [exact Hrun1 |]. split; [exact Hrun2 |]. split; [exact Hins |].
    destruct (Hcol 1%nat) as (_ & _ & _ & _ & _ & H & _); [simpl; lia | exact H].
Defined.

(** ** Scores of the two kernels *)

Lemma fmax_le (a b c : Q) : (a <= c)%Q -> (b <= c)%Q -> (fmax a b <= c)%Q.
Proof. intros Ha Hb. unfold fmax. destruct (Qle_bool b a); assumption. Qed.

Lemma choose_diagonal (M Ix1 Iy1 : Q) :
  (Ix1 <= M)%Q -> (Iy1 <= M)%Q -> Mas.choose M Ix1 Iy1 = Mas.Diagonal.
Proof.
  intros H1 H2. unfold Mas.choose.
  apply Qle_bool_iff in H1, H2. rewrite H1, H2. reflexivity.
Qed.

(** The score a cell keeps in [B]. *)
Definition chosen (M Ix1 Iy1 : Q) : Q :=
  match Mas.choose M Ix1 Iy1 with
  | Mas.Diagonal => M
  | Mas.Horizontal => Ix1
  | Mas.Vertical => Iy1
  end.

Lemma chosen_le (M Ix1 Iy1 c : Q) :
  (M <= c)%Q -> (Ix1 <= c)%Q -> (Iy1 <= c)%Q -> (chosen M Ix1 Iy1 <= c)%Q.
Proof. intros. unfold chosen. destruct (Mas.choose M Ix1 Iy1); assumption. Qed.

Lemma mset_eq {T : Type} (m : Mas.matrix T) (x y : nat) (v : T) :
  Mas.mset m x y v x y = v.
Proof. unfold Mas.mset. rewrite !Nat.eqb_refl. reflexivity. Qed.

Lemma mset_ne {T : Type} (m : Mas.matrix T) (x y x' y' : nat) (v : T) :
  (x', y') <> (x, y) -> Mas.mset m x y v x' y' = m x' y'.
Proof.
  intros H. unfold Mas.mset.
  destruct (Nat.eqb_spec x' x), (Nat.eqb_spec y' y); try reflexivity.
  subst. contradiction.
Qed.

(** ** Blocks of a row compared with itself *)

(** Both kernels fill a block cell by cell, row after row. In the
    comparison of a row with itself the block [s0..e0) is square, and the
    scores of its cells are bounded by sums of the scores [d] of the
    columns against themselves. *)

Section DiagonalSums.

Variable d : nat -> Q.
Variables n s0 e0 : nat.

Local Open Scope nat_scope.

Hypothesis Hblock : s0 <= e0 <= n.
Hypothesis Hd : forall x, x < n -> (0 <= d x)%Q.

Fixpoint dsum (k : nat) : Q :=
  match k with
  | O => 0%Q
  | S k' => (dsum k' + d (s0 + k'))%Q
  end.

Definition bound (x y : nat) : Q := dsum (S (Nat.min x y - s0)).

Lemma dsum_step (k : nat) : dsum (S k) = (dsum k + d (s0 + k))%Q.
Proof. reflexivity. Qed.

Lemma dsum_mono (k k' : nat) :
  k <= k' -> s0 + k' <= n -> (dsum k <= dsum k')%Q.
Proof.
  intros Hk. induction Hk as [| k' Hk IH]; intros Hin.
  - apply Qle_refl.
  - rewrite dsum_step.
    pose proof (Hd (s0 + k') ltac:(lia)).
    specialize (IH ltac:(lia)). lra.
Qed.

Lemma dsum_nonneg (k : nat) : s0 + k <= n -> (0 <= dsum k)%Q.
Proof. intros H. apply (dsum_mono 0 k); [lia | exact H]. Qed.

Definition in_block (x : nat) : Prop := s0 <= x < e0.

(** The cell [(x', y')] is filled before the cell [(x, y)]. *)
Definition before (x y x' y' : nat) : Prop :=
  x' < x \/ (x' = x /\ y' < y).

Lemma bound_diag (x : nat) : bound x x = dsum (S (x - s0)).
Proof. unfold bound. rewrite Nat.min_id. reflexivity. Qed.

Lemma bound_mono (x y x' y' : nat) :
  x <= x' -> y <= y' -> x' < n -> y' < n -> s0 <= x' -> s0 <= y' ->
  (bound x y <= bound x' y')%Q.
Proof.
  intros. unfold bound. apply dsum_mono; lia.
Qed.

Lemma bound_nonneg (x y : nat) :
  in_block x -> in_block y -> (0 <= bound x y)%Q.
Proof.
  intros [] []. unfold bound. apply dsum_nonneg. lia.
Qed.

Lemma bound_last (x y : nat) :
  in_block x -> in_block y -> (bound x y <= dsum (e0 - s0))%Q.
Proof.
  intros [] []. unfold bound. apply dsum_mono; lia.
Qed.

(** The score [M] of a cell from the score [m0] of its two columns and
    the cell before it on the diagonal. *)
Lemma diagonal_step (x y : nat) (m0 Bd : Q) :
  in_block x -> in_block y -> s0 < x -> s0 < y ->
  (m0 <= d (Nat.min x y))%Q -> (Bd <= bound (x - 1) (y - 1))%Q ->
  (m0 + Bd <= bound x y)%Q.
Proof.
  intros [] [] Hsx Hsy Hm HB. unfold bound in *. rewrite dsum_step.
  replace (s0 + (Nat.min x y - s0)) with (Nat.min x y) by lia.
  replace (S (Nat.min (x - 1) (y - 1) - s0)) with (Nat.min x y - s0) in HB by lia.
  lra.
Qed.

Lemma first_step (x y : nat) (m0 : Q) :
  in_block x -> in_block y -> x <= s0 \/ y <= s0 ->
  (m0 <= d (Nat.min x y))%Q -> (m0 <= bound x y)%Q.
Proof.
  intros [] [] Hs Hm. unfold bound. rewrite dsum_step.
  replace (s0 + (Nat.min x y - s0)) with (Nat.min x y) by lia.
  replace (Nat.min x y - s0) with 0 by lia. cbn [dsum]. lra.
Qed.

End DiagonalSums.

(** ** The distance of an entry to itself: one block *)

Section SelfBlock.

Variable kDistanceMatrix : Mas.aa -> Mas.aa -> Z.
Variable sq : Mas.sequence.
Variables s0 e0 : nat.

Local Open Scope nat_scope.

Hypothesis Hblock : s0 <= e0 <= length sq.
Hypothesis Hshort : (Z.of_nat (length sq) < 65536)%Z.
Hypothesis Hpos : forall p, In p sq -> (0 < kDistanceMatrix p p)%Z.
Hypothesis Hdom : forall p q, In p sq -> In q sq ->
  (kDistanceMatrix p q <= kDistanceMatrix p p /\
   kDistanceMatrix p q <= kDistanceMatrix q q)%Z.

(** The score of column [x] against itself. *)
Definition self_score (x : nat) : Q :=
  inject_Z (kDistanceMatrix (nth x sq 0%Z) (nth x sq 0%Z)).

Lemma self_score_pos (x : nat) : x < length sq -> (0 < self_score x)%Q.
Proof.
  intros Hx. unfold self_score. change 0%Q with (inject_Z 0).
  rewrite <- Zlt_Qlt. apply Hpos. apply nth_In. exact Hx.
Qed.

Lemma self_score_nonneg (x : nat) : x < length sq -> (0 <= self_score x)%Q.
Proof. intros Hx. apply Qlt_le_weak, self_score_pos, Hx. Qed.

Lemma pair_le (x y : nat) :
  x < length sq -> y < length sq ->
  (inject_Z (kDistanceMatrix (nth x sq 0%Z) (nth y sq 0%Z))
   <= self_score (Nat.min x y))%Q.
Proof.
  intros Hx Hy. unfold self_score. rewrite <- Zle_Qle.
  destruct (Hdom (nth x sq 0%Z) (nth y sq 0%Z)) as [H1 H2];
    [apply nth_In; exact Hx | apply nth_In; exact Hy |].
  destruct (Nat.min_spec x y) as [[_ ->] | [_ ->]]; assumption.
Qed.

Definition D : nat -> Q := dsum self_score s0.
Definition top : nat -> nat -> Q := bound self_score s0.
Definition inside : nat -> Prop := in_block s0 e0.

Definition cell_ok (c : Mas.dstate) (x y : nat) : Prop :=
  (Mas.dB c x y <= top x y)%Q /\
  (Mas.dIx c x y <= top x y)%Q /\
  (Mas.dIy c x y <= top x y)%Q /\
  (x = y ->
     Mas.dB c x y == D (S (x - s0)) /\
     Mas.id c x y = Z.of_nat (S (x - s0))).

Definition filled (c : Mas.dstate) (x y : nat) : Prop :=
  (forall x' y', inside x' -> inside y' -> before x y x' y' ->
     cell_ok c x' y') /\
  (~ before x y (e0 - 1) (e0 - 1) ->
     match Mas.high c with
     | None => True
     | Some h => (h <= D (e0 - s0 - 1))%Q
     end) /\
  (before x y (e0 - 1) (e0 - 1) ->
     exists h, Mas.high c = Some h /\ h == D (e0 - s0) /\
               Mas.highIdSub c = Z.of_nat (e0 - s0)).

(** The values a cell is computed from. *)
Definition Ix1_of (c : Mas.dstate) (x y : nat) : Q :=
  if s0 <? x then Mas.dIx c (x - 1) y else 0%Q.

Definition Iy1_of (c : Mas.dstate) (x y : nat) : Q :=
  if s0 <? y then Mas.dIy c x (y - 1) else 0%Q.

Definition M_of (c : Mas.dstate) (x y : nat) : Q :=
  let M0 := inject_Z (kDistanceMatrix (nth x sq 0%Z) (nth y sq 0%Z)) in
  if ((s0 <? x) && (s0 <? y))%bool
  then (M0 + Mas.dB c (x - 1)%nat (y - 1)%nat)%Q else M0.

Definition cell : Mas.dstate -> nat -> nat -> Mas.dstate :=
  Mas.dcell kDistanceMatrix sq sq s0 s0 e0 e0.

(** The count a diagonal cell stores. *)
Definition id_next (c : Mas.dstate) (x : nat) : Z :=
  if s0 <? x then Mas.to_uint16 (1 + Mas.id c (x - 1)%nat (x - 1)%nat)%Z else 1%Z.

Lemma dcell_B (c : Mas.dstate) (x y : nat) :
  Mas.dB (cell c x y) =
    Mas.mset (Mas.dB c) x y (chosen (M_of c x y) (Ix1_of c x y) (Iy1_of c x y)).
Proof.
  unfold cell, Mas.dcell, chosen.
  fold (Ix1_of c x y) (Iy1_of c x y) (M_of c x y).
  destruct (Mas.choose _ _ _); reflexivity.
Qed.

Lemma dcell_Ix (c : Mas.dstate) (x y : nat) :
  Mas.dIx (cell c x y) =
    Mas.mset (Mas.dIx c) x y
      (fmax (M_of c x y - Mas.kDistanceGapOpen)
            (Ix1_of c x y - Mas.kDistanceGapExtend))%Q.
Proof.
  unfold cell, Mas.dcell.
  fold (Ix1_of c x y) (Iy1_of c x y) (M_of c x y).
  destruct (Mas.choose _ _ _); reflexivity.
Qed.

Lemma dcell_Iy (c : Mas.dstate) (x y : nat) :
  Mas.dIy (cell c x y) =
    Mas.mset (Mas.dIy c) x y
      (fmax (M_of c x y - Mas.kDistanceGapOpen)
            (Iy1_of c x y - Mas.kDistanceGapExtend))%Q.
Proof.
  unfold cell, Mas.dcell.
  fold (Ix1_of c x y) (Iy1_of c x y) (M_of c x y).
  destruct (Mas.choose _ _ _); reflexivity.
Qed.

Lemma dcell_id_other (c : Mas.dstate) (x y x' y' : nat) :
  (x', y') <> (x, y) -> Mas.id (cell c x y) x' y' = Mas.id c x' y'.
Proof.
  intros H. unfold cell, Mas.dcell.
  destruct (Mas.choose _ _ _); cbn [Mas.id]; apply mset_ne; exact H.
Qed.

(** On the diagonal, when the cell takes the first branch. *)
Lemma dcell_diagonal (c : Mas.dstate) (x : nat) :
  Mas.choose (M_of c x x) (Ix1_of c x x) (Iy1_of c x x) = Mas.Diagonal ->
  Mas.id (cell c x x) x x = id_next c x /\
  Mas.high (cell c x x) =
    (if ((x =? e0 - 1) && Mas.below (Mas.high c) (M_of c x x))%bool
     then Some (M_of c x x) else Mas.high c) /\
  Mas.highIdSub (cell c x x) =
    (if ((x =? e0 - 1) && Mas.below (Mas.high c) (M_of c x x))%bool
     then id_next c x else Mas.highIdSub c).
Proof.
  intros Hch. unfold cell, Mas.dcell, id_next.
  fold (Ix1_of c x x) (Iy1_of c x x) (M_of c x x). rewrite Hch.
  rewrite Z.eqb_refl. cbn [Mas.id Mas.high Mas.highIdSub].
  rewrite mset_eq, orb_diag, andb_diag. repeat split.
Qed.

(** The running maximum after any cell is the old one or the score of
    the cell. *)
Lemma dcell_high (c : Mas.dstate) (x y : nat) :
  (Mas.high (cell c x y) = Mas.high c /\
   Mas.highIdSub (cell c x y) = Mas.highIdSub c) \/
  Mas.high (cell c x y) =
    Some (chosen (M_of c x y) (Ix1_of c x y) (Iy1_of c x y)).
Proof.
  unfold cell, Mas.dcell, chosen.
  fold (Ix1_of c x y) (Iy1_of c x y) (M_of c x y).
  destruct (Mas.choose _ _ _); cbn [Mas.high Mas.highIdSub];
    match goal with
    | |- context [if ?b then _ else _] => destruct b
    end; auto.
Qed.

Section Cell.

Variables (c : Mas.dstate) (x y : nat).
Hypothesis Hx : inside x.
Hypothesis Hy : inside y.
Hypothesis Hfilled : filled c x y.

Lemma Ix1_le : (Ix1_of c x y <= top x y)%Q.
Proof.
  destruct Hfilled as (Hcells & _).
  destruct Hx as [Hx1 Hx2], Hy as [Hy1 Hy2]. unfold Ix1_of.
  destruct (Nat.ltb_spec s0 x) as [Hs | Hs].
  - destruct (Hcells (x - 1) y) as (_ & H & _);
      [split; lia | split; lia | left; lia |].
    eapply Qle_trans; [exact H |].
    apply (bound_mono self_score (length sq) s0 e0 Hblock self_score_nonneg); lia.
  - apply (bound_nonneg self_score (length sq) s0 e0 Hblock self_score_nonneg);
      split; lia.
Qed.

Lemma Iy1_le : (Iy1_of c x y <= top x y)%Q.
Proof.
  destruct Hfilled as (Hcells & _).
  destruct Hx as [Hx1 Hx2], Hy as [Hy1 Hy2]. unfold Iy1_of.
  destruct (Nat.ltb_spec s0 y) as [Hs | Hs].
  - destruct (Hcells x (y - 1)) as (_ & _ & H & _);
      [split; lia | split; lia | right; lia |].
    eapply Qle_trans; [exact H |].
    apply (bound_mono self_score (length sq) s0 e0 Hblock self_score_nonneg); lia.
  - apply (bound_nonneg self_score (length sq) s0 e0 Hblock self_score_nonneg);
      split; lia.
Qed.

Lemma M_le : (M_of c x y <= top x y)%Q.
Proof.
  destruct Hfilled as (Hcells & _).
  pose proof Hx as [Hx1 Hx2]. pose proof Hy as [Hy1 Hy2]. unfold M_of.
  pose proof (pair_le x y ltac:(lia) ltac:(lia)) as Hpair.
  destruct (Nat.ltb_spec s0 x) as [Hsx | Hsx];
    destruct (Nat.ltb_spec s0 y) as [Hsy | Hsy]; cbn [andb].
  - apply (diagonal_step self_score (length sq) s0 e0 Hblock); try assumption.
    apply (Hcells (x - 1) (y - 1)); [split; lia | split; lia | left; lia].
  - apply (first_step self_score (length sq) s0 e0 Hblock); try assumption. lia.
  - apply (first_step self_score (length sq) s0 e0 Hblock); try assumption. lia.
  - apply (first_step self_score (length sq) s0 e0 Hblock); try assumption. lia.
Qed.

End Cell.

Lemma M_diag (c : Mas.dstate) (x : nat) :
  inside x -> filled c x x -> M_of c x x == D (S (x - s0)).
Proof.
  intros Hx (Hcells & _). destruct Hx as [Hx1 Hx2]. unfold M_of, D.
  rewrite dsum_step. fold (self_score x).
  replace (s0 + (x - s0)) with x by lia.
  destruct (Nat.ltb_spec s0 x) as [Hs | Hs]; cbn [andb].
  - destruct (Hcells (x - 1) (x - 1)) as (_ & _ & _ & H);
      [split; lia | split; lia | left; lia |].
    destruct (H eq_refl) as [HB _]. rewrite HB. unfold D.
    replace (S (x - 1 - s0)) with (x - s0) by lia. ring.
  - replace (x - s0) with 0 by lia. cbn [dsum]. ring.
Qed.

Lemma id_next_diag (c : Mas.dstate) (x : nat) :
  inside x -> filled c x x -> id_next c x = Z.of_nat (S (x - s0)).
Proof.
  intros Hx (Hcells & _). destruct Hx as [Hx1 Hx2]. unfold id_next.
  destruct (Nat.ltb_spec s0 x) as [Hs | Hs].
  - destruct (Hcells (x - 1) (x - 1)) as (_ & _ & _ & H);
      [split; lia | split; lia | left; lia |].
    destruct (H eq_refl) as [_ Hid]. rewrite Hid.
    unfold Mas.to_uint16. rewrite Z.mod_small by lia. lia.
  - replace (x - s0) with 0 by lia. reflexivity.
Qed.

Lemma dcell_filled (c : Mas.dstate) (x y : nat) :
  inside x -> inside y -> filled c x y -> filled (cell c x y) x (S y).
Proof.
  intros Hx Hy Hfilled.
  pose proof (Ix1_le c x y Hx Hy Hfilled) as HIx.
  pose proof (Iy1_le c x y Hx Hy Hfilled) as HIy.
  pose proof (M_le c x y Hx Hy Hfilled) as HM.
  assert (Hchosen : (chosen (M_of c x y) (Ix1_of c x y) (Iy1_of c x y)
                     <= top x y)%Q) by (apply chosen_le; assumption).
  assert (Hdiag : x = y ->
            Mas.choose (M_of c x y) (Ix1_of c x y) (Iy1_of c x y) = Mas.Diagonal /\
            M_of c x y == D (S (x - s0))).
  { intros <-. pose proof (M_diag c x Hx Hfilled) as HMd.
    unfold top in HIx, HIy. rewrite bound_diag in HIx, HIy. fold D in HIx, HIy.
    split; [apply choose_diagonal; lra | exact HMd]. }
  destruct Hfilled as (Hcells & Hpre & Hpost).
  split; [| split].
  - (* the cells *)
    intros x' y' Hx' Hy' Hbefore.
    destruct (Nat.eq_dec x' x) as [Hex | Hnx];
      [destruct (Nat.eq_dec y' y) as [Hey | Hny] |].
    + subst x' y'. unfold cell_ok.
      rewrite dcell_B, dcell_Ix, dcell_Iy, !mset_eq.
      split; [exact Hchosen |].
      split; [apply fmax_le; unfold Mas.kDistanceGapOpen, Mas.kDistanceGapExtend; lra |].
      split; [apply fmax_le; unfold Mas.kDistanceGapOpen, Mas.kDistanceGapExtend; lra |].
      intros Hxy. destruct (Hdiag Hxy) as [Hch HMd]. subst y.
      split.
      * unfold chosen. rewrite Hch. exact HMd.
      * destruct (dcell_diagonal c x Hch) as (Hid & _). rewrite Hid.
        apply id_next_diag; [exact Hx | split; [exact Hcells | split; assumption]].
    + assert (Hne : (x', y') <> (x, y)) by congruence.
      assert (Hold : before x y x' y') by (unfold before in *; lia).
      specialize (Hcells x' y' Hx' Hy' Hold). unfold cell_ok in *.
      rewrite dcell_B, dcell_Ix, dcell_Iy, !mset_ne, dcell_id_other by exact Hne.
      exact Hcells.
    + assert (Hne : (x', y') <> (x, y)) by congruence.
      assert (Hold : before x y x' y') by (unfold before in *; lia).
      specialize (Hcells x' y' Hx' Hy' Hold). unfold cell_ok in *.
      rewrite dcell_B, dcell_Ix, dcell_Iy, !mset_ne, dcell_id_other by exact Hne.
      exact Hcells.
  - (* the maximum before the last cell *)
    intros Hnot.
    assert (Hnotold : ~ before x y (e0 - 1) (e0 - 1))
      by (unfold before in *; lia).
    specialize (Hpre Hnotold).
    destruct (dcell_high c x y) as [[Hsame _] | Hnew].
    + rewrite Hsame. exact Hpre.
    + rewrite Hnew. eapply Qle_trans; [exact Hchosen |].
      destruct Hx as [Hx1 Hx2], Hy as [Hy1 Hy2]. unfold top, bound, D.
      apply (dsum_mono self_score (length sq) s0 e0 Hblock self_score_nonneg);
        unfold before in *; lia.
  - (* the last cell *)
    intros Hlast. destruct Hx as [Hx1 Hx2], Hy as [Hy1 Hy2].
    assert (Hxl : x = e0 - 1) by (unfold before in *; lia).
    assert (Hxy : y = x) by (unfold before in *; lia).
    subst y. destruct (Hdiag eq_refl) as [Hch HMd].
    destruct (dcell_diagonal c x Hch) as (_ & Hhigh & Hsub).
    assert (Hnotold : ~ before x x (e0 - 1) (e0 - 1))
      by (unfold before; lia).
    specialize (Hpre Hnotold).
    assert (Hbelow : Mas.below (Mas.high c) (M_of c x x) = true).
    { unfold Mas.below. destruct (Mas.high c) as [h |]; [| reflexivity].
      apply negb_true_iff. destruct (Qle_bool (M_of c x x) h) eqn:Hle;
        [| reflexivity].
      apply Qle_bool_iff in Hle. exfalso.
      pose proof (self_score_pos (e0 - 1) ltac:(lia)) as Hd.
      rewrite HMd in Hle. unfold D in Hle, Hpre. rewrite dsum_step in Hle.
      replace (x - s0) with (e0 - s0 - 1) in Hle by lia.
      replace (s0 + (e0 - s0 - 1)) with (e0 - 1) in Hle by lia.
      lra. }
    replace (x =? e0 - 1) with true in Hhigh, Hsub
      by (symmetry; apply Nat.eqb_eq; exact Hxl).
    rewrite Hbelow in Hhigh, Hsub. cbn [andb] in Hhigh, Hsub.
    exists (M_of c x x). split; [exact Hhigh |].
    replace (e0 - s0) with (S (x - s0)) by lia.
    split; [exact HMd |].
    rewrite Hsub. apply id_next_diag; [split; lia |].
    split; [exact Hcells | split; [intros _; exact Hpre | intros H'; contradiction]].
Qed.

Lemma row_filled (x : nat) (k : nat) :
  forall y c,
    inside x -> s0 <= y -> y + k = e0 -> filled c x y ->
    filled (fold_left (fun st y' => cell st x y') (seq y k) c) x e0.
Proof.
  induction k as [| k IH]; intros y c Hx Hy Hk Hf.
  - replace e0 with y by lia. exact Hf.
  - cbn [seq fold_left]. apply IH; [exact Hx | lia | lia |].
    apply dcell_filled; [exact Hx | split; lia | exact Hf].
Qed.

Lemma filled_next_row (c : Mas.dstate) (x : nat) :
  inside x -> filled c x e0 -> filled c (S x) s0.
Proof.
  intros [Hx1 Hx2] (Hcells & Hpre & Hpost).
  split; [| split].
  - intros x' y' Hx' Hy' Hb. apply Hcells; try assumption.
    destruct Hy'. unfold before in *. lia.
  - intros Hn. apply Hpre. unfold before in *. lia.
  - intros Hb. apply Hpost. unfold before in *. lia.
Qed.

Lemma rows_filled (k : nat) :
  forall x c,
    s0 <= x -> x + k = e0 -> filled c x s0 ->
    filled
      (fold_left
         (fun st x' => fold_left (fun st y' => cell st x' y') (seq s0 (e0 - s0)) st)
         (seq x k) c)
      e0 s0.
Proof.
  induction k as [| k IH]; intros x c Hx Hk Hf.
  - replace e0 with x by lia. exact Hf.
  - cbn [seq fold_left]. apply IH; [lia | lia |].
    apply filled_next_row; [split; lia |].
    apply row_filled; [split; lia | lia | lia | exact Hf].
Qed.

(** A block of the self-comparison adds its width to the count. *)
Lemma dfill_self (c : Mas.dstate) :
  Mas.high c = None -> Mas.highIdSub c = 0%Z ->
  Mas.highIdSub (Mas.dfill kDistanceMatrix sq sq s0 s0 e0 e0 c) = Z.of_nat (e0 - s0).
Proof.
  intros Hhigh Hsub. unfold Mas.dfill.
  destruct (Nat.eq_dec s0 e0) as [Heq | Hne].
  - replace (e0 - s0) with 0 by lia. exact Hsub.
  - assert (Hinit : filled c s0 s0).
    { split; [| split].
      - intros x' y' [] [] Hb. unfold before in Hb. lia.
      - intros _. rewrite Hhigh. exact I.
      - intros Hb. unfold before in Hb. lia. }
    pose proof (rows_filled (e0 - s0) s0 c ltac:(lia) ltac:(lia) Hinit)
      as (_ & _ & Hpost).
    destruct Hpost as (h & _ & _ & Hres); [unfold before; lia |].
    exact Hres.
Qed.

End SelfBlock.

(** ** Anchors of a row against itself *)

Lemma read_nth {A : Type} (v : list A) (i : nat) (d : A) :
  (i < length v)%nat -> read v i = Ok (nth i v d).
Proof.
  intros H. unfold read. rewrite (nth_error_nth' v d H). reflexivity.
Qed.

Section SelfAnchors.

Variable P : list Z.

Local Open Scope nat_scope.


(** The next column at or after [p] that carries a position. *)
Lemma next_anchor (p : nat) :
  p <= (length P) ->
  exists q, p <= q <= (length P) /\
            (forall j, p <= j < q -> nth j P 0%Z = 0%Z) /\
            (q < (length P) -> nth q P 0%Z <> 0%Z).
Proof.
  intros Hp. remember ((length P) - p) as m eqn:Hm. revert p Hp Hm.
  induction m as [| m IH]; intros p Hp Hm.
  - exists p. split; [lia |]. split; intros; lia.
  - destruct (Z.eq_dec (nth p P 0%Z) 0%Z) as [Hz | Hnz].
    + destruct (IH (S p)) as (q & Hq & Hzero & Hnon); [lia | lia |].
      exists q. split; [lia |]. split; [| exact Hnon].
      intros j Hj. destruct (Nat.eq_dec j p) as [-> | Hne];
        [exact Hz | apply Hzero; lia].
    + exists p. split; [lia |]. split; [intros; lia | intros _; exact Hnz].
Qed.

Section Window.

Variables p q : nat.
Hypothesis Hpq : p <= q <= (length P).
Hypothesis Hzero : forall j, p <= j < q -> nth j P 0%Z = 0%Z.
Hypothesis Hnon : q < (length P) -> nth q P 0%Z <> 0%Z.

Lemma scan_second (k : nat) :
  forall j fuel, p <= j -> j + k = q -> k < fuel ->
    Mas.scan P P (length P) (length P) fuel q j = Ok (q, q).
Proof.
  induction k as [| k IH]; intros j fuel Hj Hk Hfuel;
    (destruct fuel as [| fuel]; [lia |]); cbn [Mas.scan].
  - replace j with q by lia.
    destruct (Nat.ltb_spec q (length P)) as [Hq | Hq]; cbn [orb andb]; [| reflexivity].
    rewrite (read_nth P q 0%Z Hq). cbn [bind].
    specialize (Hnon Hq). apply Z.eqb_neq in Hnon. rewrite Hnon.
    cbn [bind]. rewrite Z.eqb_refl. reflexivity.
  - assert (Hjn : j < (length P)) by lia.
    replace (j <? (length P)) with true by (symmetry; apply Nat.ltb_lt; exact Hjn).
    rewrite orb_true_r.
    assert (Hzx : (if q <? (length P) then p0 <- read P q;; Ok (p0 =? 0)%Z else Ok false)
                  = Ok false).
    { destruct (Nat.ltb_spec q (length P)) as [Hq | Hq]; [| reflexivity].
      rewrite (read_nth P q 0%Z Hq). cbn [bind].
      specialize (Hnon Hq). apply Z.eqb_neq in Hnon. rewrite Hnon. reflexivity. }
    rewrite Hzx. cbn [bind].
    rewrite (read_nth P j 0%Z Hjn). cbn [bind].
    rewrite (Hzero j) by lia. cbn [Z.eqb].
    apply IH; lia.
Qed.

Lemma scan_first (k : nat) :
  forall i fuel, p <= i -> i + k = q -> k + (q - p) < fuel ->
    Mas.scan P P (length P) (length P) fuel i p = Ok (q, q).
Proof.
  induction k as [| k IH]; intros i fuel Hi Hk Hfuel.
  - replace i with q by lia. apply (scan_second (q - p)); lia.
  - destruct fuel as [| fuel]; [lia |]. cbn [Mas.scan].
    assert (Hin : i < (length P)) by lia.
    replace (i <? (length P)) with true by (symmetry; apply Nat.ltb_lt; exact Hin).
    cbn [orb]. rewrite (read_nth P i 0%Z Hin). cbn [bind].
    rewrite (Hzero i) by lia. cbn [Z.eqb].
    apply IH; lia.
Qed.

End Window.

End SelfAnchors.

(** ** The distance of an entry to an identical copy *)

Section SelfDistance.

Variable kDistanceMatrix : Mas.aa -> Mas.aa -> Z.
Variables a b : Mas.entry.

Hypothesis Hseq : Mas.m_seq b = Mas.m_seq a.
Hypothesis Hpositions : Mas.m_positions b = Mas.m_positions a.
Hypothesis Hwf :
  Mas.m_positions a = [] \/
  length (Mas.m_positions a) = length (Mas.m_seq a).
Hypothesis Hshort : Z.of_nat (length (Mas.m_seq a)) < 65536.
Hypothesis Hpos : forall p, In p (Mas.m_seq a) -> 0 < kDistanceMatrix p p.
Hypothesis Hdom : forall p q, In p (Mas.m_seq a) -> In q (Mas.m_seq a) ->
  kDistanceMatrix p q <= kDistanceMatrix p p /\
  kDistanceMatrix p q <= kDistanceMatrix q q.

Local Open Scope nat_scope.

Lemma block_count (s0 e0 : nat) (c : Mas.dstate) :
  s0 <= e0 <= length (Mas.m_seq a) ->
  Mas.high c = None -> Mas.highIdSub c = 0%Z ->
  Mas.highIdSub
    (Mas.dfill kDistanceMatrix (Mas.m_seq a) (Mas.m_seq b) s0 s0 e0 e0 c)
  = Z.of_nat (e0 - s0).
Proof.
  intros Hblock Hhigh Hsub. rewrite Hseq.
  apply dfill_self; assumption.
Qed.

(** With anchors: from column [p] on, every iteration of the outer loop
    advances both rows alike and counts every column once. *)
Lemma dblocks_anchored (fuel : nat) :
  forall p c,
    length (Mas.m_positions a) = length (Mas.m_seq a) ->
    p <= length (Mas.m_seq a) -> length (Mas.m_seq a) - p < fuel ->
    exists c',
      Mas.dblocks kDistanceMatrix fuel a b
        (Mas.mkDloop p p p p (Z.of_nat p) c)
      = Ok (Mas.mkDloop (length (Mas.m_seq a)) (length (Mas.m_seq a))
              (length (Mas.m_seq a)) (length (Mas.m_seq a))
              (Z.of_nat (length (Mas.m_seq a))) c').
Proof.
  induction fuel as [| fuel IH]; intros p c Hlen Hp Hfuel; [lia |].
  cbn [Mas.dblocks Mas.lx Mas.ly Mas.lendX Mas.lendY Mas.highId Mas.cells].
  rewrite Hseq, Hpositions.
  destruct (Nat.ltb_spec p (length (Mas.m_seq a))) as [Hin | Hout];
    cbn [andb].
  - unfold Mas.at_anchor. rewrite !Nat.eqb_refl. cbn [andb].
    rewrite (read_nth (Mas.m_positions a) p 0%Z) by lia. cbn [bind].
    rewrite Z.eqb_refl. cbn [andb].
    destruct (Z.eqb_spec (nth p (Mas.m_positions a) 0%Z) 0) as [Hz | Hnz];
      cbn [negb].
    + (* a run of columns without position *)
      destruct (next_anchor (Mas.m_positions a) (S p)) as (q & Hq & Hzero & Hnon);
        [lia |].
      assert (Hzero' : forall j, p <= j < q -> nth j (Mas.m_positions a) 0%Z = 0%Z).
      { intros j Hj. destruct (Nat.eq_dec j p) as [-> | Hne];
          [exact Hz | apply Hzero; lia]. }
      assert (Hscan :
        Mas.scan (Mas.m_positions a) (Mas.m_positions a)
          (length (Mas.m_seq a)) (length (Mas.m_seq a))
          (S (length (Mas.m_seq a) + length (Mas.m_seq a))) p p = Ok (q, q)).
      { rewrite <- Hlen.
        apply (scan_first (Mas.m_positions a) p q ltac:(lia) Hzero' Hnon (q - p) p);
          lia. }
      rewrite Hscan. cbn [bind].
      match goal with
      | |- context [Mas.dfill _ _ _ _ _ _ _ ?c1] =>
          pose proof (block_count p q c1 ltac:(lia) eq_refl eq_refl) as Hcount
      end.
      rewrite Hseq in Hcount. rewrite Hcount.
      replace (Mas.to_uint16 (Z.of_nat p + Z.of_nat (q - p))) with (Z.of_nat q)
        by (unfold Mas.to_uint16; rewrite Z.mod_small; lia).
      apply IH; [exact Hlen | lia | lia].
    + (* an anchor *)
      rewrite Z.eqb_refl.
      replace (Mas.to_uint16 (Z.of_nat p + 1)) with (Z.of_nat (S p))
        by (unfold Mas.to_uint16; rewrite Z.mod_small; lia).
      apply IH; [exact Hlen | lia | lia].
  - replace p with (length (Mas.m_seq a)) by lia. eexists. reflexivity.
Qed.

(** Without anchors the whole matrix is one block. *)
Lemma dblocks_unanchored (c : Mas.dstate) :
  Mas.m_positions a = [] -> 0 < length (Mas.m_seq a) ->
  Mas.high c = None -> Mas.highIdSub c = 0%Z ->
  exists c',
    Mas.dblocks kDistanceMatrix
      (S (length (Mas.m_seq a) + length (Mas.m_seq b))) a b
      (Mas.mkDloop 0 0 (length (Mas.m_seq a)) (length (Mas.m_seq b)) 0%Z c)
    = Ok (Mas.mkDloop (length (Mas.m_seq a)) (length (Mas.m_seq a))
            (length (Mas.m_seq a)) (length (Mas.m_seq a))
            (Z.of_nat (length (Mas.m_seq a))) c').
Proof.
  intros Hnone Hlen Hhigh Hsub.
  rewrite Hseq.
  cbn [Mas.dblocks Mas.lx Mas.ly Mas.lendX Mas.lendY Mas.highId Mas.cells].
  rewrite Hseq, Hpositions, Hnone.
  replace (0 <? length (Mas.m_seq a)) with true
    by (symmetry; apply Nat.ltb_lt; exact Hlen).
  cbn [andb]. unfold Mas.at_anchor.
  replace (0 =? length (Mas.m_seq a)) with false
    by (symmetry; apply Nat.eqb_neq; lia).
  cbn [andb bind].
  replace (Mas.scan [] [] (length (Mas.m_seq a)) (length (Mas.m_seq a))
             (S (length (Mas.m_seq a) + length (Mas.m_seq a)))
             (length (Mas.m_seq a)) (length (Mas.m_seq a)))
    with (@Ok (nat * nat) (length (Mas.m_seq a), length (Mas.m_seq a))).
  2:{ cbn [Mas.scan]. rewrite Nat.ltb_irrefl. reflexivity. }
  cbn [bind].
  match goal with
  | |- context [Mas.dfill _ _ _ _ _ _ _ ?c1] =>
      pose proof (block_count 0 (length (Mas.m_seq a)) c1 ltac:(lia) eq_refl eq_refl)
        as Hcount
  end.
  rewrite Hseq in Hcount. rewrite Hcount.
  replace (Mas.to_uint16 (0 + Z.of_nat (length (Mas.m_seq a) - 0)))
    with (Z.of_nat (length (Mas.m_seq a)))
    by (unfold Mas.to_uint16; rewrite Z.mod_small; lia).
  destruct (length (Mas.m_seq a) + length (Mas.m_seq a)) as [| fuel] eqn:Hf;
    [lia |].
  cbn [Mas.dblocks Mas.lx Mas.ly]. rewrite Hseq, Nat.ltb_irrefl.
  cbn [andb]. eexists. reflexivity.
Qed.

Lemma finish_all_identical (n : nat) :
  0 < n ->
  exists r, Mas.finish (Z.of_nat n) n n = Ok r /\ r == 0.
Proof.
  intros Hn. unfold Mas.finish, fdiv. rewrite Nat.max_id.
  assert (Hnz : ~ inject_Z (Z.of_nat n) == 0).
  { intros H. apply (inject_Z_injective (Z.of_nat n) 0) in H. lia. }
  destruct (Qeq_bool (inject_Z (Z.of_nat n)) 0) eqn:Hq;
    [apply Qeq_bool_iff in Hq; contradiction |].
  assert (Hr : 1 - inject_Z (Z.of_nat n) / inject_Z (Z.of_nat n) == 0)
    by (field; exact Hnz).
  rewrite !assert_true; cbn [bind].
  - eexists. split; [reflexivity | exact Hr].
  - apply Qle_bool_iff. rewrite Hr. discriminate.
  - apply Qle_bool_iff. rewrite Hr. discriminate.
Qed.

Lemma self_distance :
  Mas.m_seq a <> [] ->
  exists r, Mas.calculateDistance kDistanceMatrix a b = Ok r /\ r == 0.
Proof.
  intros Hne.
  assert (Hlen : 0 < length (Mas.m_seq a))
    by (destruct (Mas.m_seq a); [contradiction | simpl; lia]).
  unfold Mas.calculateDistance.
  replace (length (Mas.m_seq a) =? 0) with false
    by (symmetry; apply Nat.eqb_neq; lia).
  rewrite Hseq, Hpositions.
  replace (length (Mas.m_seq a) =? 0) with false
    by (symmetry; apply Nat.eqb_neq; lia).
  cbn [orb bind].
  pose proof Hwf as Hwf'. destruct Hwf' as [Hnone | Hsame].
  - rewrite Hnone. cbn [Mas.is_empty orb].
    match goal with
    | |- context [Mas.dblocks _ _ _ _ (Mas.mkDloop _ _ _ _ _ ?c)] =>
        destruct (dblocks_unanchored c Hnone Hlen eq_refl eq_refl) as [c' Hrun]
    end.
    rewrite Hseq in Hrun. rewrite Hrun. cbn [bind Mas.highId].
    apply finish_all_identical. exact Hlen.
  - assert (Hpresent : Mas.is_empty (Mas.m_positions a) = false).
    { clear - Hsame Hlen.
      destruct (Mas.m_positions a); [simpl in Hsame; lia | reflexivity]. }
    rewrite Hpresent. cbn [orb].
    match goal with
    | |- context [Mas.dblocks _ ?f _ _ (Mas.mkDloop _ _ _ _ _ ?c)] =>
        destruct (dblocks_anchored f 0 c) as [c' Hrun]
    end; [exact Hsame | lia | lia |].
    cbn [Z.of_nat] in Hrun. rewrite Hrun. cbn [bind Mas.highId].
    apply finish_all_identical. exact Hlen.
Qed.

End SelfDistance.

(** ** Gap penalties stay non-negative *)

Lemma Qdiv_nonneg (p q : Q) : (0 <= p)%Q -> (0 <= q)%Q -> (0 <= p / q)%Q.
Proof.
  intros Hp Hq. unfold Qdiv. apply Qmult_le_0_compat; [exact Hp |].
  apply Qinv_le_0_compat. exact Hq.
Qed.

Lemma inject_nat_nonneg (k : nat) : (0 <= inject_Z (Z.of_nat k))%Q.
Proof. change 0%Q with (inject_Z 0). rewrite <- Zle_Qle. lia. Qed.

Lemma proximity_factor_nonneg (gaps : list nat) (ix : nat) :
  (0 <= proximity_factor gaps ix)%Q.
Proof.
  unfold proximity_factor, Mas.proximity.
  pose proof (find_least (Mas.near_gap gaps ix) 0 8) as Hfind.
  destruct (find (Mas.near_gap gaps ix) (seq 0 8)) as [d |]; [| discriminate].
  destruct Hfind as (Hd & _).
  apply Qdiv_nonneg; [| discriminate].
  change 0%Q with (inject_Z 0). rewrite <- Zle_Qle. lia.
Qed.

Lemma gop_factor_nonneg (n rows : nat) (ins : Mas.inspection) (ix : nat) :
  inspected n ins -> (0 <= gop_factor rows ins ix)%Q.
Proof.
  intros Hins. unfold gop_factor.
  destruct (0 <? nth ix (Mas.gaps ins) 0)%nat.
  - apply Qmult_le_0_compat; [discriminate |].
    apply Qdiv_nonneg; apply inject_nat_nonneg.
  - apply Qmult_le_0_compat; [apply proximity_factor_nonneg |].
    unfold tail_factor.
    destruct (nth ix (Mas.hydrophilic_stretch ins) false); [discriminate |].
    apply Qdiv_nonneg; [apply (penalty_nonneg _ _ Hins) | apply inject_nat_nonneg].
Qed.

Lemma gep_factor_nonneg (ins : Mas.inspection) (ix : nat) :
  (0 <= gep_factor ins ix)%Q.
Proof. unfold gep_factor. destruct (_ <? _)%nat; discriminate. Qed.

Lemma Qnth_repeat (q : Q) (n j : nat) :
  (j < n)%nat -> Mas.Qnth j (repeat q n) = q.
Proof. intros H. unfold Mas.Qnth. apply nth_repeat_lt. exact H. Qed.

(** The penalties [align] hands to its kernel. *)
Lemma adjust_gp_nonneg (kSignalGapCode : Mas.aa) (g e : Q) (n : nat)
    (rows : list Mas.entry) :
  rows <> [] -> (forall r, In r rows -> length (Mas.m_seq r) = n) ->
  (0 <= g)%Q -> (0 <= e)%Q ->
  exists gop gep,
    Mas.adjust_gp kSignalGapCode (repeat g n) (repeat e n) rows = Ok (gop, gep) /\
    length gop = n /\ length gep = n /\
    forall j, (j < n)%nat ->
      (0 <= Mas.Qnth j gop)%Q /\ (0 <= Mas.Qnth j gep)%Q.
Proof.
  intros Hrows Hblock Hg He.
  destruct (adjust_gp_factors kSignalGapCode (repeat g n) (repeat e n) rows Hrows)
    as (gop & gep & ins & Hrun & _ & Hins & _ & Hl1 & Hl2 & Hcol).
  - intros r Hr. rewrite repeat_length. apply Hblock. exact Hr.
  - rewrite !repeat_length. reflexivity.
  - rewrite !repeat_length in *.
    exists gop, gep. split; [exact Hrun |]. split; [exact Hl1 |]. split; [exact Hl2 |].
    intros j Hj. destruct (Hcol j Hj) as [H1 H2].
    rewrite Qnth_repeat in H1, H2 by exact Hj.
    rewrite H1, H2. split; apply Qmult_le_0_compat; try assumption.
    + apply (gop_factor_nonneg n). exact Hins.
    + apply gep_factor_nonneg.
Qed.

Lemma read_Qnth (v : list Q) (i : nat) :
  (i < length v)%nat -> read v i = Ok (Mas.Qnth i v).
Proof.
  intros H. unfold read, Mas.Qnth. rewrite (nth_error_nth' v 0%Q H). reflexivity.
Qed.

(** ** The alignment of a profile with an identical copy: one block *)

Lemma foreach_ok {A B : Type} (f : A -> B -> result A) (g : A -> B -> A)
    (l : list B) :
  (forall st x, In x l -> f st x = Ok (g st x)) ->
  forall st, foreach f l st = Ok (fold_left g l st).
Proof.
  induction l as [| x l IH]; intros Hf st; [reflexivity |].
  cbn [foreach fold_left]. rewrite Hf by (left; reflexivity). cbn [bind].
  apply IH. intros st' x' Hin. apply Hf. right. exact Hin.
Qed.

Section SelfAlignBlock.

Variable kSignalGapCode : Mas.aa.
Variable smat : Mas.aa -> Mas.aa -> Z.
Variables a b : list Mas.entry.
Variables gop_a gep_a gop_b gep_b : list Q.
Variable n : nat.
Variable sc : nat -> nat -> Q.
Variables s0 e0 : nat.

Local Open Scope nat_scope.

Hypothesis Hblock : s0 <= e0 <= n.
Hypothesis Hscore : forall x y, x < n -> y < n ->
  Mas.score kSignalGapCode smat a b x y = Ok (sc x y).
Hypothesis Hsc_le : forall x y, x < n -> y < n ->
  (sc x y <= sc (Nat.min x y) (Nat.min x y))%Q.
Hypothesis Hsc_nonneg : forall x, x < n -> (0 <= sc x x)%Q.
Hypothesis Hgop_a : length gop_a = n /\ forall x, (0 <= Mas.Qnth x gop_a)%Q.
Hypothesis Hgep_a : length gep_a = n /\ forall x, (0 <= Mas.Qnth x gep_a)%Q.
Hypothesis Hgop_b : length gop_b = n /\ forall x, (0 <= Mas.Qnth x gop_b)%Q.
Hypothesis Hgep_b : length gep_b = n /\ forall x, (0 <= Mas.Qnth x gep_b)%Q.

Definition column_score (x : nat) : Q := sc x x.

Definition aD : nat -> Q := dsum column_score s0.
Definition atop : nat -> nat -> Q := bound column_score s0.
Definition ainside : nat -> Prop := in_block s0 e0.

(** The values a cell is computed from. *)
Definition aIx1_of (c : Mas.astate) (x y : nat) : Q :=
  if s0 <? x then Mas.aIx c (x - 1) y else 0%Q.

Definition aIy1_of (c : Mas.astate) (x y : nat) : Q :=
  if s0 <? y then Mas.aIy c x (y - 1) else 0%Q.

Definition aM_of (c : Mas.astate) (x y : nat) : Q :=
  if ((s0 <? x) && (s0 <? y))%bool
  then (sc x y + Mas.aB c (x - 1)%nat (y - 1)%nat)%Q else sc x y.

Definition direction (M Ix1 Iy1 : Q) : Z :=
  match Mas.choose M Ix1 Iy1 with
  | Mas.Diagonal => 0%Z
  | Mas.Horizontal => 1%Z
  | Mas.Vertical => (-1)%Z
  end.

Definition best (c : Mas.astate) (x y : nat) : bool :=
  ((x =? e0 - 1) || (y =? e0 - 1)) &&
  Qle_bool (Mas.ahigh c) (chosen (aM_of c x y) (aIx1_of c x y) (aIy1_of c x y)).

(** The state a cell of the block leaves behind. *)
Definition acell_next (c : Mas.astate) (x y : nat) : Mas.astate :=
  let M := aM_of c x y in
  let Ix1 := aIx1_of c x y in
  let Iy1 := aIy1_of c x y in
  let s := chosen M Ix1 Iy1 in
  Mas.mkAstate
    (Mas.mset (Mas.aB c) x y s)
    (Mas.mset (Mas.aIx c) x y
       (fmax (M - (if x <? n - 1 then Mas.Qnth x gop_a else 0)) (Ix1 - Mas.Qnth x gep_a))%Q)
    (Mas.mset (Mas.aIy c) x y
       (fmax (M - (if y <? n - 1 then Mas.Qnth y gop_b else 0)) (Iy1 - Mas.Qnth y gep_b))%Q)
    (Mas.mset (Mas.tb c) x y (direction M Ix1 Iy1))
    (if best c x y then s else Mas.ahigh c)
    (if best c x y then x else Mas.highX c)
    (if best c x y then y else Mas.highY c).

Lemma acell_eq (c : Mas.astate) (x y : nat) :
  x < n -> y < n ->
  Mas.acell kSignalGapCode smat a b gop_a gep_a gop_b gep_b n n s0 s0 e0 e0 c x y
  = Ok (acell_next c x y).
Proof.
  intros Hx Hy. unfold Mas.acell. rewrite (Hscore x y Hx Hy). cbn [bind].
  destruct Hgop_a as [La _], Hgep_a as [Lea _], Hgop_b as [Lb _], Hgep_b as [Leb _].
  rewrite (read_Qnth gep_a x) by lia. rewrite (read_Qnth gep_b y) by lia.
  assert (Hgx : (if x <? n - 1 then read gop_a x else Ok 0%Q)
                = Ok (if x <? n - 1 then Mas.Qnth x gop_a else 0%Q)).
  { destruct (x <? n - 1); [apply read_Qnth; lia | reflexivity]. }
  assert (Hgy : (if y <? n - 1 then read gop_b y else Ok 0%Q)
                = Ok (if y <? n - 1 then Mas.Qnth y gop_b else 0%Q)).
  { destruct (y <? n - 1); [apply read_Qnth; lia | reflexivity]. }
  unfold acell_next, best, chosen, direction.
  fold (aIx1_of c x y) (aIy1_of c x y) (aM_of c x y).
  destruct (Mas.choose _ _ _); rewrite Hgx, Hgy; reflexivity.
Qed.

Lemma afill_eq (c : Mas.astate) :
  Mas.afill kSignalGapCode smat a b gop_a gep_a gop_b gep_b n n s0 s0 e0 e0 c
  = Ok (fold_left
          (fun st x => fold_left (fun st y => acell_next st x y) (seq s0 (e0 - s0)) st)
          (seq s0 (e0 - s0)) c).
Proof.
  unfold Mas.afill. apply foreach_ok. intros st x Hx.
  apply in_seq in Hx. apply foreach_ok. intros st' y Hy.
  apply in_seq in Hy. apply acell_eq; lia.
Qed.

Lemma column_score_nonneg (x : nat) : x < n -> (0 <= column_score x)%Q.
Proof. exact (Hsc_nonneg x). Qed.

Definition acell_ok (c : Mas.astate) (x y : nat) : Prop :=
  (Mas.aB c x y <= atop x y)%Q /\
  (Mas.aIx c x y <= atop x y)%Q /\
  (Mas.aIy c x y <= atop x y)%Q /\
  (x = y -> Mas.aB c x y == aD (S (x - s0)) /\ Mas.tb c x y = 0%Z).

Definition afilled (c : Mas.astate) (x y : nat) : Prop :=
  (forall x' y', ainside x' -> ainside y' -> before x y x' y' ->
     acell_ok c x' y') /\
  (forall k, k < s0 -> Mas.tb c k k = 0%Z) /\
  (~ before x y (e0 - 1) (e0 - 1) -> (Mas.ahigh c <= aD (e0 - s0))%Q) /\
  (before x y (e0 - 1) (e0 - 1) ->
     Mas.highX c = e0 - 1 /\ Mas.highY c = e0 - 1).

Section AlignCell.

Variables (c : Mas.astate) (x y : nat).
Hypothesis Hx : ainside x.
Hypothesis Hy : ainside y.
Hypothesis Hfilled : afilled c x y.

Lemma aIx1_le : (aIx1_of c x y <= atop x y)%Q.
Proof.
  destruct Hfilled as (Hcells & _).
  destruct Hx as [Hx1 Hx2], Hy as [Hy1 Hy2]. unfold aIx1_of.
  destruct (Nat.ltb_spec s0 x) as [Hs | Hs].
  - destruct (Hcells (x - 1) y) as (_ & H & _);
      [split; lia | split; lia | left; lia |].
    eapply Qle_trans; [exact H |].
    apply (bound_mono column_score n s0 e0 Hblock column_score_nonneg); lia.
  - apply (bound_nonneg column_score n s0 e0 Hblock column_score_nonneg);
      split; lia.
Qed.

Lemma aIy1_le : (aIy1_of c x y <= atop x y)%Q.
Proof.
  destruct Hfilled as (Hcells & _).
  destruct Hx as [Hx1 Hx2], Hy as [Hy1 Hy2]. unfold aIy1_of.
  destruct (Nat.ltb_spec s0 y) as [Hs | Hs].
  - destruct (Hcells x (y - 1)) as (_ & _ & H & _);
      [split; lia | split; lia | right; lia |].
    eapply Qle_trans; [exact H |].
    apply (bound_mono column_score n s0 e0 Hblock column_score_nonneg); lia.
  - apply (bound_nonneg column_score n s0 e0 Hblock column_score_nonneg);
      split; lia.
Qed.

Lemma aM_le : (aM_of c x y <= atop x y)%Q.
Proof.
  destruct Hfilled as (Hcells & _).
  pose proof Hx as [Hx1 Hx2]. pose proof Hy as [Hy1 Hy2]. unfold aM_of.
  pose proof (Hsc_le x y ltac:(lia) ltac:(lia)) as Hpair.
  fold (column_score (Nat.min x y)) in Hpair.
  destruct (Nat.ltb_spec s0 x) as [Hsx | Hsx];
    destruct (Nat.ltb_spec s0 y) as [Hsy | Hsy]; cbn [andb].
  - apply (diagonal_step column_score n s0 e0 Hblock); try assumption.
    apply (Hcells (x - 1) (y - 1)); [split; lia | split; lia | left; lia].
  - apply (first_step column_score n s0 e0 Hblock); try assumption. lia.
  - apply (first_step column_score n s0 e0 Hblock); try assumption. lia.
  - apply (first_step column_score n s0 e0 Hblock); try assumption. lia.
Qed.

End AlignCell.

Lemma aM_diag (c : Mas.astate) (x : nat) :
  ainside x -> afilled c x x -> aM_of c x x == aD (S (x - s0)).
Proof.
  intros Hx (Hcells & _). destruct Hx as [Hx1 Hx2]. unfold aM_of, aD.
  rewrite dsum_step. fold (column_score x).
  replace (s0 + (x - s0)) with x by lia.
  destruct (Nat.ltb_spec s0 x) as [Hs | Hs]; cbn [andb].
  - destruct (Hcells (x - 1) (x - 1)) as (_ & _ & _ & H);
      [split; lia | split; lia | left; lia |].
    destruct (H eq_refl) as [HB _]. rewrite HB. unfold aD.
    replace (S (x - 1 - s0)) with (x - s0) by lia. ring.
  - replace (x - s0) with 0 by lia. cbn [dsum]. ring.
Qed.

Lemma acell_filled (c : Mas.astate) (x y : nat) :
  ainside x -> ainside y -> afilled c x y -> afilled (acell_next c x y) x (S y).
Proof.
  intros Hx Hy Hfilled.
  pose proof (aIx1_le c x y Hx Hy Hfilled) as HIx.
  pose proof (aIy1_le c x y Hx Hy Hfilled) as HIy.
  pose proof (aM_le c x y Hx Hy Hfilled) as HM.
  assert (Hchosen : (chosen (aM_of c x y) (aIx1_of c x y) (aIy1_of c x y)
                     <= atop x y)%Q) by (apply chosen_le; assumption).
  assert (Hdiag : x = y ->
            Mas.choose (aM_of c x y) (aIx1_of c x y) (aIy1_of c x y) = Mas.Diagonal /\
            aM_of c x y == aD (S (x - s0))).
  { intros <-. pose proof (aM_diag c x Hx Hfilled) as HMd.
    unfold atop in HM. rewrite bound_diag in HM. fold aD in HM.
    split; [| exact HMd].
    destruct Hx as [Hx1 Hx2]. destruct Hfilled as (Hcells & _).
    apply choose_diagonal.
    - unfold aIx1_of. destruct (Nat.ltb_spec s0 x) as [Hs | Hs].
      + destruct (Hcells (x - 1) x) as (_ & H & _);
          [split; lia | split; lia | left; lia |].
        unfold atop, bound in H.
        replace (S (Nat.min (x - 1) x - s0)) with (x - s0) in H by lia.
        rewrite HMd. unfold aD. rewrite dsum_step.
        pose proof (Hsc_nonneg (s0 + (x - s0)) ltac:(lia)) as Hd.
        fold (column_score (s0 + (x - s0))) in Hd.
        fold (dsum column_score s0 (x - s0)) in H. lra.
      + rewrite HMd.
        apply (dsum_nonneg column_score n s0 e0 Hblock column_score_nonneg). lia.
    - unfold aIy1_of. destruct (Nat.ltb_spec s0 x) as [Hs | Hs].
      + destruct (Hcells x (x - 1)) as (_ & _ & H & _);
          [split; lia | split; lia | right; lia |].
        unfold atop, bound in H.
        replace (S (Nat.min x (x - 1) - s0)) with (x - s0) in H by lia.
        rewrite HMd. unfold aD. rewrite dsum_step.
        pose proof (Hsc_nonneg (s0 + (x - s0)) ltac:(lia)) as Hd.
        fold (column_score (s0 + (x - s0))) in Hd.
        fold (dsum column_score s0 (x - s0)) in H. lra.
      + rewrite HMd.
        apply (dsum_nonneg column_score n s0 e0 Hblock column_score_nonneg). lia. }
  assert (Hpen : forall u v g e : Q,
            (u <= atop x y)%Q -> (v <= atop x y)%Q -> (0 <= g)%Q -> (0 <= e)%Q ->
            (fmax (u - g) (v - e) <= atop x y)%Q).
  { intros u v g e Hu Hv Hg He. apply fmax_le; lra. }
  destruct Hfilled as (Hcells & Hframe & Hpre & Hpost).
  split; [| split; [| split]].
  - (* the cells *)
    intros x' y' Hx' Hy' Hbefore.
    destruct (Nat.eq_dec x' x) as [Hex | Hnx];
      [destruct (Nat.eq_dec y' y) as [Hey | Hny] |].
    + subst x' y'. unfold acell_ok, acell_next.
      cbn [Mas.aB Mas.aIx Mas.aIy Mas.tb]. rewrite !mset_eq.
      split; [exact Hchosen |].
      split.
      { apply Hpen; try assumption;
          [destruct (x <? n - 1); [apply Hgop_a | apply Qle_refl] | apply Hgep_a]. }
      split.
      { apply Hpen; try assumption;
          [destruct (y <? n - 1); [apply Hgop_b | apply Qle_refl] | apply Hgep_b]. }
      intros Hxy. destruct (Hdiag Hxy) as [Hch HMd].
      unfold chosen, direction. rewrite Hch. subst y. split; [exact HMd | reflexivity].
    + assert (Hne : (x', y') <> (x, y)) by congruence.
      assert (Hold : before x y x' y') by (unfold before in *; lia).
      specialize (Hcells x' y' Hx' Hy' Hold). unfold acell_ok, acell_next in *.
      cbn [Mas.aB Mas.aIx Mas.aIy Mas.tb]. rewrite !mset_ne by exact Hne.
      exact Hcells.
    + assert (Hne : (x', y') <> (x, y)) by congruence.
      assert (Hold : before x y x' y') by (unfold before in *; lia).
      specialize (Hcells x' y' Hx' Hy' Hold). unfold acell_ok, acell_next in *.
      cbn [Mas.aB Mas.aIx Mas.aIy Mas.tb]. rewrite !mset_ne by exact Hne.
      exact Hcells.
  - (* the cells before the block *)
    intros k Hk. unfold acell_next. cbn [Mas.tb].
    rewrite mset_ne; [apply Hframe; exact Hk |].
    destruct Hx. intros Heq. injection Heq as -> _. lia.
  - (* the maximum *)
    intros Hnot.
    assert (Hnotold : ~ before x y (e0 - 1) (e0 - 1))
      by (unfold before in *; lia).
    specialize (Hpre Hnotold). unfold acell_next. cbn [Mas.ahigh].
    destruct (best c x y); [| exact Hpre].
    eapply Qle_trans; [exact Hchosen |].
    apply (bound_last column_score n s0 e0 Hblock column_score_nonneg); assumption.
  - (* the last cell *)
    intros Hlast. destruct Hx as [Hx1 Hx2], Hy as [Hy1 Hy2].
    assert (Hxl : x = e0 - 1) by (unfold before in *; lia).
    assert (Hxy : y = x) by (unfold before in *; lia).
    subst y. destruct (Hdiag eq_refl) as [Hch HMd].
    assert (Hnotold : ~ before x x (e0 - 1) (e0 - 1))
      by (unfold before; lia).
    specialize (Hpre Hnotold).
    assert (Hbest : best c x x = true).
    { unfold best, chosen. rewrite Hch.
      replace (x =? e0 - 1) with true by (symmetry; apply Nat.eqb_eq; exact Hxl).
      cbn [orb andb]. apply Qle_bool_iff. rewrite HMd.
      replace (S (x - s0)) with (e0 - s0) by lia. exact Hpre. }
    unfold acell_next. cbn [Mas.highX Mas.highY]. rewrite Hbest.
    split; exact Hxl.
Qed.

Lemma arow_filled (x : nat) (k : nat) :
  forall y c,
    ainside x -> s0 <= y -> y + k = e0 -> afilled c x y ->
    afilled (fold_left (fun st y' => acell_next st x y') (seq y k) c) x e0.
Proof.
  induction k as [| k IH]; intros y c Hx Hy Hk Hf.
  - replace e0 with y by lia. exact Hf.
  - cbn [seq fold_left]. apply IH; [exact Hx | lia | lia |].
    apply acell_filled; [exact Hx | split; lia | exact Hf].
Qed.

Lemma afilled_next_row (c : Mas.astate) (x : nat) :
  ainside x -> afilled c x e0 -> afilled c (S x) s0.
Proof.
  intros [Hx1 Hx2] (Hcells & Hframe & Hpre & Hpost).
  split; [| split; [| split]].
  - intros x' y' Hx' Hy' Hb. apply Hcells; try assumption.
    destruct Hy'. unfold before in *. lia.
  - exact Hframe.
  - intros Hn. apply Hpre. unfold before in *. lia.
  - intros Hb. apply Hpost. unfold before in *. lia.
Qed.

Lemma arows_filled (k : nat) :
  forall x c,
    s0 <= x -> x + k = e0 -> afilled c x s0 ->
    afilled
      (fold_left
         (fun st x' => fold_left (fun st y' => acell_next st x' y') (seq s0 (e0 - s0)) st)
         (seq x k) c)
      e0 s0.
Proof.
  induction k as [| k IH]; intros x c Hx Hk Hf.
  - replace e0 with x by lia. exact Hf.
  - cbn [seq fold_left]. apply IH; [lia | lia |].
    apply afilled_next_row; [split; lia |].
    apply arow_filled; [split; lia | lia | lia | exact Hf].
Qed.

(** A block of the alignment of a profile with an identical copy: the
    traceback follows the diagonal, and the best cell is the last one. *)
Lemma afill_self (c : Mas.astate) :
  s0 < e0 ->
  (forall k, k < s0 -> Mas.tb c k k = 0%Z) ->
  Mas.ahigh c == 0 ->
  exists c',
    Mas.afill kSignalGapCode smat a b gop_a gep_a gop_b gep_b n n s0 s0 e0 e0 c
    = Ok c' /\
    (forall k, k < e0 -> Mas.tb c' k k = 0%Z) /\
    Mas.highX c' = e0 - 1 /\ Mas.highY c' = e0 - 1.
Proof.
  intros Hlt Hframe Hhigh. rewrite afill_eq. eexists. split; [reflexivity |].
  assert (Hinit : afilled c s0 s0).
  { split; [| split; [| split]].
    - intros x' y' [] [] Hb. unfold before in Hb. lia.
    - exact Hframe.
    - intros _. rewrite Hhigh.
      apply (dsum_nonneg column_score n s0 e0 Hblock column_score_nonneg). lia.
    - intros Hb. unfold before in Hb. lia. }
  pose proof (arows_filled (e0 - s0) s0 c ltac:(lia) ltac:(lia) Hinit)
    as (Hcells & Hframe' & _ & Hpost).
  split; [| apply Hpost; unfold before; lia].
  intros k Hk. destruct (Nat.lt_ge_cases k s0) as [Hks | Hks].
  - apply Hframe'. exact Hks.
  - destruct (Hcells k k) as (_ & _ & _ & H);
      [split; lia | split; lia | unfold before; lia |].
    apply (H eq_refl).
Qed.

End SelfAlignBlock.

(** ** The traceback matrix around a block *)

Lemma mark_row_diagonal (from to y : nat) (t : Mas.matrix Z) (k : nat) :
  (y < from)%nat -> Mas.mark_row from to y t k k = t k k.
Proof.
  intros Hy. unfold Mas.mark_row.
  generalize (to - from)%nat as m. intros m. revert from Hy t.
  induction m as [| m IH]; intros from Hy t; [reflexivity |].
  cbn [seq fold_left]. rewrite IH by lia.
  apply mset_ne. intros Heq. injection Heq as H1 H2. lia.
Qed.

Lemma mark_column_diagonal (from to x : nat) (t : Mas.matrix Z) (k : nat) :
  (x < from)%nat -> Mas.mark_column from to x t k k = t k k.
Proof.
  intros Hx. unfold Mas.mark_column.
  generalize (to - from)%nat as m. intros m. revert from Hx t.
  induction m as [| m IH]; intros from Hx t; [reflexivity |].
  cbn [seq fold_left]. rewrite IH by lia.
  apply mset_ne. intros Heq. injection Heq as H1 H2. lia.
Qed.

Lemma lead_to_high_at_end (endX endY toX toY : nat) (c : Mas.astate) :
  (toX <= S (Mas.highX c))%nat -> (toY <= S (Mas.highY c))%nat ->
  Mas.lead_to_high endX endY toX toY c = c.
Proof.
  intros Hx Hy. destruct c as [B Ix Iy t h hx hy].
  cbn [Mas.highX Mas.highY] in Hx, Hy.
  unfold Mas.lead_to_high, Mas.mark_row, Mas.mark_column, Mas.with_tb.
  cbn [Mas.aB Mas.aIx Mas.aIy Mas.tb Mas.ahigh Mas.highX Mas.highY].
  replace (toX - S hx)%nat with 0%nat by lia.
  replace (toY - S hy)%nat with 0%nat by lia.
  cbn [seq fold_left].
  destruct (0 <? endY)%nat, (0 <? endX)%nat; reflexivity.
Qed.

Lemma traceback_diagonal (kSignalGapCode : Mas.aa) (t : Mas.matrix Z)
    (a b : list Mas.entry) (p : nat) :
  forall fuel, (p < fuel)%nat ->
    (forall k, (k < p)%nat -> t k k = 0) ->
    Mas.traceback kSignalGapCode fuel t p p a b = Ok (0%nat, 0%nat, a, b).
Proof.
  induction p as [| p IH]; intros fuel Hfuel Hdiag;
    (destruct fuel as [| fuel]; [lia |]); cbn [Mas.traceback]; [reflexivity |].
  rewrite (Hdiag p) by lia. cbn [Z.eqb].
  apply IH; [lia |]. intros k Hk. apply Hdiag. lia.
Qed.

Lemma max_positions_self (P : list Z) : Mas.max_positions P P = Ok P.
Proof.
  induction P as [| p P IH]; [reflexivity |].
  cbn [Mas.max_positions]. rewrite IH. cbn [bind]. rewrite Z.max_id. reflexivity.
Qed.

(** ** The outer loop of [align] on a profile and an identical copy *)

Section SelfAlignLoop.

Variable kSignalGapCode : Mas.aa.
Variable smat : Mas.aa -> Mas.aa -> Z.
Variables a b : list Mas.entry.
Variables gop_a gep_a gop_b gep_b : list Q.
Variable P : list Z.
Variable n : nat.
Variable sc : nat -> nat -> Q.

Local Open Scope nat_scope.

Hypothesis Hscore : forall x y, x < n -> y < n ->
  Mas.score kSignalGapCode smat a b x y = Ok (sc x y).
Hypothesis Hsc_le : forall x y, x < n -> y < n ->
  (sc x y <= sc (Nat.min x y) (Nat.min x y))%Q.
Hypothesis Hsc_nonneg : forall x, x < n -> (0 <= sc x x)%Q.
Hypothesis Hgop_a : length gop_a = n /\ forall x, (0 <= Mas.Qnth x gop_a)%Q.
Hypothesis Hgep_a : length gep_a = n /\ forall x, (0 <= Mas.Qnth x gep_a)%Q.
Hypothesis Hgop_b : length gop_b = n /\ forall x, (0 <= Mas.Qnth x gop_b)%Q.
Hypothesis Hgep_b : length gep_b = n /\ forall x, (0 <= Mas.Qnth x gep_b)%Q.

(** What the loop keeps between two blocks that end in column [p]. *)
Definition on_diagonal (p : nat) (c : Mas.astate) : Prop :=
  (forall k, k < p -> Mas.tb c k k = 0%Z) /\
  (0 < p -> Mas.highX c = p - 1 /\ Mas.highY c = p - 1).

Lemma block_on_diagonal (p q : nat) (c : Mas.astate) :
  p < q <= n -> on_diagonal p c ->
  exists c',
    Mas.afill kSignalGapCode smat a b gop_a gep_a gop_b gep_b n n p p q q
      (Mas.mkAstate (Mas.aB c) (Mas.mset (Mas.aIx c) p p 0%Q)
         (Mas.mset (Mas.aIy c) p p 0%Q)
         (let t1 := if 0 <? p then Mas.mark_row p q (p - 1) (Mas.tb c)
                    else Mas.tb c in
          if 0 <? p then Mas.mark_column p q (p - 1) t1 else t1)
         0%Q (Mas.highX c) (Mas.highY c))
    = Ok c' /\ on_diagonal q c'.
Proof.
  intros Hpq [Hdiag _].
  match goal with
  | |- context [Mas.afill _ _ _ _ _ _ _ _ _ _ _ _ _ _ ?c1] =>
      destruct (afill_self kSignalGapCode smat a b gop_a gep_a gop_b gep_b n sc p q
                  ltac:(lia) Hscore Hsc_le Hsc_nonneg Hgop_a Hgep_a Hgop_b Hgep_b c1)
        as (c' & Hrun & Hdiag' & Hhigh)
  end.
  - lia.
  - intros k Hk. cbn [Mas.tb].
    destruct (Nat.ltb_spec 0 p) as [Hp | Hp]; [| lia].
    rewrite mark_column_diagonal, mark_row_diagonal by lia.
    apply Hdiag. exact Hk.
  - reflexivity.
  - exists c'. split; [exact Hrun |]. split; [exact Hdiag' | intros _; exact Hhigh].
Qed.

(** With anchors. *)
Lemma ablocks_anchored (fuel : nat) :
  forall p c,
    length P = n -> p <= n -> n - p < fuel -> on_diagonal p c ->
    exists c',
      Mas.ablocks kSignalGapCode smat a b gop_a gep_a gop_b gep_b P P n n fuel
        (Mas.mkAloop p p p p c)
      = Ok (Mas.mkAloop n n n n c') /\ on_diagonal n c'.
Proof.
  induction fuel as [| fuel IH]; intros p c Hlen Hp Hfuel Hinv; [lia |].
  cbn [Mas.ablocks Mas.ax Mas.ay Mas.aendX Mas.aendY Mas.acells].
  destruct (Nat.ltb_spec p n) as [Hin | Hout]; cbn [andb].
  - unfold Mas.at_anchor. rewrite !Nat.eqb_refl. cbn [andb].
    rewrite (read_nth P p 0%Z) by lia. cbn [bind].
    rewrite Z.eqb_refl. cbn [andb].
    destruct (Z.eqb_spec (nth p P 0%Z) 0) as [Hz | Hnz]; cbn [negb].
    + (* a run of columns without position *)
      destruct (next_anchor P (S p)) as (q & Hq & Hzero & Hnon); [lia |].
      assert (Hzero' : forall j, p <= j < q -> nth j P 0%Z = 0%Z).
      { intros j Hj. destruct (Nat.eq_dec j p) as [-> | Hne];
          [exact Hz | apply Hzero; lia]. }
      assert (Hscan : Mas.scan P P n n (S (n + n)) p p = Ok (q, q)).
      { rewrite <- Hlen.
        apply (scan_first P p q ltac:(lia) Hzero' Hnon (q - p) p); lia. }
      rewrite Hscan. cbn [bind].
      destruct (block_on_diagonal p q c ltac:(lia) Hinv) as (c' & Hrun & Hinv').
      cbn zeta in Hrun. rewrite Hrun. cbn [bind].
      destruct Hinv' as [Hd' Hh']. destruct (Hh' ltac:(lia)) as [HhX HhY].
      rewrite lead_to_high_at_end by lia.
      apply IH; [exact Hlen | lia | lia | split; assumption].
    + (* an anchor *)
      apply IH; [exact Hlen | lia | lia |].
      destruct Hinv as [Hdiag _]. split.
      * intros k Hk. cbn [Mas.tb].
        destruct (Nat.eq_dec k p) as [-> | Hne]; [apply mset_eq |].
        rewrite mset_ne by congruence. apply Hdiag. lia.
      * intros _. cbn [Mas.highX Mas.highY]. split; lia.
  - replace p with n by lia. exists c. split; [reflexivity |].
    replace n with p by lia. exact Hinv.
Qed.

(** Without anchors the whole matrix is one block. *)
Lemma ablocks_unanchored (pa pb : list Z) (c : Mas.astate) :
  0 < n -> Mas.ahigh c == 0 ->
  exists c',
    Mas.ablocks kSignalGapCode smat a b gop_a gep_a gop_b gep_b pa pb n n (S (n + n))
      (Mas.mkAloop 0 0 n n c)
    = Ok (Mas.mkAloop n n n n c') /\ on_diagonal n c'.
Proof.
  intros Hn Hhigh.
  cbn [Mas.ablocks Mas.ax Mas.ay Mas.aendX Mas.aendY Mas.acells].
  replace (0 <? n) with true by (symmetry; apply Nat.ltb_lt; exact Hn).
  cbn [andb]. unfold Mas.at_anchor.
  replace (0 =? n) with false by (symmetry; apply Nat.eqb_neq; lia).
  cbn [andb bind].
  replace (Mas.scan pa pb n n (S (n + n)) n n) with (@Ok (nat * nat) (n, n)).
  2:{ cbn [Mas.scan]. rewrite Nat.ltb_irrefl. reflexivity. }
  cbn [bind]. rewrite Nat.ltb_irrefl.
  match goal with
  | |- context [Mas.afill _ _ _ _ _ _ _ _ _ _ _ _ _ _ ?c1] =>
      destruct (afill_self kSignalGapCode smat a b gop_a gep_a gop_b gep_b n sc 0 n
                  ltac:(lia) Hscore Hsc_le Hsc_nonneg Hgop_a Hgep_a Hgop_b Hgep_b c1)
        as (c' & Hrun & Hdiag' & HhX & HhY)
  end.
  - exact Hn.
  - intros k Hk. lia.
  - reflexivity.
  - rewrite Hrun. cbn [bind]. rewrite lead_to_high_at_end by lia.
    destruct (n + n) as [| fuel] eqn:Hf; [lia |].
    cbn [Mas.ablocks Mas.ax Mas.ay]. rewrite Nat.ltb_irrefl. cbn [andb].
    exists c'. split; [reflexivity |]. split; [exact Hdiag' | intros _; split; assumption].
Qed.

End SelfAlignLoop.

(** ** Two identical single rows *)

Section SelfAlign.

Variable kSignalGapCode : Mas.aa.
Variable smat : Mas.aa -> Mas.aa -> Z.
Variables mismatch_average scale_factor : Q.
Variable log10 : Q -> Q.
Variables ea eb : Mas.entry.
Variables gop gep magic : Q.
Variable ignorePositions : bool.

Hypothesis Hseq : Mas.m_seq eb = Mas.m_seq ea.
Hypothesis Hpositions : Mas.m_positions eb = Mas.m_positions ea.
Hypothesis Hwf :
  Mas.m_positions ea = [] \/
  length (Mas.m_positions ea) = length (Mas.m_seq ea).
Hypothesis Hne : Mas.m_seq ea <> [].
Hypothesis Hweight_a : (0 <= Mas.m_weight ea)%Q.
Hypothesis Hweight_b : (0 <= Mas.m_weight eb)%Q.
Hypothesis Hsmat_nonneg : forall p, In p (Mas.m_seq ea) -> 0 <= smat p p.
Hypothesis Hsmat_dom : forall p q, In p (Mas.m_seq ea) -> In q (Mas.m_seq ea) ->
  smat p q <= smat p p /\ smat p q <= smat q q.
Hypothesis Hpen :
  match Mas.initial_penalties mismatch_average scale_factor log10 [ea] [eb]
          (length (Mas.m_seq ea)) (length (Mas.m_seq ea)) gop gep magic with
  | (ga, ge, gb, gf) => (0 <= ga /\ 0 <= ge /\ 0 <= gb /\ 0 <= gf)%Q
  end.

Local Open Scope nat_scope.

(** The score of column [x] of the first row against column [y] of the
    second. *)
Definition pair_score (x y : nat) : Q :=
  let ra := nth x (Mas.m_seq ea) 0%Z in
  let rb := nth y (Mas.m_seq eb) 0%Z in
  ((if (negb (ra =? kSignalGapCode)%Z && negb (rb =? kSignalGapCode)%Z)%bool
    then 0 + Mas.m_weight ea * Mas.m_weight eb * inject_Z (smat ra rb)
    else 0) / inject_Z (Z.of_nat (1 * 1)))%Q.

Lemma score_single (x y : nat) :
  x < length (Mas.m_seq ea) -> y < length (Mas.m_seq ea) ->
  Mas.score kSignalGapCode smat [ea] [eb] x y = Ok (pair_score x y).
Proof.
  intros Hx Hy. unfold Mas.score, Mas.score_pair. cbn [foreach length].
  rewrite Hseq. rewrite !assert_true by (apply Nat.ltb_lt; assumption).
  cbn [bind]. unfold pair_score. rewrite Hseq. reflexivity.
Qed.

Lemma pair_score_value (x y : nat) :
  pair_score x y ==
    if (negb (nth x (Mas.m_seq ea) 0%Z =? kSignalGapCode)%Z &&
        negb (nth y (Mas.m_seq ea) 0%Z =? kSignalGapCode)%Z)%bool
    then Mas.m_weight ea * Mas.m_weight eb *
         inject_Z (smat (nth x (Mas.m_seq ea) 0%Z) (nth y (Mas.m_seq ea) 0%Z))
    else 0.
Proof.
  unfold pair_score. rewrite Hseq.
  change (inject_Z (Z.of_nat (1 * 1))) with 1%Q.
  destruct (_ && _)%bool; field.
Qed.

Lemma weights_nonneg : (0 <= Mas.m_weight ea * Mas.m_weight eb)%Q.
Proof. apply Qmult_le_0_compat; assumption. Qed.

Lemma pair_score_nonneg (x : nat) :
  x < length (Mas.m_seq ea) -> (0 <= pair_score x x)%Q.
Proof.
  intros Hx. rewrite pair_score_value.
  destruct (_ && _)%bool; [| apply Qle_refl].
  apply Qmult_le_0_compat; [exact weights_nonneg |].
  change 0%Q with (inject_Z 0). rewrite <- Zle_Qle.
  apply Hsmat_nonneg, nth_In, Hx.
Qed.

Lemma pair_score_le (x y : nat) :
  x < length (Mas.m_seq ea) -> y < length (Mas.m_seq ea) ->
  (pair_score x y <= pair_score (Nat.min x y) (Nat.min x y))%Q.
Proof.
  intros Hx Hy.
  assert (Hm : Nat.min x y < length (Mas.m_seq ea)) by lia.
  pose proof (pair_score_nonneg (Nat.min x y) Hm) as Hnonneg.
  rewrite (pair_score_value x y).
  destruct (negb (nth x (Mas.m_seq ea) 0%Z =? kSignalGapCode)%Z) eqn:Hgx;
    [destruct (negb (nth y (Mas.m_seq ea) 0%Z =? kSignalGapCode)%Z) eqn:Hgy |];
    cbn [andb]; try exact Hnonneg.
  rewrite pair_score_value.
  destruct (Hsmat_dom (nth x (Mas.m_seq ea) 0%Z) (nth y (Mas.m_seq ea) 0%Z))
    as [H1 H2]; [apply nth_In; exact Hx | apply nth_In; exact Hy |].
  pose proof weights_nonneg as Hw.
  assert (Hscale : forall u v : Z, (u <= v)%Z ->
            (Mas.m_weight ea * Mas.m_weight eb * inject_Z u
             <= Mas.m_weight ea * Mas.m_weight eb * inject_Z v)%Q).
  { intros u v Huv. rewrite !(Qmult_comm (Mas.m_weight ea * Mas.m_weight eb)).
    apply Qmult_le_compat_r; [rewrite <- Zle_Qle; exact Huv | exact Hw]. }
  destruct (Nat.min_spec x y) as [[_ ->] | [_ ->]].
  - rewrite Hgx. cbn [andb]. apply Hscale. exact H1.
  - rewrite Hgy. cbn [andb]. apply Hscale. exact H2.
Qed.

Lemma penalties_nonneg (v : list Q) (n : nat) :
  length v = n ->
  (forall j, j < n -> (0 <= Mas.Qnth j v)%Q) ->
  length v = n /\ forall x, (0 <= Mas.Qnth x v)%Q.
Proof.
  intros Hlen Hv. split; [exact Hlen |]. intros x.
  destruct (Nat.lt_ge_cases x n) as [Hx | Hx]; [apply Hv; exact Hx |].
  unfold Mas.Qnth. rewrite nth_overflow by lia. apply Qle_refl.
Qed.

(** Aligning a row with an identical copy returns both rows as they
    were. *)
Lemma align_self :
  Mas.align kSignalGapCode smat mismatch_average scale_factor log10
    [ea] [eb] gop gep magic ignorePositions
  = Ok [ea; eb].
Proof.
  assert (Hlen : 0 < length (Mas.m_seq ea))
    by (clear - Hne; destruct (Mas.m_seq ea); [contradiction | simpl; lia]).
  unfold Mas.align. rewrite Hseq, Hpositions.
  destruct (Mas.initial_penalties _ _ _ _ _ _ _ _ _ _) as [[[ga ge] gb] gf].
  destruct Hpen as (Hga & Hge & Hgb & Hgf).
  destruct (adjust_gp_nonneg kSignalGapCode ga ge (length (Mas.m_seq ea)) [ea])
    as (gop_a & gep_a & Hrun_a & Lga & Lea & Hnn_a);
    [discriminate | intros r [<- | []]; reflexivity | assumption | assumption |].
  destruct (adjust_gp_nonneg kSignalGapCode gb gf (length (Mas.m_seq ea)) [eb])
    as (gop_b & gep_b & Hrun_b & Lgb & Leb & Hnn_b);
    [discriminate | intros r [<- | []]; rewrite Hseq; reflexivity
    | assumption | assumption |].
  rewrite Hrun_a, Hrun_b. cbn [bind].
  pose proof (penalties_nonneg gop_a _ Lga (fun j Hj => proj1 (Hnn_a j Hj))) as Hgop_a.
  pose proof (penalties_nonneg gep_a _ Lea (fun j Hj => proj2 (Hnn_a j Hj))) as Hgep_a.
  pose proof (penalties_nonneg gop_b _ Lgb (fun j Hj => proj1 (Hnn_b j Hj))) as Hgop_b.
  pose proof (penalties_nonneg gep_b _ Leb (fun j Hj => proj2 (Hnn_b j Hj))) as Hgep_b.
  assert (Hloop : exists c',
    Mas.ablocks kSignalGapCode smat [ea] [eb] gop_a gep_a gop_b gep_b
      (Mas.m_positions ea) (Mas.m_positions ea)
      (length (Mas.m_seq ea)) (length (Mas.m_seq ea))
      (S (length (Mas.m_seq ea) + length (Mas.m_seq ea)))
      (Mas.mkAloop 0 0
         (if (ignorePositions || Mas.is_empty (Mas.m_positions ea)
              || Mas.is_empty (Mas.m_positions ea))%bool
          then length (Mas.m_seq ea) else 0)
         (if (ignorePositions || Mas.is_empty (Mas.m_positions ea)
              || Mas.is_empty (Mas.m_positions ea))%bool
          then length (Mas.m_seq ea) else 0)
         (Mas.mkAstate (fun _ _ => 0%Q) (fun _ _ => 0%Q) (fun _ _ => 0%Q)
            (fun _ _ => 2%Z) 0%Q 0 0))
    = Ok (Mas.mkAloop (length (Mas.m_seq ea)) (length (Mas.m_seq ea))
            (length (Mas.m_seq ea)) (length (Mas.m_seq ea)) c') /\
    on_diagonal (length (Mas.m_seq ea)) c').
  { destruct (ignorePositions || Mas.is_empty (Mas.m_positions ea)
              || Mas.is_empty (Mas.m_positions ea))%bool eqn:Hfree.
    - apply (ablocks_unanchored kSignalGapCode smat [ea] [eb]
               gop_a gep_a gop_b gep_b _ pair_score
               score_single pair_score_le pair_score_nonneg
               Hgop_a Hgep_a Hgop_b Hgep_b);
        [exact Hlen | reflexivity].
    - pose proof Hwf as [Hnone | Hsame].
      + rewrite Hnone in Hfree. cbn [Mas.is_empty] in Hfree.
        rewrite orb_true_r in Hfree. discriminate.
      + apply (ablocks_anchored kSignalGapCode smat [ea] [eb]
                 gop_a gep_a gop_b gep_b _ _ pair_score
                 score_single pair_score_le pair_score_nonneg
                 Hgop_a Hgep_a Hgop_b Hgep_b);
          [exact Hsame | lia | lia |].
        split; [intros k Hk; lia | intros H; lia]. }
  destruct Hloop as (c' & Hrun & Hdiag & Hhigh).
  rewrite Hrun. cbn [bind Mas.aendX Mas.aendY Mas.acells].
  destruct (Hhigh Hlen) as [HhX HhY].
  rewrite lead_to_high_at_end by lia.
  rewrite traceback_diagonal by (lia || exact Hdiag).
  cbn [bind Mas.start_gaps].
  destruct (negb ignorePositions && negb (Mas.is_empty (Mas.m_positions ea)))%bool;
    [| reflexivity].
  rewrite Hpositions, Nat.eqb_refl. cbn [assert bind].
  rewrite max_positions_self. cbn [bind app].
  destruct ea; reflexivity.
Qed.

End SelfAlign.


(** ** The distance and the alignment of a row and its copy *)

(** X21. Let [e] be an entry with at least one and
    fewer than 65536 residues, whose positions vector is absent or as long
    as the sequence and whose weight is not negative. Let the distance
    matrix score every residue of [e] strictly positively against itself,
    and no pair of its residues higher than either of the two against
    itself; let the matrix of the alignment score no residue of [e]
    negatively against itself and no pair higher than either of the two
    against itself; and let the four initial gap penalties of [align] be
    non-negative. Then [calculateDistance] of [e] and its copy returns 0,
    and [align] of the two single rows returns both rows as they were: no
    gap is inserted on either side and the positions are kept. *)
Theorem self_alignment
    (kDistanceMatrix smat : Mas.aa -> Mas.aa -> Z) (kSignalGapCode : Mas.aa)
    (mismatch_average scale_factor : Q) (log10 : Q -> Q)
    (e : Mas.entry) (gop gep magic : Q) (ignorePositions : bool)
    (Hne : Mas.m_seq e <> [])
    (Hshort : Z.of_nat (length (Mas.m_seq e)) < 65536)
    (Hwf : Mas.m_positions e = [] \/
           length (Mas.m_positions e) = length (Mas.m_seq e))
    (Hweight : (0 <= Mas.m_weight e)%Q)
    (Hpos : forall p, In p (Mas.m_seq e) -> 0 < kDistanceMatrix p p)
    (Hdom : forall p q, In p (Mas.m_seq e) -> In q (Mas.m_seq e) ->
       kDistanceMatrix p q <= kDistanceMatrix p p /\
       kDistanceMatrix p q <= kDistanceMatrix q q)
    (Hsmat_nonneg : forall p, In p (Mas.m_seq e) -> 0 <= smat p p)
    (Hsmat_dom : forall p q, In p (Mas.m_seq e) -> In q (Mas.m_seq e) ->
       smat p q <= smat p p /\ smat p q <= smat q q)
    (Hpen :
       match Mas.initial_penalties mismatch_average scale_factor log10 [e] [e]
               (length (Mas.m_seq e)) (length (Mas.m_seq e)) gop gep magic with
       | (ga, ge, gb, gf) => (0 <= ga /\ 0 <= ge /\ 0 <= gb /\ 0 <= gf)%Q
       end) :
  (exists r, Mas.calculateDistance kDistanceMatrix e e = Ok r /\ r == 0) /\
  Mas.align kSignalGapCode smat mismatch_average scale_factor log10
    [e] [e] gop gep magic ignorePositions
  = Ok [e; e].
Proof.
  split.
  - apply self_distance; (reflexivity || assumption).
  - apply align_self; (reflexivity || assumption).
Qed.

(** A table that scores a residue 2 against itself and 0 against any
    other, and a stand-in for the decimal logarithm that is 0 at 1. *)
Definition example_matrix (p q : Mas.aa) : Z := if p =? q then 2 else 0.

Definition example_log10 (q : Q) : Q := (q - 1) / 9.

Definition example_entry : Mas.entry :=
  Mas.mkEntry 0 "" [0; 1; 2] [5; 0; 7] [] 1.

Lemma self_alignment_witness :
  (exists r, Mas.calculateDistance example_matrix example_entry example_entry
             = Ok r /\ r == 0) /\
  Mas.align example_gap example_matrix 1 1 example_log10
    [example_entry] [example_entry] 10 (2 # 10) (1 # 10) false
  = Ok [example_entry; example_entry].
Proof.
  apply (self_alignment example_matrix example_matrix example_gap 1 1
           example_log10 example_entry 10 (2 # 10) (1 # 10) false).
  - discriminate.
  - reflexivity.
  - right. reflexivity.
  - discriminate.
  - intros p [<- | [<- | [<- | []]]]; reflexivity.
  - intros p q [<- | [<- | [<- | []]]] [<- | [<- | [<- | []]]];
      split; discriminate.
  - intros p [<- | [<- | [<- | []]]]; discriminate.
  - intros p q [<- | [<- | [<- | []]]] [<- | [<- | [<- | []]]];
      split; discriminate.
  - vm_compute. repeat split; discriminate.
Defined.

(** C3 fails on the code: for an entry without residues and its copy the
    matrices have no cell (0, 0) for [Ix(0, 0) = 0] to write, and the
    quotient highId / max(dimX, dimY) is 0 / 0, so that [calculateDistance]
    does not return 0 and the assertions on its result do not hold. *)
Lemma self_distance_without_residues :
  Mas.calculateDistance example_matrix (example_row []) (example_row [])
    = Undefined /\
  Mas.finish 0 0 0 = AssertionFailure.
Proof. split; reflexivity. Qed.

(** ** The 16-bit count of identical columns *)

Section AnchoredEverywhere.

Variable kDistanceMatrix : Mas.aa -> Mas.aa -> Z.
Variable a : Mas.entry.

Hypothesis Hlen : length (Mas.m_positions a) = length (Mas.m_seq a).
Hypothesis Hanchors : forall j, (j < length (Mas.m_seq a))%nat ->
  nth j (Mas.m_positions a) 0 <> 0.

Local Open Scope nat_scope.

(** With a position in every column the outer loop counts the columns one
    by one in [highId], a [uint16]. *)
Lemma dblocks_all_anchors (fuel : nat) :
  forall p h c,
    p <= length (Mas.m_seq a) -> length (Mas.m_seq a) - p < fuel ->
    (0 <= h < 65536)%Z ->
    Mas.dblocks kDistanceMatrix fuel a a (Mas.mkDloop p p p p h c)
    = Ok (Mas.mkDloop (length (Mas.m_seq a)) (length (Mas.m_seq a))
            (length (Mas.m_seq a)) (length (Mas.m_seq a))
            (Mas.to_uint16 (h + Z.of_nat (length (Mas.m_seq a) - p))) c).
Proof.
  induction fuel as [| fuel IH]; intros p h c Hp Hfuel Hh; [lia |].
  cbn [Mas.dblocks Mas.lx Mas.ly Mas.lendX Mas.lendY Mas.highId Mas.cells].
  destruct (Nat.ltb_spec p (length (Mas.m_seq a))) as [Hin | Hout];
    cbn [andb].
  - unfold Mas.at_anchor. rewrite !Nat.eqb_refl. cbn [andb].
    rewrite (read_nth (Mas.m_positions a) p 0%Z) by lia. cbn [bind].
    rewrite !Z.eqb_refl. cbn [andb].
    pose proof (Hanchors p Hin) as Hnz. apply Z.eqb_neq in Hnz.
    rewrite Hnz. cbn [negb].
    rewrite IH; [| lia | lia | unfold Mas.to_uint16; apply Z.mod_pos_bound; lia].
    do 2 f_equal. unfold Mas.to_uint16.
    rewrite Z.add_mod_idemp_l by lia. f_equal. lia.
  - replace p with (length (Mas.m_seq a)) by lia.
    rewrite Nat.sub_diag, Z.add_0_r. unfold Mas.to_uint16.
    rewrite Z.mod_small by lia. reflexivity.
Qed.

(** An entry of 65536 residues with a position in every column is at
    distance 1 from itself. *)
Lemma anchored_distance_wraps :
  Z.of_nat (length (Mas.m_seq a)) = 65536%Z ->
  exists r, Mas.calculateDistance kDistanceMatrix a a = Ok r /\ r == 1.
Proof.
  intros Hn.
  assert (Hpos : 0 < length (Mas.m_seq a)) by lia.
  unfold Mas.calculateDistance.
  replace (length (Mas.m_seq a) =? 0) with false
    by (symmetry; apply Nat.eqb_neq; lia).
  cbn [orb bind].
  assert (Hpresent : Mas.is_empty (Mas.m_positions a) = false).
  { clear - Hlen Hpos.
    destruct (Mas.m_positions a); [simpl in Hlen; lia | reflexivity]. }
  rewrite Hpresent. cbn [orb].
  rewrite dblocks_all_anchors by lia. cbn [bind Mas.highId].
  rewrite Nat.sub_0_r, Hn. change (Mas.to_uint16 (0 + 65536)) with 0%Z.
  unfold Mas.finish, fdiv. rewrite Nat.max_id, Hn.
  cbn. eexists. split; [reflexivity | reflexivity].
Qed.

End AnchoredEverywhere.

(** 65536 residues, each with position 1. *)
Definition long_entry : Mas.entry :=
  Mas.mkEntry 0 "" (repeat 0 (Z.to_nat 65536)) (repeat 1 (Z.to_nat 65536)) [] 1.

(** The bound on the length of the entry is needed: the count of the
    identical columns of this entry and its copy wraps to 0. *)
Lemma self_distance_wraps :
  exists r, Mas.calculateDistance example_matrix long_entry long_entry = Ok r /\ r == 1.
Proof.
  apply anchored_distance_wraps.
  - unfold long_entry. cbn [Mas.m_positions Mas.m_seq].
    rewrite !repeat_length. reflexivity.
  - intros j Hj. unfold long_entry in *. cbn [Mas.m_positions Mas.m_seq] in *.
    rewrite repeat_length in Hj. rewrite nth_repeat_lt by exact Hj. discriminate.
  - unfold long_entry. cbn [Mas.m_seq]. rewrite repeat_length. apply Z2Nat.id. lia.
Qed.

(** C2 fails on the code: for two entries without residues, whatever the
    distance matrix and the positions, the matrices have no cell (0, 0)
    for [Ix(0, 0) = 0] to write; the loop is not entered, and the quotient
    highId / max(dimX, dimY) is 0 / 0, not a number, so that neither
    [assert(result >= 0.0f)] nor [assert(result <= 1.0f)] holds. *)
Theorem calculateDistance_without_residues
    (kDistanceMatrix : Mas.aa -> Mas.aa -> Z)
    (nr_a nr_b : Z) (id_a id_b : string) (pa pb : list Z)
    (ss_a ss_b : list ascii) (w_a w_b : Q) :
  Mas.calculateDistance kDistanceMatrix
    (Mas.mkEntry nr_a id_a [] pa ss_a w_a) (Mas.mkEntry nr_b id_b [] pb ss_b w_b)
    = Undefined /\
  fdiv (inject_Z 0) (inject_Z (Z.of_nat (Nat.max 0 0))) = NotANumber /\
  Mas.finish 0 0 0 = AssertionFailure.
Proof. repeat split. Qed.


(** The count of identical columns is bounded by the longer sequence only
    for suitable tables: a path through a block also counts the columns
    it crosses sideways. With a table that scores residue 1 at -30 against
    itself, two rows of seven residues reach a count of eight. *)
Definition skewed_matrix (p q : Mas.aa) : Z :=
  if ((p =? 0) && (q =? 0))%bool then 40
  else if ((p =? 1) && (q =? 1))%bool then -30
  else -5.

Lemma calculateDistance_count_above_length :
  let a := example_row [1; 0; 1; 1; 1; 0; 0] in
  let b := example_row [0; 1; 0; 1; 1; 0; 0] in
  (l <- Mas.dblocks skewed_matrix 15 a b
          (Mas.mkDloop 0 0 7 7 0
             (Mas.mkDstate (fun _ _ => 0%Q) (fun _ _ => 0%Q) (fun _ _ => 0%Q)
                (fun _ _ => 0) None 0)) ;;
   Ok (Mas.highId l)) = Ok 8 /\
  Mas.calculateDistance skewed_matrix a b = AssertionFailure.
Proof. split; vm_compute; reflexivity. Qed.

(** ** The HSSP rows *)

Definition text (s : string) : list ascii := list_ascii_of_string s.

(** A row as [seq::append] leaves it, with a given alignment window. *)
Definition example_seq (t : string) (b e : Z) : Hssp.seq :=
  Hssp.mkSeq "" 0 0 0 0 0 0 0 (Finite 0) b e 0 0 [] (text t)
    (Z.of_nat (length (text t))) false.

(** C6 as stated fails: [cut] clamps [m_end] to the new size and leaves
    [m_begin] as it is after the shift. A row aligned in columns 8..9 of
    10 satisfies the invariant; after [cut(0, 5)] its window begins at 8
    and ends at 5. *)
Lemma cut_begin_beyond_window :
  let s := example_seq "ABCDEFGHIK" 8 10 in
  (Hssp.m_begin s <= Hssp.m_end s <= Hssp.m_size s) /\
  (0 + 5 <= Hssp.m_size s) /\
  exists s',
    Hssp.cut 0 5 s = Ok s' /\
    Hssp.m_begin s' = 8 /\ Hssp.m_end s' = 5 /\ Hssp.m_size s' = 5 /\
    Hssp.m_end s' < Hssp.m_begin s'.
Proof.
  cbv zeta. split; [vm_compute; split; discriminate |].
  split; [vm_compute; discriminate |].
  eexists. split; [vm_compute; reflexivity |].
  repeat split; reflexivity.
Qed.

(** What [cut] does preserve: the end of the window stays inside the
    row, and the window stays ordered whenever it begins inside the part
    that is kept or before it. *)
Lemma cut_window (pos n : Z) (s s' : Hssp.seq) :
  0 <= pos -> 0 <= n ->
  0 <= Hssp.m_begin s <= Hssp.m_end s ->
  Hssp.cut pos n s = Ok s' ->
  Hssp.m_size s' = n /\
  0 <= Hssp.m_end s' <= Hssp.m_size s' /\
  (Hssp.m_begin s <= pos + n -> Hssp.m_begin s' <= Hssp.m_end s') /\
  (Hssp.m_end s <= pos -> Hssp.m_begin s' = 0 /\ Hssp.m_end s' = 0).
Proof.
  intros Hpos Hn Hwin. unfold Hssp.cut.
  destruct ((pos + n) mod 2 ^ 32 <=? Hssp.m_size s); cbn [assert bind];
    [| discriminate].
  intros H; injection H as <-. cbn.
  destruct (Z.gtb_spec (Hssp.m_begin s) pos), (Z.gtb_spec (Hssp.m_end s) pos);
    repeat match goal with
           | |- context [?a >? ?b] => destruct (Z.gtb_spec a b)
           end; lia.
Qed.

(** C6, as the code has it. A [cut(pos, n)] within the row of a row
    that satisfies the invariant returns, the row has [n] columns and the
    end of its window lies within them; the window is ordered after the
    cut exactly when it began at or before column [pos + n] before, as
    every window that begins at column 0 does, and such a window begins
    at 0 afterwards as well; both ends are 0 when the old window ended at
    or before column [pos]. *)
Theorem cut_keeps_window (pos n : Z) (s : Hssp.seq)
    (Hpos : 0 <= pos) (Hn : 0 <= n)
    (Hfit : pos + n <= Hssp.m_size s) (Hsize : Hssp.m_size s < 2 ^ 32)
    (Hwindow : 0 <= Hssp.m_begin s <= Hssp.m_end s)
    (Hend : Hssp.m_end s <= Hssp.m_size s) :
  exists s',
    Hssp.cut pos n s = Ok s' /\
    Hssp.m_size s' = n /\
    0 <= Hssp.m_begin s' /\ 0 <= Hssp.m_end s' <= Hssp.m_size s' /\
    (Hssp.m_begin s' <= Hssp.m_end s' <-> Hssp.m_begin s <= pos + n) /\
    (Hssp.m_begin s = 0 ->
     Hssp.m_begin s' = 0 /\ Hssp.m_begin s' <= Hssp.m_end s') /\
    (Hssp.m_end s <= pos -> Hssp.m_begin s' = 0 /\ Hssp.m_end s' = 0).
Proof.
  unfold Hssp.cut. rewrite Z.mod_small by lia.
  rewrite assert_true by (apply Z.leb_le; exact Hfit). cbn [bind].
  eexists. split; [reflexivity |].
  cbn [Hssp.m_size Hssp.m_begin Hssp.m_end].
  split; [reflexivity |].
  destruct (Z.gtb_spec (Hssp.m_begin s) pos), (Z.gtb_spec (Hssp.m_end s) pos);
    repeat match goal with
           | |- context [?a >? ?b] => destruct (Z.gtb_spec a b)
           end; lia.
Qed.

Lemma cut_keeps_window_witness :
  exists s',
    Hssp.cut 2 5 (example_seq "ABCDEFGHIK" 0 10) = Ok s' /\
    Hssp.m_size s' = 5 /\
    Hssp.m_begin s' = 0 /\ Hssp.m_begin s' <= Hssp.m_end s' /\
    Hssp.m_end s' <= Hssp.m_size s'.
Proof.
  destruct (cut_keeps_window 2 5 (example_seq "ABCDEFGHIK" 0 10))
    as (s' & Hrun & Hcolumns & _ & Hinside & _ & Hzero & _);
    try (vm_compute; first [discriminate | reflexivity | split; discriminate]).
  exists s'. split; [exact Hrun |]. split; [exact Hcolumns |].
  destruct Hzero as [Hb Hordered]; [reflexivity |].
  split; [exact Hb |]. split; [exact Hordered | apply Hinside].
Defined.

(** ** Variability: the percentages of a column *)

Definition Zsum (l : list Z) : Z := fold_right Z.add 0 l.

Section VariabilityFacts.

Variable kResidueIX : ascii -> Z.

Lemma percentage_div (n d : Z) :
  0 < n -> Hssp.percentage n d = (200 * d + n) / (2 * n).
Proof.
  intros Hn. unfold Hssp.percentage.
  rewrite Zdiv_Qdiv. apply Qfloor_comp.
  rewrite !inject_Z_plus, !inject_Z_mult.
  field. intros H. apply (inject_Z_injective n 0) in H. lia.
Qed.

Lemma percentage_bounds (n d : Z) :
  0 < n ->
  200 * d - n < 2 * n * Hssp.percentage n d <= 200 * d + n.
Proof.
  intros Hn. rewrite percentage_div by assumption.
  pose proof (Z.div_mod (200 * d + n) (2 * n)) as Hdm.
  pose proof (Z.mod_pos_bound (200 * d + n) (2 * n)) as Hmod.
  lia.
Qed.

Lemma percentages_sum (n : Z) (l : list Z) :
  0 < n ->
  200 * Zsum l - n * Z.of_nat (length l)
    <= 2 * n * Zsum (map (Hssp.percentage n) l)
    <= 200 * Zsum l + n * Z.of_nat (length l).
Proof.
  intros Hn. induction l as [| d l IH].
  - simpl. lia.
  - pose proof (percentage_bounds n d Hn) as Hd.
    cbn [map Zsum fold_right length]. fold (Zsum l).
    fold (Zsum (map (Hssp.percentage n) l)).
    rewrite Nat2Z.inj_succ. lia.
Qed.

Lemma Zsum_set_nth (i : nat) (x : Z) (l : list Z) :
  (i < length l)%nat -> Zsum (set_nth i x l) = Zsum l - nth i l 0 + x.
Proof.
  revert i; induction l as [| h t IH]; intros [| i] Hi; simpl in *; try lia.
  fold (Zsum t). fold (Zsum (set_nth i x t)). rewrite IH by lia. lia.
Qed.

Lemma Zsum_repeat_0 (k : nat) : Zsum (repeat 0 k) = 0.
Proof. induction k as [| k IH]; simpl; [reflexivity | exact IH]. Qed.

(** Counting the hits of a column keeps [sum dist - nocc]. *)
Lemma count_hits_sum (chain : ascii) (pos : Z) (hits : list Hssp.Hit) :
  forall n0 d0 n d,
    foreach (Hssp.count_hit kResidueIX chain pos) hits (n0, d0) = Ok (n, d) ->
    length d = length d0 /\ Zsum d - n = Zsum d0 - n0 /\ n0 <= n.
Proof.
  induction hits as [| hit hits IH]; intros n0 d0 n d Hrun.
  - injection Hrun as <- <-. repeat split; lia.
  - cbn [foreach] in Hrun.
    destruct (Hssp.count_hit kResidueIX chain pos (n0, d0) hit)
      as [[n1 d1] | | |] eqn:Hstep; cbn [bind] in Hrun; try discriminate.
    apply IH in Hrun. destruct Hrun as (Hl & Hs & Hle).
    assert (Hone : length d1 = length d0 /\ Zsum d1 - n1 = Zsum d0 - n0 /\ n0 <= n1).
    { unfold Hssp.count_hit in Hstep.
      destruct (negb (Ascii.eqb (Hssp.m_chain hit) chain)).
      - injection Hstep as <- <-. repeat split; lia.
      - destruct (Hssp.at_ (Hssp.h_seq hit) pos) as [c | | |];
          cbn [bind] in Hstep; try discriminate.
        destruct (kResidueIX c >=? 0) eqn:Hix.
        + unfold Hssp.bump in Hstep.
          destruct (Z.ltb_spec (kResidueIX c) (Z.of_nat (length d0)));
            cbn [bind] in Hstep; [| discriminate].
          injection Hstep as <- <-.
          rewrite length_set_nth, Zsum_set_nth by lia.
          repeat split; lia.
        + injection Hstep as <- <-. repeat split; lia. }
    destruct Hone as (Hl1 & Hs1 & Hle1). repeat split; lia.
Qed.

(** C5, as the code has it. For a residue info as its constructor leaves
    it ([nocc] = 1) whose letter has a residue index, and a non-empty hit
    list, a run of [CalculateVariability] leaves [nocc] positive and the
    twenty percentages, each rounded on its own, with a sum between 90
    and 110. *)
Theorem variability_sum_within_10 (r r' : Hssp.ResidueHInfo)
    (hits : list Hssp.Hit)
    (Hhits : hits <> [])
    (Hletter : 0 <= kResidueIX (Hssp.letter r))
    (Hnocc : Hssp.nocc r = 1)
    (Hrun : Hssp.CalculateVariability kResidueIX r hits = Ok r') :
  0 < Hssp.nocc r' /\
  length (Hssp.dist r') = 20%nat /\
  90 <= Zsum (Hssp.dist r') <= 110.
Proof.
  unfold Hssp.CalculateVariability in Hrun.
  destruct hits as [| front rest]; [contradiction |].
  replace (kResidueIX (Hssp.letter r) >=? 0) with true in Hrun
    by (symmetry; apply Z.geb_le; assumption).
  destruct (Z.ltb_spec (kResidueIX (Hssp.letter r)) 20) as [Hlt | Hge];
    cbn [bind] in Hrun; [| discriminate].
  destruct (foreach _ (front :: rest) _) as [[n d] | | |] eqn:Hcount;
    cbn [bind] in Hrun; try discriminate.
  apply count_hits_sum in Hcount. destruct Hcount as (Hl & Hs & Hle).
  rewrite length_set_nth, repeat_length in Hl.
  rewrite Zsum_set_nth, Zsum_repeat_0, Hnocc in Hs
    by (rewrite repeat_length; lia).
  replace (nth (Z.to_nat (kResidueIX (Hssp.letter r))) (repeat 0 20) 0) with 0 in Hs
    by (symmetry; apply nth_repeat_lt; lia).
  rewrite Hnocc in Hle.
  destruct (Z.eqb_spec n 0) as [Hz | Hnz]; cbn [bind] in Hrun; [discriminate |].
  destruct (_ <? _) in Hrun.
  - destruct (Hssp.at_ _ _) in Hrun; cbn [bind] in Hrun; try discriminate.
    destruct (foreach _ _ _) as [[nd ni] | | |] in Hrun;
      cbn [bind] in Hrun; try discriminate.
    injection Hrun as <-. cbn [Hssp.nocc Hssp.dist].
    pose proof (percentages_sum n d ltac:(lia)) as Hsum.
    rewrite length_map. rewrite Hl in *. split; [lia |]. split; [reflexivity |].
    change (Z.of_nat 20) with 20 in Hsum. nia.
  - cbn [bind] in Hrun.
    destruct (foreach _ _ _) as [[nd ni] | | |] in Hrun;
      cbn [bind] in Hrun; try discriminate.
    injection Hrun as <-. cbn [Hssp.nocc Hssp.dist].
    pose proof (percentages_sum n d ltac:(lia)) as Hsum.
    rewrite length_map. rewrite Hl in *. split; [lia |]. split; [reflexivity |].
    change (Z.of_nat 20) with 20 in Hsum. nia.
Qed.

End VariabilityFacts.

(** A query column V met by seven hits on the same chain that carry
    L, I, M, F, W, Y and G there. *)
Definition example_hit (t : string) : Hssp.Hit :=
  Hssp.mkHit (example_seq t 0 1) (example_seq "V" 0 1) "A" 0 0.

Definition example_hits : list Hssp.Hit :=
  map example_hit ["L"; "I"; "M"; "F"; "W"; "Y"; "G"]%string.

Definition example_residue : Hssp.ResidueHInfo :=
  Hssp.mkResidueHInfo "V" "A" 1 1 0 1 0 0 1 [].

(** C5 as stated fails: eight residues seen once each give eight
    frequencies of 12.5 percent, each rounded up to 13: the sum is 104. *)
Lemma variability_sum_104 :
  exists r',
    Hssp.CalculateVariability Hssp.kResidueIX_spec example_residue example_hits
      = Ok r' /\
    Hssp.nocc r' = 8 /\
    Hssp.dist r' = [13; 13; 13; 13; 13; 13; 13; 13; 0; 0; 0; 0; 0; 0; 0; 0; 0; 0; 0; 0] /\
    Zsum (Hssp.dist r') = 104 /\
    (Zsum (Hssp.dist r') <=? 101) = false.
Proof.
  eexists. split; [vm_compute; reflexivity |].
  repeat split; reflexivity.
Qed.

Lemma variability_sum_within_10_witness :
  exists r',
    Hssp.CalculateVariability Hssp.kResidueIX_spec example_residue example_hits
      = Ok r' /\
    0 < Hssp.nocc r' /\
    length (Hssp.dist r') = 20%nat /\
    90 <= Zsum (Hssp.dist r') <= 110.
Proof.
  destruct (Hssp.CalculateVariability Hssp.kResidueIX_spec example_residue
              example_hits) as [r' | | |] eqn:Hrun;
    try (vm_compute in Hrun; discriminate Hrun).
  exists r'. split; [reflexivity |].
  apply (variability_sum_within_10 Hssp.kResidueIX_spec example_residue r'
           example_hits).
  - discriminate.
  - vm_compute. discriminate.
  - reflexivity.
  - exact Hrun.
Defined.

(** The bound of 10 is reached: forty residues, eighteen kinds seen once
    (2.5 percent, rounded to 3) and two kinds seen eleven times (27.5
    percent, rounded to 28). *)
Lemma variability_sum_110 :
  exists r',
    Hssp.CalculateVariability Hssp.kResidueIX_spec example_residue
      (map example_hit
         (["L"; "I"; "M"; "F"; "W"; "Y"; "G"; "A"; "P"; "S"; "T"; "C"; "H";
           "R"; "K"; "Q"; "E"]%string
          ++ repeat "N"%string 11 ++ repeat "D"%string 11)%list)
      = Ok r' /\
    Hssp.nocc r' = 40 /\ Zsum (Hssp.dist r') = 110.
Proof.
  eexists. split; [vm_compute; reflexivity |]. split; reflexivity.
Qed.

(** A residue info whose letter has no residue index (a chain break, a
    gap) gets twenty zeros whatever the hits are. *)
Lemma variability_without_index (kResidueIX : ascii -> Z)
    (r : Hssp.ResidueHInfo) (front : Hssp.Hit) (rest : list Hssp.Hit) :
  kResidueIX (Hssp.letter r) < 0 ->
  exists r',
    Hssp.CalculateVariability kResidueIX r (front :: rest) = Ok r' /\
    Hssp.nocc r' = Hssp.nocc r /\ Zsum (Hssp.dist r') = 0.
Proof.
  intros Hneg. unfold Hssp.CalculateVariability.
  replace (kResidueIX (Hssp.letter r) >=? 0) with false
    by (symmetry; rewrite Z.geb_leb; apply Z.leb_gt; assumption).
  eexists. split; [reflexivity |]. split; reflexivity.
Qed.

(** ** The reducer never rejects a letter *)

Definition is_thrown {A : Type} (r : result A) : bool :=
  match r with Thrown _ _ => true | _ => false end.

Section ReducerFacts.

Variable kResidueIX : ascii -> Z.
Variable kD : Z -> Z -> Q.

(** An unsigned byte is never equal to -1. *)
Lemma to_uint8_not_minus_one (z : Z) : (Hssp.to_uint8 z =? -1) = false.
Proof.
  apply Z.eqb_neq. unfold Hssp.to_uint8.
  pose proof (Z.mod_pos_bound z 256). lia.
Qed.

Lemma update_tail_ok (qi si : ascii) (i : Z) (st : Hssp.ustate) :
  exists st', Hssp.update_tail kResidueIX kD qi si i st = Ok st'.
Proof.
  unfold Hssp.update_tail. rewrite !to_uint8_not_minus_one. eexists; reflexivity.
Qed.

Lemma update_column_not_thrown (qi : ascii) (i : nat) (st : Hssp.ustate) :
  is_thrown (Hssp.update_column kResidueIX kD qi i st) = false.
Proof.
  unfold Hssp.update_column.
  destruct (nth_error (Hssp.buf st) i) as [si |]; [| reflexivity].
  destruct (Hssp.is_gap kResidueIX qi && Hssp.is_gap kResidueIX si)%bool;
    [reflexivity |].
  destruct (Hssp.is_gap kResidueIX si); [reflexivity |].
  destruct (Hssp.is_gap kResidueIX qi).
  - destruct (negb (Hssp.qgapf st)); [destruct i as [| i'] |]; cbn [bind];
      try reflexivity;
      match goal with
      | |- context [Hssp.update_tail _ _ ?a ?b ?c ?d] =>
          destruct (update_tail_ok a b c d) as [st' ->]
      end; reflexivity.
  - match goal with
    | |- context [Hssp.update_tail _ _ ?a ?b ?c ?d] =>
        destruct (update_tail_ok a b c d) as [st' ->]
    end; reflexivity.
Qed.

Lemma update_loop_not_thrown (q : list ascii) :
  forall i st, is_thrown (Hssp.update_loop kResidueIX kD q i st) = false.
Proof.
  induction q as [| qi q IH]; intros i st; [reflexivity |].
  cbn [Hssp.update_loop].
  pose proof (update_column_not_thrown qi i st) as Hcol.
  destruct (Hssp.update_column kResidueIX kD qi i st); cbn [bind];
    try reflexivity; [apply IH | discriminate Hcol].
Qed.

(** Whatever the table, the rows and the matrix are, [update] does not
    take either of its [THROW] statements. *)
Lemma update_never_throws (qseq s : Hssp.seq) :
  is_thrown (Hssp.update kResidueIX kD qseq s) = false.
Proof.
  unfold Hssp.update.
  match goal with
  | |- context [Hssp.update_loop _ _ ?q ?i ?st] =>
      pose proof (update_loop_not_thrown q i st) as Hloop;
      destruct (Hssp.update_loop kResidueIX kD q i st) as [st' | | |]
  end; cbn [bind]; try reflexivity; [| discriminate Hloop].
  destruct (Hssp.u_begin st' =? Hssp.kMaxUInt32); cbn [bind]; [reflexivity |].
  destruct (Hssp.u_begin st' <=? Hssp.m_size s); cbn [assert bind];
    [| reflexivity].
  destruct (Hssp.u_end st' <=? Hssp.m_size s); cbn [assert bind]; reflexivity.
Qed.

End ReducerFacts.

(** C1 fails on the code: the residue index is stored in an unsigned byte
    before it is compared with -1, so neither [THROW] can be taken. With
    the query row A?C and the subject row ADC the column of the invalid
    letter is counted like any aligned column: the window is 0..3 and the
    alignment length 3. *)
Theorem update_accepts_invalid_letter (kD : Z -> Z -> Q) :
  Hssp.kResidueIX_spec "?" = -1 /\
  is_thrown (Hssp.update Hssp.kResidueIX_spec kD
               (example_seq "A?C" 0 3) (example_seq "ADC" 0 3)) = false /\
  exists s',
    Hssp.update Hssp.kResidueIX_spec kD
      (example_seq "A?C" 0 3) (example_seq "ADC" 0 3) = Ok s' /\
    Hssp.m_begin s' = 0 /\ Hssp.m_end s' = 3 /\
    Hssp.m_ifir s' = 1 /\ Hssp.m_ilas s' = 3 /\ Hssp.m_length s' = 3 /\
    Hssp.m_identical s' = 2 /\ Hssp.m_seq s' = text "ADC".
Proof.
  split; [reflexivity |]. split; [apply update_never_throws |].
  eexists. split; [cbv; reflexivity |].
  repeat split; reflexivity.
Qed.

(** ** Conservation weights over a gapped column *)

Definition example_msa : list Hssp.seq :=
  [example_seq "AAA" 0 3; example_seq "A.C" 0 3].

Definition example_res : list Hssp.ResidueHInfo :=
  [Hssp.mkResidueHInfo "A" "A" 1 1 0 1 0 0 1 [];
   Hssp.mkResidueHInfo "A" "A" 2 2 1 1 0 0 1 [];
   Hssp.mkResidueHInfo "A" "A" 3 3 2 1 0 0 1 []].

(** C4 fails on the code: [simval] is only written in the columns where
    both rows carry a residue, and the second loop adds to every column of
    the overlap whose [simval] is not the marker. In the pair AAA / A.C the
    second row is gapped in column 1; [simval[1]] still holds its initial
    0, so the pair adds its distance 1/2 times 1.5 to [sumdist[1]] (and
    1/2 times 0 to [sumvar[1]]), and the column gets the weight 0 instead
    of the 1.0 of a column without contributions. *)
Theorem conservation_gap_column_contributes (kD : Z -> Z -> Q) :
  Hssp.is_gap Hssp.kResidueIX_spec "." = true /\
  exists sv sd res',
    Hssp.conservation_worker Hssp.kResidueIX_spec kD example_msa = Ok (sv, sd) /\
    Mas.Qnth 1 sv == 0 /\ Mas.Qnth 1 sd == (3#4) /\
    Hssp.CalculateConservation Hssp.kResidueIX_spec kD example_msa example_res
      = Ok res' /\
    Qeq_bool (Hssp.consweight (nth 1 res' example_residue)) 0 = true /\
    Qeq_bool (Hssp.consweight (nth 1 res' example_residue)) 1 = false.
Proof.
  split; [reflexivity |].
  do 3 eexists.
  split; [cbv; reflexivity |].
  split; [reflexivity |]. split; [reflexivity |].
  split; [cbv; reflexivity |].
  split; reflexivity.
Qed.

(** * Further properties of the code *)

(** ** Gaps at the end of an entry, and gaps taken out again *)

Section GapRoundTrip.

Variable kSignalGapCode : Mas.aa.

(** X1. On an entry whose positions vector is absent or as long as the
    sequence, [insert_gap] at any index at or beyond the end of the
    sequence does what [append_gap] does. *)
Theorem insert_gap_at_end_is_append_gap (pos : nat) (e : Mas.entry)
    (WF : Mas.m_positions e = [] \/
          length (Mas.m_positions e) = length (Mas.m_seq e))
    (Hpos : (length (Mas.m_seq e) <= pos)%nat) :
  Mas.insert_gap kSignalGapCode pos e = Mas.append_gap kSignalGapCode e /\
  exists e', Mas.append_gap kSignalGapCode e = Ok e' /\
             Mas.m_seq e' = Mas.m_seq e ++ [kSignalGapCode].
Proof.
  rewrite (insert_gap_splice kSignalGapCode pos e WF).
  unfold Mas.append_gap.
  rewrite (insert_at_beyond pos kSignalGapCode (Mas.m_seq e) Hpos).
  destruct WF as [Hnone | Hsame].
  - rewrite Hnone. cbn [Mas.is_empty negb length Nat.eqb orb assert bind].
    rewrite orb_true_r. cbn [assert bind]. split; [reflexivity |].
    eexists. split; reflexivity.
  - destruct (Mas.m_positions e) as [| p0 ps] eqn:Hp.
    + cbn [Mas.is_empty negb orb]. rewrite orb_true_r. cbn [assert bind].
      split; [reflexivity |]. eexists. split; reflexivity.
    + cbn [Mas.is_empty negb].
      rewrite insert_at_beyond by lia.
      rewrite assert_true
        by (rewrite !length_app, Hsame, Nat.eqb_refl; reflexivity).
      cbn [bind]. split; [reflexivity |]. eexists. split; reflexivity.
Qed.

(** X2. Round trip: on an entry without positions whose sequence holds no
    gap code, a gap put in at any index and [remove_gaps] give the entry
    back. *)
Theorem remove_gaps_after_insert_gap (pos : nat) (e : Mas.entry)
    (Hnone : Mas.m_positions e = [])
    (Hfree : ~ In kSignalGapCode (Mas.m_seq e)) :
  (e' <- Mas.insert_gap kSignalGapCode pos e ;;
   Mas.remove_gaps kSignalGapCode e') = Ok e.
Proof.
  rewrite (insert_gap_splice kSignalGapCode pos e (or_introl Hnone)).
  rewrite Hnone. cbn [Mas.is_empty bind].
  unfold Mas.remove_gaps, Mas.with_seq.
  cbn [Mas.m_seq Mas.m_positions Mas.m_nr Mas.m_id Mas.m_ss Mas.m_weight length].
  rewrite length_insert_at. cbn [Nat.eqb].
  assert (Hfilter : forall l, ~ In kSignalGapCode l ->
            filter (fun r => negb (r =? kSignalGapCode)) l = l).
  { induction l as [| r l IH]; intros Hl; [reflexivity |].
    cbn [filter]. destruct (Z.eqb_spec r kSignalGapCode) as [-> | _].
    - exfalso. apply Hl. left. reflexivity.
    - cbn [negb]. rewrite IH; [reflexivity |]. intros H. apply Hl. right. exact H. }
  unfold insert_at. rewrite filter_app. cbn [filter].
  rewrite Z.eqb_refl. cbn [negb]. rewrite <- filter_app, firstn_skipn.
  destruct e as [nr id s p ss w]. cbn in Hnone, Hfree |- *. subst p.
  do 2 f_equal. apply Hfilter. exact Hfree.
Qed.

End GapRoundTrip.

Lemma insert_gap_at_end_is_append_gap_witness :
  Mas.insert_gap example_gap 5 (example_row [0; 4])
    = Mas.append_gap example_gap (example_row [0; 4]) /\
  exists e', Mas.append_gap example_gap (example_row [0; 4]) = Ok e' /\
             Mas.m_seq e' = [0; 4; example_gap].
Proof.
  apply (insert_gap_at_end_is_append_gap example_gap 5 (example_row [0; 4])).
  - left. reflexivity.
  - cbn. lia.
Defined.

Lemma remove_gaps_after_insert_gap_witness :
  (e' <- Mas.insert_gap example_gap 1 (example_row [0; 4]) ;;
   Mas.remove_gaps example_gap e') = Ok (example_row [0; 4]).
Proof.
  apply (remove_gaps_after_insert_gap example_gap 1 (example_row [0; 4])).
  - reflexivity.
  - cbn. intros [H | [H | []]]; discriminate H.
Defined.

(** ** The distance of two entries with a position in every column *)

(** The columns in which two sequences carry the same residue. *)
Definition identical_columns (s t : Mas.sequence) : nat :=
  length (filter (fun c => fst c =? snd c) (combine s t)).

Lemma identical_columns_le (s t : Mas.sequence) :
  (identical_columns s t <= length s)%nat.
Proof.
  unfold identical_columns.
  eapply Nat.le_trans; [apply filter_length_le |].
  rewrite length_combine. apply Nat.le_min_l.
Qed.

Lemma identical_columns_skipn (s t : Mas.sequence) (p : nat) :
  (p < length s)%nat -> length t = length s ->
  identical_columns (skipn p s) (skipn p t) =
    ((if (nth p s 0 =? nth p t 0)%Z then 1 else 0) +
     identical_columns (skipn (S p) s) (skipn (S p) t))%nat.
Proof.
  revert s t. induction p as [| p IH]; intros s t Hp Hlen.
  - destruct s as [| x s]; [simpl in Hp; lia |].
    destruct t as [| y t]; [simpl in Hlen; lia |].
    unfold identical_columns. cbn [skipn combine filter fst snd nth].
    destruct (x =? y); reflexivity.
  - destruct s as [| x s]; [simpl in Hp; lia |].
    destruct t as [| y t]; [simpl in Hlen; lia |].
    cbn [skipn nth]. apply IH; simpl in *; lia.
Qed.

Section Anchored.

Variable kDistanceMatrix : Mas.aa -> Mas.aa -> Z.
Variables a b : Mas.entry.

Hypothesis Hseq : length (Mas.m_seq b) = length (Mas.m_seq a).
Hypothesis Hpositions : Mas.m_positions b = Mas.m_positions a.
Hypothesis Hlen : length (Mas.m_positions a) = length (Mas.m_seq a).
Hypothesis Hanchors : forall j, (j < length (Mas.m_seq a))%nat ->
  nth j (Mas.m_positions a) 0 <> 0.

Local Open Scope nat_scope.

(** With the same position in every column of both entries the outer loop
    takes the columns one by one and counts the identical ones in
    [highId], a [uint16]. *)
Lemma dblocks_anchored_pair (fuel : nat) :
  forall p h c,
    p <= length (Mas.m_seq a) -> length (Mas.m_seq a) - p < fuel ->
    (0 <= h < 65536)%Z ->
    Mas.dblocks kDistanceMatrix fuel a b (Mas.mkDloop p p p p h c)
    = Ok (Mas.mkDloop (length (Mas.m_seq a)) (length (Mas.m_seq a))
            (length (Mas.m_seq a)) (length (Mas.m_seq a))
            (Mas.to_uint16
               (h + Z.of_nat (identical_columns (skipn p (Mas.m_seq a))
                                                (skipn p (Mas.m_seq b)))))
            c).
Proof.
  induction fuel as [| fuel IH]; intros p h c Hp Hfuel Hh; [lia |].
  cbn [Mas.dblocks Mas.lx Mas.ly Mas.lendX Mas.lendY Mas.highId Mas.cells].
  rewrite Hseq, Hpositions.
  destruct (Nat.ltb_spec p (length (Mas.m_seq a))) as [Hin | Hout];
    cbn [andb].
  - unfold Mas.at_anchor. rewrite !Nat.eqb_refl. cbn [andb].
    rewrite (read_nth (Mas.m_positions a) p 0%Z) by lia. cbn [bind].
    rewrite Z.eqb_refl. cbn [andb].
    pose proof (Hanchors p Hin) as Hnz. apply Z.eqb_neq in Hnz.
    rewrite Hnz. cbn [negb].
    rewrite (identical_columns_skipn (Mas.m_seq a) (Mas.m_seq b) p Hin Hseq).
    destruct (nth p (Mas.m_seq a) 0 =? nth p (Mas.m_seq b) 0)%Z.
    + rewrite IH;
        [| lia | lia | unfold Mas.to_uint16; apply Z.mod_pos_bound; lia].
      do 2 f_equal. unfold Mas.to_uint16.
      rewrite Z.add_mod_idemp_l by lia. f_equal. lia.
    + rewrite IH; [| lia | lia | exact Hh]. do 3 f_equal.
  - replace p with (length (Mas.m_seq a)) by lia.
    rewrite skipn_all. unfold identical_columns. cbn [combine filter length].
    rewrite Z.add_0_r. unfold Mas.to_uint16.
    rewrite Z.mod_small by lia. reflexivity.
Qed.

End Anchored.

(** X3. For two entries of the same positive length that carry the same
    non-zero position in every column, [calculateDistance] compares the
    columns one by one: it returns 1 minus the number of identical
    columns, counted modulo 65536, over the length. No cell of the
    matrices is filled, whatever the distance table. *)
Theorem calculateDistance_anchored_everywhere
    (kDistanceMatrix : Mas.aa -> Mas.aa -> Z) (a b : Mas.entry)
    (Hne : Mas.m_seq a <> [])
    (Hseq : length (Mas.m_seq b) = length (Mas.m_seq a))
    (Hpositions : Mas.m_positions b = Mas.m_positions a)
    (Hlen : length (Mas.m_positions a) = length (Mas.m_seq a))
    (Hanchors : forall j, (j < length (Mas.m_seq a))%nat ->
       nth j (Mas.m_positions a) 0 <> 0) :
  exists r,
    Mas.calculateDistance kDistanceMatrix a b = Ok r /\
    r == 1 - inject_Z (Z.of_nat (identical_columns (Mas.m_seq a) (Mas.m_seq b))
                       mod 65536)
             / inject_Z (Z.of_nat (length (Mas.m_seq a))).
Proof.
  assert (Hpos : (0 < length (Mas.m_seq a))%nat)
    by (destruct (Mas.m_seq a); [contradiction | simpl; lia]).
  unfold Mas.calculateDistance. rewrite Hseq, Hpositions.
  replace (length (Mas.m_seq a) =? 0)%nat with false
    by (symmetry; apply Nat.eqb_neq; lia).
  cbn [orb bind].
  assert (Hpresent : Mas.is_empty (Mas.m_positions a) = false).
  { destruct (Mas.m_positions a); [simpl in Hlen; lia | reflexivity]. }
  rewrite Hpresent. cbn [orb].
  rewrite (dblocks_anchored_pair kDistanceMatrix a b Hseq Hpositions Hlen Hanchors)
    by lia.
  cbn [bind Mas.highId skipn]. rewrite Z.add_0_l.
  unfold Mas.to_uint16, Mas.finish, fdiv. rewrite Nat.max_id.
  set (k := Z.of_nat (identical_columns (Mas.m_seq a) (Mas.m_seq b)) mod 65536).
  set (n := Z.of_nat (length (Mas.m_seq a))).
  assert (Hk : 0 <= k <= n).
  { unfold k, n. pose proof (identical_columns_le (Mas.m_seq a) (Mas.m_seq b)).
    split; [apply Z.mod_pos_bound; lia |].
    eapply Z.le_trans; [apply Z.mod_le; lia | lia]. }
  assert (Hn : 0 < n) by (unfold n; lia).
  assert (Hnz : ~ inject_Z n == 0).
  { intros H. apply (inject_Z_injective n 0) in H. lia. }
  destruct (Qeq_bool (inject_Z n) 0) eqn:Hq;
    [apply Qeq_bool_iff in Hq; contradiction |].
  assert (Hfrac : (0 <= inject_Z k / inject_Z n <= 1)%Q).
  { split.
    - apply Qle_shift_div_l; [change 0%Q with (inject_Z 0); rewrite <- Zlt_Qlt; lia |].
      rewrite Qmult_0_l. change 0%Q with (inject_Z 0). rewrite <- Zle_Qle. lia.
    - apply Qle_shift_div_r; [change 0%Q with (inject_Z 0); rewrite <- Zlt_Qlt; lia |].
      rewrite Qmult_1_l. rewrite <- Zle_Qle. lia. }
  rewrite !assert_true; cbn [bind].
  - eexists. split; [reflexivity | reflexivity].
  - apply Qle_bool_iff. lra.
  - apply Qle_bool_iff. lra.
Qed.

Lemma calculateDistance_anchored_everywhere_witness :
  exists r,
    Mas.calculateDistance example_matrix
      (Mas.mkEntry 0 "" [0; 1; 2] [5; 6; 7] [] 1)
      (Mas.mkEntry 1 "" [0; 3; 2] [5; 6; 7] [] 1) = Ok r /\
    r == 1 - (2 # 3).
Proof.
  destruct (calculateDistance_anchored_everywhere example_matrix
              (Mas.mkEntry 0 "" [0; 1; 2] [5; 6; 7] [] 1)
              (Mas.mkEntry 1 "" [0; 3; 2] [5; 6; 7] [] 1))
    as (r & Hrun & Hr).
  - discriminate.
  - reflexivity.
  - reflexivity.
  - reflexivity.
  - intros [| [| [| j]]] Hj; cbn in Hj |- *; try discriminate; lia.
  - exists r. split; [exact Hrun |]. rewrite Hr. reflexivity.
Defined.

(** ** What [align] does to the rows of two blocks without positions *)

(** A loop whose body cannot fail, writes the cells of its element and
    keeps what holds of the other cells. *)
Lemma foreach_cells {A B C : Type} (f : A -> B -> result A) (l : list B)
    (V : A -> C -> Prop) (cells : B -> C -> Prop) :
  (forall st b, In b l ->
     exists st', f st b = Ok st' /\
       (forall c, cells b c -> V st' c) /\ (forall c, V st c -> V st' c)) ->
  forall st,
    exists st', foreach f l st = Ok st' /\
      (forall b c, In b l -> cells b c -> V st' c) /\
      (forall c, V st c -> V st' c).
Proof.
  induction l as [| b l IH]; intros Hf st.
  - exists st. split; [reflexivity |]. split; [intros b c [] | auto].
  - destruct (Hf st b (or_introl eq_refl)) as (st1 & Hrun & Hnew & Hkeep).
    destruct (IH (fun st' b' Hin => Hf st' b' (or_intror Hin)) st1)
      as (st2 & Hrest & Hall & Hkeep2).
    exists st2. cbn [foreach]. rewrite Hrun. cbn [bind].
    split; [exact Hrest |]. split.
    + intros b' c [<- | Hin] Hc; [apply Hkeep2, Hnew, Hc | apply (Hall b' c Hin Hc)].
    + intros c Hc. apply Hkeep2, Hkeep, Hc.
Qed.

(** A direction the traceback can follow. *)
Definition direction_valid (t : Z) : Prop := t = -1 \/ t = 0 \/ t = 1.

Lemma mark_row_valid (from to y : nat) (t : Mas.matrix Z) (x' y' : nat) :
  direction_valid (t x' y') -> direction_valid (Mas.mark_row from to y t x' y').
Proof.
  unfold Mas.mark_row. generalize (to - from)%nat as m. intros m.
  revert from t. induction m as [| m IH]; intros from t Ht; [exact Ht |].
  cbn [seq fold_left]. apply IH. unfold Mas.mset.
  destruct ((x' =? from)%nat && (y' =? y)%nat)%bool; [right; right; reflexivity | exact Ht].
Qed.

Lemma mark_column_valid (from to x : nat) (t : Mas.matrix Z) (x' y' : nat) :
  direction_valid (t x' y') -> direction_valid (Mas.mark_column from to x t x' y').
Proof.
  unfold Mas.mark_column. generalize (to - from)%nat as m. intros m.
  revert from t. induction m as [| m IH]; intros from t Ht; [exact Ht |].
  cbn [seq fold_left]. apply IH. unfold Mas.mset.
  destruct ((x' =? x)%nat && (y' =? from)%nat)%bool; [left; reflexivity | exact Ht].
Qed.

Lemma lead_to_high_valid (endX endY toX toY : nat) (c : Mas.astate) (x y : nat) :
  direction_valid (Mas.tb c x y) ->
  direction_valid (Mas.tb (Mas.lead_to_high endX endY toX toY c) x y).
Proof.
  intros H. unfold Mas.lead_to_high, Mas.with_tb. cbn [Mas.tb].
  destruct (0 <? endY)%nat, (0 <? endX)%nat;
    repeat (apply mark_column_valid || apply mark_row_valid); exact H.
Qed.

Section AlignRows.

Variable kSignalGapCode : Mas.aa.

(** The residues of a sequence: what is left without the gap codes. *)
Definition residues (s : Mas.sequence) : Mas.sequence :=
  filter (fun r => negb (r =? kSignalGapCode)) s.

(** [s'] is [s] with gap codes put in: every code of [s], the gap codes
    it already holds included, is kept in its order, and every code that
    is new is a gap code. *)
Inductive gaps_inserted : Mas.sequence -> Mas.sequence -> Prop :=
| inserted_nil : gaps_inserted [] []
| inserted_keep (r : Mas.aa) (s s' : Mas.sequence) :
    gaps_inserted s s' -> gaps_inserted (r :: s) (r :: s')
| inserted_gap (s s' : Mas.sequence) :
    gaps_inserted s s' -> gaps_inserted s (kSignalGapCode :: s').

(** [e'] is [e] with nothing but gap codes put into its sequence. *)
Definition gapped (e e' : Mas.entry) : Prop :=
  Mas.m_nr e' = Mas.m_nr e /\ Mas.m_id e' = Mas.m_id e /\
  Mas.m_ss e' = Mas.m_ss e /\ Mas.m_weight e' = Mas.m_weight e /\
  Mas.m_positions e' = Mas.m_positions e /\
  gaps_inserted (Mas.m_seq e) (Mas.m_seq e').

(** Rows without positions, each of [l] columns. *)
Definition block (l : nat) (rows : list Mas.entry) : Prop :=
  forall e, In e rows -> Mas.m_positions e = [] /\ length (Mas.m_seq e) = l.

Lemma gaps_inserted_refl (s : Mas.sequence) : gaps_inserted s s.
Proof. induction s; constructor; assumption. Qed.

Lemma gaps_inserted_trans (s1 s2 s3 : Mas.sequence) :
  gaps_inserted s1 s2 -> gaps_inserted s2 s3 -> gaps_inserted s1 s3.
Proof.
  intros H12 H23. revert s1 H12.
  induction H23 as [| r s2 s3 H23 IH | s2 s3 H23 IH]; intros s1 H12.
  - exact H12.
  - inversion H12 as [| r' t t' Ht | t t' Ht]; subst.
    + apply inserted_keep. apply IH. exact Ht.
    + apply inserted_gap. apply IH. exact Ht.
  - apply inserted_gap. apply IH. exact H12.
Qed.

(** Putting gap codes in keeps the residues, and the gap codes that were
    there: the sequence only grows. *)
Lemma gaps_inserted_residues (s s' : Mas.sequence) :
  gaps_inserted s s' ->
  residues s' = residues s /\ (length s <= length s')%nat.
Proof.
  unfold residues. induction 1 as [| r s s' H [IH IHl] | s s' H [IH IHl]].
  - split; [reflexivity | apply Nat.le_refl].
  - cbn [filter length]. rewrite IH. split; [reflexivity | lia].
  - cbn [filter length]. rewrite Z.eqb_refl. cbn [negb]. split; [exact IH | lia].
Qed.

Lemma gaps_inserted_insert_at (pos : nat) :
  forall s, gaps_inserted s (insert_at pos kSignalGapCode s).
Proof.
  unfold insert_at. induction pos as [| pos IH]; intros s.
  - cbn [firstn skipn app]. apply inserted_gap, gaps_inserted_refl.
  - destruct s as [| r s]; cbn [firstn skipn app].
    + apply inserted_gap, inserted_nil.
    + apply inserted_keep, IH.
Qed.

Lemma gapped_refl (e : Mas.entry) : gapped e e.
Proof. unfold gapped. repeat split. apply gaps_inserted_refl. Qed.

Lemma gapped_trans (e1 e2 e3 : Mas.entry) :
  gapped e1 e2 -> gapped e2 e3 -> gapped e1 e3.
Proof.
  unfold gapped. intros (A1 & A2 & A3 & A4 & A5 & A6) (B1 & B2 & B3 & B4 & B5 & B6).
  repeat (split; [congruence |]).
  eapply gaps_inserted_trans; eassumption.
Qed.

Lemma rows_gapped_refl (rows : list Mas.entry) : Forall2 gapped rows rows.
Proof. induction rows; constructor; [apply gapped_refl | assumption]. Qed.

Lemma rows_gapped_trans (r1 r2 r3 : list Mas.entry) :
  Forall2 gapped r1 r2 -> Forall2 gapped r2 r3 -> Forall2 gapped r1 r3.
Proof.
  intros H12. revert r3. induction H12 as [| e1 e2 r1 r2 He H12 IH]; intros r3 H23.
  - inversion H23. constructor.
  - inversion H23 as [| e2' e3 r2' r3' He' H23' ]; subst.
    constructor; [eapply gapped_trans; eassumption | apply IH; assumption].
Qed.

Lemma insert_gap_row (pos l : nat) (e : Mas.entry) :
  Mas.m_positions e = [] -> length (Mas.m_seq e) = l ->
  exists e', Mas.insert_gap kSignalGapCode pos e = Ok e' /\ gapped e e' /\
             Mas.m_positions e' = [] /\ length (Mas.m_seq e') = S l.
Proof.
  intros Hnone Hlen.
  rewrite (insert_gap_splice kSignalGapCode pos e (or_introl Hnone)).
  rewrite Hnone. cbn [Mas.is_empty]. eexists. split; [reflexivity |].
  unfold gapped, Mas.with_seq.
  cbn [Mas.m_nr Mas.m_id Mas.m_ss Mas.m_weight Mas.m_positions Mas.m_seq].
  rewrite length_insert_at, Hnone, Hlen.
  split; [| split; reflexivity].
  repeat (split; [reflexivity |]). apply gaps_inserted_insert_at.
Qed.

Lemma insert_gaps_rows (pos l : nat) (rows : list Mas.entry) :
  block l rows ->
  exists rows', Mas.insert_gaps kSignalGapCode pos rows = Ok rows' /\
                Forall2 gapped rows rows' /\ block (S l) rows'.
Proof.
  induction rows as [| e rows IH]; intros Hblock.
  - exists []. split; [reflexivity |]. split; [constructor | intros e []].
  - destruct (Hblock e (or_introl eq_refl)) as [Hnone Hlen].
    destruct (insert_gap_row pos l e Hnone Hlen) as (e' & Hrun & Hg & Hnone' & Hlen').
    destruct IH as (rows' & Hrest & Hgs & Hblock');
      [intros e0 H0; apply Hblock; right; exact H0 |].
    exists (e' :: rows'). cbn [Mas.insert_gaps]. rewrite Hrun, Hrest. cbn [bind].
    split; [reflexivity |]. split; [constructor; assumption |].
    intros e0 [<- | H0]; [split; assumption | apply Hblock'; exact H0].
Qed.

Lemma start_gaps_rows (count pos : nat) :
  forall l rows, block l rows ->
    exists rows', Mas.start_gaps kSignalGapCode count pos rows = Ok rows' /\
                  Forall2 gapped rows rows' /\ block (count + l) rows'.
Proof.
  induction count as [| count IH]; intros l rows Hblock.
  - exists rows. split; [reflexivity |]. split; [apply rows_gapped_refl | exact Hblock].
  - destruct (insert_gaps_rows pos l rows Hblock) as (rows1 & Hrun & Hg & Hblock1).
    destruct (IH (S l) rows1 Hblock1) as (rows2 & Hrest & Hg2 & Hblock2).
    exists rows2. cbn [Mas.start_gaps]. rewrite Hrun. cbn [bind].
    split; [exact Hrest |]. split; [eapply rows_gapped_trans; eassumption |].
    replace (S count + l)%nat with (count + S l)%nat by lia. exact Hblock2.
Qed.

Local Open Scope nat_scope.

(** The traceback over a matrix whose cells all hold a direction. *)
Lemma traceback_rows (dimX dimY : nat) (t : Mas.matrix Z) :
  (forall x y, x < dimX -> y < dimY -> direction_valid (t x y)) ->
  forall fuel px py a b la lb,
    px + py < fuel -> px <= dimX -> py <= dimY ->
    block la a -> block lb b ->
    exists px' py' a' b' la' lb',
      Mas.traceback kSignalGapCode fuel t px py a b = Ok (px', py', a', b') /\
      (px' = 0 \/ py' = 0) /\
      Forall2 gapped a a' /\ Forall2 gapped b b' /\
      block la' a' /\ block lb' b' /\
      la' + py' + lb + px = lb' + px' + la + py /\
      la' + py' <= la + py /\ lb' + px' <= lb + px /\ la <= la' /\ lb <= lb'.
Proof.
  intros Hvalid. induction fuel as [| fuel IH];
    intros px py a b la lb Hfuel Hpx Hpy Ha Hb; [lia |].
  cbn [Mas.traceback].
  destruct px as [| x].
  { exists 0, py, a, b, la, lb. split; [reflexivity |].
    split; [left; reflexivity |].
    repeat (split; [first [assumption | apply rows_gapped_refl | lia] |]). lia. }
  destruct py as [| y].
  { exists (S x), 0, a, b, la, lb. split; [reflexivity |].
    split; [right; reflexivity |].
    repeat (split; [first [assumption | apply rows_gapped_refl | lia] |]). lia. }
  destruct (Hvalid x y ltac:(lia) ltac:(lia)) as [Hd | [Hd | Hd]]; rewrite Hd;
    cbn [Z.eqb Pos.eqb].
  - (* a gap in the rows of a *)
    destruct (insert_gaps_rows (S x) la a Ha) as (a1 & Hrun & Hg & Ha1).
    rewrite Hrun. cbn [bind].
    destruct (IH (S x) y a1 b (S la) lb ltac:(lia) Hpx ltac:(lia) Ha1 Hb)
      as (px' & py' & a' & b' & la' & lb' & Hrest & Hend & Hga & Hgb & Ha' & Hb'
          & Hdiff & Hla & Hlb & Hla' & Hlb').
    exists px', py', a', b', la', lb'. split; [exact Hrest |].
    split; [exact Hend |]. split; [eapply rows_gapped_trans; eassumption |].
    repeat (split; [first [assumption | lia] |]). lia.
  - (* a match *)
    destruct (IH x y a b la lb ltac:(lia) ltac:(lia) ltac:(lia) Ha Hb)
      as (px' & py' & a' & b' & la' & lb' & Hrest & Hend & Hga & Hgb & Ha' & Hb'
          & Hdiff & Hla & Hlb & Hla' & Hlb').
    exists px', py', a', b', la', lb'. split; [exact Hrest |].
    repeat (split; [first [assumption | lia] |]). lia.
  - (* a gap in the rows of b *)
    destruct (insert_gaps_rows (S y) lb b Hb) as (b1 & Hrun & Hg & Hb1).
    rewrite Hrun. cbn [bind].
    destruct (IH x (S y) a b1 la (S lb) ltac:(lia) ltac:(lia) Hpy Ha Hb1)
      as (px' & py' & a' & b' & la' & lb' & Hrest & Hend & Hga & Hgb & Ha' & Hb'
          & Hdiff & Hla & Hlb & Hla' & Hlb').
    exists px', py', a', b', la', lb'. split; [exact Hrest |].
    split; [exact Hend |]. split; [exact Hga |].
    split; [eapply rows_gapped_trans; eassumption |].
    repeat (split; [first [assumption | lia] |]). lia.
Qed.

End AlignRows.

Section AlignFill.

Variable kSignalGapCode : Mas.aa.
Variable smat : Mas.aa -> Mas.aa -> Z.
Variables a b : list Mas.entry.
Variables gop_a gep_a gop_b gep_b : list Q.
Variables dimX dimY : nat.

Local Open Scope nat_scope.

Hypothesis Ha : forall e, In e a -> length (Mas.m_seq e) = dimX.
Hypothesis Hb : forall e, In e b -> length (Mas.m_seq e) = dimY.
Hypothesis Hgop_a : length gop_a = dimX.
Hypothesis Hgep_a : length gep_a = dimX.
Hypothesis Hgop_b : length gop_b = dimY.
Hypothesis Hgep_b : length gep_b = dimY.

Lemma score_in_range (x y : nat) :
  x < dimX -> y < dimY ->
  exists q, Mas.score kSignalGapCode smat a b x y = Ok q.
Proof.
  intros Hx Hy. unfold Mas.score.
  assert (Hinner : forall ea, In ea a -> forall l acc,
            (forall e, In e l -> In e b) ->
            exists q, foreach (fun acc eb => Mas.score_pair kSignalGapCode smat x y ea eb acc)
                        l acc = Ok q).
  { intros ea Hea. induction l as [| eb l IH]; intros acc Hl.
    - exists acc. reflexivity.
    - cbn [foreach]. unfold Mas.score_pair at 1.
      rewrite !assert_true;
        [| apply Nat.ltb_lt; rewrite (Hb eb) by (apply Hl; left; reflexivity); exact Hy
         | apply Nat.ltb_lt; rewrite (Ha ea Hea); exact Hx].
      cbn [bind]. apply IH. intros e He. apply Hl. right. exact He. }
  assert (Houter : forall l acc, (forall e, In e l -> In e a) ->
            exists q, foreach
                        (fun acc ea =>
                           foreach (fun acc eb =>
                                      Mas.score_pair kSignalGapCode smat x y ea eb acc) b acc)
                        l acc = Ok q).
  { induction l as [| ea l IH]; intros acc Hl.
    - exists acc. reflexivity.
    - cbn [foreach].
      destruct (Hinner ea (Hl ea (or_introl eq_refl)) b acc (fun e He => He))
        as (q & Hq).
      rewrite Hq. cbn [bind]. apply IH. intros e He. apply Hl. right. exact He. }
  destruct (Houter a 0%Q (fun e He => He)) as (q & Hq).
  rewrite Hq. cbn [bind]. eexists. reflexivity.
Qed.

Definition cell_valid (st : Mas.astate) (c : nat * nat) : Prop :=
  direction_valid (Mas.tb st (fst c) (snd c)).

Lemma acell_valid (startX startY endX endY : nat) (st : Mas.astate) (x y : nat) :
  x < dimX -> y < dimY ->
  exists st',
    Mas.acell kSignalGapCode smat a b gop_a gep_a gop_b gep_b dimX dimY
      startX startY endX endY st x y = Ok st' /\
    cell_valid st' (x, y) /\
    forall c, cell_valid st c -> cell_valid st' c.
Proof.
  intros Hx Hy. unfold Mas.acell.
  destruct (score_in_range x y Hx Hy) as (q & Hq). rewrite Hq. cbn [bind].
  assert (Hgx : exists g, (if x <? dimX - 1 then read gop_a x else Ok 0%Q) = Ok g).
  { destruct (x <? dimX - 1); [| eexists; reflexivity].
    exists (nth x gop_a 0%Q). apply read_nth. lia. }
  assert (Hgy : exists g, (if y <? dimY - 1 then read gop_b y else Ok 0%Q) = Ok g).
  { destruct (y <? dimY - 1); [| eexists; reflexivity].
    exists (nth y gop_b 0%Q). apply read_nth. lia. }
  destruct Hgx as (gx & Hgx). destruct Hgy as (gy & Hgy).
  rewrite (read_nth gep_a x 0%Q) by lia. rewrite (read_nth gep_b y 0%Q) by lia.
  destruct (Mas.choose _ _ _); rewrite Hgx, Hgy; cbn [bind];
    (eexists; split; [reflexivity |]);
    unfold cell_valid; cbn [Mas.tb fst snd]; (split;
      [unfold Mas.mset; rewrite !Nat.eqb_refl; cbn [andb]; unfold direction_valid; lia
      | intros [x' y'] Hc; cbn [fst snd] in *; unfold Mas.mset;
        destruct ((x' =? x) && (y' =? y))%bool;
          [unfold direction_valid; lia | exact Hc]]).
Qed.

Lemma afill_valid (startX startY endX endY : nat) (st : Mas.astate) :
  endX <= dimX -> endY <= dimY ->
  exists st',
    Mas.afill kSignalGapCode smat a b gop_a gep_a gop_b gep_b dimX dimY
      startX startY endX endY st = Ok st' /\
    (forall x y, startX <= x < endX -> startY <= y < endY ->
       direction_valid (Mas.tb st' x y)) /\
    (forall x y, direction_valid (Mas.tb st x y) -> direction_valid (Mas.tb st' x y)).
Proof.
  intros HeX HeY. unfold Mas.afill.
  destruct (foreach_cells
              (fun st x =>
                 foreach (fun st y =>
                            Mas.acell kSignalGapCode smat a b gop_a gep_a gop_b gep_b
                              dimX dimY startX startY endX endY st x y)
                   (seq startY (endY - startY)) st)
              (seq startX (endX - startX)) cell_valid
              (fun x c => fst c = x /\ startY <= snd c < endY)) with (st := st)
    as (st' & Hrun & Hall & Hkeep).
  - intros st0 x Hx. apply in_seq in Hx.
    destruct (foreach_cells
                (fun st y =>
                   Mas.acell kSignalGapCode smat a b gop_a gep_a gop_b gep_b
                     dimX dimY startX startY endX endY st x y)
                (seq startY (endY - startY)) cell_valid
                (fun y c => c = (x, y))) with (st := st0)
      as (st1 & Hrow & Hrow_all & Hrow_keep).
    + intros st2 y Hy. apply in_seq in Hy.
      destruct (acell_valid startX startY endX endY st2 x y ltac:(lia) ltac:(lia))
        as (st3 & Hcell & Hnew & Hold).
      exists st3. split; [exact Hcell |]. split; [intros c ->; exact Hnew | exact Hold].
    + exists st1. split; [exact Hrow |]. split; [| exact Hrow_keep].
      intros [x' y'] [Hfst Hsnd]. cbn [fst snd] in *. subst x'.
      apply (Hrow_all y' (x, y')); [apply in_seq; lia | reflexivity].
  - exists st'. split; [exact Hrun |]. split.
    + intros x y Hx Hy.
      apply (Hall x (x, y)); [apply in_seq; lia | cbn [fst snd]; split; [reflexivity | lia]].
    + intros x y H. apply (Hkeep (x, y)). exact H.
Qed.

(** Without anchors the loop of [align] fills the whole matrix as one
    block. *)
Lemma ablocks_whole (pa pb : list Z) (c : Mas.astate) :
  exists l,
    Mas.ablocks kSignalGapCode smat a b gop_a gep_a gop_b gep_b pa pb dimX dimY
      (S (dimX + dimY)) (Mas.mkAloop 0 0 dimX dimY c) = Ok l /\
    Mas.aendX l = dimX /\ Mas.aendY l = dimY /\
    forall x y, x < dimX -> y < dimY ->
      direction_valid (Mas.tb (Mas.acells l) x y).
Proof.
  cbn [Mas.ablocks Mas.ax Mas.ay Mas.aendX Mas.aendY Mas.acells].
  destruct (Nat.ltb_spec 0 dimX) as [HX | HX]; cbn [andb];
    [destruct (Nat.ltb_spec 0 dimY) as [HY | HY] |]; cbn [andb].
  - unfold Mas.at_anchor.
    replace (0 =? dimX) with false by (symmetry; apply Nat.eqb_neq; lia).
    cbn [andb bind].
    replace (Mas.scan pa pb dimX dimY (S (dimX + dimY)) dimX dimY)
      with (@Ok (nat * nat) (dimX, dimY)).
    2:{ cbn [Mas.scan]. rewrite !Nat.ltb_irrefl. reflexivity. }
    cbn [bind]. rewrite Nat.ltb_irrefl.
    match goal with
    | |- context [Mas.afill _ _ _ _ _ _ _ _ _ _ _ _ _ _ ?c1] =>
        destruct (afill_valid 0 0 dimX dimY c1 (le_n _) (le_n _))
          as (c2 & Hrun & Hnew & _)
    end.
    rewrite Hrun. cbn [bind].
    destruct (dimX + dimY) as [| fuel] eqn:Hf; [lia |].
    cbn [Mas.ablocks Mas.ax Mas.ay]. rewrite Nat.ltb_irrefl. cbn [andb].
    eexists. split; [reflexivity |].
    cbn [Mas.aendX Mas.aendY Mas.acells]. split; [reflexivity |].
    split; [reflexivity |].
    intros x y Hx Hy. apply lead_to_high_valid. apply Hnew; lia.
  - eexists. split; [reflexivity |]. cbn [Mas.aendX Mas.aendY Mas.acells].
    split; [reflexivity |]. split; [reflexivity |]. intros x y Hx Hy. lia.
  - eexists. split; [reflexivity |]. cbn [Mas.aendX Mas.aendY Mas.acells].
    split; [reflexivity |]. split; [reflexivity |]. intros x y Hx Hy. lia.
Qed.

End AlignFill.

Lemma block_app (l : nat) (r1 r2 : list Mas.entry) :
  block l r1 -> block l r2 -> block l (r1 ++ r2).
Proof.
  intros H1 H2 e He. apply in_app_or in He. destruct He; [apply H1 | apply H2]; assumption.
Qed.

(** [align] on two blocks of rows without positions. *)
Lemma align_rows_gapped
    (kSignalGapCode : Mas.aa) (smat : Mas.aa -> Mas.aa -> Z)
    (mismatch_average scale_factor : Q) (log10 : Q -> Q)
    (a b : list Mas.entry) (gop gep magic : Q) (ignorePositions : bool)
    (dimX dimY : nat)
    (Hne_a : a <> []) (Hne_b : b <> [])
    (Ha : block dimX a) (Hb : block dimY b) :
  exists a' b' L,
    Mas.align kSignalGapCode smat mismatch_average scale_factor log10
      a b gop gep magic ignorePositions = Ok (a' ++ b') /\
    Forall2 (gapped kSignalGapCode) a a' /\
    Forall2 (gapped kSignalGapCode) b b' /\
    block L (a' ++ b') /\
    (Nat.max dimX dimY <= L <= dimX + dimY)%nat.
Proof.
  destruct a as [| fa ta]; [contradiction |].
  destruct b as [| fb tb]; [contradiction |].
  destruct (Ha fa (or_introl eq_refl)) as [Hpa HdimX].
  destruct (Hb fb (or_introl eq_refl)) as [Hpb HdimY].
  unfold Mas.align. rewrite Hpa, Hpb, HdimX, HdimY.
  destruct (Mas.initial_penalties _ _ _ _ _ _ _ _ _ _) as [[[ga ge] gb] gf].
  destruct (adjust_gp_factors kSignalGapCode (repeat ga dimX) (repeat ge dimX)
              (fa :: ta))
    as (gop_a & gep_a & ins_a & Hrun_a & _ & _ & _ & Lga & Lea & _);
    [discriminate
    | intros e He; rewrite repeat_length; apply (Ha e He)
    | rewrite !repeat_length; reflexivity |].
  destruct (adjust_gp_factors kSignalGapCode (repeat gb dimY) (repeat gf dimY)
              (fb :: tb))
    as (gop_b & gep_b & ins_b & Hrun_b & _ & _ & _ & Lgb & Leb & _);
    [discriminate
    | intros e He; rewrite repeat_length; apply (Hb e He)
    | rewrite !repeat_length; reflexivity |].
  rewrite repeat_length in Lga, Lea, Lgb, Leb.
  rewrite Hrun_a, Hrun_b. cbn [bind Mas.is_empty].
  rewrite orb_true_r. cbn [orb].
  match goal with
  | |- context [Mas.ablocks _ _ _ _ _ _ _ _ ?pa ?pb _ _ _ (Mas.mkAloop _ _ _ _ ?c)] =>
      destruct (ablocks_whole kSignalGapCode smat (fa :: ta) (fb :: tb)
                  gop_a gep_a gop_b gep_b dimX dimY
                  (fun e He => proj2 (Ha e He)) (fun e He => proj2 (Hb e He))
                  Lga Lea Lgb Leb pa pb c)
        as (l & Hloop & HendX & HendY & Hvalid)
  end.
  rewrite Hloop. cbn [bind]. rewrite HendX, HendY.
  destruct (traceback_rows kSignalGapCode dimX dimY
              (Mas.tb (Mas.lead_to_high dimX dimY dimX dimY (Mas.acells l)))
              (fun x y Hx Hy => lead_to_high_valid dimX dimY dimX dimY _ x y
                                  (Hvalid x y Hx Hy))
              (S (dimX + dimY)) dimX dimY (fa :: ta) (fb :: tb) dimX dimY
              ltac:(lia) (le_n _) (le_n _) Ha Hb)
    as (px & py & a1 & b1 & la & lb & Htrace & Hend & Hga & Hgb & Ha1 & Hb1
        & Hdiff & Hla & Hlb & Hla' & Hlb').
  rewrite Htrace. cbn [bind].
  destruct (start_gaps_rows kSignalGapCode px py lb b1 Hb1)
    as (b2 & Hsb & Hgb2 & Hb2).
  destruct (start_gaps_rows kSignalGapCode py 0 la a1 Ha1)
    as (a2 & Hsa & Hga2 & Ha2).
  rewrite Hsb. cbn [bind]. rewrite Hsa. cbn [bind].
  assert (Hga' : Forall2 (gapped kSignalGapCode) (fa :: ta) a2)
    by (eapply rows_gapped_trans; eassumption).
  assert (Hgb' : Forall2 (gapped kSignalGapCode) (fb :: tb) b2)
    by (eapply rows_gapped_trans; eassumption).
  inversion Hga' as [| ? fa' ? ta' _ _]; subst.
  inversion Hgb' as [| ? fb' ? tb' _ _]; subst.
  destruct (Ha2 fa' (or_introl eq_refl)) as [Hpa' _]. rewrite Hpa'.
  cbn [Mas.is_empty negb]. rewrite andb_false_r.
  exists (fa' :: ta'), (fb' :: tb'), (py + la)%nat.
  split; [reflexivity |]. split; [exact Hga' |]. split; [exact Hgb' |].
  split.
  - apply block_app; [exact Ha2 |].
    replace (py + la)%nat with (px + lb)%nat by lia. exact Hb2.
  - lia.
Qed.

(** X4. Two non-empty blocks of rows without positions, the rows of each
    block of one length: [align] returns the rows of the first block
    followed by those of the second, each with nothing but gap codes put
    into its sequence, and all of one length, which is at least the longer
    and at most the sum of the two lengths. *)
Theorem align_inserts_gaps_only
    (kSignalGapCode : Mas.aa) (smat : Mas.aa -> Mas.aa -> Z)
    (mismatch_average scale_factor : Q) (log10 : Q -> Q)
    (a b : list Mas.entry) (gop gep magic : Q) (ignorePositions : bool)
    (dimX dimY : nat)
    (Hne_a : a <> []) (Hne_b : b <> [])
    (Ha : block dimX a) (Hb : block dimY b) :
  exists a' b' L,
    Mas.align kSignalGapCode smat mismatch_average scale_factor log10
      a b gop gep magic ignorePositions = Ok (a' ++ b') /\
    Forall2 (gapped kSignalGapCode) a a' /\
    Forall2 (gapped kSignalGapCode) b b' /\
    block L (a' ++ b') /\
    (Nat.max dimX dimY <= L <= dimX + dimY)%nat.
Proof.
  exact (align_rows_gapped kSignalGapCode smat mismatch_average scale_factor log10
           a b gop gep magic ignorePositions dimX dimY Hne_a Hne_b Ha Hb).
Qed.

Lemma align_inserts_gaps_only_witness :
  exists a' b' L,
    Mas.align example_gap example_matrix 1 1 example_log10
      [example_row [0; 1; 2]] [example_row [0; 2]] 10 (2 # 10) (1 # 10) false
      = Ok (a' ++ b') /\
    Forall2 (gapped example_gap) [example_row [0; 1; 2]] a' /\
    Forall2 (gapped example_gap) [example_row [0; 2]] b' /\
    block L (a' ++ b') /\
    (Nat.max 3 2 <= L <= 3 + 2)%nat.
Proof.
  apply (align_inserts_gaps_only example_gap example_matrix 1 1 example_log10
           [example_row [0; 1; 2]] [example_row [0; 2]] 10 (2 # 10) (1 # 10) false
           3 2).
  - discriminate.
  - discriminate.
  - intros e [<- | []]. split; reflexivity.
  - intros e [<- | []]. split; reflexivity.
Defined.

(** ** The matrix of a family for a distance *)

Lemma cutoff_index_spec (cutoff : list Q) (distance : Q) :
  (4 <= length cutoff)%nat ->
  forall fuel ix, (ix + fuel = 4)%nat -> (0 < fuel)%nat ->
    (forall j, (j < ix)%nat -> (distance < nth j cutoff 0)%Q) ->
    exists k,
      Mas.cutoff_index cutoff distance fuel ix = Ok k /\ (ix <= k <= 3)%nat /\
      (forall j, (j < k)%nat -> (distance < nth j cutoff 0)%Q) /\
      ((k < 3)%nat -> (nth k cutoff 0 <= distance)%Q).
Proof.
  intros Hlen. induction fuel as [| fuel IH]; intros ix Hfuel Hpos Hbelow; [lia |].
  cbn [Mas.cutoff_index]. rewrite (read_nth cutoff ix 0%Q) by lia. cbn [bind].
  destruct (Qle_bool (nth ix cutoff 0%Q) distance) eqn:Hle; cbn [negb andb].
  - apply Qle_bool_iff in Hle. exists ix. split; [reflexivity |].
    split; [lia |]. split; [exact Hbelow | intros _; exact Hle].
  - assert (Hlt : (distance < nth ix cutoff 0)%Q).
    { apply Qnot_le_lt. intros H. apply Qle_bool_iff in H. congruence. }
    destruct (Nat.ltb_spec ix 3) as [H3 | H3].
    + destruct (IH (S ix) ltac:(lia) ltac:(lia)) as (k & Hrun & Hk & Hall & Hstop).
      * intros j Hj. destruct (Nat.eq_dec j ix) as [-> | Hne];
          [exact Hlt | apply Hbelow; lia].
      * exists k. split; [exact Hrun |]. split; [lia |]. split; assumption.
    + exists ix. split; [reflexivity |]. split; [lia |].
      split; [exact Hbelow | intros; lia].
Qed.

(** X5. For a family with its four cutoffs and four matrices of either
    kind, the selector returns a matrix, the one at the first index whose
    cutoff is not above the distance, and the last one (index 3) when the
    first three cutoffs are all above it; the fourth cutoff decides
    nothing. *)
Theorem select_first_cutoff_not_above
    (f : Mas.substitution_matrix_family) (distance : Q) (positive : bool)
    (Hcutoff : length (Mas.m_cutoff f) = 4%nat)
    (Hsmat : length (Mas.m_smat f) = 4%nat)
    (Hpos : length (Mas.m_pos_smat f) = 4%nat) :
  exists k M,
    Mas.select f distance positive = Ok M /\
    (k <= 3)%nat /\
    nth_error (if positive then Mas.m_pos_smat f else Mas.m_smat f) k = Some M /\
    (forall j, (j < k)%nat -> (distance < nth j (Mas.m_cutoff f) 0)%Q) /\
    ((k < 3)%nat -> (nth k (Mas.m_cutoff f) 0 <= distance)%Q).
Proof.
  destruct (cutoff_index_spec (Mas.m_cutoff f) distance ltac:(lia) 4 0
              eq_refl ltac:(lia)) as (k & Hrun & Hk & Hall & Hstop);
    [intros j Hj; lia |].
  unfold Mas.select. rewrite Hrun. cbn [bind]. unfold read.
  destruct (nth_error (if positive then Mas.m_pos_smat f else Mas.m_smat f) k)
    as [M |] eqn:HM.
  - exists k, M. split; [reflexivity |]. split; [lia |]. split; [exact HM |].
    split; assumption.
  - apply nth_error_None in HM. destruct positive; lia.
Qed.

(** ** The alignment along a guide tree *)

(** The entries of the leaves, from left to right. *)
Fixpoint leaves (node : Mas.base_node) : list Mas.entry :=
  match node with
  | Mas.leaf_node e => [e]
  | Mas.joined_node l r _ _ => leaves l ++ leaves r
  end.

Lemma leaves_not_empty (node : Mas.base_node) : leaves node <> [].
Proof.
  induction node as [e | l IHl r IHr dl dr]; cbn [leaves]; [discriminate |].
  intros H. apply app_eq_nil in H. destruct H as [H _]. contradiction.
Qed.

Lemma rows_gapped_not_empty (gap : Mas.aa) (r r' : list Mas.entry) :
  r <> [] -> Forall2 (gapped gap) r r' -> r' <> [].
Proof. intros Hr H. inversion H; subst; [contradiction | discriminate]. Qed.

(** X6. For a guide tree whose leaves hold entries without positions and
    a family with its four cutoffs and matrices, [createAlignment] returns
    one row per leaf, in the order of the leaves from left to right, each
    the entry of its leaf with nothing but gap codes put into the
    sequence, and all rows of one length. *)
Theorem createAlignment_rows
    (kSignalGapCode : Mas.aa) (log10 : Q -> Q)
    (mat : Mas.substitution_matrix_family) (gop gep magic : Q)
    (node : Mas.base_node)
    (Hcutoff : length (Mas.m_cutoff mat) = 4%nat)
    (Hpos : length (Mas.m_pos_smat mat) = 4%nat)
    (Hleaves : forall e, In e (leaves node) -> Mas.m_positions e = []) :
  exists rows L,
    Mas.createAlignment kSignalGapCode log10 mat gop gep magic node = Ok rows /\
    Forall2 (gapped kSignalGapCode) (leaves node) rows /\
    block L rows.
Proof.
  induction node as [e | l IHl r IHr dl dr].
  - exists [e], (length (Mas.m_seq e)). split; [reflexivity |].
    split; [apply rows_gapped_refl |].
    intros e' [<- | []]. split; [apply Hleaves; left; reflexivity | reflexivity].
  - cbn [leaves] in Hleaves.
    destruct IHl as (a & La & Hrun_a & Hga & Ha);
      [intros e He; apply Hleaves, in_or_app; left; exact He |].
    destruct IHr as (b & Lb & Hrun_b & Hgb & Hb);
      [intros e He; apply Hleaves, in_or_app; right; exact He |].
    cbn [Mas.createAlignment]. rewrite Hrun_a, Hrun_b. cbn [bind].
    assert (Hsel : exists M, Mas.select mat (Qabs (dl + dr)) true = Ok M).
    { unfold Mas.select.
      destruct (cutoff_index_spec (Mas.m_cutoff mat) (Qabs (dl + dr)) ltac:(lia) 4 0
                  eq_refl ltac:(lia)) as (k & Hrun & Hk & _);
        [intros j Hj; lia |].
      rewrite Hrun. cbn [bind]. unfold read.
      destruct (nth_error (Mas.m_pos_smat mat) k) as [M |] eqn:HM;
        [exists M; reflexivity | apply nth_error_None in HM; lia]. }
    destruct Hsel as (M & HM). rewrite HM. cbn [bind].
    destruct (align_rows_gapped kSignalGapCode (Mas.m_matrix M)
                (Mas.m_mismatch_average M) (Mas.m_scale_factor M) log10
                a b gop gep magic false La Lb)
      as (a' & b' & L & Hrun & Hga' & Hgb' & Hblock & _);
      [ apply (rows_gapped_not_empty kSignalGapCode (leaves l));
          [apply leaves_not_empty | exact Hga]
      | apply (rows_gapped_not_empty kSignalGapCode (leaves r));
          [apply leaves_not_empty | exact Hgb]
      | exact Ha | exact Hb |].
    exists (a' ++ b'), L. split; [exact Hrun |]. split; [| exact Hblock].
    cbn [leaves]. apply Forall2_app; eapply rows_gapped_trans; eassumption.
Qed.

(** A family for the examples: the same matrix for every distance. *)
Definition example_family : Mas.substitution_matrix_family :=
  let M := Mas.mkSubstitutionMatrix example_matrix 1 1 in
  Mas.mkFamily [8 # 10; 6 # 10; 3 # 10; 0%Q] [M; M; M; M] [M; M; M; M].

Lemma select_first_cutoff_not_above_witness :
  exists k M,
    Mas.select example_family (1 # 2) true = Ok M /\
    (k <= 3)%nat /\
    nth_error (Mas.m_pos_smat example_family) k = Some M /\
    (forall j, (j < k)%nat -> (1 # 2 < nth j (Mas.m_cutoff example_family) 0)%Q) /\
    ((k < 3)%nat -> (nth k (Mas.m_cutoff example_family) 0 <= 1 # 2)%Q).
Proof.
  apply (select_first_cutoff_not_above example_family (1 # 2) true); reflexivity.
Defined.

Lemma createAlignment_rows_witness :
  exists rows L,
    Mas.createAlignment example_gap example_log10 example_family 10 (2 # 10) (1 # 10)
      (Mas.joined_node (Mas.leaf_node (example_row [0; 1]))
         (Mas.leaf_node (example_row [0])) (1 # 4) (1 # 4)) = Ok rows /\
    Forall2 (gapped example_gap) [example_row [0; 1]; example_row [0]] rows /\
    block L rows.
Proof.
  apply (createAlignment_rows example_gap example_log10 example_family
           10 (2 # 10) (1 # 10)
           (Mas.joined_node (Mas.leaf_node (example_row [0; 1]))
              (Mas.leaf_node (example_row [0])) (1 # 4) (1 # 4))).
  - reflexivity.
  - reflexivity.
  - intros e [<- | [<- | []]]; reflexivity.
Defined.

(** ** What the inspection phase of [adjust_gp] collects *)

Section Stretches.

Local Open Scope nat_scope.

(** Column [j] of the sequence [s] lies in a stretch of at least five
    consecutive hydrophilic residues, within the first [n] columns. *)
Definition in_stretch (n : nat) (s : Mas.sequence) (j : nat) : Prop :=
  exists si i, si <= j < i /\ i <= n /\ si + 5 <= i /\
    forall k, si <= k < i -> Mas.is_hydrophilic (nth k s 0%Z) = true.

Lemma nth_mark_stretch (si i : nat) (hs : list bool) (j : nat) :
  j < length hs ->
  nth j (Mas.mark_stretch si i hs) false = true <->
  nth j hs false = true \/ si <= j < i.
Proof.
  unfold Mas.mark_stretch. intros Hj.
  assert (H : forall m a h, j < length h ->
            nth j (fold_left (fun h j => set_nth j true h) (seq a m) h) false = true <->
            nth j h false = true \/ a <= j < a + m).
  { induction m as [| m IH]; intros a h Hh.
    - cbn [seq fold_left]. split; [auto | intros [H | H]; [exact H | lia]].
    - cbn [seq fold_left]. rewrite IH by (rewrite length_set_nth; exact Hh).
      destruct (Nat.eq_dec a j) as [-> | Hne].
      + rewrite nth_set_nth_eq by exact Hh. split; intros _; [right; lia | left; reflexivity].
      + rewrite nth_set_nth_ne by exact Hne. split; intros [H | H]; auto; right; lia. }
  rewrite H by exact Hj. split; intros [H' | H']; auto; right; lia.
Qed.

Section Runs.

Variables (n : nat) (s : Mas.sequence) (hs : list bool).

(** The column at which a run ends. *)
Definition run_break (i : nat) : Prop :=
  i = n \/ Mas.is_hydrophilic (nth i s 0%Z) = false.

(** What holds before the run finder looks at column [m]. *)
Definition runs_found (m : nat) (st : nat * list bool) : Prop :=
  fst st <= m /\
  (forall k, fst st <= k < m -> k < n /\ Mas.is_hydrophilic (nth k s 0%Z) = true) /\
  (fst st = 0 \/ run_break (fst st - 1)) /\
  length (snd st) = length hs /\
  forall j, j < length hs ->
    nth j (snd st) false = true <->
    nth j hs false = true \/ (j < fst st /\ in_stretch n s j).

Lemma run_step_found (m : nat) (st : nat * list bool) :
  m <= n -> runs_found m st -> runs_found (S m) (Mas.run_step n s st m).
Proof.
  intros Hm (Hsi & Hrun & Hleft & Hlen & Hmarks).
  destruct st as [si h]. cbn [fst snd] in *. unfold Mas.run_step.
  destruct ((m =? n) || negb (Mas.is_hydrophilic (nth m s 0%Z)))%bool eqn:Hbrk.
  - (* the run ends here *)
    assert (Hbreak : run_break m).
    { apply orb_true_iff in Hbrk. destruct Hbrk as [H | H];
        [left; apply Nat.eqb_eq; exact H | right; apply negb_true_iff; exact H]. }
    assert (Hwindow : forall j a b,
              si <= j < m -> a <= j < b -> b <= n ->
              (forall k, a <= k < b -> Mas.is_hydrophilic (nth k s 0%Z) = true) ->
              si <= a /\ b <= m).
    { intros j a b Hj Hab Hb Hall. split.
      - destruct (Nat.le_gt_cases si a) as [H | H]; [exact H | exfalso].
        destruct Hleft as [H0 | [Hn | Hnon]]; [lia | lia |].
        rewrite (Hall (si - 1)) in Hnon by lia. discriminate.
      - destruct (Nat.le_gt_cases b m) as [H | H]; [exact H | exfalso].
        destruct Hbreak as [Hn | Hnon]; [lia |].
        rewrite (Hall m) in Hnon by lia. discriminate. }
    assert (Hat : forall j, j = m -> ~ in_stretch n s j).
    { intros j -> (a & b & Hab & Hb & _ & Hall).
      destruct Hbreak as [Hn | Hnon]; [lia |].
      rewrite (Hall m) in Hnon by lia. discriminate. }
    unfold runs_found. cbn [fst snd]. split; [lia |]. split; [intros k Hk; lia |].
    split; [right; replace (S m - 1) with m by lia; exact Hbreak |].
    destruct (Nat.leb_spec (si + 5) m) as [Hlong | Hshort].
    + split; [rewrite length_mark_stretch; exact Hlen |].
      intros j Hj. rewrite nth_mark_stretch by lia. rewrite (Hmarks j Hj).
      split.
      * intros [[H | [H1 H2]] | H]; [left; exact H | right; split; [lia | exact H2] |].
        right. split; [lia |]. exists si, m. split; [lia |]. split; [lia |].
        split; [lia |]. intros k Hk. apply Hrun. exact Hk.
      * intros [H | [H1 H2]]; [left; left; exact H |].
        destruct (Nat.lt_ge_cases j si) as [Hlt | Hge]; [left; right; split; assumption |].
        destruct (Nat.eq_dec j m) as [Heq | Hne]; [exfalso; exact (Hat j Heq H2) |].
        right. lia.
    + split; [exact Hlen |].
      intros j Hj. rewrite (Hmarks j Hj). split.
      * intros [H | [H1 H2]]; [left; exact H | right; split; [lia | exact H2]].
      * intros [H | [H1 H2]]; [left; exact H |].
        destruct (Nat.lt_ge_cases j si) as [Hlt | Hge]; [right; split; assumption |].
        destruct (Nat.eq_dec j m) as [Heq | Hne]; [exfalso; exact (Hat j Heq H2) |].
        exfalso. destruct H2 as (a & b & Hab & Hb & Hfive & Hall).
        destruct (Hwindow j a b ltac:(lia) Hab Hb Hall). lia.
  - (* the run goes on *)
    apply orb_false_iff in Hbrk. destruct Hbrk as [Hmn Hhyd].
    apply Nat.eqb_neq in Hmn. apply negb_false_iff in Hhyd.
    unfold runs_found. cbn [fst snd]. split; [lia |]. split.
    + intros k Hk. destruct (Nat.eq_dec k m) as [-> | Hne];
        [split; [lia | exact Hhyd] | apply Hrun; lia].
    + split; [exact Hleft |]. split; [exact Hlen | exact Hmarks].
Qed.

Lemma run_fold_found (k : nat) :
  forall m st, m + k = S n -> runs_found m st ->
    runs_found (S n) (fold_left (Mas.run_step n s) (seq m k) st).
Proof.
  induction k as [| k IH]; intros m st Hk Hst.
  - replace (S n) with m by lia. exact Hst.
  - cbn [seq fold_left]. apply IH; [lia |]. apply run_step_found; [lia | exact Hst].
Qed.

(** The marks the run finder leaves. *)
Lemma find_runs_spec (j : nat) :
  j < length hs ->
  nth j (Mas.find_runs n s hs) false = true <->
  nth j hs false = true \/ in_stretch n s j.
Proof.
  intros Hj. unfold Mas.find_runs.
  destruct (run_fold_found (S n) 0 (0, hs) eq_refl) as (Hsi & Hrun & Hleft & _ & Hmarks).
  - split; [cbn; lia |]. split; [cbn; intros; lia |]. split; [left; reflexivity |].
    split; [reflexivity |]. cbn [fst snd]. intros j' _. split; [auto |].
    intros [H | [H _]]; [exact H | lia].
  - rewrite (Hmarks j Hj). split; intros [H | H]; auto.
    + right. apply H.
    + right. split; [| exact H].
      destruct H as (a & b & Hab & Hb & _).
      set (st := fold_left (Mas.run_step n s) (seq 0 (S n)) (0, hs)) in *.
      destruct (Nat.lt_ge_cases j (fst st)) as [Hlt | Hge]; [exact Hlt | exfalso].
      destruct (Hrun j ltac:(lia)) as [Hjn _].
      destruct (Hrun n) as [Hnn _]; lia.
Qed.

End Runs.

End Stretches.

Section Inspection.

Variable kSignalGapCode : Mas.aa.

(** What a row adds to [residue_specific_penalty] in column [j]. *)
Definition row_penalty (e : Mas.entry) (j : nat) : Q :=
  if (j <? length (Mas.m_ss e))%nat then Mas.ss_penalty (nth j (Mas.m_ss e) "000"%char)
  else if nth j (Mas.m_seq e) 0 <? 20
       then Mas.Qnth (Z.to_nat (nth j (Mas.m_seq e) 0)) Mas.kResidueSpecificPenalty
       else 1%Q.

Definition penalty_sum (p : Q) (rows : list Mas.entry) (j : nat) : Q :=
  fold_left (fun acc e => (acc + row_penalty e j)%Q) rows p.

Lemma inspect_fold_fields (n : nat) (rows : list Mas.entry) :
  forall st,
    (forall e, In e rows -> (n <= length (Mas.m_seq e))%nat) ->
    inspected n st ->
    exists ins,
      fold_left (fun acc e => st <- acc ;; Mas.inspect_entry kSignalGapCode n st e)
        rows (Ok st) = Ok ins /\
      inspected n ins /\
      forall j, (j < n)%nat ->
        (nth j (Mas.hydrophilic_stretch ins) false = true <->
         nth j (Mas.hydrophilic_stretch st) false = true \/
         exists e, In e rows /\ in_stretch n (Mas.m_seq e) j) /\
        Mas.Qnth j (Mas.residue_specific_penalty ins) =
          penalty_sum (Mas.Qnth j (Mas.residue_specific_penalty st)) rows j.
Proof.
  induction rows as [| e rows IH]; intros st Hrows Hst.
  - exists st. split; [reflexivity |]. split; [exact Hst |].
    intros j Hj. split; [| reflexivity].
    split; [auto | intros [H | (e & [] & _)]; exact H].
  - destruct (inspect_entry_ok kSignalGapCode n st e) as (st1 & Hstep & Hst1 & _);
      [apply Hrows; left; reflexivity | exact Hst |].
    destruct (IH st1) as (ins & Hfold & Hins & Hfields);
      [intros e' He'; apply Hrows; right; exact He' | exact Hst1 |].
    exists ins. cbn [fold_left bind]. rewrite Hstep.
    split; [exact Hfold |]. split; [exact Hins |].
    intros j Hj. destruct (Hfields j Hj) as [Hmarks Hsum].
    unfold Mas.inspect_entry in Hstep.
    replace (length (Mas.m_seq e) <? n)%nat with false in Hstep
      by (symmetry; apply Nat.ltb_ge, Hrows; left; reflexivity).
    injection Hstep as <-.
    cbn [Mas.hydrophilic_stretch Mas.residue_specific_penalty] in Hmarks, Hsum.
    destruct Hst as [_ Hs2 Hs3 _].
    split.
    + rewrite Hmarks, find_runs_spec by lia. split.
      * intros [[H | H] | (e' & He' & H)]; [left; exact H | |].
        -- right. exists e. split; [left; reflexivity | exact H].
        -- right. exists e'. split; [right; exact He' | exact H].
      * intros [H | (e' & [<- | He'] & H)]; [left; left; exact H | left; right; exact H |].
        right. exists e'. split; assumption.
    + rewrite Hsum. cbn [penalty_sum fold_left]. f_equal.
      unfold Mas.Qnth at 1. rewrite (nth_imap _ j _ 0%Q 0%Q) by lia.
      unfold row_penalty, Mas.Qnth.
      destruct (j <? length (Mas.m_ss e))%nat; [reflexivity |].
      destruct (nth j (Mas.m_seq e) 0 <? 20); reflexivity.
Qed.

(** X7. The inspection phase of [adjust_gp] over rows that all have at
    least as many columns as [gop]: for every column it holds the number
    of rows with a gap code there, whether in some row the column lies in
    a stretch of at least five consecutive hydrophilic residues, and the
    sum over the rows of the penalty of the secondary-structure letter or,
    where a row has none for the column, of its residue. *)
Theorem inspect_collects (n : nat) (rows : list Mas.entry)
    (Hrows : forall e, In e rows -> (n <= length (Mas.m_seq e))%nat) :
  exists ins,
    Mas.inspect kSignalGapCode n rows = Ok ins /\
    length (Mas.gaps ins) = n /\
    length (Mas.hydrophilic_stretch ins) = n /\
    length (Mas.residue_specific_penalty ins) = n /\
    forall j, (j < n)%nat ->
      nth j (Mas.gaps ins) 0%nat = gap_count kSignalGapCode rows j /\
      (nth j (Mas.hydrophilic_stretch ins) false = true <->
       exists e, In e rows /\ in_stretch n (Mas.m_seq e) j) /\
      Mas.Qnth j (Mas.residue_specific_penalty ins) = penalty_sum 0 rows j.
Proof.
  destruct (inspect_ok kSignalGapCode n rows Hrows) as (ins & Hrun & Hins & Hgaps).
  assert (Hinit : inspected n
            (Mas.mkInspection (repeat 0%nat n) (repeat false n) (repeat 0%Q n))).
  { split; cbn; try apply repeat_length.
    intros j. unfold Mas.Qnth.
    destruct (Nat.lt_ge_cases j n) as [Hj | Hj].
    - rewrite nth_repeat_lt by assumption. apply Qle_refl.
    - rewrite nth_overflow by (rewrite repeat_length; assumption). apply Qle_refl. }
  destruct (inspect_fold_fields n rows _ Hrows Hinit) as (ins' & Hrun' & _ & Hfields).
  unfold Mas.inspect in Hrun. rewrite Hrun in Hrun'. injection Hrun' as <-.
  exists ins. split; [exact Hrun |].
  destruct Hins as [H1 H2 H3 _].
  split; [exact H1 |]. split; [exact H2 |]. split; [exact H3 |].
  intros j Hj. split; [apply Hgaps; exact Hj |].
  destruct (Hfields j Hj) as [Hmarks Hsum].
  cbn [Mas.hydrophilic_stretch Mas.residue_specific_penalty] in Hmarks, Hsum.
  split.
  - rewrite Hmarks. rewrite nth_repeat_lt by exact Hj.
    split; [intros [H | H]; [discriminate | exact H] | auto].
  - rewrite Hsum. unfold Mas.Qnth. rewrite nth_repeat_lt by exact Hj. reflexivity.
Qed.

End Inspection.

Lemma inspect_collects_witness :
  exists ins,
    Mas.inspect example_gap 2 [example_row [0; example_gap]; example_row [3; 4; 5]]
      = Ok ins /\
    nth 1 (Mas.gaps ins) 0%nat
      = gap_count example_gap [example_row [0; example_gap]; example_row [3; 4; 5]] 1.
Proof.
  destruct (inspect_collects example_gap 2
              [example_row [0; example_gap]; example_row [3; 4; 5]])
    as (ins & Hrun & _ & _ & _ & Hcolumns).
  - intros e [<- | [<- | []]]; cbn; lia.
  - exists ins. split; [exact Hrun |].
    destruct (Hcolumns 1%nat) as (Hgaps & _); [lia | exact Hgaps].
Defined.

(** ** Residue letters and codes: [decode] and [encode] *)

Lemma toupper_idempotent (c : ascii) : Mas.toupper (Mas.toupper c) = Mas.toupper c.
Proof. destruct c as [[] [] [] [] [] [] [] []]; reflexivity. Qed.

Lemma toupper_tolower (c : ascii) : Mas.toupper (Mas.tolower c) = Mas.toupper c.
Proof. destruct c as [[] [] [] [] [] [] [] []]; reflexivity. Qed.

Lemma upper_or_lower (c : ascii) : c = Mas.tolower c \/ c = Mas.toupper c.
Proof. destruct c as [[] [] [] [] [] [] [] []]; auto. Qed.

Section CodeFacts.

Variable kAA : list ascii.

Local Open Scope nat_scope.

(** The table after the first [n] iterations of its loop. *)
Definition reverse_upto (n : nat) : ascii -> Z :=
  fold_left (Mas.kAA_Reverse_step kAA) (seq 0 n) (fun _ => 255%Z).

Lemma reverse_upto_S (n : nat) (x : ascii) :
  reverse_upto (S n) x = Mas.kAA_Reverse_step kAA (reverse_upto n) n x.
Proof.
  unfold reverse_upto. rewrite seq_S, fold_left_app. reflexivity.
Qed.

(** The letter [x] is the letter of code [a], in either case. *)
Definition letter_of (a : nat) (x : ascii) : Prop :=
  x = Mas.tolower (nth a kAA "000"%char) \/ x = Mas.toupper (nth a kAA "000"%char).

Lemma step_hit (t : ascii -> Z) (a : nat) (x : ascii) :
  letter_of a x -> Mas.kAA_Reverse_step kAA t a x = Z.of_nat a.
Proof.
  intros [-> | ->]; unfold Mas.kAA_Reverse_step.
  - rewrite Ascii.eqb_refl. reflexivity.
  - rewrite Ascii.eqb_refl. destruct (Ascii.eqb _ _); reflexivity.
Qed.

Lemma step_miss (t : ascii -> Z) (a : nat) (x : ascii) :
  ~ letter_of a x -> Mas.kAA_Reverse_step kAA t a x = t x.
Proof.
  intros Hmiss. unfold Mas.kAA_Reverse_step.
  destruct (Ascii.eqb_spec x (Mas.tolower (nth a kAA "000"%char))) as [H | _];
    [exfalso; apply Hmiss; left; exact H |].
  destruct (Ascii.eqb_spec x (Mas.toupper (nth a kAA "000"%char))) as [H | _];
    [exfalso; apply Hmiss; right; exact H | reflexivity].
Qed.

Lemma letter_of_dec (a : nat) (x : ascii) : letter_of a x \/ ~ letter_of a x.
Proof.
  unfold letter_of.
  destruct (ascii_dec x (Mas.tolower (nth a kAA "000"%char))) as [H | H1]; [auto |].
  destruct (ascii_dec x (Mas.toupper (nth a kAA "000"%char))) as [H | H2]; [auto |].
  right. intros [H | H]; contradiction.
Qed.

(** The last code whose letter is [x] is the one the table holds. *)
Lemma reverse_upto_last (n : nat) (x : ascii) (a : nat) :
  a < n -> letter_of a x ->
  (forall a', a < a' < n -> ~ letter_of a' x) ->
  reverse_upto n x = Z.of_nat a.
Proof.
  induction n as [| n IH]; intros Ha Hx Hlast; [lia |].
  rewrite reverse_upto_S.
  destruct (Nat.eq_dec a n) as [-> | Hne].
  - apply step_hit. exact Hx.
  - rewrite step_miss by (apply Hlast; lia).
    apply IH; [lia | exact Hx | intros a' Ha'; apply Hlast; lia].
Qed.

(** A cell of the table holds 255 or a code of the letter. *)
Lemma reverse_upto_value (n : nat) (x : ascii) :
  reverse_upto n x = 255%Z \/
  exists a, a < n /\ reverse_upto n x = Z.of_nat a /\ letter_of a x.
Proof.
  induction n as [| n IH]; [left; reflexivity |].
  rewrite reverse_upto_S.
  destruct (letter_of_dec n x) as [Hhit | Hmiss].
  - right. exists n. split; [lia |]. split; [apply step_hit; exact Hhit | exact Hhit].
  - rewrite step_miss by exact Hmiss.
    destruct IH as [H | (a & Ha & Hv & Hl)]; [left; exact H |].
    right. exists a. split; [lia |]. split; assumption.
Qed.

Lemma decode_from (s : Mas.sequence) :
  forall text,
    (forall a, In a s -> (0 <= a < Z.of_nat (length kAA))%Z) ->
    foreach (fun text a => c <- read kAA (Z.to_nat a) ;; Ok (text ++ [c])) s text
    = Ok (text ++ map (fun a => nth (Z.to_nat a) kAA "000"%char) s).
Proof.
  induction s as [| a s IH]; intros text Hs.
  - cbn [foreach map]. rewrite app_nil_r. reflexivity.
  - cbn [foreach map].
    rewrite (read_nth kAA (Z.to_nat a) "000"%char)
      by (specialize (Hs a (or_introl eq_refl)); lia).
    cbn [bind]. rewrite IH by (intros a' Ha'; apply Hs; right; exact Ha').
    rewrite <- app_assoc. reflexivity.
Qed.

Definition is_dot (c : ascii) : bool :=
  (Ascii.eqb c "." || Ascii.eqb c "*" || Ascii.eqb c "~")%bool.

(** X8. Round trip from codes to letters and back. When [kAA] has fewer
    than 256 letters, no two of them equal up to case and none of them a
    dot, a star or a tilde, every sequence of codes below [sizeof(kAA)] is
    decoded to as many letters, and [encode] gives the sequence back. *)
Theorem encode_after_decode (s : Mas.sequence)
    (Hsize : length kAA < 256)
    (Hdistinct : NoDup (map Mas.toupper kAA))
    (Hdots : forall c, In c kAA -> is_dot c = false)
    (Hcodes : forall a, In a s -> (0 <= a < Z.of_nat (length kAA))%Z) :
  exists text,
    Mas.decode kAA s = Ok text /\ length text = length s /\
    Mas.encode kAA text = Ok s.
Proof.
  unfold Mas.decode. rewrite (decode_from s [] Hcodes). cbn [app].
  eexists. split; [reflexivity |]. split; [apply length_map |].
  unfold Mas.encode.
  replace (256 <=? length kAA) with false by (symmetry; apply Nat.leb_gt; exact Hsize).
  assert (Hletter : forall a, (0 <= a < Z.of_nat (length kAA))%Z ->
            forall codes,
              Mas.encode_letter kAA codes (nth (Z.to_nat a) kAA "000"%char)
              = Ok (codes ++ [a])).
  { intros a Ha codes. unfold Mas.encode_letter.
    set (c := nth (Z.to_nat a) kAA "000"%char).
    assert (Hin : In c kAA) by (apply nth_In; lia).
    pose proof (Hdots c Hin) as Hdot. unfold is_dot in Hdot. rewrite Hdot.
    assert (Hrev : Mas.kAA_Reverse kAA c = a).
    { unfold Mas.kAA_Reverse. fold (reverse_upto (length kAA)).
      rewrite (reverse_upto_last (length kAA) c (Z.to_nat a)); [lia | lia | |].
      - unfold letter_of. fold c. apply upper_or_lower.
      - intros a' Ha' Hl.
        assert (Hup : Mas.toupper (nth a' kAA "000"%char) = Mas.toupper c).
        { destruct Hl as [-> | ->];
            [rewrite toupper_tolower | rewrite toupper_idempotent]; reflexivity. }
        assert (Heq : a' = Z.to_nat a).
        { apply (proj1 (NoDup_nth (map Mas.toupper kAA) "000"%char) Hdistinct);
            try (rewrite length_map; lia).
          rewrite (map_nth Mas.toupper kAA "000"%char a' : nth a' (map Mas.toupper kAA) "000"%char = _).
          rewrite (map_nth Mas.toupper kAA "000"%char (Z.to_nat a) : nth (Z.to_nat a) (map Mas.toupper kAA) "000"%char = _).
          exact Hup. }
        lia. }
    rewrite Hrev.
    replace (Z.of_nat (length kAA) <=? a)%Z with false
      by (symmetry; apply Z.leb_gt; lia).
    reflexivity. }
  assert (Hloop : forall l codes,
            (forall a, In a l -> (0 <= a < Z.of_nat (length kAA))%Z) ->
            foreach (Mas.encode_letter kAA)
              (map (fun a => nth (Z.to_nat a) kAA "000"%char) l) codes
            = Ok (codes ++ l)).
  { induction l as [| a l IH]; intros codes Hl.
    - cbn [map foreach]. rewrite app_nil_r. reflexivity.
    - cbn [map foreach]. rewrite Hletter by (apply Hl; left; reflexivity).
      cbn [bind]. rewrite IH by (intros a' Ha'; apply Hl; right; exact Ha').
      rewrite <- app_assoc. reflexivity. }
  apply (Hloop s [] Hcodes).
Qed.

(** The letter [encode] looks up for a character. *)
Definition plain (r : ascii) : ascii := if is_dot r then "-"%char else r.

Lemma encode_from (text : list ascii) :
  length kAA <= 255 ->
  forall codes s,
    foreach (Mas.encode_letter kAA) text codes = Ok s ->
    exists new,
      s = codes ++ new /\ length new = length text /\
      forall i, i < length text ->
        (0 <= nth i new 0%Z < Z.of_nat (length kAA))%Z /\
        Mas.toupper (nth (Z.to_nat (nth i new 0%Z)) kAA "000"%char)
        = Mas.toupper (plain (nth i text "000"%char)).
Proof.
  intros Hsize. induction text as [| r text IH]; intros codes s Hrun.
  - cbn [foreach] in Hrun. injection Hrun as <-. exists [].
    split; [rewrite app_nil_r; reflexivity |]. split; [reflexivity |].
    intros i Hi. simpl in Hi. lia.
  - cbn [foreach] in Hrun. unfold Mas.encode_letter at 1 in Hrun.
    fold (is_dot r) in Hrun. fold (plain r) in Hrun.
    destruct (Z.leb_spec (Z.of_nat (length kAA)) (Mas.kAA_Reverse kAA (plain r)))
      as [Hbig | Hsmall]; [discriminate |].
    cbn [bind] in Hrun.
    destruct (IH _ _ Hrun) as (new & -> & Hlen & Hall).
    exists (Mas.kAA_Reverse kAA (plain r) :: new).
    split; [rewrite <- app_assoc; reflexivity |]. split; [simpl; lia |].
    intros [| i] Hi; cbn [nth]; [| apply Hall; simpl in Hi; lia].
    unfold Mas.kAA_Reverse in *. fold (reverse_upto (length kAA)) in *.
    destruct (reverse_upto_value (length kAA) (plain r)) as [H | (a & Ha & Hv & Hl)].
    + rewrite H in *. lia.
    + rewrite Hv. split; [lia |]. rewrite Nat2Z.id.
      destruct Hl as [-> | ->];
        [rewrite toupper_tolower | rewrite toupper_idempotent]; reflexivity.
Qed.

(** X9. Whatever [encode] returns can be decoded: the codes are below
    [sizeof(kAA)], as many as the characters of the text, and the letter
    of every code is the character it stands for up to case, a dot, a
    star or a tilde standing for a dash. *)
Theorem decode_after_encode (text : list ascii) (s : Mas.sequence)
    (Hrun : Mas.encode kAA text = Ok s) :
  exists text',
    Mas.decode kAA s = Ok text' /\
    length s = length text /\ length text' = length text /\
    forall i, i < length text ->
      Mas.toupper (nth i text' "000"%char)
      = Mas.toupper (plain (nth i text "000"%char)).
Proof.
  unfold Mas.encode in Hrun.
  destruct (Nat.leb_spec 256 (length kAA)) as [| Hsize]; [discriminate |].
  destruct (encode_from text ltac:(lia) [] s Hrun) as (new & -> & Hlen & Hall).
  cbn [app] in *.
  assert (Hcodes : forall a, In a new -> (0 <= a < Z.of_nat (length kAA))%Z).
  { intros a Ha. destruct (In_nth new a 0%Z Ha) as (i & Hi & <-).
    apply Hall. lia. }
  unfold Mas.decode. rewrite (decode_from new [] Hcodes). cbn [app].
  eexists. split; [reflexivity |]. split; [exact Hlen |].
  split; [rewrite length_map; exact Hlen |].
  intros i Hi.
  rewrite (nth_indep _ "000"%char (nth (Z.to_nat 0%Z) kAA "000"%char))
    by (rewrite length_map; unfold Mas.aa in *; lia).
  rewrite (map_nth (fun a => nth (Z.to_nat a) kAA "000"%char) new 0%Z i).
  apply Hall. exact Hi.
Qed.

End CodeFacts.

(** Letters for the examples. *)
Definition example_kAA : list ascii := ["A"; "C"; "D"; "-"]%char.

Lemma encode_after_decode_witness :
  exists text,
    Mas.decode example_kAA [0; 2; 3] = Ok text /\ length text = 3%nat /\
    Mas.encode example_kAA text = Ok [0; 2; 3].
Proof.
  apply (encode_after_decode example_kAA [0; 2; 3]).
  - cbn. lia.
  - repeat constructor; cbn; intros H;
      repeat (destruct H as [H | H]; [discriminate H |]); exact H.
  - intros c [<- | [<- | [<- | [<- | []]]]]; reflexivity.
  - intros a [<- | [<- | [<- | []]]]; cbn; lia.
Defined.

Lemma decode_after_encode_witness :
  exists s text',
    Mas.encode example_kAA ["a"; "C"; "."]%char = Ok s /\
    Mas.decode example_kAA s = Ok text' /\
    length s = 3%nat /\ length text' = 3%nat.
Proof.
  destruct (Mas.encode example_kAA ["a"; "C"; "."]%char) as [s | | |] eqn:Hrun;
    try (vm_compute in Hrun; discriminate Hrun).
  destruct (decode_after_encode example_kAA ["a"; "C"; "."]%char s Hrun)
    as (text' & Hback & Hs & Htext & _).
  exists s, text'. repeat split; assumption.
Defined.

(** ** Cutting a row twice *)

Lemma shift_or_zero (x p : Z) : (if x >? p then x - p else 0) = Z.max 0 (x - p).
Proof. destruct (Z.gtb_spec x p); lia. Qed.

Lemma clamp_to (e n : Z) : (if e >? n then n else e) = Z.min n e.
Proof. destruct (Z.gtb_spec e n); lia. Qed.

(** X10. Two cuts in a row are one cut: [cut(pos2, n2)] after
    [cut(pos1, n1)] leaves the row that [cut(pos1 + pos2, n2)] leaves. *)
Theorem cut_twice (pos1 n1 pos2 n2 : Z) (s : Hssp.seq)
    (Hpos1 : 0 <= pos1) (Hpos2 : 0 <= pos2) (Hn2 : 0 <= n2)
    (Hfit1 : pos1 + n1 <= Hssp.m_size s) (Hsize : Hssp.m_size s < 2 ^ 32)
    (Hfit2 : pos2 + n2 <= n1) :
  (s1 <- Hssp.cut pos1 n1 s ;; Hssp.cut pos2 n2 s1)
  = Hssp.cut (pos1 + pos2) n2 s.
Proof.
  unfold Hssp.cut. rewrite !Z.mod_small by lia.
  rewrite !assert_true by (apply Z.leb_le; lia). cbn [bind].
  cbn [Hssp.m_size Hssp.m_seq Hssp.m_begin Hssp.m_end Hssp.m_id Hssp.m_ifir
       Hssp.m_ilas Hssp.m_jfir Hssp.m_jlas Hssp.m_length Hssp.m_identical
       Hssp.m_similar Hssp.m_score Hssp.m_gaps Hssp.m_gapn Hssp.m_insertions
       Hssp.m_pruned].
  rewrite assert_true by (apply Z.leb_le; lia). cbn [bind].
  rewrite skipn_skipn, Z2Nat.inj_add by lia.
  rewrite (Nat.add_comm (Z.to_nat pos1)).
  repeat (rewrite shift_or_zero || rewrite clamp_to).
  f_equal. f_equal; lia.
Qed.

Lemma cut_twice_witness :
  (s1 <- Hssp.cut 1 8 (example_seq "ABCDEFGHIK" 0 10) ;; Hssp.cut 2 5 s1)
  = Hssp.cut 3 5 (example_seq "ABCDEFGHIK" 0 10).
Proof.
  apply (cut_twice 1 8 2 5 (example_seq "ABCDEFGHIK" 0 10));
    vm_compute; try reflexivity; discriminate.
Defined.

(** ** What [update] leaves in a row *)

Section UpdateFacts.

Variable kResidueIX : ascii -> Z.
Variable kD : Z -> Z -> Q.

(** The width of the window that the loop of [update] has found so far. *)
Definition width (st : Hssp.ustate) : Z :=
  if Hssp.u_begin st =? Hssp.kMaxUInt32 then 0 else Hssp.u_end st - Hssp.u_begin st.

(** What holds of the variables of the loop before column [i]. *)
Record scanned (L : nat) (text : list ascii) (old : list Hssp.insertion)
    (old_length : Z) (i : nat) (st : Hssp.ustate) : Prop := {
  buf_length : length (Hssp.buf st) = L;
  window_found :
    (Hssp.u_begin st = Hssp.kMaxUInt32 /\ Hssp.u_end st = 0) \/
    (0 <= Hssp.u_begin st < Hssp.u_end st /\ Hssp.u_end st <= Z.of_nat i);
  identical_bound : 0 <= Hssp.u_identical st <= width st;
  similar_bound : 0 <= Hssp.u_similar st <= width st;
  ipos_positive : 1 <= Hssp.ipos st;
  ifir_started :
    0 <= Hssp.u_ifir st /\
    (Hssp.u_ifir st <> 0 -> Hssp.u_begin st <> Hssp.kMaxUInt32 /\ 0 < Hssp.len st);
  len_bound :
    0 <= Hssp.len st /\
    (Hssp.u_begin st = Hssp.kMaxUInt32 -> Hssp.len st = 0) /\
    (Hssp.u_begin st <> Hssp.kMaxUInt32 ->
       Hssp.len st <= Z.of_nat i - Hssp.u_begin st);
  length_bound :
    Hssp.u_length st = old_length \/ 0 < Hssp.u_length st <= width st;
  insertions_grown :
    exists new, Hssp.u_insertions st = old ++ new /\
                Forall (fun ins => (3 <= length (Hssp.i_seq ins))%nat) new;
  insertion_open :
    Hssp.qgapf st = true -> (2 <= length (Hssp.i_seq (Hssp.ins st)))%nat;
  text_kept : Hssp.u_begin st = Hssp.kMaxUInt32 -> Hssp.buf st = text;
  columns_ahead :
    forall j, (i <= j)%nat -> nth j (Hssp.buf st) "000"%char = nth j text "000"%char;
  no_window :
    Hssp.u_begin st = Hssp.kMaxUInt32 ->
    forall j, (j < i)%nat -> Hssp.is_gap kResidueIX (nth j text "000"%char) = true;
  window_first :
    Hssp.u_begin st <> Hssp.kMaxUInt32 ->
    Hssp.is_gap kResidueIX (nth (Z.to_nat (Hssp.u_begin st)) text "000"%char) = false /\
    forall j, (j < Z.to_nat (Hssp.u_begin st))%nat ->
      Hssp.is_gap kResidueIX (nth j text "000"%char) = true;
  window_last :
    Hssp.u_begin st <> Hssp.kMaxUInt32 ->
    Hssp.is_gap kResidueIX (nth (Z.to_nat (Hssp.u_end st - 1)) text "000"%char) = false /\
    forall j, (Z.to_nat (Hssp.u_end st) <= j < i)%nat ->
      Hssp.is_gap kResidueIX (nth j text "000"%char) = true
}.

Lemma update_tail_value (qi si : ascii) (i : Z) (st : Hssp.ustate) :
  exists identical similar,
    Hssp.update_tail kResidueIX kD qi si i st =
      Ok (Hssp.mkUstate (Hssp.ipos st) (Hssp.jpos st) (Hssp.sgapf st) (Hssp.qgapf st)
            (Hssp.gapn st) (Hssp.gaps st) (Hssp.ins st) (Hssp.len st)
            (Hssp.u_ifir st) (Hssp.u_ilas st) identical similar
            (Hssp.u_gapn st) (Hssp.u_gaps st) (Hssp.u_length st)
            (if Hssp.u_begin st =? Hssp.kMaxUInt32 then i else Hssp.u_begin st)
            (i + 1) (Hssp.u_insertions st) (Hssp.buf st)) /\
    Hssp.u_identical st <= identical <= Hssp.u_identical st + 1 /\
    Hssp.u_similar st <= similar <= Hssp.u_similar st + 1.
Proof.
  unfold Hssp.update_tail. rewrite !to_uint8_not_minus_one.
  eexists. eexists. split; [reflexivity |].
  split; [destruct (Ascii.eqb qi si); lia |].
  match goal with |- context [if ?b then _ else _] => destruct b end; lia.
Qed.

Lemma max_uint32_value : Hssp.kMaxUInt32 = 4294967295.
Proof. reflexivity. Qed.

Ltac scanned_fields :=
  cbn [Hssp.buf Hssp.u_begin Hssp.u_end Hssp.u_identical Hssp.u_similar Hssp.ipos
       Hssp.u_ifir Hssp.len Hssp.u_length Hssp.u_insertions Hssp.qgapf Hssp.ins
       Hssp.i_seq] in *.

Lemma walk_back_le (b : list ascii) :
  forall fuel g, (Hssp.walk_back kResidueIX fuel b g <= g)%nat.
Proof.
  induction fuel as [| fuel IH]; intros g; cbn [Hssp.walk_back]; [lia |].
  destruct (negb (g =? 0)%nat && Hssp.is_gap kResidueIX (nth g b "000"%char))%bool;
    [| lia].
  specialize (IH (g - 1)%nat). lia.
Qed.

Lemma update_column_scanned (L : nat) (text : list ascii)
    (old : list Hssp.insertion) (old_length : Z)
    (qi : ascii) (i : nat) (st : Hssp.ustate) :
  (i < L)%nat -> Z.of_nat L < Hssp.kMaxUInt32 ->
  (i = 0%nat ->
   ~ (Hssp.is_gap kResidueIX qi = true /\
      Hssp.is_gap kResidueIX (nth 0 (Hssp.buf st) "000"%char) = false)) ->
  scanned L text old old_length i st ->
  exists st', Hssp.update_column kResidueIX kD qi i st = Ok st' /\
              scanned L text old old_length (S i) st'.
Proof.
  intros Hi HL Hfirst [H1 H2 H3 H4 H5 H6 H7 H8 H9 H10 H11 H12 H13 H14 H15].
  pose proof max_uint32_value as Hmax.
  unfold Hssp.update_column.
  destruct (nth_error (Hssp.buf st) i) as [si |] eqn:Hsi;
    [| apply nth_error_None in Hsi; lia].
  assert (Hnth : nth i (Hssp.buf st) "000"%char = si)
    by (apply nth_error_nth; exact Hsi).
  assert (Htext : nth i text "000"%char = si)
    by (rewrite <- (H12 i (le_n i)); exact Hnth).
  destruct (Hssp.is_gap kResidueIX qi) eqn:Hqgap;
    destruct (Hssp.is_gap kResidueIX si) eqn:Hsgap; cbn [andb].
  - (* a gap in both rows *)
    exists st. split; [reflexivity |].
    split; try assumption.
    + destruct H2 as [? | [? ?]]; [left; assumption | right; split; lia].
    + destruct H7 as (? & ? & Hl). split; [assumption |]. split; [assumption |].
      intros Hb. specialize (Hl Hb). lia.
    + intros j Hj. apply H12. lia.
    + intros Hb j Hj. destruct (Nat.eq_dec j i) as [-> | Hne];
        [rewrite Htext; exact Hsgap | apply (H13 Hb); lia].
    + intros Hb. destruct (H15 Hb) as [Hlast Hafter]. split; [exact Hlast |].
      intros j Hj. destruct (Nat.eq_dec j i) as [-> | Hne];
        [rewrite Htext; exact Hsgap | apply Hafter; lia].
  - (* an insertion *)
    match goal with
    | |- exists st', bind ?r _ = _ /\ _ =>
        assert (Hopen : exists ins0 buf1,
                  r = Ok (ins0, buf1) /\
                  length buf1 = L /\ (1 <= length (Hssp.i_seq ins0))%nat /\
                  (Hssp.qgapf st = true -> ins0 = Hssp.ins st) /\
                  (forall j, (i <= j)%nat ->
                     nth j buf1 "000"%char = nth j (Hssp.buf st) "000"%char))
    end.
    { destruct (Hssp.qgapf st) eqn:Hq; cbn [negb].
      - eexists. eexists. split; [reflexivity |]. split; [exact H1 |].
        split; [specialize (H10 eq_refl); lia |].
        split; [reflexivity | intros j Hj; reflexivity].
      - destruct i as [| i'].
        + exfalso. apply (Hfirst eq_refl). rewrite Hnth. split; first [reflexivity | assumption].
        + eexists. eexists. split; [reflexivity |].
          split; [rewrite length_set_nth; exact H1 |].
          split; [cbn; lia |]. split; [discriminate |].
          intros j Hj. apply nth_set_nth_ne.
          pose proof (walk_back_le (Hssp.buf st) (S i') i'). lia. }
    destruct Hopen as (ins0 & buf1 & Hr & Hbuf1 & Hins0 & Hsame & Hahead).
    rewrite Hr. cbn [bind].
    match goal with
    | |- context [Hssp.update_tail _ _ ?a ?b ?c ?d] =>
        destruct (update_tail_value a b c d) as (id' & sim' & -> & Hid & Hsim)
    end.
    scanned_fields. eexists. split; [reflexivity |].
    unfold width in *. split; scanned_fields; unfold width; scanned_fields.
    + exact Hbuf1.
    + right. destruct (Z.eqb_spec (Hssp.u_begin st) Hssp.kMaxUInt32); lia.
    + destruct (Z.eqb_spec (Hssp.u_begin st) Hssp.kMaxUInt32) as [Hb | Hb].
      * replace (Z.of_nat i =? Hssp.kMaxUInt32) with false
          by (symmetry; apply Z.eqb_neq; lia). lia.
      * rewrite (proj2 (Z.eqb_neq _ _) Hb). lia.
    + destruct (Z.eqb_spec (Hssp.u_begin st) Hssp.kMaxUInt32) as [Hb | Hb].
      * replace (Z.of_nat i =? Hssp.kMaxUInt32) with false
          by (symmetry; apply Z.eqb_neq; lia). lia.
      * rewrite (proj2 (Z.eqb_neq _ _) Hb). lia.
    + exact H5.
    + destruct H6 as [Hf Hs]. split; [exact Hf |]. intros Hne.
      destruct (Hs Hne) as [Hb Hl].
      rewrite (proj2 (Z.eqb_neq _ _) Hb).
      split; [exact Hb |]. destruct (Z.ltb_spec 0 (Hssp.len st)); lia.
    + destruct H7 as (Hl0 & Hl1 & Hl2).
      destruct (Z.eqb_spec (Hssp.u_begin st) Hssp.kMaxUInt32) as [Hb | Hb].
      * rewrite (Hl1 Hb), Z.ltb_irrefl. split; [lia |]. split; [lia |]. intros _. lia.
      * specialize (Hl2 Hb). destruct (Z.ltb_spec 0 (Hssp.len st));
          (split; [lia |]); (split; [intros; contradiction | intros _; lia]).
    + destruct H8 as [H8 | H8]; [left; exact H8 | right].
      destruct (Z.eqb_spec (Hssp.u_begin st) Hssp.kMaxUInt32) as [Hb | Hb]; [lia |].
      rewrite (proj2 (Z.eqb_neq _ _) Hb). lia.
    + exact H9.
    + intros _. rewrite length_app. cbn [length]. lia.
    + intros Hb. destruct (Z.eqb_spec (Hssp.u_begin st) Hssp.kMaxUInt32); lia.
    + intros j Hj. rewrite Hahead by lia. apply H12. lia.
    + intros Hb. exfalso.
      destruct (Z.eqb_spec (Hssp.u_begin st) Hssp.kMaxUInt32); lia.
    + destruct (Z.eqb_spec (Hssp.u_begin st) Hssp.kMaxUInt32) as [Hb | Hb]; intros _.
      * rewrite Nat2Z.id. split; [rewrite Htext; exact Hsgap | exact (H13 Hb)].
      * exact (H14 Hb).
    + intros _. replace (Z.to_nat (Z.of_nat i + 1 - 1)) with i by lia.
      split; [rewrite Htext; exact Hsgap | intros j Hj; lia].
  - (* a deletion *)
    eexists. split; [reflexivity |].
    unfold width in *. split; scanned_fields; unfold width; scanned_fields;
      try assumption.
    + destruct H2 as [? | [? ?]]; [left; assumption | right; split; lia].
    + lia.
    + destruct H6 as [Hf Hs]. split; [exact Hf |]. intros Hne.
      destruct (Hs Hne) as [Hb Hl]. split; [exact Hb |].
      destruct (Z.ltb_spec 0 (Hssp.len st)); lia.
    + destruct H7 as (Hl0 & Hl1 & Hl2).
      destruct (Z.ltb_spec 0 (Hssp.len st)) as [Hpos | Hzero].
      * split; [lia |]. split; [intros Hb; specialize (Hl1 Hb); lia |].
        intros Hb. specialize (Hl2 Hb). lia.
      * split; [lia |]. split; [exact Hl1 |].
        intros Hb. specialize (Hl2 Hb). lia.
    + intros j Hj. apply H12. lia.
    + intros Hb j Hj. destruct (Nat.eq_dec j i) as [-> | Hne];
        [rewrite Htext; exact Hsgap | apply (H13 Hb); lia].
    + intros Hb. destruct (H15 Hb) as [Hlast Hafter]. split; [exact Hlast |].
      intros j Hj. destruct (Nat.eq_dec j i) as [-> | Hne];
        [rewrite Htext; exact Hsgap | apply Hafter; lia].
  - (* a residue in both rows *)
    match goal with
    | |- context [Hssp.update_tail _ _ ?a ?b ?c ?d] =>
        destruct (update_tail_value a b c d) as (id' & sim' & -> & Hid & Hsim)
    end.
    scanned_fields. eexists. split; [reflexivity |].
    destruct H6 as [Hf Hs]. destruct H7 as (Hl0 & Hl1 & Hl2).
    assert (Hstarted : Hssp.u_ifir st <> 0 ->
              Hssp.u_begin st <> Hssp.kMaxUInt32 /\ 0 < Hssp.len st /\
              Hssp.len st <= Z.of_nat i - Hssp.u_begin st).
    { intros Hne. destruct (Hs Hne) as [Hb Hl]. specialize (Hl2 Hb). lia. }
    unfold width in *. split; scanned_fields; unfold width; scanned_fields.
    + destruct (Hssp.qgapf st); [rewrite length_set_nth |]; exact H1.
    + right. destruct (Z.eqb_spec (Hssp.u_begin st) Hssp.kMaxUInt32); lia.
    + destruct (Z.eqb_spec (Hssp.u_begin st) Hssp.kMaxUInt32) as [Hb | Hb].
      * replace (Z.of_nat i =? Hssp.kMaxUInt32) with false
          by (symmetry; apply Z.eqb_neq; lia). lia.
      * rewrite (proj2 (Z.eqb_neq _ _) Hb). lia.
    + destruct (Z.eqb_spec (Hssp.u_begin st) Hssp.kMaxUInt32) as [Hb | Hb].
      * replace (Z.of_nat i =? Hssp.kMaxUInt32) with false
          by (symmetry; apply Z.eqb_neq; lia). lia.
      * rewrite (proj2 (Z.eqb_neq _ _) Hb). lia.
    + lia.
    + destruct (Z.eqb_spec (Hssp.u_ifir st) 0) as [Hz | Hnz]; cbn [negb].
      * split; [lia |]. intros _.
        split; [| lia].
        destruct (Z.eqb_spec (Hssp.u_begin st) Hssp.kMaxUInt32); lia.
      * destruct (Hstarted Hnz) as (Hb & Hl & _).
        split; [lia |]. intros _. rewrite (proj2 (Z.eqb_neq _ _) Hb).
        split; [exact Hb |]. destruct (Z.ltb_spec 0 (Hssp.len st)); lia.
    + destruct (Z.eqb_spec (Hssp.u_ifir st) 0) as [Hz | Hnz]; cbn [negb].
      * split; [lia |].
        destruct (Z.eqb_spec (Hssp.u_begin st) Hssp.kMaxUInt32) as [Hb | Hb].
        -- split; [intros; lia | intros _; lia].
        -- specialize (Hl2 Hb). split; [intros; contradiction | intros _; lia].
      * destruct (Hstarted Hnz) as (Hb & Hl & Hle).
        rewrite (proj2 (Z.eqb_neq _ _) Hb).
        destruct (Z.ltb_spec 0 (Hssp.len st)); [| lia].
        split; [lia |]. split; [intros; contradiction | intros _; lia].
    + destruct (Z.eqb_spec (Hssp.u_ifir st) 0) as [Hz | Hnz]; cbn [negb].
      * destruct H8 as [H8 | H8]; [left; exact H8 | right].
        destruct (Z.eqb_spec (Hssp.u_begin st) Hssp.kMaxUInt32) as [Hb | Hb]; [lia |].
        rewrite !(proj2 (Z.eqb_neq _ _) Hb). lia.
      * right. destruct (Hstarted Hnz) as (Hb & Hl & Hle).
        rewrite !(proj2 (Z.eqb_neq _ _) Hb).
        destruct (Z.ltb_spec 0 (Hssp.len st)); lia.
    + destruct H9 as (new & Hnew & Hall).
      destruct (Hssp.qgapf st) eqn:Hq; [| exists new; split; assumption].
      eexists. rewrite Hnew, <- app_assoc. split; [reflexivity |].
      apply Forall_app. split; [exact Hall |]. constructor; [| constructor].
      cbn [Hssp.i_seq]. rewrite length_app. cbn [length].
      specialize (H10 eq_refl). lia.
    + discriminate.
    + intros Hb. destruct (Z.eqb_spec (Hssp.u_begin st) Hssp.kMaxUInt32); lia.
    + intros j Hj. destruct (Hssp.qgapf st);
        [rewrite nth_set_nth_ne by lia |]; apply H12; lia.
    + intros Hb. exfalso.
      destruct (Z.eqb_spec (Hssp.u_begin st) Hssp.kMaxUInt32); lia.
    + destruct (Z.eqb_spec (Hssp.u_begin st) Hssp.kMaxUInt32) as [Hb | Hb]; intros _.
      * rewrite Nat2Z.id. split; [rewrite Htext; exact Hsgap | exact (H13 Hb)].
      * exact (H14 Hb).
    + intros _. replace (Z.to_nat (Z.of_nat i + 1 - 1)) with i by lia.
      split; [rewrite Htext; exact Hsgap | intros j Hj; lia].
Qed.

Lemma update_loop_scanned (L : nat) (text : list ascii)
    (old : list Hssp.insertion) (old_length : Z) (q : list ascii) :
  forall (i : nat) (st : Hssp.ustate),
    (i + length q <= L)%nat -> Z.of_nat L < Hssp.kMaxUInt32 ->
    (i = 0%nat -> forall qi, hd_error q = Some qi ->
     ~ (Hssp.is_gap kResidueIX qi = true /\
        Hssp.is_gap kResidueIX (nth 0 (Hssp.buf st) "000"%char) = false)) ->
    scanned L text old old_length i st ->
    exists st', Hssp.update_loop kResidueIX kD q i st = Ok st' /\
                scanned L text old old_length (i + length q) st'.
Proof.
  induction q as [| qi q IH]; intros i st Hlen HL Hfirst Hst.
  - exists st. split; [reflexivity |]. cbn [length]. rewrite Nat.add_0_r. exact Hst.
  - cbn [length] in *. cbn [Hssp.update_loop].
    destruct (update_column_scanned L text old old_length qi i st) as (st1 & -> & Hst1);
      [lia | exact HL | intros Hi; exact (Hfirst Hi qi eq_refl) | exact Hst |].
    cbn [bind].
    destruct (IH (S i) st1) as (st' & Hrun & Hst'); [lia | exact HL | discriminate | exact Hst1 |].
    exists st'. split; [exact Hrun |].
    replace (i + S (length q))%nat with (S i + length q)%nat by lia. exact Hst'.
Qed.

Lemma length_normalise (b e : Z) (size : nat) (text : list ascii) :
  length (Hssp.normalise kResidueIX b e size text) = length text.
Proof. unfold Hssp.normalise. apply length_imap. Qed.

(** X11. [update] on a row that is at least as long as the query, both
    with their text in full, and whose first column is not an insertion,
    returns: no assertion fails and nothing is
    read outside the row. The size of the row and the length of its text
    are kept; the window lies within the columns of the query; the
    numbers of identical and of similar columns are at most the width of
    the window; the alignment length is the one the row had before or
    positive and at most that width; insertions are only added, each of
    three characters or more. A row that has no residue in the columns of
    the query gets the empty window at 0, no identical and no similar
    column, and keeps its text; in any other row the window begins at the
    first column in which the row has a residue and ends behind the last
    one. *)
Theorem update_statistics (q s : Hssp.seq) :
  0 <= Hssp.m_size q <= Hssp.m_size s ->
  Hssp.m_size q <= Z.of_nat (length (Hssp.m_seq q)) ->
  Hssp.m_size s <= Z.of_nat (length (Hssp.m_seq s)) ->
  Z.of_nat (length (Hssp.m_seq s)) < Hssp.kMaxUInt32 ->
  ~ (Hssp.is_gap kResidueIX (nth 0 (Hssp.m_seq q) "000"%char) = true /\
     Hssp.is_gap kResidueIX (nth 0 (Hssp.m_seq s) "000"%char) = false) ->
  exists s',
    Hssp.update kResidueIX kD q s = Ok s' /\
    Hssp.m_size s' = Hssp.m_size s /\
    length (Hssp.m_seq s') = length (Hssp.m_seq s) /\
    0 <= Hssp.m_begin s' <= Hssp.m_end s' /\ Hssp.m_end s' <= Hssp.m_size q /\
    0 <= Hssp.m_identical s' <= Hssp.m_end s' - Hssp.m_begin s' /\
    0 <= Hssp.m_similar s' <= Hssp.m_end s' - Hssp.m_begin s' /\
    (Hssp.m_length s' = Hssp.m_length s \/
     0 < Hssp.m_length s' <= Hssp.m_end s' - Hssp.m_begin s') /\
    (exists new,
       Hssp.m_insertions s' = Hssp.m_insertions s ++ new /\
       Forall (fun ins => (3 <= length (Hssp.i_seq ins))%nat) new) /\
    (Hssp.m_end s' = 0 -> Hssp.m_seq s' = Hssp.m_seq s) /\
    ((forall j, (j < Z.to_nat (Hssp.m_size q))%nat ->
        Hssp.is_gap kResidueIX (nth j (Hssp.m_seq s) "000"%char) = true) ->
     Hssp.m_begin s' = 0 /\ Hssp.m_end s' = 0 /\
     Hssp.m_identical s' = 0 /\ Hssp.m_similar s' = 0 /\
     Hssp.m_seq s' = Hssp.m_seq s) /\
    (forall j, (j < Z.to_nat (Hssp.m_size q))%nat ->
       Hssp.is_gap kResidueIX (nth j (Hssp.m_seq s) "000"%char) = false ->
       Hssp.m_begin s' <= Z.of_nat j < Hssp.m_end s' /\
       Hssp.is_gap kResidueIX
         (nth (Z.to_nat (Hssp.m_begin s')) (Hssp.m_seq s) "000"%char) = false /\
       Hssp.is_gap kResidueIX
         (nth (Z.to_nat (Hssp.m_end s' - 1)) (Hssp.m_seq s) "000"%char) = false).
Proof.
  intros Hq Hqtext Hs HL Hfirst.
  pose proof max_uint32_value as Hmax.
  set (columns := firstn (Z.to_nat (Hssp.m_size q)) (Hssp.m_seq q)).
  assert (Hcolumns : length columns = Z.to_nat (Hssp.m_size q))
    by (unfold columns; rewrite length_firstn; lia).
  unfold Hssp.update. fold columns.
  match goal with
  | |- context [Hssp.update_loop _ _ columns 0 ?st0] =>
      destruct (update_loop_scanned (length (Hssp.m_seq s)) (Hssp.m_seq s)
                  (Hssp.m_insertions s) (Hssp.m_length s) columns 0 st0)
        as (st & -> & [H1 H2 H3 H4 H5 H6 H7 H8 H9 H10 H11 H12 H13 H14 H15])
  end.
  - cbn [Nat.add]. lia.
  - exact HL.
  - intros _ qi Hqi. cbn [Hssp.buf]. intros [Hqg Hsg]. apply Hfirst.
    split; [| exact Hsg]. unfold columns in Hqi.
    destruct (Z.to_nat (Hssp.m_size q)) as [| n]; [discriminate |].
    destruct (Hssp.m_seq q) as [| c text]; [discriminate |].
    cbn in Hqi. injection Hqi as ->. exact Hqg.
  - split; scanned_fields; unfold width; scanned_fields.
    + reflexivity.
    + left. split; reflexivity.
    + cbn. lia.
    + cbn. lia.
    + lia.
    + split; [lia | intros Hne; contradiction Hne; reflexivity].
    + split; [lia |]. split; [reflexivity | intros Hne; contradiction Hne; reflexivity].
    + left. reflexivity.
    + exists []. rewrite app_nil_r. split; [reflexivity | constructor].
    + discriminate.
    + reflexivity.
    + intros j _. reflexivity.
    + intros _ j Hj. lia.
    + intros Hne; contradiction Hne; reflexivity.
    + intros Hne; contradiction Hne; reflexivity.
  - cbn [bind Nat.add] in *. rewrite Hcolumns in *. unfold width in *.
    destruct (Z.eqb_spec (Hssp.u_begin st) Hssp.kMaxUInt32) as [Hb | Hb].
    + cbn [bind]. eexists. split; [reflexivity |].
      cbn [Hssp.m_size Hssp.m_seq Hssp.m_begin Hssp.m_end Hssp.m_identical
           Hssp.m_similar Hssp.m_length Hssp.m_insertions].
      repeat (split; [first [exact H1 | exact H9 | assumption | lia] |]).
      split; [intros _; exact (H11 Hb) |]. split.
      * intros _. repeat (split; [lia |]). exact (H11 Hb).
      * intros j Hj Hres. rewrite (H13 Hb j Hj) in Hres. discriminate Hres.
    + destruct H2 as [[? ?] | [Hw He]]; [contradiction |].
      unfold assert.
      destruct (Z.leb_spec (Hssp.u_begin st) (Hssp.m_size s)); [| lia].
      destruct (Z.leb_spec (Hssp.u_end st) (Hssp.m_size s)); [| lia].
      cbn [bind]. eexists. split; [reflexivity |].
      cbn [Hssp.m_size Hssp.m_seq Hssp.m_begin Hssp.m_end Hssp.m_identical
           Hssp.m_similar Hssp.m_length Hssp.m_insertions].
      rewrite length_normalise.
      destruct (H14 Hb) as [Hfirst_res Hbefore].
      destruct (H15 Hb) as [Hlast_res Hafter].
      repeat (split; [first [exact H1 | exact H9 | assumption | lia] |]).
      split.
      * intros Hgaps. exfalso.
        rewrite Hgaps in Hfirst_res by lia. discriminate Hfirst_res.
      * intros j Hj Hres. split; [| split; assumption].
        split.
        -- destruct (Z.le_gt_cases (Hssp.u_begin st) (Z.of_nat j)) as [Hle | Hgt];
             [exact Hle |].
           rewrite Hbefore in Hres by lia. discriminate Hres.
        -- destruct (Z.lt_ge_cases (Z.of_nat j) (Hssp.u_end st)) as [Hlt | Hge];
             [exact Hlt |].
           rewrite Hafter in Hres by lia. discriminate Hres.
Qed.

End UpdateFacts.

(** A similarity matrix for the examples. *)
Definition example_kD (a b : Z) : Q := if a =? b then 1 else -1.

Lemma update_statistics_witness :
  exists s',
    Hssp.update Hssp.kResidueIX_spec example_kD
      (example_seq "AC-D" 0 4) (example_seq "A-GD" 0 4) = Ok s' /\
    0 <= Hssp.m_begin s' <= Hssp.m_end s' /\ Hssp.m_end s' <= 4 /\
    0 <= Hssp.m_identical s' <= Hssp.m_end s' - Hssp.m_begin s'.
Proof.
  destruct (update_statistics Hssp.kResidueIX_spec example_kD
              (example_seq "AC-D" 0 4) (example_seq "A-GD" 0 4))
    as (s' & Hrun & _ & _ & Hwindow & Hend & Hidentical & _).
  - vm_compute. split; discriminate.
  - vm_compute. discriminate.
  - vm_compute. discriminate.
  - vm_compute. reflexivity.
  - intros [H _]. vm_compute in H. discriminate H.
  - exists s'. repeat split; first [exact Hrun | apply Hwindow | exact Hend | apply Hidentical].
Defined.

(** ** Rows below the threshold *)




(** ** The order of the rows *)

Definition is_number (a : fval) : bool :=
  match a with NotANumber => false | _ => true end.

Lemma score_gt_irreflexive (a : fval) : Hssp.score_gt a a = false.
Proof.
  destruct a as [x | |]; cbn; try reflexivity.
  apply negb_false_iff, Qle_bool_iff. lra.
Qed.

Lemma Qle_bool_false (x y : Q) : Qle_bool x y = false <-> (y < x)%Q.
Proof.
  split.
  - intros H. apply Qnot_le_lt. intros Hc. apply Qle_bool_iff in Hc. congruence.
  - intros H. destruct (Qle_bool x y) eqn:Hle; [| reflexivity].
    apply Qle_bool_iff in Hle. lra.
Qed.

Lemma score_gt_trans (a b c : fval) :
  Hssp.score_gt a b = true -> Hssp.score_gt b c = true -> Hssp.score_gt a c = true.
Proof.
  destruct a as [x | |], b as [y | |], c as [z | |]; cbn;
    try discriminate; try reflexivity.
  rewrite !negb_true_iff, !Qle_bool_false. lra.
Qed.

Lemma score_eq_gt (a b : fval) :
  Hssp.score_eq a b = true ->
  forall c, Hssp.score_gt a c = Hssp.score_gt b c /\
            Hssp.score_gt c a = Hssp.score_gt c b /\
            Hssp.score_eq a c = Hssp.score_eq b c /\
            Hssp.score_eq c a = Hssp.score_eq c b.
Proof.
  destruct a as [x | |], b as [y | |]; cbn; try discriminate.
  - intros H c. apply Qeq_bool_iff in H.
    destruct c as [z | |]; cbn; repeat split; try reflexivity;
      rewrite H; reflexivity.
  - intros _ c. repeat split; reflexivity.
Qed.

Lemma score_eq_sym (a b : fval) : Hssp.score_eq a b = Hssp.score_eq b a.
Proof.
  destruct a as [x | |], b as [y | |]; cbn; try reflexivity.
  destruct (Qeq_bool x y) eqn:H1, (Qeq_bool y x) eqn:H2; try reflexivity.
  - apply Qeq_bool_iff in H1.
    assert (Qeq_bool y x = true) by (apply Qeq_bool_iff; symmetry; exact H1).
    congruence.
  - apply Qeq_bool_iff in H2.
    assert (Qeq_bool x y = true) by (apply Qeq_bool_iff; symmetry; exact H2).
    congruence.
Qed.

Lemma score_unordered (a b : fval) :
  is_number a = true -> is_number b = true ->
  Hssp.score_gt a b = false -> Hssp.score_gt b a = false ->
  Hssp.score_eq a b = true.
Proof.
  destruct a as [x | |], b as [y | |]; cbn; try discriminate; try reflexivity.
  rewrite !negb_false_iff. intros _ _ H1 H2.
  apply Qle_bool_iff in H1, H2. apply Qeq_bool_iff. lra.
Qed.

(** X13. [seq::operator<] is a strict order on all rows: no row is before
    itself, and the relation is transitive. On rows whose score is a
    number (an infinite score included) it is a strict weak order as
    sorting needs it: rows of which neither is before the other have
    equal scores and equal lengths, and are before and after the same
    rows. *)
Theorem less_strict_weak_order (a b c : Hssp.seq) :
  Hssp.less a a = false /\
  (Hssp.less a b = true -> Hssp.less b c = true -> Hssp.less a c = true) /\
  (is_number (Hssp.m_score a) = true -> is_number (Hssp.m_score b) = true ->
   Hssp.less a b = false -> Hssp.less b a = false ->
   Hssp.score_eq (Hssp.m_score a) (Hssp.m_score b) = true /\
   Hssp.length a = Hssp.length b /\
   Hssp.less a c = Hssp.less b c /\ Hssp.less c a = Hssp.less c b).
Proof.
  unfold Hssp.less.
  set (la := Hssp.length a). set (lb := Hssp.length b). set (lc := Hssp.length c).
  set (sa := Hssp.m_score a). set (sb := Hssp.m_score b). set (sc := Hssp.m_score c).
  split; [| split].
  - rewrite score_gt_irreflexive. rewrite Z.gtb_ltb, Z.ltb_irrefl, andb_false_r.
    reflexivity.
  - rewrite !orb_true_iff, !andb_true_iff.
    intros [Hab | [Hab Hl1]] [Hbc | [Hbc Hl2]].
    + left. exact (score_gt_trans sa sb sc Hab Hbc).
    + left. destruct (score_eq_gt sb sc Hbc sa) as (_ & <- & _). exact Hab.
    + left. destruct (score_eq_gt sa sb Hab sc) as (-> & _). exact Hbc.
    + right. destruct (score_eq_gt sa sb Hab sc) as (_ & _ & -> & _).
      split; [exact Hbc |].
      rewrite Z.gtb_ltb in *. apply Z.ltb_lt in Hl1, Hl2. apply Z.ltb_lt. lia.
  - rewrite !orb_false_iff. intros Ha Hb [Hab Hl1] [Hba Hl2].
    pose proof (score_unordered sa sb Ha Hb Hab Hba) as Heq.
    assert (Hqe : Hssp.score_eq sb sa = true)
      by (rewrite score_eq_sym; exact Heq).
    rewrite Heq in Hl1. rewrite Hqe in Hl2. cbn [andb] in Hl1, Hl2.
    rewrite Z.gtb_ltb in Hl1, Hl2. apply Z.ltb_ge in Hl1, Hl2.
    assert (Hlen : la = lb) by lia.
    split; [exact Heq |]. split; [exact Hlen |].
    destruct (score_eq_gt sa sb Heq sc) as (-> & -> & -> & ->).
    rewrite Hlen. split; reflexivity.
Qed.


(** ** The cut of the alignment to the chain *)

Lemma starts_with_spec (q : list ascii) :
  forall text, Hssp.starts_with q text = true <-> firstn (length q) text = q.
Proof.
  induction q as [| c q IH]; intros text.
  - split; reflexivity.
  - destruct text as [| d text]; cbn [Hssp.starts_with length firstn].
    + split; discriminate.
    + rewrite andb_true_iff, IH, Ascii.eqb_eq. split.
      * intros [-> ->]. reflexivity.
      * intros H. injection H as -> H. split; [reflexivity | exact H].
Qed.

Lemma find_some (q : list ascii) :
  forall qr k, Hssp.find qr q = Some k ->
    firstn (length q) (skipn k qr) = q /\
    forall j, (j < k)%nat -> firstn (length q) (skipn j qr) <> q.
Proof.
  induction qr as [| d qr IH]; intros k; cbn [Hssp.find].
  - destruct (Hssp.starts_with q []) eqn:Hs; [| discriminate].
    intros H. injection H as <-. apply starts_with_spec in Hs.
    split; [exact Hs | intros j Hj; lia].
  - destruct (Hssp.starts_with q (d :: qr)) eqn:Hs.
    + intros H. injection H as <-. apply starts_with_spec in Hs.
      split; [exact Hs | intros j Hj; lia].
    + destruct (Hssp.find qr q) as [k' |] eqn:Hf; [| discriminate].
      cbn [option_map]. intros H. injection H as <-.
      destruct (IH k' eq_refl) as [Hat Hbefore].
      split; [exact Hat |]. intros [| j] Hj.
      * cbn [skipn]. intros Hc. apply starts_with_spec in Hc. congruence.
      * cbn [skipn]. apply Hbefore. lia.
Qed.

Lemma find_none (q : list ascii) :
  forall qr, Hssp.find qr q = None ->
    forall k, firstn (length q) (skipn k qr) <> q.
Proof.
  induction qr as [| d qr IH]; cbn [Hssp.find].
  - destruct (Hssp.starts_with q []) eqn:Hs; [discriminate |].
    intros _ k Hc. rewrite skipn_nil in Hc.
    apply starts_with_spec in Hc. congruence.
  - destruct (Hssp.starts_with q (d :: qr)) eqn:Hs; [discriminate |].
    destruct (Hssp.find qr q) eqn:Hf; [discriminate |].
    intros _ [| k].
    + cbn [skipn]. intros Hc. apply starts_with_spec in Hc. congruence.
    + cbn [skipn]. apply IH. reflexivity.
Qed.

Lemma differs_spec (q : list ascii) :
  forall qr, Hssp.differs q qr = false <-> q = qr.
Proof.
  induction q as [| c q IH]; intros [| d qr]; cbn [Hssp.differs];
    try (split; [discriminate | discriminate]); try (split; reflexivity).
  rewrite orb_false_iff, negb_false_iff, Ascii.eqb_eq, IH. split.
  - intros [-> ->]. reflexivity.
  - intros H. injection H as -> ->. split; reflexivity.
Qed.

Section QueryWindow.

Variable kResidueIX : ascii -> Z.

(** The residues of a row, as [ReadStockholm] collects them in [qr]. *)
Definition row_residues (row : list ascii) : list ascii :=
  filter (fun c => negb (Hssp.is_gap kResidueIX c)) row.

Lemma pass_residues_le (row : list ascii) :
  forall count, (Hssp.pass_residues kResidueIX row count <= length row)%nat.
Proof.
  induction row as [| c row IH]; intros count; cbn [Hssp.pass_residues length].
  - lia.
  - destruct (Hssp.is_gap kResidueIX c).
    + specialize (IH count). lia.
    + destruct count as [| count]; [lia | specialize (IH count); lia].
Qed.

Lemma pass_residues_firstn (row : list ascii) :
  forall count,
    row_residues (firstn (Hssp.pass_residues kResidueIX row count) row)
    = firstn count (row_residues row).
Proof.
  induction row as [| c row IH]; intros count;
    cbn [Hssp.pass_residues row_residues filter firstn].
  - rewrite firstn_nil. reflexivity.
  - fold (row_residues row).
    destruct (Hssp.is_gap kResidueIX c) eqn:Hc; cbn [negb].
    + cbn [firstn filter]. rewrite Hc. cbn [negb]. apply IH.
    + destruct count as [| count]; [reflexivity |].
      cbn [firstn filter]. rewrite Hc. cbn [negb]. f_equal. apply IH.
Qed.

Lemma pass_residues_skipn (row : list ascii) :
  forall count,
    row_residues (skipn (Hssp.pass_residues kResidueIX row count) row)
    = skipn count (row_residues row).
Proof.
  induction row as [| c row IH]; intros count;
    cbn [Hssp.pass_residues row_residues filter skipn].
  - rewrite skipn_nil. reflexivity.
  - fold (row_residues row).
    destruct (Hssp.is_gap kResidueIX c) eqn:Hc; cbn [negb].
    + cbn [skipn]. apply IH.
    + destruct count as [| count].
      * cbn [skipn filter]. rewrite Hc. reflexivity.
      * cbn [skipn]. apply IH.
Qed.

Lemma pass_residues_stops (row : list ascii) :
  forall count,
    let p := Hssp.pass_residues kResidueIX row count in
    (p < length row)%nat ->
    Hssp.is_gap kResidueIX (nth p row "000"%char) = false.
Proof.
  induction row as [| c row IH]; intros count;
    cbn [Hssp.pass_residues length]; cbv zeta.
  - lia.
  - destruct (Hssp.is_gap kResidueIX c) eqn:Hc.
    + intros H. cbn [nth]. apply IH. lia.
    + destruct count as [| count].
      * intros _. exact Hc.
      * intros H. cbn [nth]. apply IH. lia.
Qed.

Lemma firstn_skipn_firstn {A : Type} (n p m : nat) (l : list A) :
  (p + n <= m)%nat ->
  firstn n (skipn p (firstn m l)) = firstn n (skipn p l).
Proof.
  revert p m. induction l as [| x l IH]; intros p m H.
  - rewrite firstn_nil. reflexivity.
  - destruct m as [| m].
    + assert (p = 0%nat) by lia. assert (n = 0%nat) by lia. subst. reflexivity.
    + destruct p as [| p].
      * cbn [skipn]. rewrite firstn_firstn. f_equal. lia.
      * cbn [firstn skipn]. apply IH. lia.
Qed.

(** X14. The two loops of [ReadStockholm] over the first row find a window
    of columns inside the row that holds exactly the residues of the row
    from the residue [offset] on, [count] of them or as many as there
    are; the window begins at a residue and ends before a residue or
    with the row. *)
Theorem query_window_residues (row : list ascii) (offset count : nat) :
  let '(pos, n) := Hssp.query_window kResidueIX row offset count in
  (pos + n <= length row)%nat /\
  row_residues (firstn n (skipn pos row)) = firstn count (skipn offset (row_residues row)) /\
  ((pos < length row)%nat ->
   Hssp.is_gap kResidueIX (nth pos row "000"%char) = false) /\
  ((pos + n < length row)%nat ->
   Hssp.is_gap kResidueIX (nth (pos + n) row "000"%char) = false).
Proof.
  unfold Hssp.query_window.
  set (pos := Hssp.pass_residues kResidueIX row offset).
  set (n := Hssp.pass_residues kResidueIX (skipn pos row) count).
  pose proof (pass_residues_le row offset) as Hpos. fold pos in Hpos.
  pose proof (pass_residues_le (skipn pos row) count) as Hn. fold n in Hn.
  rewrite length_skipn in Hn.
  split; [lia |]. split.
  - unfold n. rewrite pass_residues_firstn. unfold pos.
    rewrite pass_residues_skipn. reflexivity.
  - split.
    + apply pass_residues_stops.
    + intros H.
      pose proof (pass_residues_stops (skipn pos row) count) as Hstop.
      cbv zeta in Hstop. fold n in Hstop. rewrite length_skipn in Hstop.
      rewrite nth_skipn in Hstop. apply Hstop. lia.
Qed.

Lemma cut_all_from (pos n : Z) (msa : list Hssp.seq) :
  0 <= pos -> 0 <= n -> pos + n < 2 ^ 32 ->
  Forall (fun s => pos + n <= Hssp.m_size s) msa ->
  forall done,
    exists cut_rows,
      foreach (fun done s => s' <- Hssp.cut pos n s ;; Ok (done ++ [s'])) msa done
        = Ok (done ++ cut_rows) /\
      Forall2 (fun s s' => Hssp.cut pos n s = Ok s') msa cut_rows.
Proof.
  intros Hpos Hn Hfit Hall. induction Hall as [| s msa Hs Hall IH]; intros done.
  - exists []. rewrite app_nil_r. split; [reflexivity | constructor].
  - cbn [foreach].
    assert (Hcut : exists s', Hssp.cut pos n s = Ok s').
    { unfold Hssp.cut. rewrite Z.mod_small by lia.
      rewrite assert_true by (apply Z.leb_le; exact Hs). eexists. reflexivity. }
    destruct Hcut as [s' Hcut]. rewrite Hcut. cbn [bind].
    destruct (IH (done ++ [s'])) as (cut_rows & -> & Hrows).
    exists (s' :: cut_rows). rewrite <- app_assoc. split; [reflexivity |].
    constructor; assumption.
Qed.

Lemma cut_fields (pos n : Z) (s s' : Hssp.seq) :
  Hssp.cut pos n s = Ok s' ->
  Hssp.m_size s' = n /\ Hssp.m_seq s' = skipn (Z.to_nat pos) (Hssp.m_seq s) /\
  Hssp.m_id s' = Hssp.m_id s.
Proof.
  unfold Hssp.cut. destruct (assert _); try discriminate. cbn [bind].
  intros H. injection H as <-. repeat split.
Qed.

(** X15. The block of [ReadStockholm] that cuts the alignment to the chain,
    on an alignment whose rows are all at least as long as the first,
    which has its text in full, with
    [qr] the residues of the first row and a chain [q] that is not empty
    and differs from [qr]. If [q] occurs in [qr], every row is cut to the
    same columns, the window that the two loops find in the first row for
    the first place of [q] in [qr]: each row of the result is the [cut] of
    the row in its place at that window, so that its text is the old text
    from column [pos] on and its size is [n]; the rows keep their order
    and identifiers, and the residues of the first row are now exactly
    [q]. If [q] does not occur in [qr], the block throws. *)
Theorem cut_to_query_residues (q : list ascii) (front : Hssp.seq)
    (rest : list Hssp.seq) :
  let row := firstn (Z.to_nat (Hssp.m_size front)) (Hssp.m_seq front) in
  q <> [] -> q <> row_residues row ->
  0 <= Hssp.m_size front < 2 ^ 32 ->
  Hssp.m_size front <= Z.of_nat (length (Hssp.m_seq front)) ->
  Forall (fun s => Hssp.m_size front <= Hssp.m_size s) rest ->
  ((exists k, firstn (length q) (skipn k (row_residues row)) = q) ->
   exists offset pos n front' rest',
     firstn (length q) (skipn offset (row_residues row)) = q /\
     (forall j, (j < offset)%nat ->
        firstn (length q) (skipn j (row_residues row)) <> q) /\
     Hssp.query_window kResidueIX row offset (length q) = (pos, n) /\
     (pos + n <= length row)%nat /\
     Hssp.cut_to_query kResidueIX q (row_residues row) (front :: rest)
       = Ok (front' :: rest') /\
     Forall2 (fun s s' => Hssp.cut (Z.of_nat pos) (Z.of_nat n) s = Ok s' /\
                          Hssp.m_id s' = Hssp.m_id s /\
                          Hssp.m_seq s' = skipn pos (Hssp.m_seq s) /\
                          Hssp.m_size s' = Z.of_nat n /\
                          Hssp.m_size s' = Hssp.m_size front')
       (front :: rest) (front' :: rest') /\
     row_residues (firstn (Z.to_nat (Hssp.m_size front')) (Hssp.m_seq front')) = q) /\
  ((forall k, firstn (length q) (skipn k (row_residues row)) <> q) ->
   is_thrown (Hssp.cut_to_query kResidueIX q (row_residues row) (front :: rest)) = true).
Proof.
  intros row Hq Hne Hsize _ Hrest.
  assert (Hrow : (length row <= Z.to_nat (Hssp.m_size front))%nat)
    by (unfold row; rewrite length_firstn; lia).
  assert (Hqr : (length (row_residues row) <= length row)%nat)
    by apply filter_length_le.
  assert (Hguard : (negb (length q =? 0)%nat &&
                    Hssp.differs q (row_residues row))%bool = true).
  { apply andb_true_iff. split.
    - destruct q; [contradiction Hq; reflexivity | reflexivity].
    - destruct (Hssp.differs q (row_residues row)) eqn:Hd; [reflexivity |].
      apply differs_spec in Hd. contradiction. }
  unfold Hssp.cut_to_query. rewrite Hguard. fold row. split.
  - intros [k Hk].
    assert (Hlen : (length q <= length (row_residues row))%nat).
    { rewrite <- Hk at 1. rewrite length_firstn, length_skipn. lia. }
    destruct (Nat.ltb_spec (length (row_residues row)) (length q)); [lia |].
    destruct (Hssp.find (row_residues row) q) as [offset |] eqn:Hfind;
      [| exfalso; exact (find_none q _ Hfind k Hk)].
    destruct (find_some q _ _ Hfind) as [Hat Hfirst].
    rewrite Z.mod_small by lia. rewrite Nat2Z.id.
    unfold Hssp.query_window.
    set (pos := Hssp.pass_residues kResidueIX row offset).
    set (n := Hssp.pass_residues kResidueIX (skipn pos row) (length q)).
    pose proof (pass_residues_le row offset) as Hpos. fold pos in Hpos.
    pose proof (pass_residues_le (skipn pos row) (length q)) as Hn. fold n in Hn.
    rewrite length_skipn in Hn.
    unfold Hssp.cut_all.
    destruct (cut_all_from (Z.of_nat pos) (Z.of_nat n) (front :: rest))
      with (done := @nil Hssp.seq) as (cut_rows & -> & Hrows);
      [lia | lia | lia | |].
    { constructor; [lia |].
      eapply Forall_impl; [| exact Hrest]. cbv beta. intros s Hs. lia. }
    cbn [app].
    inversion Hrows as [| s0 front' l0 rest' Hfront Hrest' E1 E2]. subst.
    exists offset, pos, n, front', rest'.
    split; [exact Hat |]. split; [exact Hfirst |].
    split; [reflexivity |]. split; [lia |]. split; [reflexivity |].
    destruct (cut_fields _ _ _ _ Hfront) as (Hsz & Htext & Hid).
    split.
    + assert (Hall : forall l l',
                Forall2 (fun s s' => Hssp.cut (Z.of_nat pos) (Z.of_nat n) s = Ok s') l l' ->
                Forall2 (fun s s' =>
                           Hssp.cut (Z.of_nat pos) (Z.of_nat n) s = Ok s' /\
                           Hssp.m_id s' = Hssp.m_id s /\
                           Hssp.m_seq s' = skipn pos (Hssp.m_seq s) /\
                           Hssp.m_size s' = Z.of_nat n /\
                           Hssp.m_size s' = Hssp.m_size front') l l').
      { intros l l' Hl. induction Hl as [| s s' l l' Hc Hl IH]; constructor.
        - destruct (cut_fields _ _ _ _ Hc) as (Hsz' & Htext' & Hid').
          rewrite Nat2Z.id in Htext'.
          repeat (split; [first [assumption | congruence] |]). congruence.
        - exact IH. }
      apply Hall. exact Hrows.
    + rewrite Hsz, Htext, !Nat2Z.id.
      rewrite <- (firstn_skipn_firstn n pos (Z.to_nat (Hssp.m_size front)))
        by (fold row in Hrow; lia).
      fold row. unfold n. rewrite pass_residues_firstn. unfold pos.
      rewrite pass_residues_skipn. exact Hat.
  - intros Hnone.
    destruct (Nat.ltb_spec (length (row_residues row)) (length q)); [reflexivity |].
    destruct (Hssp.find (row_residues row) q) as [offset |] eqn:Hfind; [| reflexivity].
    destruct (find_some q _ _ Hfind) as [Hat _]. exfalso. exact (Hnone _ Hat).
Qed.

End QueryWindow.

Lemma cut_to_query_residues_witness :
  exists front' rest',
    Hssp.cut_to_query Hssp.kResidueIX_spec (text "CD")
      (row_residues Hssp.kResidueIX_spec (text "-AC-DE-"))
      [example_seq "-AC-DE-" 0 7; example_seq "GAC-DEG" 0 7] = Ok (front' :: rest') /\
    row_residues Hssp.kResidueIX_spec
      (firstn (Z.to_nat (Hssp.m_size front')) (Hssp.m_seq front')) = text "CD".
Proof.
  destruct (cut_to_query_residues Hssp.kResidueIX_spec (text "CD")
              (example_seq "-AC-DE-" 0 7) [example_seq "GAC-DEG" 0 7])
    as [Hfound _].
  - discriminate.
  - vm_compute. discriminate.
  - vm_compute. split; [discriminate | reflexivity].
  - vm_compute. discriminate.
  - repeat constructor. vm_compute. discriminate.
  - destruct Hfound as (offset & pos & n & front' & rest' & _ & _ & _ & _ & Hrun
                        & _ & Hresidues).
    + exists 1%nat. reflexivity.
    + exists front', rest'. split; [exact Hrun | exact Hresidues].
Defined.

(** ** The lines of an insertion *)

Definition full_lines (lines : list (list ascii)) : Prop :=
  forall k, (S k < length lines)%nat -> length (nth k lines []) = 100%nat.

Lemma continuation_lines_split (fuel : nat) :
  forall s, (length s <= fuel)%nat ->
    let lines := Hssp.continuation_lines fuel s in
    concat lines = s /\
    Forall (fun l => (1 <= length l <= 100)%nat) lines /\
    full_lines lines /\
    length lines = ((length s + 99) / 100)%nat.
Proof.
  induction fuel as [| fuel IH]; intros s Hfuel; cbv zeta.
  - destruct s; [| cbn in Hfuel; lia]. cbn.
    repeat split; [constructor | intros k Hk; cbn in Hk; lia].
  - cbn [Hssp.continuation_lines].
    destruct s as [| c s'] eqn:Hs.
    + cbn. repeat split; [constructor | intros k Hk; cbn in Hk; lia].
    + rewrite <- Hs in *. assert (Hpos : (1 <= length s)%nat) by (subst; cbn; lia).
      clear Hs c s'.
      destruct (IH (skipn 100 s)) as (Hcat & Hall & Hfull & Hcount).
      { rewrite length_skipn. lia. }
      rewrite length_skipn in Hcount.
      cbn [concat length]. rewrite Hcat, firstn_skipn.
      split; [reflexivity |]. split.
      * constructor; [rewrite length_firstn; lia | exact Hall].
      * split.
        -- intros [| k] Hk; cbn [nth length] in *.
           ++ rewrite length_firstn.
              destruct (Hssp.continuation_lines fuel (skipn 100 s)) eqn:Hl;
                [cbn in Hk; lia |].
              cbn [length] in Hcount.
              destruct (Nat.le_gt_cases 100 (length s)) as [Hge | Hlt]; [lia |].
              replace (length s - 100)%nat with 0%nat in Hcount by lia.
              cbn in Hcount. lia.
           ++ apply Hfull. lia.
        -- rewrite Hcount.
           destruct (Nat.le_gt_cases 100 (length s)) as [Hge | Hlt].
           ++ replace (length s + 99)%nat with ((length s - 100 + 99) + 1 * 100)%nat by lia.
              rewrite Nat.div_add by lia. lia.
           ++ replace (length s - 100)%nat with 0%nat by lia.
              rewrite (Nat.div_small (0 + 99)) by lia.
              assert ((length s + 99) / 100 = 1)%nat; [| lia].
              replace (length s + 99)%nat with ((length s - 1) + 1 * 100)%nat by lia.
              rewrite Nat.div_add by lia. rewrite Nat.div_small by lia. reflexivity.
Qed.

(** X16. The lines that [CreateHSSPOutput] prints for one insertion put
    together are the text of the insertion; no line has more than 100
    characters, every line but the last has exactly 100, and only an
    empty insertion gives an empty line. There is one line for an
    insertion of up to 100 characters and a line for every 100
    characters begun otherwise. *)
Theorem insertion_lines_split (s : list ascii) :
  let lines := Hssp.insertion_lines s in
  concat lines = s /\
  Forall (fun l => (length l <= 100)%nat /\ (l = [] -> s = [])) lines /\
  full_lines lines /\
  length lines = Nat.max 1 ((length s + 99) / 100).
Proof.
  cbv zeta. unfold Hssp.insertion_lines.
  destruct (Nat.leb_spec (length s) 100) as [Hle | Hgt].
  - cbn [concat length]. rewrite app_nil_r. split; [reflexivity |]. split.
    + constructor; [split; [exact Hle | intros H; exact H] | constructor].
    + split; [intros k Hk; cbn in Hk; lia |].
      destruct (Nat.eq_dec (length s) 0) as [H0 | H0].
      * rewrite H0. reflexivity.
      * replace (length s + 99)%nat with ((length s - 1) + 1 * 100)%nat by lia.
        rewrite Nat.div_add by lia. rewrite Nat.div_small by lia. reflexivity.
  - destruct (continuation_lines_split (length s) (skipn 100 s))
      as (Hcat & Hall & Hfull & Hcount).
    { rewrite length_skipn. lia. }
    rewrite length_skipn in Hcount.
    cbn [concat length]. rewrite Hcat, firstn_skipn.
    split; [reflexivity |]. split.
    + constructor.
      * rewrite length_firstn. split; [lia |].
        intros H. apply (f_equal (@length ascii)) in H.
        rewrite length_firstn in H. cbn [length] in H. exfalso. lia.
      * eapply Forall_impl; [| exact Hall]. cbv beta. intros l Hl.
        split; [lia |]. intros ->. cbn [length] in Hl. exfalso. lia.
    + split.
      * intros [| k] Hk; cbn [nth length] in *.
        -- rewrite length_firstn. lia.
        -- apply Hfull. lia.
      * rewrite Hcount.
        replace (length s + 99)%nat with ((length s - 100 + 99) + 1 * 100)%nat by lia.
        rewrite Nat.div_add by lia. lia.
Qed.

(** ** Conservation weights on the residues of a chain *)

Lemma foreach_invariant {A B : Type} (f : A -> B -> result A) (P : A -> Prop)
    (l : list B) :
  (forall a b, In b l -> P a -> exists a', f a b = Ok a' /\ P a') ->
  forall a, P a -> exists a', foreach f l a = Ok a' /\ P a'.
Proof.
  induction l as [| b l IH]; intros Hf a Ha.
  - exists a. split; [reflexivity | exact Ha].
  - destruct (Hf a b (or_introl eq_refl) Ha) as (a1 & Hrun & Ha1).
    cbn [foreach]. rewrite Hrun. cbn [bind].
    apply IH; [| exact Ha1]. intros a' b' Hin. apply Hf. right. exact Hin.
Qed.

Lemma foreach_columns {A : Type} (f : A -> nat -> result A) (P : nat -> A -> Prop)
    (len : nat) :
  forall start a,
    (forall a i, (start <= i < start + len)%nat -> P i a ->
                 exists a', f a i = Ok a' /\ P (S i) a') ->
    P start a ->
    exists a', foreach f (seq start len) a = Ok a' /\ P (start + len)%nat a'.
Proof.
  induction len as [| len IH]; intros start a Hf Ha.
  - exists a. rewrite Nat.add_0_r. split; [reflexivity | exact Ha].
  - destruct (Hf a start ltac:(lia) Ha) as (a1 & Hrun & Ha1).
    cbn [seq foreach]. rewrite Hrun. cbn [bind].
    destruct (IH (S start) a1) as (a' & Hrest & Ha'); [| exact Ha1 |].
    + intros a2 i Hi. apply Hf. lia.
    + exists a'. split; [exact Hrest |].
      replace (start + S len)%nat with (S start + len)%nat by lia. exact Ha'.
Qed.

Lemma in_skipn {A : Type} (n : nat) (l : list A) (x : A) :
  In x (skipn n l) -> In x l.
Proof.
  intros H. rewrite <- (firstn_skipn n l). apply in_or_app. right. exact H.
Qed.

Lemma at_ok (s : Hssp.seq) (k : nat) :
  Z.of_nat k < Hssp.m_size s ->
  Hssp.m_size s <= Z.of_nat (length (Hssp.m_seq s)) ->
  Hssp.at_ s (Z.of_nat k) = Ok (nth k (Hssp.m_seq s) "000"%char).
Proof.
  intros Hk Hsize. unfold Hssp.at_.
  rewrite assert_true by (apply Z.ltb_lt; exact Hk). cbn [bind].
  rewrite Nat2Z.id.
  destruct (nth_error (Hssp.m_seq s) k) as [c |] eqn:Hc.
  - rewrite (nth_error_nth _ _ _ Hc). reflexivity.
  - apply nth_error_None in Hc. lia.
Qed.

Section Conservation.

Variable kResidueIX : ascii -> Z.
Variable kD : Z -> Z -> Q.

(** A row whose window lies within its text and within the first [n]
    columns. *)
Definition window_within (n : Z) (r : Hssp.seq) : Prop :=
  0 <= Hssp.m_begin r /\ Hssp.m_end r <= Hssp.m_size r /\
  Hssp.m_size r <= Z.of_nat (length (Hssp.m_seq r)) /\ Hssp.m_end r <= n.

Definition sized (n : nat) (acc : Hssp.accumulators) : Prop :=
  length (Hssp.sumvar acc) = n /\ length (Hssp.sumdist acc) = n /\
  length (Hssp.simval acc) = n.

Lemma compare_pair_sized (n : nat) (si sj : Hssp.seq) (acc : Hssp.accumulators) :
  window_within (Z.of_nat n) si -> window_within (Z.of_nat n) sj ->
  sized n acc ->
  exists acc', Hssp.compare_pair kResidueIX kD si acc sj = Ok acc' /\ sized n acc'.
Proof.
  intros (Hbi & Hei & Hsi & Hni) (Hbj & Hej & Hsj & Hnj) (Hv & Hd & Hs).
  unfold Hssp.compare_pair.
  destruct (Hssp.m_pruned sj); [exists acc; split; [reflexivity | repeat split; assumption] |].
  set (b := Z.to_nat (Z.max (Hssp.m_begin si) (Hssp.m_begin sj))).
  set (e := Z.to_nat (Z.min (Hssp.m_end si) (Hssp.m_end sj))).
  destruct (foreach_invariant (Hssp.compare_column kResidueIX kD si sj)
              (fun st => length (snd st) = n) (seq b (e - b)))
    with (a := (0, 0, Hssp.simval acc)) as ([[len agr] sv] & -> & Hsv).
  - intros [[len agr] sv] k Hin Hlen. cbn [snd] in Hlen.
    apply in_seq in Hin.
    assert (Hk : Z.of_nat k < Z.min (Hssp.m_end si) (Hssp.m_end sj)) by lia.
    unfold Hssp.compare_column.
    rewrite at_ok by lia. cbn [bind].
    destruct (Hssp.is_gap kResidueIX _); [eexists; split; [reflexivity | exact Hlen] |].
    rewrite at_ok by lia. cbn [bind].
    destruct (Hssp.is_gap kResidueIX _); [eexists; split; [reflexivity | exact Hlen] |].
    unfold Hssp.in_vector.
    destruct (Nat.ltb_spec k (length sv)); [| lia]. cbn [bind].
    eexists. split; [reflexivity |]. cbn [snd]. rewrite length_set_nth. exact Hlen.
  - exact Hs.
  - cbn [bind snd] in *.
    destruct (0 <? len); [| eexists; split; [reflexivity | repeat split; assumption]].
    apply foreach_invariant.
    + intros acc1 k Hin (Hv1 & Hd1 & Hs1). apply in_seq in Hin.
      assert (Hk : Z.of_nat k < Z.min (Hssp.m_end si) (Hssp.m_end sj)) by lia.
      unfold Hssp.accumulate_column, Hssp.in_vector.
      destruct (Nat.ltb_spec k (length (Hssp.simval acc1))); [| lia]. cbn [bind].
      destruct (nth k (Hssp.simval acc1) None);
        [| eexists; split; [reflexivity | repeat split; assumption]].
      destruct (Nat.ltb_spec k (length (Hssp.sumvar acc1))); [| lia]. cbn [bind].
      destruct (Nat.ltb_spec k (length (Hssp.sumdist acc1))); [| lia]. cbn [bind].
      eexists. split; [reflexivity |].
      repeat split; cbn [Hssp.sumvar Hssp.sumdist Hssp.simval];
        rewrite ?length_set_nth; assumption.
    + repeat split; assumption.
Qed.

Lemma conservation_worker_sized (s : Hssp.seq) (rest : list Hssp.seq) :
  Hssp.m_begin s = 0 -> 0 <= Hssp.m_end s < 2 ^ 32 ->
  Forall (window_within (Hssp.m_end s)) (s :: rest) ->
  exists sv sd, Hssp.conservation_worker kResidueIX kD (s :: rest) = Ok (sv, sd).
Proof.
  intros Hb He Hall. unfold Hssp.conservation_worker.
  assert (Hlen : Hssp.length s = Hssp.m_end s).
  { unfold Hssp.length. rewrite Hb, Z.sub_0_r. apply Z.mod_small. exact He. }
  rewrite Hlen. set (n := Z.to_nat (Hssp.m_end s)).
  assert (Hn : Z.of_nat n = Hssp.m_end s) by (unfold n; lia).
  rewrite <- Hn in Hall.
  destruct (foreach_invariant (Hssp.compare_row kResidueIX kD (s :: rest)) (sized n)
              (Hssp.queued (s :: rest)))
    with (a := Hssp.mkAccumulators (repeat 0%Q n) (repeat 0%Q n) (repeat (Some 0%Q) n))
    as (acc & -> & _).
  - intros acc i Hin Hacc. unfold Hssp.queued in Hin.
    apply filter_In in Hin. destruct Hin as [_ Hi].
    unfold Hssp.compare_row.
    destruct (nth_error (s :: rest) i) as [si |] eqn:Hsi; [| discriminate].
    rewrite Hi. cbn [assert bind].
    assert (Hwi : window_within (Z.of_nat n) si).
    { rewrite Forall_forall in Hall. apply Hall. eapply nth_error_In. exact Hsi. }
    apply foreach_invariant; [| exact Hacc].
    intros acc1 sj Hin Hacc1. apply compare_pair_sized; [exact Hwi | | exact Hacc1].
    rewrite Forall_forall in Hall. apply Hall.
    apply (in_skipn (S i)). exact Hin.
  - repeat split; cbn; apply repeat_length.
  - cbn [bind]. eexists. eexists. reflexivity.
Qed.

(** *** The residue list of [ChainToHits] *)

Lemma firstn_snoc {A : Type} (d : A) (l : list A) :
  forall i, (i < length l)%nat -> firstn (S i) l = firstn i l ++ [nth i l d].
Proof.
  induction l as [| x l IH]; intros i Hi; [cbn in Hi; lia |].
  destruct i as [| i]; [reflexivity |].
  cbn [firstn nth app]. f_equal. apply IH. cbn in Hi. lia.
Qed.

Lemma filter_firstn_snoc {A : Type} (p : A -> bool) (d : A) (l : list A) (i : nat) :
  (i < length l)%nat ->
  filter p (firstn (S i) l) =
    filter p (firstn i l) ++ (if p (nth i l d) then [nth i l d] else []).
Proof.
  intros Hi. rewrite (firstn_snoc d) by exact Hi.
  rewrite filter_app. cbn [filter]. destruct (p (nth i l d)); reflexivity.
Qed.

Lemma filter_firstn_le {A : Type} (p : A -> bool) (l : list A) :
  forall i j, (i <= j)%nat ->
    (length (filter p (firstn i l)) <= length (filter p (firstn j l)))%nat.
Proof.
  induction l as [| x l IH]; intros i j Hij.
  - rewrite !firstn_nil. lia.
  - destruct i as [| i]; [cbn; lia |]. destruct j as [| j]; [lia |].
    cbn [firstn filter]. specialize (IH i j ltac:(lia)).
    destruct (p x); cbn [length]; lia.
Qed.

Definition is_break (r : Hssp.ResidueHInfo) : bool :=
  Ascii.eqb (Hssp.letter r) "000"%char.

(** The entries of a residue list that are not chain breaks. *)
Definition entries (res : list Hssp.ResidueHInfo) : list Hssp.ResidueHInfo :=
  filter (fun r => negb (is_break r)) res.

Lemma entries_app (a b : list Hssp.ResidueHInfo) :
  entries (a ++ b) = entries a ++ entries b.
Proof. apply filter_app. Qed.

Lemma entries_break (junk : Hssp.ResidueHInfo) (k : Z) :
  entries [Hssp.chain_break junk k] = [].
Proof. reflexivity. Qed.

Lemma entries_residue (junk : Hssp.ResidueHInfo) (c chain : ascii) (p k nr : Z) :
  c <> "000"%char ->
  entries [Hssp.residue_info junk c p chain k nr] =
    [Hssp.residue_info junk c p chain k nr].
Proof.
  intros Hc. unfold entries, is_break. cbn [filter Hssp.residue_info Hssp.letter].
  apply Ascii.eqb_neq in Hc. rewrite Hc. reflexivity.
Qed.

(** The characters of the first [n] columns of a row that are residues
    are not the character 0, which marks a chain break. *)
Definition residues_marked (n : nat) (row : list ascii) : Prop :=
  forall i, (i < n)%nat ->
    Hssp.is_gap kResidueIX (nth i row "000"%char) = false ->
    nth i row "000"%char <> "000"%char.

Section ChainResidues.

Variable junk : Hssp.ResidueHInfo.
Variable s : Hssp.seq.
Variable chain : ascii.
Variable numbers : list Z.
Variable res0 : list Hssp.ResidueHInfo.

Let row := Hssp.m_seq s.
Let n := Z.to_nat (Hssp.m_end s).

Hypothesis Hbegin : Hssp.m_begin s = 0.
Hypothesis Hend : 0 <= Hssp.m_end s < 2 ^ 32.
Hypothesis Hwithin : window_within (Hssp.m_end s) s.
Hypothesis Hmarked : residues_marked n row.

(** What the loop of [ChainToHits] has added to [res] before column [i]. *)
Definition laid (i : nat) (st : nat * list Hssp.ResidueHInfo) : Prop :=
  exists added,
    snd st = res0 ++ added /\
    fst st = length (row_residues kResidueIX (firstn i row)) /\
    map Hssp.letter (entries added) = row_residues kResidueIX (firstn i row) /\
    map Hssp.pdbNr (entries added) = firstn (fst st) numbers /\
    (forall k, (k < length added)%nat ->
       Hssp.seqNr (nth k added junk) = Z.of_nat (length res0 + k) + 1) /\
    match added with [] => True | r :: _ => is_break r = false end.

Lemma length_is : Hssp.length s = Hssp.m_end s.
Proof. unfold Hssp.length. rewrite Hbegin, Z.sub_0_r. apply Z.mod_small. exact Hend. Qed.

Lemma row_long : (n <= length row)%nat.
Proof. destruct Hwithin as (_ & ? & ? & _). unfold n, row. lia. Qed.

Lemma chain_column_laid (i : nat) (st : nat * list Hssp.ResidueHInfo) :
  (i < n)%nat ->
  (length (row_residues kResidueIX (firstn (S i) row)) <= length numbers)%nat ->
  laid i st ->
  exists st', Hssp.chain_column kResidueIX junk s chain numbers st i = Ok st' /\
              laid (S i) st'.
Proof.
  intros Hi Hnumbers (added & Hres & Hri & Hletters & Hnrs & HseqNr & Hhead).
  destruct st as [ri res]. cbn [fst snd] in *. subst res.
  pose proof row_long as Hrow.
  destruct Hwithin as (_ & Hes & Hsz & _).
  unfold Hssp.chain_column. rewrite at_ok by (unfold n in Hi; lia). cbn [bind].
  fold row.
  pose proof (filter_firstn_snoc (fun c => negb (Hssp.is_gap kResidueIX c))
                "000"%char row i ltac:(lia)) as Hnext.
  fold (row_residues kResidueIX (firstn (S i) row)) in Hnext.
  fold (row_residues kResidueIX (firstn i row)) in Hnext. cbv beta in Hnext.
  destruct (Hssp.is_gap kResidueIX (nth i row "000"%char)) eqn:Hgap; cbn [negb] in Hnext.
  - rewrite app_nil_r in Hnext.
    exists (ri, res0 ++ added). split; [reflexivity |].
    exists added. cbn [fst snd]. rewrite Hnext.
    repeat (split; [first [reflexivity | assumption] |]). exact Hhead.
  - assert (Hlt : (ri < length numbers)%nat).
    { rewrite Hnext, length_app in Hnumbers. cbn [length] in Hnumbers. lia. }
    rewrite assert_true by (apply Nat.ltb_lt; exact Hlt). cbn [bind].
    eexists. split; [reflexivity |].
    set (c := nth i row "000"%char) in *.
    assert (Hc : is_break (Hssp.residue_info junk c (Z.of_nat i) chain
                   (Z.of_nat (length (res0 ++ added)) + 1) (nth ri numbers 0)) = false).
    { unfold is_break. cbn [Hssp.residue_info Hssp.letter].
      apply Ascii.eqb_neq. apply Hmarked; [exact Hi | exact Hgap]. }
    assert (Hfirstn : firstn (S ri) numbers = firstn ri numbers ++ [nth ri numbers 0])
      by (apply firstn_snoc; exact Hlt).
    destruct (negb (ri =? 0)%nat &&
              (nth (ri - 1) numbers 0 + 1 <? nth ri numbers 0))%bool eqn:Hjump.
    + (* a chain break first *)
      exists ((added ++ [Hssp.chain_break junk (Z.of_nat (length (res0 ++ added)) + 1)])
              ++ [Hssp.residue_info junk c (Z.of_nat i) chain
                    (Z.of_nat (length ((res0 ++ added) ++
                       [Hssp.chain_break junk (Z.of_nat (length (res0 ++ added)) + 1)])) + 1)
                    (nth ri numbers 0)]).
      cbn [fst snd]. split; [rewrite !app_assoc; reflexivity |].
      split; [rewrite Hnext, length_app; cbn [length]; lia |].
      rewrite !entries_app, entries_break, app_nil_r.
      rewrite entries_residue by (apply Hmarked; [exact Hi | exact Hgap]).
      rewrite !map_app. cbn [map Hssp.letter Hssp.pdbNr Hssp.residue_info].
      split; [rewrite Hletters, Hnext; reflexivity |].
      split; [rewrite Hnrs, Hfirstn; reflexivity |].
      split.
      * intros k Hk. rewrite !length_app in Hk. cbn [length] in Hk.
        destruct (Nat.lt_ge_cases k (length added)) as [Hk1 | Hk1].
        -- rewrite <- app_assoc, app_nth1 by exact Hk1. apply HseqNr. exact Hk1.
        -- rewrite <- app_assoc, app_nth2 by exact Hk1.
           destruct (k - length added)%nat as [| [| m]] eqn:Hm; [| | lia].
           ++ cbn [app nth Hssp.chain_break Hssp.seqNr]. rewrite length_app. lia.
           ++ cbn [app nth Hssp.residue_info Hssp.seqNr].
              rewrite !length_app. cbn [length]. lia.
      * destruct added as [| r added'].
        -- exfalso. cbn in Hletters.
           apply andb_true_iff in Hjump. destruct Hjump as [Hnz _].
           apply negb_true_iff, Nat.eqb_neq in Hnz.
           apply (f_equal (@length ascii)) in Hletters. cbn in Hletters. lia.
        -- exact Hhead.
    + exists (added ++ [Hssp.residue_info junk c (Z.of_nat i) chain
                          (Z.of_nat (length (res0 ++ added)) + 1) (nth ri numbers 0)]).
      cbn [fst snd]. split; [rewrite !app_assoc; reflexivity |].
      split; [rewrite Hnext, length_app; cbn [length]; lia |].
      rewrite !entries_app.
      rewrite entries_residue by (apply Hmarked; [exact Hi | exact Hgap]).
      rewrite !map_app. cbn [map Hssp.letter Hssp.pdbNr Hssp.residue_info].
      split; [rewrite Hletters, Hnext; reflexivity |].
      split; [rewrite Hnrs, Hfirstn; reflexivity |].
      split.
      * intros k Hk. rewrite !length_app in Hk. cbn [length] in Hk.
        destruct (Nat.lt_ge_cases k (length added)) as [Hk1 | Hk1].
        -- rewrite app_nth1 by exact Hk1. apply HseqNr. exact Hk1.
        -- rewrite app_nth2 by exact Hk1.
           replace (k - length added)%nat with 0%nat by lia.
           cbn [nth Hssp.residue_info Hssp.seqNr]. rewrite length_app. lia.
      * destruct added as [| r added']; [exact Hc | exact Hhead].
Qed.

Lemma chain_columns_laid (m : nat) :
  (m <= n)%nat ->
  (length (row_residues kResidueIX (firstn m row)) <= length numbers)%nat ->
  exists st,
    foreach (Hssp.chain_column kResidueIX junk s chain numbers) (seq 0 m) (0%nat, res0)
      = Ok st /\ laid m st.
Proof.
  intros Hm Hnumbers.
  destruct (foreach_columns (Hssp.chain_column kResidueIX junk s chain numbers)
              laid m 0 (0%nat, res0)) as (st & Hrun & Hlaid).
  - intros st i Hi. apply chain_column_laid; [lia |].
    etransitivity; [| exact Hnumbers].
    apply (filter_firstn_le (fun c => negb (Hssp.is_gap kResidueIX c))). lia.
  - exists []. cbn [fst snd firstn]. rewrite app_nil_r.
    repeat split. intros k Hk. cbn in Hk. lia.
  - exists st. split; [exact Hrun | exact Hlaid].
Qed.

Lemma chain_residues_laid :
  (length (row_residues kResidueIX (firstn n row)) <= length numbers)%nat ->
  exists added,
    Hssp.chain_residues kResidueIX junk s chain numbers res0 = Ok (res0 ++ added) /\
    laid n (length (row_residues kResidueIX (firstn n row)), res0 ++ added).
Proof.
  intros Hnumbers. unfold Hssp.chain_residues. rewrite length_is. fold n.
  destruct (chain_columns_laid n (le_n n) Hnumbers) as ([ri res] & -> & Hlaid).
  cbn [bind snd].
  destruct Hlaid as (added & Hres & Hri & Hrest). cbn [fst snd] in *. subst res.
  exists added. split; [reflexivity |].
  exists added. cbn [fst snd]. rewrite <- Hri.
  split; [reflexivity |]. split; [reflexivity |]. exact Hrest.
Qed.

Lemma foreach_app {A B : Type} (f : A -> B -> result A) (l1 l2 : list B) :
  forall a, foreach f (l1 ++ l2) a = (a' <- foreach f l1 a ;; foreach f l2 a').
Proof.
  induction l1 as [| b l1 IH]; intros a; [reflexivity |].
  cbn [app foreach]. destruct (f a b); cbn [bind]; [apply IH | reflexivity ..].
Qed.

Lemma chain_columns_too_few (m : nat) :
  (m <= n)%nat ->
  (length numbers < length (row_residues kResidueIX (firstn m row)))%nat ->
  foreach (Hssp.chain_column kResidueIX junk s chain numbers) (seq 0 m) (0%nat, res0)
    = AssertionFailure.
Proof.
  induction m as [| m IH]; intros Hm Hfew; [cbn in Hfew; lia |].
  rewrite seq_S, foreach_app. cbn [Nat.add].
  destruct (Nat.lt_ge_cases (length numbers)
              (length (row_residues kResidueIX (firstn m row)))) as [Hlt | Hge].
  - rewrite IH by (try lia; exact Hlt). reflexivity.
  - destruct (chain_columns_laid m ltac:(lia) Hge) as ([ri res] & -> & Hlaid).
    cbn [bind foreach].
    destruct Hlaid as (added & _ & Hri & _). cbn [fst] in Hri.
    pose proof row_long as Hrow.
    destruct Hwithin as (_ & Hes & Hsz & _).
    unfold Hssp.chain_column. rewrite at_ok by (unfold n in Hm; lia). cbn [bind].
    fold row.
    pose proof (filter_firstn_snoc (fun c => negb (Hssp.is_gap kResidueIX c))
                  "000"%char row m ltac:(lia)) as Hnext.
    fold (row_residues kResidueIX (firstn (S m) row)) in Hnext.
    fold (row_residues kResidueIX (firstn m row)) in Hnext. cbv beta in Hnext.
    rewrite Hnext, length_app in Hfew.
    destruct (Hssp.is_gap kResidueIX (nth m row "000"%char)); cbn [negb length] in Hfew;
      [lia |].
    destruct (Nat.ltb_spec ri (length numbers)); [lia |]. reflexivity.
Qed.

(** *** The last loop of the driver *)

Definition same_but_weight (r r' : Hssp.ResidueHInfo) : Prop :=
  r' = Hssp.set_consweight (Hssp.consweight r') r.

Lemma same_but_weight_refl (r : Hssp.ResidueHInfo) : same_but_weight r r.
Proof. destruct r. reflexivity. Qed.

Lemma same_but_weight_set (w : Q) (r r' : Hssp.ResidueHInfo) :
  same_but_weight r r' -> same_but_weight r (Hssp.set_consweight w r').
Proof. unfold same_but_weight. intros ->. destruct r. reflexivity. Qed.

Lemma same_but_weight_break (a b : list Hssp.ResidueHInfo) :
  Forall2 same_but_weight a b ->
  forall k, is_break (nth k b junk) = is_break (nth k a junk).
Proof.
  induction 1 as [| r r' a b Hr Hab IH]; intros k; [reflexivity |].
  destruct k as [| k]; cbn [nth]; [| apply IH].
  rewrite Hr. destruct r. reflexivity.
Qed.

Lemma Forall2_set_nth (a b : list Hssp.ResidueHInfo) (w : Q) :
  Forall2 same_but_weight a b ->
  forall k r, nth_error b k = Some r ->
    Forall2 same_but_weight a (set_nth k (Hssp.set_consweight w r) b).
Proof.
  induction 1 as [| x y a b Hxy Hab IH]; intros k r Hk.
  - destruct k; discriminate.
  - destruct k as [| k]; cbn [set_nth].
    + cbn in Hk. injection Hk as <-.
      constructor; [apply same_but_weight_set; exact Hxy | exact Hab].
    + constructor; [exact Hxy | apply IH; exact Hk].
Qed.

Lemma skip_breaks_spec (res : list Hssp.ResidueHInfo) :
  forall fuel ri,
    (length res - ri <= fuel)%nat -> (ri <= length res)%nat ->
    let j := Hssp.skip_breaks fuel res ri in
    (ri <= j <= length res)%nat /\
    (forall k, (ri <= k < j)%nat -> is_break (nth k res junk) = true) /\
    ((j < length res)%nat -> is_break (nth j res junk) = false).
Proof.
  induction fuel as [| fuel IH]; intros ri Hfuel Hri; cbv zeta.
  - cbn [Hssp.skip_breaks]. split; [lia |]. split; [intros k Hk; lia | intros Hj; lia].
  - cbn [Hssp.skip_breaks].
    destruct (nth_error res ri) as [r |] eqn:Hr.
    + assert (Hlt : (ri < length res)%nat)
        by (apply nth_error_Some; congruence).
      pose proof (nth_error_nth _ _ junk Hr) as Hnth.
      destruct (Ascii.eqb (Hssp.letter r) "000"%char) eqn:Hb.
      * destruct (IH (S ri) ltac:(lia) ltac:(lia)) as (Hj & Hbreaks & Hstop).
        split; [lia |]. split; [| exact Hstop].
        intros k Hk. destruct (Nat.eq_dec k ri) as [-> | Hne].
        -- rewrite Hnth. exact Hb.
        -- apply Hbreaks. lia.
      * split; [lia |]. split; [intros k Hk; lia |].
        intros _. rewrite Hnth. exact Hb.
    + apply nth_error_None in Hr.
      split; [lia |]. split; [intros k Hk; lia | intros Hj; lia].
Qed.

Lemma entries_firstn_breaks (res : list Hssp.ResidueHInfo) (a : nat) :
  forall j, (a <= j <= length res)%nat ->
    (forall k, (a <= k < j)%nat -> is_break (nth k res junk) = true) ->
    entries (firstn j res) = entries (firstn a res).
Proof.
  induction j as [| j IH]; intros Hj Hbreaks.
  - replace a with 0%nat by lia. reflexivity.
  - destruct (Nat.eq_dec a (S j)) as [-> | Hne]; [reflexivity |].
    unfold entries in *.
    rewrite (filter_firstn_snoc _ junk) by lia.
    rewrite (Hbreaks j) by lia. cbn [negb]. rewrite app_nil_r.
    apply IH; [lia |]. intros k Hk. apply Hbreaks. lia.
Qed.

Variable added : list Hssp.ResidueHInfo.
Variables sv sd : list Q.

Hypothesis Hletters :
  length (entries added) = length (row_residues kResidueIX (firstn n row)).
Hypothesis Hhead : match added with [] => True | r :: _ => is_break r = false end.

(** What the last loop of the driver has done before column [i]. *)
Definition weighted (i : nat) (st : list Hssp.ResidueHInfo * nat) : Prop :=
  Forall2 same_but_weight added (fst st) /\
  (snd st <= length added)%nat /\
  length (entries (firstn (snd st) added)) =
    length (row_residues kResidueIX (firstn i row)) /\
  ((snd st < length added)%nat -> is_break (nth (snd st) added junk) = false).

Lemma assign_weight_weighted (i : nat) (st : list Hssp.ResidueHInfo * nat) :
  (i < n)%nat -> weighted i st ->
  exists st', Hssp.assign_weight kResidueIX s sv sd st i = Ok st' /\
              weighted (S i) st'.
Proof.
  intros Hi (Hsame & Hri & Hcount & Hstop). destruct st as [res ri].
  cbn [fst snd] in *.
  pose proof row_long as Hrow.
  destruct Hwithin as (_ & Hes & Hsz & _).
  unfold Hssp.assign_weight. rewrite at_ok by (unfold n in Hi; lia). cbn [bind].
  fold row.
  pose proof (filter_firstn_snoc (fun c => negb (Hssp.is_gap kResidueIX c))
                "000"%char row i ltac:(lia)) as Hnext.
  fold (row_residues kResidueIX (firstn (S i) row)) in Hnext.
  fold (row_residues kResidueIX (firstn i row)) in Hnext. cbv beta in Hnext.
  destruct (Hssp.is_gap kResidueIX (nth i row "000"%char)) eqn:Hgap; cbn [negb] in Hnext.
  - rewrite app_nil_r in Hnext. eexists. split; [reflexivity |].
    split; [exact Hsame |]. cbn [fst snd]. rewrite Hnext.
    split; [exact Hri |]. split; [exact Hcount | exact Hstop].
  - pose proof (Forall2_length Hsame) as Hlen.
    assert (Hlt : (ri < length added)%nat).
    { destruct (Nat.lt_ge_cases ri (length added)) as [H | H]; [exact H |].
      exfalso. rewrite firstn_all2 in Hcount by lia.
      pose proof (filter_firstn_le (fun c => negb (Hssp.is_gap kResidueIX c)) row
                    (S i) n ltac:(lia)) as Hle.
      fold (row_residues kResidueIX (firstn (S i) row)) in Hle.
      fold (row_residues kResidueIX (firstn n row)) in Hle.
      rewrite Hnext, length_app in Hle. cbn [length] in Hle. lia. }
    destruct (nth_error res ri) as [r |] eqn:Hr;
      [| apply nth_error_None in Hr; lia].
    eexists. split; [reflexivity |]. cbn [fst snd].
    match goal with
    | |- context [set_nth ri ?r' res] => set (res' := set_nth ri r' res)
    end.
    assert (Hsame' : Forall2 same_but_weight added res')
      by (apply Forall2_set_nth; assumption).
    assert (Hlen' : length res' = length added)
      by (symmetry; apply (Forall2_length Hsame')).
    destruct (skip_breaks_spec res' (length res) (S ri)) as (Hj & Hbreaks & Hnext_entry);
      [lia | lia |].
    set (j := Hssp.skip_breaks (length res) res' (S ri)) in *.
    unfold weighted. cbn [fst snd].
    split; [exact Hsame' |]. split; [lia |]. split.
    + rewrite (entries_firstn_breaks added (S ri) j) by
        (try lia; intros k Hk; rewrite <- (same_but_weight_break _ _ Hsame'); apply Hbreaks; exact Hk).
      unfold entries. rewrite (filter_firstn_snoc _ junk) by exact Hlt.
      rewrite (Hstop Hlt). cbn [negb]. rewrite Hnext, !length_app.
      cbn [length]. unfold entries in Hcount. lia.
    + intros Hj'. rewrite <- (same_but_weight_break _ _ Hsame'). apply Hnext_entry. lia.
Qed.

Lemma assign_weights_all :
  exists res',
    foreach (Hssp.assign_weight kResidueIX s sv sd) (seq 0 n) (added, 0%nat)
      = Ok (res', length added) /\
    Forall2 same_but_weight added res'.
Proof.
  destruct (foreach_columns (Hssp.assign_weight kResidueIX s sv sd) weighted n 0
              (added, 0%nat)) as ([res' ri] & Hrun & Hsame & Hri & Hcount & Hstop).
  - intros st i Hi. apply assign_weight_weighted. lia.
  - split; [| split; [cbn; lia | split; [reflexivity |]]].
    + cbn [fst]. clear. induction added; constructor;
        [apply same_but_weight_refl | assumption].
    + cbn [snd]. intros H0. destruct added; [cbn in H0; lia | exact Hhead].
  - cbn [fst snd Nat.add] in *. exists res'.
    assert (ri = length added) as ->; [| split; assumption].
    destruct (Nat.lt_ge_cases ri (length added)) as [H | H]; [| lia].
    exfalso.
    pose proof (filter_firstn_le (fun r => negb (is_break r)) added (S ri)
                  (length added) ltac:(lia)) as Hle.
    rewrite (filter_firstn_snoc _ junk) in Hle by exact H.
    rewrite (Hstop H), firstn_all, length_app in Hle. cbn [negb length] in Hle.
    unfold entries in *. lia.
Qed.

End ChainResidues.

(** X17. The residue loop of [ChainToHits] over a first row whose window is
    the whole row: with at least as many residues in the chain as the
    row has, it adds an entry for every residue of the row, in order,
    with the letter of the column and the number of the residue of the
    chain, and a chain break before every residue whose number is not
    the next one; the sequence number of every entry added is its place
    in the list. With fewer residues in the chain its assertion fails. *)
Theorem chain_residues_numbered (junk : Hssp.ResidueHInfo) (s : Hssp.seq)
    (chain : ascii) (numbers : list Z) (res0 : list Hssp.ResidueHInfo) :
  let row := firstn (Z.to_nat (Hssp.m_end s)) (Hssp.m_seq s) in
  Hssp.m_begin s = 0 -> 0 <= Hssp.m_end s < 2 ^ 32 ->
  window_within (Hssp.m_end s) s ->
  residues_marked (Z.to_nat (Hssp.m_end s)) (Hssp.m_seq s) ->
  ((length (row_residues kResidueIX row) <= length numbers)%nat ->
   exists added,
     Hssp.chain_residues kResidueIX junk s chain numbers res0 = Ok (res0 ++ added) /\
     map Hssp.letter (entries added) = row_residues kResidueIX row /\
     map Hssp.pdbNr (entries added) =
       firstn (length (row_residues kResidueIX row)) numbers /\
     (forall k, (k < length added)%nat ->
        Hssp.seqNr (nth k added junk) = Z.of_nat (length res0 + k) + 1)) /\
  ((length numbers < length (row_residues kResidueIX row))%nat ->
   Hssp.chain_residues kResidueIX junk s chain numbers res0 = AssertionFailure).
Proof.
  intros row Hb He Hw Hmarked. split.
  - intros Hnumbers.
    destruct (chain_residues_laid junk s chain numbers res0 Hb He Hw Hmarked Hnumbers)
      as (added & Hrun & added' & Happ & _ & Hletters & Hnrs & HseqNr & _).
    cbn [fst snd] in *. apply app_inv_head in Happ. subst added'.
    exists added. repeat split; assumption.
  - intros Hfew. unfold Hssp.chain_residues.
    rewrite (length_is s Hb He).
    rewrite (chain_columns_too_few junk s chain numbers res0 Hw Hmarked
               (Z.to_nat (Hssp.m_end s)) (le_n _) Hfew).
    reflexivity.
Qed.

(** X18. [CalculateConservation] on the residues that [ChainToHits] added
    for the same alignment: when the window of the first row is the whole
    row and the window of every row lies within its text and within the
    columns of the first row, the workers read no cell outside a row or a
    vector, the last loop meets every residue entry once, and the final
    assertion holds. The result is the list of [ChainToHits] with new
    conservation weights and nothing else changed. *)
Theorem conservation_of_chain_residues (junk : Hssp.ResidueHInfo) (s : Hssp.seq)
    (rest : list Hssp.seq) (chain : ascii) (numbers : list Z)
    (res0 : list Hssp.ResidueHInfo) :
  let row := firstn (Z.to_nat (Hssp.m_end s)) (Hssp.m_seq s) in
  Hssp.m_begin s = 0 -> 0 <= Hssp.m_end s < 2 ^ 32 ->
  Forall (window_within (Hssp.m_end s)) (s :: rest) ->
  residues_marked (Z.to_nat (Hssp.m_end s)) (Hssp.m_seq s) ->
  (length (row_residues kResidueIX row) <= length numbers)%nat ->
  exists added weights,
    Hssp.chain_residues kResidueIX junk s chain numbers res0 = Ok (res0 ++ added) /\
    Hssp.CalculateConservation kResidueIX kD (s :: rest) added = Ok weights /\
    Forall2 same_but_weight added weights.
Proof.
  intros row Hb He Hall Hmarked Hnumbers.
  assert (Hw : window_within (Hssp.m_end s) s) by (inversion Hall; assumption).
  destruct (chain_residues_laid junk s chain numbers res0 Hb He Hw Hmarked Hnumbers)
    as (added & Hrun & added' & Happ & _ & Hletters & _ & _ & Hhead).
  cbn [fst snd] in *. apply app_inv_head in Happ. subst added'.
  destruct (conservation_worker_sized s rest Hb He Hall) as (sv & sd & Hworker).
  destruct (assign_weights_all junk s Hw added sv sd) as (weights & Hloop & Hsame).
  - rewrite <- Hletters. symmetry. apply length_map.
  - exact Hhead.
  - exists added, weights. split; [exact Hrun |]. split; [| exact Hsame].
    unfold Hssp.CalculateConservation. rewrite Hworker. cbn [bind].
    rewrite (length_is s Hb He), Hloop. cbn [bind].
    rewrite Nat.eqb_refl. reflexivity.
Qed.

End Conservation.

Lemma chain_residues_numbered_witness :
  exists added,
    Hssp.chain_residues Hssp.kResidueIX_spec example_residue
      (example_seq "A-CD" 0 4) "A" [1; 2; 4] [] = Ok ([] ++ added) /\
    map Hssp.letter (entries added) = text "ACD" /\
    map Hssp.pdbNr (entries added) = [1; 2; 4].
Proof.
  destruct (chain_residues_numbered Hssp.kResidueIX_spec example_residue
              (example_seq "A-CD" 0 4) "A" [1; 2; 4] [])
    as [Henough _].
  - reflexivity.
  - vm_compute. split; [discriminate | reflexivity].
  - unfold window_within. vm_compute. repeat split; discriminate.
  - intros [| [| [| [| i]]]] Hi _; try (vm_compute; discriminate).
    vm_compute in Hi. lia.
  - destruct Henough as (added & Hrun & Hletters & Hnumbers & _).
    + vm_compute. lia.
    + exists added. split; [exact Hrun |]. split; [exact Hletters | exact Hnumbers].
Defined.

Lemma conservation_of_chain_residues_witness :
  exists added weights,
    Hssp.chain_residues Hssp.kResidueIX_spec example_residue
      (example_seq "AAA" 0 3) "A" [1; 2; 3] [] = Ok ([] ++ added) /\
    Hssp.CalculateConservation Hssp.kResidueIX_spec example_kD example_msa added
      = Ok weights /\
    Forall2 same_but_weight added weights.
Proof.
  apply (conservation_of_chain_residues Hssp.kResidueIX_spec example_kD
           example_residue (example_seq "AAA" 0 3) [example_seq "A.C" 0 3]
           "A" [1; 2; 3] []).
  - reflexivity.
  - vm_compute. split; [discriminate | reflexivity].
  - repeat constructor; vm_compute; discriminate.
  - intros [| [| [| i]]] Hi _; try (vm_compute; discriminate).
    vm_compute in Hi. lia.
  - vm_compute. lia.
Defined.

(** ** The buffer of a row *)

(** The size of the buffer after [append] of a piece of [len] characters. *)
Definition grown (size space len : Z) : Z :=
  if size + len >? space
  then Z.max (2 * (if space =? 0 then Hssp.kBlockSize else space)) len
  else space.

Lemma append_space (piece : list ascii) (s : Hssp.seq) (space : Z) :
  let len := Z.of_nat (length piece) in
  0 <= Hssp.m_size s <= space -> space < 2 ^ 31 -> len < 2 ^ 32 ->
  Hssp.append piece s space =
    if grown (Hssp.m_size s) space len <? Hssp.m_size s + len then Undefined
    else Ok (Hssp.mkSeq (Hssp.m_id s) (Hssp.m_ifir s) (Hssp.m_ilas s) (Hssp.m_jfir s)
               (Hssp.m_jlas s) (Hssp.m_length s) (Hssp.m_identical s)
               (Hssp.m_similar s) (Hssp.m_score s) (Hssp.m_begin s)
               (Hssp.m_size s + len) (Hssp.m_gaps s) (Hssp.m_gapn s)
               (Hssp.m_insertions s)
               (firstn (Z.to_nat (Hssp.m_size s)) (Hssp.m_seq s) ++ piece)
               (Hssp.m_size s + len) (Hssp.m_pruned s),
             grown (Hssp.m_size s) space len).
Proof.
  cbv zeta. intros Hsize Hspace Hlen. unfold Hssp.append, grown, Hssp.kBlockSize.
  set (len := Z.of_nat (length piece)) in *.
  set (k := if space =? 0 then 512 else space).
  assert (Hk : 0 < k < 2 ^ 31) by (unfold k; destruct (Z.eqb_spec space 0); lia).
  rewrite (Z.mod_small (k * 2)) by lia.
  rewrite (Z.mod_small len) by lia.
  replace (if k * 2 <? len then len else k * 2) with (Z.max (2 * k) len)
    by (destruct (Z.ltb_spec (k * 2) len); lia).
  destruct (Z.gtb_spec (Hssp.m_size s + len) space) as [Hgrow | Hfit].
  - replace (Z.max (2 * k) len <? Hssp.m_size s) with false
      by (symmetry; apply Z.ltb_ge; unfold k; destruct (Z.eqb_spec space 0); lia).
    cbn [orb].
    destruct (Z.ltb_spec (Z.max (2 * k) len) (Hssp.m_size s + len)); [reflexivity |].
    rewrite Z.mod_small by lia. reflexivity.
  - replace (space <? Hssp.m_size s) with false by (symmetry; apply Z.ltb_ge; lia).
    cbn [orb].
    destruct (Z.ltb_spec space (Hssp.m_size s + len)); [lia |].
    rewrite Z.mod_small by lia. reflexivity.
Qed.

(** X19. [append] on a row that has its text in full and fills at most its
    buffer, with a buffer of less than 2^31 characters: the piece is copied outside the buffer
    exactly when the row is not empty, the piece does not fit, and the row
    with the piece is longer than twice the buffer. Otherwise the row is
    its old text followed by the piece, its size and the end of its window
    are the new length, and it fills at most its new buffer. *)
Theorem append_within_buffer (piece : list ascii) (s : Hssp.seq) (space : Z) :
  let len := Z.of_nat (length piece) in
  0 <= Hssp.m_size s <= space -> space < 2 ^ 31 -> len < 2 ^ 32 ->
  Hssp.m_size s <= Z.of_nat (length (Hssp.m_seq s)) ->
  (Hssp.append piece s space = Undefined <->
   0 < Hssp.m_size s /\ 2 * space < Hssp.m_size s + len) /\
  (~ (0 < Hssp.m_size s /\ 2 * space < Hssp.m_size s + len) ->
   exists s' space',
     Hssp.append piece s space = Ok (s', space') /\
     Hssp.m_seq s' = firstn (Z.to_nat (Hssp.m_size s)) (Hssp.m_seq s) ++ piece /\
     Hssp.m_size s' = Hssp.m_size s + len /\
     Hssp.m_end s' = Hssp.m_size s + len /\
     Hssp.m_size s' <= space' /\ space <= space').
Proof.
  cbv zeta. intros Hsize Hspace Hlen _.
  rewrite (append_space piece s space Hsize Hspace Hlen).
  set (len := Z.of_nat (length piece)) in *.
  assert (Hgrown :
    grown (Hssp.m_size s) space len < Hssp.m_size s + len <->
    0 < Hssp.m_size s /\ 2 * space < Hssp.m_size s + len).
  { unfold grown, Hssp.kBlockSize.
    destruct (Z.gtb_spec (Hssp.m_size s + len) space);
      destruct (Z.eqb_spec space 0); lia. }
  assert (Hkeep : space <= grown (Hssp.m_size s) space len).
  { unfold grown, Hssp.kBlockSize.
    destruct (Z.gtb_spec (Hssp.m_size s + len) space);
      destruct (Z.eqb_spec space 0); lia. }
  destruct (Z.ltb_spec (grown (Hssp.m_size s) space len) (Hssp.m_size s + len))
    as [Hover | Hin].
  - split; [split; [intros _; apply Hgrown; exact Hover | reflexivity] |].
    intros Hnot. exfalso. apply Hnot, Hgrown, Hover.
  - split; [split; [discriminate | intros H; apply Hgrown in H; lia] |].
    intros _. eexists. eexists. split; [reflexivity |].
    cbn [Hssp.m_seq Hssp.m_size Hssp.m_end].
    repeat split; try reflexivity; lia.
Qed.

(** Appending the pieces of a row one after the other. *)
Definition append_each (st : Hssp.seq * Z) (piece : list ascii)
  : result (Hssp.seq * Z) :=
  Hssp.append piece (fst st) (snd st).

(** Every piece but the first is at most as long as the text before it. *)
Fixpoint no_longer_than_before (before : nat) (pieces : list (list ascii)) : Prop :=
  match pieces with
  | [] => True
  | piece :: rest =>
      (before = 0%nat \/ length piece <= before)%nat /\
      no_longer_than_before (before + length piece) rest
  end.

Lemma append_all_from (pieces : list (list ascii)) :
  forall (s : Hssp.seq) (space : Z),
    0 <= Hssp.m_size s <= space -> space <= Z.max 1024 (2 * Hssp.m_size s) ->
    Hssp.m_size s <= Z.of_nat (length (Hssp.m_seq s)) ->
    Hssp.m_end s = Hssp.m_size s ->
    Hssp.m_size s + Z.of_nat (length (concat pieces)) < 2 ^ 30 ->
    no_longer_than_before (Z.to_nat (Hssp.m_size s)) pieces ->
    exists s' space',
      foreach append_each pieces (s, space) = Ok (s', space') /\
      firstn (Z.to_nat (Hssp.m_size s')) (Hssp.m_seq s') =
        firstn (Z.to_nat (Hssp.m_size s)) (Hssp.m_seq s) ++ concat pieces /\
      Hssp.m_size s' = Hssp.m_size s + Z.of_nat (length (concat pieces)) /\
      Hssp.m_end s' = Hssp.m_size s' /\
      Hssp.m_begin s' = Hssp.m_begin s /\
      Hssp.m_size s' <= space'.
Proof.
  induction pieces as [| piece pieces IH];
    intros s space Hsize Hspace Htext Hend Htotal Hshort.
  - exists s, space. split; [reflexivity |]. cbn [concat length].
    rewrite app_nil_r, Z.add_0_r.
    repeat (split; [first [reflexivity | assumption] |]). lia.
  - cbn [concat] in *. rewrite length_app, Nat2Z.inj_add in Htotal.
    destruct Hshort as [Hfirst Hshort].
    cbn [foreach]. unfold append_each at 1. cbn [fst snd].
    rewrite append_space by lia.
    assert (Hgrown : Hssp.m_size s + Z.of_nat (length piece) <=
                     grown (Hssp.m_size s) space (Z.of_nat (length piece)) <=
                     Z.max 1024 (2 * (Hssp.m_size s + Z.of_nat (length piece)))).
    { unfold grown, Hssp.kBlockSize.
      destruct (Z.gtb_spec (Hssp.m_size s + Z.of_nat (length piece)) space);
        destruct (Z.eqb_spec space 0); lia. }
    destruct (Z.ltb_spec (grown (Hssp.m_size s) space (Z.of_nat (length piece)))
                (Hssp.m_size s + Z.of_nat (length piece))); [lia |].
    cbn [bind].
    match goal with
    | |- context [foreach append_each pieces (?s1, ?space1)] =>
        destruct (IH s1 space1) as (s' & space' & Hrun & Hseq & Hsz & He & Hb & Hfill)
    end; cbn [Hssp.m_size Hssp.m_seq Hssp.m_end Hssp.m_begin] in *.
    + lia.
    + lia.
    + rewrite length_app, length_firstn. lia.
    + reflexivity.
    + lia.
    + replace (Z.to_nat (Hssp.m_size s + Z.of_nat (length piece)))
        with (Z.to_nat (Hssp.m_size s) + length piece)%nat by lia.
      exact Hshort.
    + exists s', space'. split; [exact Hrun |].
      rewrite Hseq, Hsz, length_app, Nat2Z.inj_add.
      split.
      * rewrite firstn_all2 by (rewrite length_app, length_firstn; lia).
        rewrite <- app_assoc. reflexivity.
      * split; [lia |]. split; [lia |]. split; [exact Hb | lia].
Qed.

(** A row as its constructor leaves it: no text and no buffer. *)
Definition fresh_row (s : Hssp.seq) : Prop :=
  Hssp.m_size s = 0 /\ Hssp.m_begin s = 0 /\ Hssp.m_end s = 0.

(** X20. The pieces of a row appended to a fresh row one after the other,
    when every piece but the first is at most as long as the text before
    it (as the blocks of an alignment file are, all of one width but for a
    shorter last one) and the whole row has less than 2^30 characters:
    no piece is copied outside the buffer, the row is the pieces put
    together, and its window is the whole row. *)
Theorem append_pieces (pieces : list (list ascii)) (s : Hssp.seq) :
  fresh_row s ->
  Z.of_nat (length (concat pieces)) < 2 ^ 30 ->
  no_longer_than_before 0 pieces ->
  exists s' space',
    foreach append_each pieces (s, 0) = Ok (s', space') /\
    firstn (Z.to_nat (Hssp.m_size s')) (Hssp.m_seq s') = concat pieces /\
    Hssp.m_size s' = Z.of_nat (length (concat pieces)) /\
    Hssp.m_begin s' = 0 /\ Hssp.m_end s' = Hssp.m_size s' /\
    Hssp.m_size s' <= space'.
Proof.
  intros (Hsize & Hbegin & Hend) Htotal Hshort.
  destruct (append_all_from pieces s 0)
    as (s' & space' & Hrun & Hseq & Hsz & He & Hb & Hfill);
    try lia.
  - rewrite Hsize. exact Hshort.
  - exists s', space'. rewrite Hsize in *. cbn [Z.to_nat firstn app] in Hseq.
    repeat (split; [first [assumption | lia] |]). exact Hfill.
Qed.

(** A row of a thousand residues in a buffer of 1024 characters, as
    [append] leaves it on a fresh row. *)
Definition example_long_row : Hssp.seq :=
  Hssp.mkSeq "" 0 0 0 0 0 0 0 (Finite 0) 0 1000 0 0 [] (repeat "A"%char 1000)
    1000 false.

Lemma append_within_buffer_witness :
  Hssp.append (repeat "A"%char 1000) (example_seq "" 0 0) 0
    = Ok (example_long_row, 1024) /\
  Hssp.append (repeat "C"%char 1100) example_long_row 1024 = Undefined.
Proof.
  split; [vm_compute; reflexivity |].
  pose proof (append_within_buffer (repeat "C"%char 1100) example_long_row 1024) as H.
  cbv zeta in H. rewrite repeat_length in H.
  destruct H as [[_ Hover] _].
  - cbn. lia.
  - lia.
  - lia.
  - cbn [Hssp.m_size Hssp.m_seq example_long_row]. rewrite repeat_length. lia.
  - apply Hover. cbn. lia.
Defined.

Lemma append_pieces_witness :
  exists s' space',
    foreach append_each [text "AB"; text "CD"; text "E"] (example_seq "" 0 0, 0)
      = Ok (s', space') /\
    firstn (Z.to_nat (Hssp.m_size s')) (Hssp.m_seq s') = text "ABCDE" /\
    Hssp.m_size s' = 5.
Proof.
  destruct (append_pieces [text "AB"; text "CD"; text "E"] (example_seq "" 0 0))
    as (s' & space' & Hrun & Hrow & Hsize & _).
  - repeat split.
  - vm_compute. reflexivity.
  - cbn. repeat split; lia.
  - exists s', space'. split; [exact Hrun |]. split; [exact Hrow | exact Hsize].
Defined.
